(** * DICOM viewer: window/level engine of [CImageConverter] and [CDicomImage]

    Shallow embedding of
    - [include/DicomViewer/Types.h],
    - [src/core/CDicomImage.{h,cpp}],
    - [src/utils/CImageConverter.{h,cpp}],
    - the window/level handlers of [src/ui/CImageViewer.cpp],
    followed by the properties of the window/level lookup table, of the
    snapshot conversion and of the window/level mutators.

    Conventions.
    - [double] is IEEE-754 binary64, taken from the kernel's own executable
      specification [SpecFloat] ([prec = 53], [emax = 1024]).
    - [int], [uint8_t], [uint16_t], [uint32_t] and [size_t] values are [Z];
      [size_t] products carry their reduction modulo [2^64].
    - A C++ computation whose behaviour the language leaves undefined
      (out-of-range conversion of a [double] to [uint8_t], division by zero,
      signed overflow, a read outside a buffer) is [None]; a defined
      computation is [Some] of its result. *)

From Stdlib Require Import ZArith Bool Lia.
From Stdlib Require Import Floats.SpecFloat.
From stdpp Require Import base option list list_numbers strings gmap.

Local Open Scope Z_scope.

(** ** IEEE-754 binary64 *)

Module Double.

Definition prec : Z := 53.
Definition emax : Z := 1024.

Definition double : Type := spec_float.

(** [static_cast<double>(z)] for an integer [z], and integer literals
    written as doubles ([2.0], [255.0], ...). *)
Definition of_int (z : Z) : double := binary_normalize prec emax z 0 false.

Definition add : double -> double -> double := SFadd prec emax.
Definition sub : double -> double -> double := SFsub prec emax.
Definition mul : double -> double -> double := SFmul prec emax.

Definition is_zero (x : double) : bool :=
  match x with S754_zero _ => true | _ => false end.

(** [x / y]; a zero divisor is reported as undefined, as the C++ standard
    has it for every arithmetic type. *)
Definition div (x y : double) : option double :=
  if is_zero y then None else Some (SFdiv prec emax x y).

(** [x < y], [x <= y], [x >= y]: false as soon as one side is a NaN. *)
Definition ltb : double -> double -> bool := SFltb.
Definition leb : double -> double -> bool := SFleb.
Definition geb (x y : double) : bool := SFleb y x.

(** Integer part, rounding toward zero; infinities and NaN have none. *)
Definition trunc (x : double) : option Z :=
  match x with
  | S754_zero _ => Some 0
  | S754_finite s m e => Some (cond_Zopp s (Z.shiftl (Z.pos m) e))
  | S754_infinity _ | S754_nan => None
  end.

(** [static_cast<uint8_t>(x)]: the truncated value when it fits in
    [0..255], undefined otherwise. *)
Definition to_uint8 (x : double) : option Z :=
  z ← trunc x; if decide (0 <= z <= 255) then Some z else None.

(** [std::max(a, b)], which is [(a < b) ? b : a]. *)
Definition max (a b : double) : double := if ltb a b then b else a.

(** Well-formed binary64 datum: canonical mantissa and bounded exponent. *)
Definition valid (x : double) : bool := valid_binary prec emax x.

End Double.

Abbreviation double := Double.double.

(** ** [include/DicomViewer/Types.h] *)

Inductive EPhotometricInterpretation :=
| Monochrome1 | Monochrome2 | Rgb | PaletteColor | Unknown.

Inductive EPaletteType :=
| Grayscale | Inverted | Hot | Cool | Rainbow | Bone | Copper | Ocean.

#[global] Instance EPhotometricInterpretation_eq_dec :
  EqDecision EPhotometricInterpretation.
Proof. solve_decision. Defined.

#[global] Instance EPaletteType_eq_dec : EqDecision EPaletteType.
Proof. solve_decision. Defined.

Record SWindowLevel := mkWindowLevel {
  center : double;
  width : double
}.

Record SImageDimensions := mkDimensions {
  dim_width : Z;          (* uint32_t *)
  dim_height : Z;         (* uint32_t *)
  bitsAllocated : Z;      (* uint16_t *)
  bitsStored : Z;         (* uint16_t *)
  highBit : Z;            (* uint16_t *)
  samplesPerPixel : Z;    (* uint16_t *)
  isSigned : bool
}.

Definition kMinWindowWidth : Z := 1.

(** Value-initialised structs, [SWindowLevel{}] and [SImageDimensions{}]. *)
Definition SWindowLevel_default : SWindowLevel :=
  mkWindowLevel (Double.of_int 0) (Double.of_int 1).

Definition SImageDimensions_default : SImageDimensions :=
  mkDimensions 0 0 0 0 0 1 false.

(** ** Machine integers *)

Definition INT_MAX : Z := 2147483647.
Definition UINT32_MAX : Z := 4294967295.

(** Reduction of a [size_t] result (64-bit target). *)
Definition size_t (z : Z) : Z := z `mod` 2 ^ 64.

(** [static_cast<int>(u)] for a [uint32_t]. *)
Definition int_of_uint32 (u : Z) : Z :=
  if decide (u <= INT_MAX) then u else u - 2 ^ 32.

(** Conversion of an [int] result to [uint8_t]. *)
Definition uint8_t (z : Z) : Z := z `mod` 256.

(** ** [src/core/CDicomImage] *)

(** [CDicomMetadata] stores its tags in a string-keyed map. *)
Definition CDicomMetadata : Type := gmap string string.

Record CDicomImage := mkDicomImage {
  m_pixelData : list Z;                              (* std::vector<uint8_t> *)
  m_dimensions : SImageDimensions;
  m_photometricInterpretation : EPhotometricInterpretation;
  m_windowLevel : SWindowLevel;
  m_defaultWindowLevel : SWindowLevel;
  m_rescaleSlope : double;
  m_rescaleIntercept : double;
  m_bitsPerSample : Z;                               (* uint8_t *)
  m_pixelSigned : bool;
  m_metadata : option CDicomMetadata                 (* std::unique_ptr *)
}.

Definition pixelData (img : CDicomImage) : list Z := m_pixelData img.

Definition hasPixelData (img : CDicomImage) : bool :=
  negb (bool_decide (m_pixelData img = [])).

Definition dimensions (img : CDicomImage) : SImageDimensions := m_dimensions img.

Definition photometricInterpretation (img : CDicomImage)
  : EPhotometricInterpretation := m_photometricInterpretation img.

Definition setWindowLevel (img : CDicomImage) (wl : SWindowLevel) : CDicomImage :=
  mkDicomImage (m_pixelData img) (m_dimensions img)
    (m_photometricInterpretation img)
    wl
    (m_defaultWindowLevel img)
    (m_rescaleSlope img) (m_rescaleIntercept img)
    (m_bitsPerSample img) (m_pixelSigned img) (m_metadata img).

Definition windowLevel (img : CDicomImage) : SWindowLevel := m_windowLevel img.

Definition defaultWindowLevel (img : CDicomImage) : SWindowLevel :=
  m_defaultWindowLevel img.

Definition resetWindowLevel (img : CDicomImage) : CDicomImage :=
  mkDicomImage (m_pixelData img) (m_dimensions img)
    (m_photometricInterpretation img)
    (m_defaultWindowLevel img)
    (m_defaultWindowLevel img)
    (m_rescaleSlope img) (m_rescaleIntercept img)
    (m_bitsPerSample img) (m_pixelSigned img) (m_metadata img).

Definition setDefaultWindowLevel (img : CDicomImage) (wl : SWindowLevel)
  : CDicomImage :=
  mkDicomImage (m_pixelData img) (m_dimensions img)
    (m_photometricInterpretation img)
    wl
    wl
    (m_rescaleSlope img) (m_rescaleIntercept img)
    (m_bitsPerSample img) (m_pixelSigned img) (m_metadata img).

Definition rescaleSlope (img : CDicomImage) : double := m_rescaleSlope img.

Definition rescaleIntercept (img : CDicomImage) : double := m_rescaleIntercept img.

Definition metadata (img : CDicomImage) : option CDicomMetadata := m_metadata img.

Definition bitsPerSample (img : CDicomImage) : Z := m_bitsPerSample img.

Definition isPixelSigned (img : CDicomImage) : bool := m_pixelSigned img.

Definition isValid (img : CDicomImage) : bool :=
  hasPixelData img
  && bool_decide (dim_width (m_dimensions img) > 0)
  && bool_decide (dim_height (m_dimensions img) > 0)
  && negb (bool_decide (m_photometricInterpretation img = Unknown)).

(** ** [src/utils/CColorPalette]: the 256-entry RGB table and its lookup *)

Record CColorPalette := mkPalette {
  m_type : EPaletteType;
  m_lut : list (Z * Z * Z)          (* std::array<std::array<uint8_t,3>,256> *)
}.

Definition mapRgb (p : CColorPalette) (grayValue : Z) : Z * Z * Z :=
  default (0, 0, 0) (m_lut p !! Z.to_nat grayValue).

(** ** [QImage]

    A [QImage] is either null or a [w] x [h] pixel buffer in one of the two
    formats the converter produces.  The buffer is kept as its scan lines,
    each holding the bytes the converter writes into it (the alignment
    padding Qt appends to a scan line is never written and is left out).
    The Qt constructor [QImage(w, h, format)] gives the null image when
    [w] or [h] is not positive, and is otherwise taken to deliver the
    buffer it is asked for. *)

Inductive QImageFormat := Format_Grayscale8 | Format_RGB888.

Inductive QImage :=
| QNull
| QPixels (w h : Z) (format : QImageFormat) (scanLines : list (list Z)).

Definition isNull (q : QImage) : bool :=
  match q with QNull => true | QPixels _ _ _ _ => false end.

(** The image [QImage result(width, height, format)] after the loops of
    the converter have stored [scanLines] through [result.scanLine(y)].
    On the null image [scanLine] returns the null pointer; [written]
    tells whether a loop then stores through it, which is undefined. *)
Definition filled (width height : Z) (format : QImageFormat) (written : bool)
    (scanLines : list (list Z)) : option QImage :=
  if bool_decide (width <= 0 \/ height <= 0) then
    if written then None else Some QNull
  else Some (QPixels width height format scanLines).

(** The successive values [0, 1, ..., n-1] of the counter of a loop
    [for (i = 0; i < n; ++i)]. *)
Fixpoint count_from (steps : nat) (i : Z) : list Z :=
  match steps with
  | O => []
  | S steps => i :: count_from steps (i + 1)
  end.

Definition upto (n : Z) : list Z := count_from (Z.to_nat n) 0.

(** Whether a computation is defined. *)
Definition definedb {A} (o : option A) : bool :=
  match o with Some _ => true | None => false end.

(** ** Buffer accesses *)

(** [data[i]] on a byte or table buffer. *)
Definition load {A} (data : list A) (i : Z) : option A :=
  if decide (0 <= i) then data !! Z.to_nat i else None.

(** [reinterpret_cast<const uint16_t *>(data)[index]] on a little-endian
    host. *)
Definition load_uint16 (data : list Z) (index : Z) : option Z :=
  b0 ← load data (2 * index);
  b1 ← load data (2 * index + 1);
  Some (b0 + 256 * b1).

(** [reinterpret_cast<const int16_t *>(data)[index]]. *)
Definition load_int16 (data : list Z) (index : Z) : option Z :=
  u ← load_uint16 data index;
  Some (if decide (u < 32768) then u else u - 65536).

(** [std::memcpy(dst, data + off, n)]: the [n] bytes copied. *)
Definition memcpy (data : list Z) (off n : Z) : option (list Z) :=
  if decide (0 <= off /\ 0 <= n /\ off + n <= Z.of_nat (length data))
  then Some (take (Z.to_nat n) (drop (Z.to_nat off) data))
  else None.

(** ** [src/utils/CImageConverter] *)

Record CImageConverter := mkConverter {
  m_palette : CColorPalette
}.

Definition setPalette (conv : CImageConverter) (p : CColorPalette)
  : CImageConverter := mkConverter p.

Definition paletteType (conv : CImageConverter) : EPaletteType :=
  m_type (m_palette conv).

(** Body of the loop of [buildWindowLevelLut] for the raw value
    [minValue + i]. *)
Definition lutEntry (lowerBound upperBound scale : double)
    (invertForMonochrome1 : bool) (raw : Z) : option Z :=
  let rawValue := Double.of_int raw in
  value ←
    (if Double.leb rawValue lowerBound then Some 0
     else if Double.geb rawValue upperBound then Some 255
     else Double.to_uint8 (Double.mul (Double.sub rawValue lowerBound) scale));
  Some (if invertForMonochrome1 then uint8_t (255 - value) else value).

Definition buildWindowLevelLut (wl : SWindowLevel) (minValue maxValue : Z)
    (invertForMonochrome1 : bool) : option (list Z) :=
  let '(minValue, maxValue) :=
    if decide (maxValue < minValue) then (maxValue, minValue)
    else (minValue, maxValue) in
  let range := maxValue - minValue + 1 in
  if decide (INT_MAX < range) then None
  else if Double.leb (width wl) (Double.of_int 0) then
    Some (replicate (Z.to_nat range) 0)
  else
    half ← Double.div (width wl) (Double.of_int 2);
    let lowerBound := Double.sub (center wl) half in
    let upperBound := Double.add (center wl) half in
    scale ← Double.div (Double.of_int 255) (width wl);
    mapM (λ i, lutEntry lowerBound upperBound scale invertForMonochrome1
                 (minValue + i))
         (upto range).

(** The sample domain [convertMonochrome] selects for an image. *)
Definition sampleDomain (is16bit isSigned : bool) : Z * Z :=
  if is16bit then
    if isSigned then (-32768, 32767) else (0, 65535)
  else (0, 255).

(** Inner-loop bodies of [convertMonochrome]: the windowed value of pixel
    [index], for sixteen-bit samples
    ([lut[static_cast<size_t>(pixelValue + lutOffset)]]) and for eight-bit
    samples ([lut[src[index]]]). *)
Definition windowed16 (lut : list Z) (isSigned : bool) (data : list Z)
    (lutOffset index : Z) : option Z :=
  pixelValue ←
    (if isSigned then load_int16 data index else load_uint16 data index);
  load lut (pixelValue + lutOffset).

Definition windowed8 (lut : list Z) (data : list Z) (index : Z) : option Z :=
  sample ← load data index;
  load lut sample.

(** The two nested loops over [y] and [x], writing one byte per pixel
    ([Format_Grayscale8]) or the three bytes of its palette colour
    ([Format_RGB888]). *)
Definition grayScanLines (pixel : Z -> option Z) (w h : Z)
  : option (list (list Z)) :=
  mapM (λ y,
          let rowOffset := size_t (y * w) in
          mapM (λ x, pixel (size_t (rowOffset + x))) (upto w))
       (upto h).

Definition rgbScanLines (rgbLut : list (Z * Z * Z)) (pixel : Z -> option Z)
    (w h : Z) : option (list (list Z)) :=
  mapM (λ y,
          let rowOffset := size_t (y * w) in
          triples ←
            mapM (λ x,
                    value ← pixel (size_t (rowOffset + x));
                    '(r, g, b) ← load rgbLut value;
                    Some [r; g; b])
                 (upto w);
          Some (concat triples))
       (upto h).

Definition convertMonochrome (conv : CImageConverter) (image : CDicomImage)
    (wl : SWindowLevel) : option QImage :=
  let dims := dimensions image in
  let data := pixelData image in
  if bool_decide (data = []) then Some QNull
  else
    let pixelCount := size_t (dim_width dims * dim_height dims) in
    let is16bit := bool_decide (bitsPerSample image = 16) in
    let bytesPerPixel := if is16bit then 2 else 1 in
    let expectedSize := size_t (pixelCount * bytesPerPixel) in
    if bool_decide (Z.of_nat (length data) < expectedSize) then Some QNull
    else
      let useColorPalette :=
        negb (bool_decide (m_type (m_palette conv) = Grayscale)) in
      let isMonochrome1 :=
        bool_decide (photometricInterpretation image = Monochrome1) in
      let isSigned := isPixelSigned image in
      let '(minValue, maxValue) := sampleDomain is16bit isSigned in
      lut ← buildWindowLevelLut wl minValue maxValue isMonochrome1;
      let lutOffset := - minValue in
      let pixel :=
        if is16bit then windowed16 lut isSigned data lutOffset
        else windowed8 lut data in
      (* a pixel is stored when both loops run *)
      let written :=
        bool_decide (0 < dim_height dims /\ 0 < dim_width dims) in
      if negb useColorPalette then
        scanLines ← grayScanLines pixel (dim_width dims) (dim_height dims);
        filled (int_of_uint32 (dim_width dims)) (int_of_uint32 (dim_height dims))
          Format_Grayscale8 written scanLines
      else
        let rgbLut := (λ i, mapRgb (m_palette conv) (uint8_t i)) <$> upto 256 in
        scanLines ← rgbScanLines rgbLut pixel (dim_width dims) (dim_height dims);
        filled (int_of_uint32 (dim_width dims)) (int_of_uint32 (dim_height dims))
          Format_RGB888 written scanLines.

Definition convertRgb (image : CDicomImage) : option QImage :=
  let dims := dimensions image in
  let data := pixelData image in
  if bool_decide (data = []) then Some QNull
  else
    let expectedSize := size_t (size_t (dim_width dims * dim_height dims) * 3) in
    if bool_decide (Z.of_nat (length data) < expectedSize) then Some QNull
    else
      let rowBytes := size_t (dim_width dims * 3) in
      scanLines ←
        mapM (λ y, memcpy data (size_t (y * rowBytes)) rowBytes)
             (upto (dim_height dims));
      (* every row is handed to [memcpy] *)
      let written := bool_decide (0 < dim_height dims) in
      filled (int_of_uint32 (dim_width dims)) (int_of_uint32 (dim_height dims))
        Format_RGB888 written scanLines.

(** [toQImage(dicomImage, windowLevel)]. *)
Definition toQImage (conv : CImageConverter) (dicomImage : CDicomImage)
    (windowLevel : SWindowLevel) : option QImage :=
  if negb (isValid dicomImage) then Some QNull
  else
    match photometricInterpretation dicomImage with
    | Monochrome1 | Monochrome2 => convertMonochrome conv dicomImage windowLevel
    | Rgb => convertRgb dicomImage
    | _ => Some QNull
    end.

(** [toQImage(dicomImage)], with the image's current window/level. *)
Definition toQImage_current (conv : CImageConverter) (dicomImage : CDicomImage)
  : option QImage :=
  toQImage conv dicomImage (windowLevel dicomImage).

(** ** Window/level handlers of [src/ui/CImageViewer.cpp]

    The viewer holds a possibly empty pointer [m_dicomImage]; the handlers
    below are the parts of the slots and of [mouseMoveEvent] that act on the
    image it points to. *)

Definition kSensitivityWidth : double := Double.of_int 1.
Definition kSensitivityCenter : double := Double.of_int 1.

Definition CImageViewer_setWindowLevel (m_dicomImage : option CDicomImage)
    (wl : SWindowLevel) : option CDicomImage :=
  match m_dicomImage with
  | Some img => Some (setWindowLevel img wl)
  | None => None
  end.

Definition CImageViewer_resetWindowLevel (m_dicomImage : option CDicomImage)
  : option CDicomImage :=
  match m_dicomImage with
  | Some img => Some (resetWindowLevel img)
  | None => None
  end.

(** Slot connected to [m_centerSlider]'s [valueChanged(int)]. *)
Definition centerSliderValueChanged (m_dicomImage : option CDicomImage)
    (value : Z) : option CDicomImage :=
  match m_dicomImage with
  | None => None
  | Some img =>
      let wl := windowLevel img in
      let wl := mkWindowLevel (Double.of_int value) (width wl) in
      CImageViewer_setWindowLevel m_dicomImage wl
  end.

(** Slot connected to [m_widthSlider]'s [valueChanged(int)]. *)
Definition widthSliderValueChanged (m_dicomImage : option CDicomImage)
    (value : Z) : option CDicomImage :=
  match m_dicomImage with
  | None => None
  | Some img =>
      let wl := windowLevel img in
      let wl :=
        mkWindowLevel (center wl)
          (Double.max (Double.of_int kMinWindowWidth) (Double.of_int value)) in
      CImageViewer_setWindowLevel m_dicomImage wl
  end.

(** Window/level branch of [mouseMoveEvent], for a pointer displacement
    [(dx, dy)] since the last event. *)
Definition mouseMoveWindowLevel (img : CDicomImage) (dx dy : Z) : CDicomImage :=
  let wl := windowLevel img in
  let w := Double.add (width wl) (Double.mul (Double.of_int dx) kSensitivityWidth) in
  let w := Double.max (Double.of_int kMinWindowWidth) w in
  let c := Double.sub (center wl) (Double.mul (Double.of_int dy) kSensitivityCenter) in
  setWindowLevel img (mkWindowLevel c w).

(** ** Well-formed inputs

    The ranges the C++ types give to the fields of an image, and the byte
    size its declared dimensions and bit depth imply. *)

Definition wf_bytes (data : list Z) : Prop := Forall (λ b, 0 <= b <= 255) data.

Definition wf_dimensions (d : SImageDimensions) : Prop :=
  0 <= dim_width d <= UINT32_MAX /\ 0 <= dim_height d <= UINT32_MAX.

Definition wf_image (img : CDicomImage) : Prop :=
  wf_bytes (pixelData img) /\ wf_dimensions (dimensions img).

(** Dimensions that [static_cast<int>] keeps: the sides a [QImage] can
    have. *)
Definition int_dimensions (d : SImageDimensions) : Prop :=
  dim_width d <= INT_MAX /\ dim_height d <= INT_MAX.

Definition bytesPerPixel (img : CDicomImage) : Z :=
  if bool_decide (bitsPerSample img = 16) then 2 else 1.

Definition declaredBytes (img : CDicomImage) : Z :=
  let d := dimensions img in
  match photometricInterpretation img with
  | Rgb => dim_width d * dim_height d * 3
  | _ => dim_width d * dim_height d * bytesPerPixel img
  end.

(** The table [convertMonochrome] asks for, for an image and a window. *)
Definition imageLut (img : CDicomImage) (wl : SWindowLevel) : option (list Z) :=
  let '(minValue, maxValue) :=
    sampleDomain (bool_decide (bitsPerSample img = 16)) (isPixelSigned img) in
  buildWindowLevelLut wl minValue maxValue
    (bool_decide (photometricInterpretation img = Monochrome1)).

(** The sample [convertMonochrome] reads for pixel [index], as an [int]. *)
Definition pixelSample (img : CDicomImage) (index : Z) : option Z :=
  if bool_decide (bitsPerSample img = 16) then
    if isPixelSigned img then load_int16 (pixelData img) index
    else load_uint16 (pixelData img) index
  else load (pixelData img) index.

(** The per-pixel function [convertMonochrome] runs over the image. *)
Definition monochromePixel (img : CDicomImage) (lut : list Z) : Z -> option Z :=
  let is16bit := bool_decide (bitsPerSample img = 16) in
  let isSigned := isPixelSigned img in
  if is16bit
  then windowed16 lut isSigned (pixelData img)
         (- fst (sampleDomain is16bit isSigned))
  else windowed8 lut (pixelData img).

(** ** The lookup table as the specification words it (section 4.1)

    [lower = center - width/2], [upper = center + width/2],
    [scale = 255 / width]; [v <= lower] gives 0, [v >= upper] gives 255,
    otherwise the integer part (toward zero) of [(v - lower) * scale] as a
    [u8]; inversion replaces the result [r] by [255 - r]. *)

Definition round_down (x : double) : Z := default 0 (Double.trunc x).

Definition windowLevelEntry_spec (wl : SWindowLevel) (invert : bool) (v : Z) : Z :=
  let half := SFdiv Double.prec Double.emax (width wl) (Double.of_int 2) in
  let lower := Double.sub (center wl) half in
  let upper := Double.add (center wl) half in
  let scale := SFdiv Double.prec Double.emax (Double.of_int 255) (width wl) in
  let x := Double.of_int v in
  let r :=
    if Double.leb x lower then 0
    else if Double.geb x upper then 255
    else uint8_t (round_down (Double.mul (Double.sub x lower) scale)) in
  if invert then 255 - r else r.

(** The normalised domain of a table: [maxValue < minValue] swaps the two. *)
Definition domainMin (minValue maxValue : Z) : Z := Z.min minValue maxValue.
Definition domainMax (minValue maxValue : Z) : Z := Z.max minValue maxValue.

(** ** Arithmetic reading of binary floating-point data

    Used only to reason about [SpecFloat]'s operations. *)

Section BinaryReading.

Variables prec emax : Z.

(** Round-to-nearest, ties-to-even, of [m / 2^n] to an integer. *)
Definition rne (m n : Z) : Z :=
  let q := m / 2 ^ n in
  match 2 * (m mod 2 ^ n) ?= 2 ^ n with
  | Lt => q
  | Eq => if Z.even q then q else q + 1
  | Gt => q + 1
  end.

(** Value of a datum counted in units of [2^emin] (the spacing of the
    subnormals); the infinities sit at [2^(emax - emin)], just beyond every
    finite value; zero stands in for NaN. *)
Definition ext (x : spec_float) : Z :=
  match x with
  | S754_zero _ => 0
  | S754_finite s m e => cond_Zopp s (Z.pos m * 2 ^ (e - emin prec emax))
  | S754_infinity s => cond_Zopp s (2 ^ (emax - emin prec emax))
  | S754_nan => 0
  end.

(** The datum of sign [s] with integer significand [M] (at most [2^prec])
    at exponent [E]. *)
Definition pack (s : bool) (M E : Z) : spec_float :=
  if M =? 0 then S754_zero s
  else if M =? 2 ^ prec then
    if E + 1 <=? emax - prec
    then S754_finite s (Z.to_pos (2 ^ (prec - 1))) (E + 1)
    else S754_infinity s
  else
    if E <=? emax - prec
    then S754_finite s (Z.to_pos M) E
    else S754_infinity s.

(** Rounding of the positive value [N * 2^e0] to a datum of sign [s]. *)
Definition round_at (s : bool) (N e0 : Z) : spec_float :=
  let E := fexp prec emax (Z.log2 N + 1 + e0) in
  pack s (rne N (E - e0)) E.

(** A significand [M] is fit for exponent [E] when the pair is what
    rounding to [prec] digits above [emin] can deliver. *)
Definition fit (M E : Z) : Prop :=
  0 <= M <= 2 ^ prec /\
  emin prec emax <= E /\
  (emin prec emax < E -> 2 ^ (prec - 1) <= M).

(** Value, in units of [2^emin], of the rounding of the positive value
    [N * 2^e0], before the overflow test. *)
Definition rounded (N e0 : Z) : Z :=
  let E := fexp prec emax (Z.log2 N + 1 + e0) in
  rne N (E - e0) * 2 ^ (E - emin prec emax).

(** Value of the rounding of [D * 2^emin] ([D] of either sign) and of
    [P * 2^(2 emin)] ([P >= 0]), overflow included. *)
Definition sext (D : Z) : Z :=
  if D =? 0 then 0
  else if 0 <? D
       then Z.min (rounded D (emin prec emax)) (2 ^ (emax - emin prec emax))
       else - Z.min (rounded (- D) (emin prec emax))
                    (2 ^ (emax - emin prec emax)).

Definition mext (P : Z) : Z :=
  if P =? 0 then 0
  else Z.min (rounded P (2 * emin prec emax)) (2 ^ (emax - emin prec emax)).

(** Data of sign bit 0: [+0], the positive finite data and [+inf]. *)
Definition sign_clear (x : spec_float) : bool :=
  match x with
  | S754_zero s | S754_infinity s | S754_finite s _ _ => negb s
  | S754_nan => false
  end.

Definition is_finite (x : spec_float) : bool :=
  match x with
  | S754_zero _ | S754_finite _ _ _ => true
  | _ => false
  end.

Definition is_nan (x : spec_float) : bool :=
  match x with S754_nan => true | _ => false end.

End BinaryReading.

(** ** Sample data used to exercise the statements below *)

(** The double [0.5]. *)
Definition one_half : double := S754_finite false 4503599627370496 (-53).

Definition wl_128_256 : SWindowLevel :=
  mkWindowLevel (Double.of_int 128) (Double.of_int 256).

Definition wl_32768_65536 : SWindowLevel :=
  mkWindowLevel (Double.of_int 32768) (Double.of_int 65536).

Definition wl_blank : SWindowLevel :=
  mkWindowLevel (Double.of_int 40) (Double.of_int 0).

Definition grayscalePalette : CColorPalette :=
  mkPalette Grayscale ((λ i, (i, i, i)) <$> seqZ 0 256).

Definition invertedPalette : CColorPalette :=
  mkPalette Inverted ((λ i, (255 - i, 255 - i, 255 - i)) <$> seqZ 0 256).

(** A 2 x 1 eight-bit MONOCHROME1 image holding the samples 0 and 255. *)
Definition mono1_2x1 : CDicomImage :=
  mkDicomImage [0; 255] (mkDimensions 2 1 8 8 7 1 false) Monochrome1
    wl_128_256 wl_128_256 (Double.of_int 1) (Double.of_int 0) 8 false None.

(** A 2 x 2 signed sixteen-bit MONOCHROME2 image: samples -32768, -1, 0,
    32767 in little-endian order. *)
Definition mono2_s16_2x2 : CDicomImage :=
  mkDicomImage [0; 128; 255; 255; 0; 0; 255; 127]
    (mkDimensions 2 2 16 16 15 1 true) Monochrome2
    wl_128_256 wl_128_256 (Double.of_int 1) (Double.of_int 0) 16 true None.

(** A 2 x 2 RGB image. *)
Definition rgb_2x2 : CDicomImage :=
  mkDicomImage [10; 20; 30; 40; 50; 60; 70; 80; 90; 100; 110; 120]
    (mkDimensions 2 2 8 8 7 3 false) Rgb
    wl_128_256 wl_128_256 (Double.of_int 1) (Double.of_int 0) 8 false None.

(** * The rest of the core: metadata, loader, view model and view state

    Shallow embedding of
    - [src/core/CDicomMetadata.{h,cpp}],
    - the construction side of [src/core/CDicomImage.cpp],
    - the self-contained parts of [src/core/CDicomLoader.cpp] and
      [src/infrastructure/dcmtk/DcmtkDicomLoader.cpp],
    - [src/presentation/viewmodels/MainViewModel.cpp],
    - the view-state handlers of [src/ui/CImageViewer.cpp]. *)

(** ** [src/core/CDicomMetadata] *)

Module Metadata.

(** [getTagValue] of the anonymous namespace: the stored value, or an
    empty string for a missing key. *)
Definition getTagValue (tags : gmap string string) (key : string) : string :=
  match tags !! key with
  | Some value => value
  | None => EmptyString
  end.

Definition patientName (m : CDicomMetadata) : string := getTagValue m "Patient Name".
Definition patientId (m : CDicomMetadata) : string := getTagValue m "Patient ID".
Definition patientBirthDate (m : CDicomMetadata) : string :=
  getTagValue m "Patient Birth Date".
Definition patientSex (m : CDicomMetadata) : string := getTagValue m "Patient Sex".
Definition studyDate (m : CDicomMetadata) : string := getTagValue m "Study Date".
Definition studyTime (m : CDicomMetadata) : string := getTagValue m "Study Time".
Definition studyDescription (m : CDicomMetadata) : string :=
  getTagValue m "Study Description".
Definition accessionNumber (m : CDicomMetadata) : string :=
  getTagValue m "Accession Number".
Definition seriesDescription (m : CDicomMetadata) : string :=
  getTagValue m "Series Description".
Definition modality (m : CDicomMetadata) : string := getTagValue m "Modality".
Definition seriesNumber (m : CDicomMetadata) : string := getTagValue m "Series Number".
Definition instanceNumber (m : CDicomMetadata) : string :=
  getTagValue m "Instance Number".
Definition imagePositionPatient (m : CDicomMetadata) : string :=
  getTagValue m "Image Position Patient".
Definition sliceThickness (m : CDicomMetadata) : string :=
  getTagValue m "Slice Thickness".
Definition rows (m : CDicomMetadata) : string := getTagValue m "Rows".
Definition columns (m : CDicomMetadata) : string := getTagValue m "Columns".
Definition bitsAllocated (m : CDicomMetadata) : string :=
  getTagValue m "Bits Allocated".
Definition windowCenter (m : CDicomMetadata) : string := getTagValue m "Window Center".
Definition windowWidth (m : CDicomMetadata) : string := getTagValue m "Window Width".

Definition tag (m : CDicomMetadata) (tagName : string) : option string :=
  m !! tagName.

Definition allTags (m : CDicomMetadata) : gmap string string := m.

Definition isEmpty (m : CDicomMetadata) : bool := bool_decide (m = ∅).

(** [setTag]: an empty value is not stored. *)
Definition setTag (m : CDicomMetadata) (tagName value : string) : CDicomMetadata :=
  if bool_decide (value = EmptyString) then m else <[tagName := value]> m.

Definition setPatientName (m : CDicomMetadata) (name : string) : CDicomMetadata :=
  setTag m "Patient Name" name.
Definition setPatientId (m : CDicomMetadata) (id : string) : CDicomMetadata :=
  setTag m "Patient ID" id.
Definition setPatientBirthDate (m : CDicomMetadata) (date : string) : CDicomMetadata :=
  setTag m "Patient Birth Date" date.
Definition setPatientSex (m : CDicomMetadata) (sex : string) : CDicomMetadata :=
  setTag m "Patient Sex" sex.
Definition setStudyDate (m : CDicomMetadata) (date : string) : CDicomMetadata :=
  setTag m "Study Date" date.
Definition setStudyTime (m : CDicomMetadata) (time : string) : CDicomMetadata :=
  setTag m "Study Time" time.
Definition setStudyDescription (m : CDicomMetadata) (description : string)
  : CDicomMetadata := setTag m "Study Description" description.
Definition setAccessionNumber (m : CDicomMetadata) (number : string)
  : CDicomMetadata := setTag m "Accession Number" number.
Definition setSeriesDescription (m : CDicomMetadata) (description : string)
  : CDicomMetadata := setTag m "Series Description" description.
Definition setModality (m : CDicomMetadata) (modality : string) : CDicomMetadata :=
  setTag m "Modality" modality.
Definition setSeriesNumber (m : CDicomMetadata) (number : string) : CDicomMetadata :=
  setTag m "Series Number" number.
Definition setInstanceNumber (m : CDicomMetadata) (number : string)
  : CDicomMetadata := setTag m "Instance Number" number.
Definition setImagePositionPatient (m : CDicomMetadata) (position : string)
  : CDicomMetadata := setTag m "Image Position Patient" position.
Definition setSliceThickness (m : CDicomMetadata) (thickness : string)
  : CDicomMetadata := setTag m "Slice Thickness" thickness.
Definition setRows (m : CDicomMetadata) (rows : string) : CDicomMetadata :=
  setTag m "Rows" rows.
Definition setColumns (m : CDicomMetadata) (columns : string) : CDicomMetadata :=
  setTag m "Columns" columns.
Definition setBitsAllocated (m : CDicomMetadata) (bits : string) : CDicomMetadata :=
  setTag m "Bits Allocated" bits.
Definition setWindowCenter (m : CDicomMetadata) (center : string) : CDicomMetadata :=
  setTag m "Window Center" center.
Definition setWindowWidth (m : CDicomMetadata) (width : string) : CDicomMetadata :=
  setTag m "Window Width" width.

(** The named accessors, each with the mutator that writes its tag. *)
Definition accessors
  : list ((CDicomMetadata -> string) * (CDicomMetadata -> string -> CDicomMetadata)
          * string) :=
  [ (patientName, setPatientName, "Patient Name");
    (patientId, setPatientId, "Patient ID");
    (patientBirthDate, setPatientBirthDate, "Patient Birth Date");
    (patientSex, setPatientSex, "Patient Sex");
    (studyDate, setStudyDate, "Study Date");
    (studyTime, setStudyTime, "Study Time");
    (studyDescription, setStudyDescription, "Study Description");
    (accessionNumber, setAccessionNumber, "Accession Number");
    (seriesDescription, setSeriesDescription, "Series Description");
    (modality, setModality, "Modality");
    (seriesNumber, setSeriesNumber, "Series Number");
    (instanceNumber, setInstanceNumber, "Instance Number");
    (imagePositionPatient, setImagePositionPatient, "Image Position Patient");
    (sliceThickness, setSliceThickness, "Slice Thickness");
    (rows, setRows, "Rows");
    (columns, setColumns, "Columns");
    (bitsAllocated, setBitsAllocated, "Bits Allocated");
    (windowCenter, setWindowCenter, "Window Center");
    (windowWidth, setWindowWidth, "Window Width") ].

(** No tag is stored with an empty value. *)
Definition no_empty_value (m : CDicomMetadata) : Prop :=
  forall tagName value, m !! tagName = Some value -> value <> EmptyString.

End Metadata.

(** ** [src/core/CDicomImage]: construction and the loader-side mutators *)

(** [CDicomImage()], from the default member initialisers. *)
Definition CDicomImage_new : CDicomImage :=
  mkDicomImage [] SImageDimensions_default Unknown
    SWindowLevel_default SWindowLevel_default
    (Double.of_int 1) (Double.of_int 0) 8 false None.

Definition clear (img : CDicomImage) : CDicomImage :=
  mkDicomImage [] SImageDimensions_default Unknown
    SWindowLevel_default SWindowLevel_default
    (Double.of_int 1) (Double.of_int 0) 8 false None.

Definition setPixelData (img : CDicomImage) (data : list Z) : CDicomImage :=
  mkDicomImage data (m_dimensions img)
    (m_photometricInterpretation img)
    (m_windowLevel img) (m_defaultWindowLevel img)
    (m_rescaleSlope img) (m_rescaleIntercept img)
    (m_bitsPerSample img) (m_pixelSigned img) (m_metadata img).

Definition setDimensions (img : CDicomImage) (dims : SImageDimensions)
  : CDicomImage :=
  mkDicomImage (m_pixelData img) dims
    (m_photometricInterpretation img)
    (m_windowLevel img) (m_defaultWindowLevel img)
    (m_rescaleSlope img) (m_rescaleIntercept img)
    (m_bitsPerSample img) (m_pixelSigned img) (m_metadata img).

Definition setPhotometricInterpretation (img : CDicomImage)
    (pi : EPhotometricInterpretation) : CDicomImage :=
  mkDicomImage (m_pixelData img) (m_dimensions img)
    pi
    (m_windowLevel img) (m_defaultWindowLevel img)
    (m_rescaleSlope img) (m_rescaleIntercept img)
    (m_bitsPerSample img) (m_pixelSigned img) (m_metadata img).

Definition setRescaleSlope (img : CDicomImage) (slope : double) : CDicomImage :=
  mkDicomImage (m_pixelData img) (m_dimensions img)
    (m_photometricInterpretation img)
    (m_windowLevel img) (m_defaultWindowLevel img)
    slope (m_rescaleIntercept img)
    (m_bitsPerSample img) (m_pixelSigned img) (m_metadata img).

Definition setRescaleIntercept (img : CDicomImage) (intercept : double)
  : CDicomImage :=
  mkDicomImage (m_pixelData img) (m_dimensions img)
    (m_photometricInterpretation img)
    (m_windowLevel img) (m_defaultWindowLevel img)
    (m_rescaleSlope img) intercept
    (m_bitsPerSample img) (m_pixelSigned img) (m_metadata img).

Definition setMetadata (img : CDicomImage) (metadata : option CDicomMetadata)
  : CDicomImage :=
  mkDicomImage (m_pixelData img) (m_dimensions img)
    (m_photometricInterpretation img)
    (m_windowLevel img) (m_defaultWindowLevel img)
    (m_rescaleSlope img) (m_rescaleIntercept img)
    (m_bitsPerSample img) (m_pixelSigned img) metadata.

Definition setBitsPerSample (img : CDicomImage) (bits : Z) : CDicomImage :=
  mkDicomImage (m_pixelData img) (m_dimensions img)
    (m_photometricInterpretation img)
    (m_windowLevel img) (m_defaultWindowLevel img)
    (m_rescaleSlope img) (m_rescaleIntercept img)
    bits (m_pixelSigned img) (m_metadata img).

Definition setPixelSigned (img : CDicomImage) (isSigned : bool) : CDicomImage :=
  mkDicomImage (m_pixelData img) (m_dimensions img)
    (m_photometricInterpretation img)
    (m_windowLevel img) (m_defaultWindowLevel img)
    (m_rescaleSlope img) (m_rescaleIntercept img)
    (m_bitsPerSample img) isSigned (m_metadata img).

(** ** [src/core/CDicomLoader]

    [std::string] is a list of characters; a character is named by its
    code. *)

Inductive ELoadResult :=
| Success
| FileNotFound
| InvalidFormat
| UnsupportedTransferSyntax
| DecompressionFailed
| UnknownResult.           (* ELoadResult::Unknown *)

#[global] Instance ELoadResult_eq_dec : EqDecision ELoadResult.
Proof. solve_decision. Defined.

Definition errorMessage (result : ELoadResult) : string :=
  match result with
  | Success => EmptyString
  | FileNotFound => "File not found. Please check the file path."
  | InvalidFormat =>
      "Invalid DICOM file format. The file may be corrupted or is not a valid DICOM file."
  | UnsupportedTransferSyntax =>
      "Unsupported transfer syntax. This DICOM compression format is not supported."
  | DecompressionFailed => "Failed to decompress or render image data."
  | UnknownResult => "An unknown error occurred while loading the file."
  end.

Definition char : Type := Ascii.ascii.

Definition npos : Z := 2 ^ 64 - 1.

(** Membership in the character set [" \t\r\n"]. *)
Definition blank (c : char) : bool :=
  let n := Ascii.nat_of_ascii c in
  bool_decide (n = 32 \/ n = 9 \/ n = 13 \/ n = 10)%nat.

(** [s.find_first_not_of(" \t\r\n")], scanning from position [pos] of the
    original string. *)
Fixpoint find_first_not_of (s : list char) (pos : Z) : Z :=
  match s with
  | [] => npos
  | c :: s' => if blank c then find_first_not_of s' (pos + 1) else pos
  end.

(** [s.find_last_not_of(" \t\r\n")]: [last] is the last position found so
    far. *)
Fixpoint find_last_not_of (s : list char) (pos last : Z) : Z :=
  match s with
  | [] => last
  | c :: s' => find_last_not_of s' (pos + 1) (if blank c then last else pos)
  end.

(** [s.substr(pos, len)] for a position [pos <= s.size()]. *)
Definition substr (s : list char) (pos len : Z) : list char :=
  take (Z.to_nat len) (drop (Z.to_nat pos) s).

(** [std::toupper] in the "C" locale. *)
Definition toupper (c : char) : char :=
  let n := Ascii.nat_of_ascii c in
  if bool_decide (97 <= n <= 122)%nat then Ascii.ascii_of_nat (n - 32) else c.

Definition literal (s : string) : list char := String.list_ascii_of_string s.

Definition parsePhotometricInterpretation (piString : option (list char))
  : EPhotometricInterpretation :=
  match piString with
  | None => Unknown
  | Some pi =>
      let start := find_first_not_of pi 0 in
      if bool_decide (start = npos) then Unknown
      else
        let end_ := find_last_not_of pi 0 npos in
        let pi := substr pi start (size_t (end_ - start + 1)) in
        let pi := toupper <$> pi in
        if bool_decide (pi = literal "MONOCHROME1") then Monochrome1
        else if bool_decide (pi = literal "MONOCHROME2") then Monochrome2
        else if bool_decide (pi = literal "RGB") then Rgb
        else if bool_decide (pi = literal "PALETTE COLOR") then PaletteColor
        else Unknown
  end.

(** Positions of the first and of the last character outside the set, for
    reasoning about the two searches. *)
Fixpoint first_nonblank (s : list char) : option nat :=
  match s with
  | [] => None
  | c :: s' => if blank c then S <$> first_nonblank s' else Some O
  end.

Fixpoint last_nonblank (s : list char) : option nat :=
  match s with
  | [] => None
  | c :: s' =>
      match last_nonblank s' with
      | Some j => Some (S j)
      | None => if blank c then None else Some O
      end
  end.

(** The tags [extractMetadata] reads as strings, each with the name it is
    stored under and whether it is read with [findAndGetOFStringArray]. *)
Inductive DcmTagKey :=
| DCM_PatientName | DCM_PatientID | DCM_PatientBirthDate | DCM_PatientSex
| DCM_StudyDate | DCM_StudyTime | DCM_StudyDescription | DCM_AccessionNumber
| DCM_SeriesDescription | DCM_Modality | DCM_SeriesNumber
| DCM_InstanceNumber | DCM_ImagePositionPatient | DCM_SliceThickness
| DCM_PhotometricInterpretation | DCM_TransferSyntaxUID
| DCM_Rows | DCM_Columns | DCM_BitsAllocated
| DCM_WindowCenter | DCM_WindowWidth.

#[global] Instance DcmTagKey_eq_dec : EqDecision DcmTagKey.
Proof. solve_decision. Defined.

Section Loader.

(** What the file system and DCMTK deliver: whether the file exists, the
    parsed file ([status.good()]), its dataset, the values of the
    dataset's attributes (a lookup that is not [good()] is [None]), and the
    decimal renderings [std::to_string] gives. *)
Context {DcmFileFormat DcmDataset : Type}.
Variable file_exists : string -> bool.
Variable DcmFileFormat_loadFile : string -> option DcmFileFormat.
Variable getDataset : DcmFileFormat -> option DcmDataset.
Variable findAndGetOFString : DcmDataset -> DcmTagKey -> option string.
Variable findAndGetOFStringArray : DcmDataset -> DcmTagKey -> option string.
Variable findAndGetUint16 : DcmDataset -> DcmTagKey -> option Z.
Variable findAndGetFloat64 : DcmDataset -> DcmTagKey -> option double.
Variable to_string_uint16 : Z -> string.
Variable to_string_double : double -> string.

(** The other two private helpers work on DCMTK objects throughout; each
    either fails or delivers the image it has filled in. *)
Variable extractImageData : DcmDataset -> CDicomImage -> option CDicomImage.
Variable extractPixelData : DcmFileFormat -> CDicomImage -> option CDicomImage.

(** [if (lookup.good()) metadata.set...(value)]. *)
Definition whenGood {A} (lookup : option A) (set : CDicomMetadata -> A -> CDicomMetadata)
    (metadata : CDicomMetadata) : CDicomMetadata :=
  match lookup with
  | Some value => set metadata value
  | None => metadata
  end.

Definition extractMetadata (dataset : DcmDataset) (metadata : CDicomMetadata)
  : CDicomMetadata :=
  let str := findAndGetOFString dataset in
  let arr := findAndGetOFStringArray dataset in
  let u16 := findAndGetUint16 dataset in
  let f64 := findAndGetFloat64 dataset in
  (* Patient information *)
  let metadata := whenGood (arr DCM_PatientName) Metadata.setPatientName metadata in
  let metadata := whenGood (str DCM_PatientID) Metadata.setPatientId metadata in
  let metadata :=
    whenGood (str DCM_PatientBirthDate) Metadata.setPatientBirthDate metadata in
  let metadata := whenGood (str DCM_PatientSex) Metadata.setPatientSex metadata in
  (* Study information *)
  let metadata := whenGood (str DCM_StudyDate) Metadata.setStudyDate metadata in
  let metadata := whenGood (str DCM_StudyTime) Metadata.setStudyTime metadata in
  let metadata :=
    whenGood (str DCM_StudyDescription) Metadata.setStudyDescription metadata in
  let metadata :=
    whenGood (str DCM_AccessionNumber) Metadata.setAccessionNumber metadata in
  (* Series information *)
  let metadata :=
    whenGood (str DCM_SeriesDescription) Metadata.setSeriesDescription metadata in
  let metadata := whenGood (str DCM_Modality) Metadata.setModality metadata in
  let metadata := whenGood (str DCM_SeriesNumber) Metadata.setSeriesNumber metadata in
  (* Image information *)
  let metadata :=
    whenGood (str DCM_InstanceNumber) Metadata.setInstanceNumber metadata in
  let metadata :=
    whenGood (arr DCM_ImagePositionPatient) Metadata.setImagePositionPatient
      metadata in
  let metadata :=
    whenGood (str DCM_SliceThickness) Metadata.setSliceThickness metadata in
  let metadata :=
    whenGood (str DCM_PhotometricInterpretation)
      (λ m value, Metadata.setTag m "Photometric Interpretation" value) metadata in
  let metadata :=
    whenGood (str DCM_TransferSyntaxUID)
      (λ m value, Metadata.setTag m "Transfer Syntax" value) metadata in
  (* Numeric values as strings for display *)
  let metadata :=
    whenGood (u16 DCM_Rows)
      (λ m numValue, Metadata.setRows m (to_string_uint16 numValue)) metadata in
  let metadata :=
    whenGood (u16 DCM_Columns)
      (λ m numValue, Metadata.setColumns m (to_string_uint16 numValue)) metadata in
  let metadata :=
    whenGood (u16 DCM_BitsAllocated)
      (λ m numValue, Metadata.setBitsAllocated m (to_string_uint16 numValue))
      metadata in
  (* Window/Level values *)
  let metadata :=
    whenGood (f64 DCM_WindowCenter)
      (λ m floatValue, Metadata.setWindowCenter m (to_string_double floatValue))
      metadata in
  let metadata :=
    whenGood (f64 DCM_WindowWidth)
      (λ m floatValue, Metadata.setWindowWidth m (to_string_double floatValue))
      metadata in
  metadata.

(** [CDicomLoader::loadFile]: the image, or a null pointer, and the result
    code. *)
Definition loadFile (filePath : string) : option CDicomImage * ELoadResult :=
  let image := CDicomImage_new in
  if negb (file_exists filePath) then (None, FileNotFound)
  else
    match DcmFileFormat_loadFile filePath with
    | None => (None, InvalidFormat)
    | Some fileFormat =>
        match getDataset fileFormat with
        | None => (None, InvalidFormat)
        | Some dataset =>
            let metadata := extractMetadata dataset ∅ in
            let image := setMetadata image (Some metadata) in
            match extractImageData dataset image with
            | None => (None, InvalidFormat)
            | Some image =>
                match extractPixelData fileFormat image with
                | None => (None, DecompressionFailed)
                | Some image => (Some image, Success)
                end
            end
        end
    end.

End Loader.

(** ** [src/application/ports/IDicomLoader.h] and
       [src/infrastructure/dcmtk/DcmtkDicomLoader.cpp] *)

Module SDicomLoadResult.

Record t := mk {
  image : option CDicomImage;            (* std::shared_ptr<CDicomImage> *)
  result : ELoadResult;
  errorMessage : string
}.

End SDicomLoadResult.

(** [IDicomLoader::load]. *)
Definition IDicomLoader : Type := string -> SDicomLoadResult.t.

(** [DcmtkDicomLoader::load], over the [loadFile] of its [m_loader]. *)
Definition DcmtkDicomLoader_load
    (m_loader_loadFile : string -> option CDicomImage * ELoadResult)
  : IDicomLoader :=
  λ filePath,
    let '(image, loadResult) := m_loader_loadFile filePath in
    SDicomLoadResult.mk image loadResult (errorMessage loadResult).

(** ** [src/presentation/viewmodels/MainViewModel]

    The view model owns the list of loaded images and the index of the
    current one.  A method returns the state it leaves behind together with
    the signals it emits, in emission order; the slots connected to them
    belong to other classes. *)

(** [QPointF]. *)
Record QPointF := mkPointF {
  xp : double;
  yp : double
}.

(** [QPointF()] and [QPointF(0, 0)]. *)
Definition QPointF_null : QPointF := mkPointF (Double.of_int 0) (Double.of_int 0).

Module MainViewModel.

Module SViewState.

Record t := mk {
  zoom : double;
  pan : QPointF;
  rotation : Z                      (* int *)
}.

End SViewState.

Module SLoadedImage.

Record t := mk {
  filePath : string;
  image : option CDicomImage;       (* std::shared_ptr<CDicomImage> *)
  palette : EPaletteType;
  windowLevel : SWindowLevel;
  zoom : double;
  pan : QPointF;
  rotation : Z                      (* int *)
}.

End SLoadedImage.

Inductive Signal :=
| errorOccurred (message : string)
| statusMessage (message : string) (timeoutMs : Z)
| imageAdded (index : Z)
| imageRemoved (index : Z)
| currentImageChanged
| paletteUpdated (palette : EPaletteType).

Record t := mk {
  m_loadedImages : list SLoadedImage.t;     (* QVector<SLoadedImage> *)
  m_currentImageIndex : Z                   (* int *)
}.

(** The view model as constructed. *)
Definition new : t := mk [] (-1).

(** [m_loadedImages.size()]. *)
Definition size (vm : t) : Z := Z.of_nat (length (m_loadedImages vm)).

Definition loadFile (m_loader : option IDicomLoader) (vm : t) (filePath : string)
  : bool * t * list Signal :=
  match m_loader with
  | None => (false, vm, [errorOccurred "DICOM loader not configured."])
  | Some load =>
      let result := load filePath in
      match SDicomLoadResult.image result with
      | Some image =>
          if negb (bool_decide (SDicomLoadResult.result result = Success)) then
            (false, vm, [errorOccurred (SDicomLoadResult.errorMessage result)])
          else
            let image := resetWindowLevel image in
            let wl := windowLevel image in
            let entry :=
              SLoadedImage.mk filePath (Some image) Grayscale wl
                (Double.of_int 1) QPointF_null 0 in
            let vm := mk (m_loadedImages vm ++ [entry]) (m_currentImageIndex vm) in
            (true, vm, [imageAdded (size vm - 1)])
      | None =>
          (false, vm, [errorOccurred (SDicomLoadResult.errorMessage result)])
      end
  end.

(** The block that opens both [selectImage] and [removeImage]: the view
    state and window/level of the viewer are stored in the current
    entry. *)
Definition stored (currentState : SViewState.t) (currentWindowLevel : SWindowLevel)
    (currentEntry : SLoadedImage.t) : SLoadedImage.t :=
  SLoadedImage.mk
    (SLoadedImage.filePath currentEntry)
    (SLoadedImage.image currentEntry)
    (SLoadedImage.palette currentEntry)
    (match SLoadedImage.image currentEntry with
     | Some _ => currentWindowLevel
     | None => SLoadedImage.windowLevel currentEntry
     end)
    (SViewState.zoom currentState)
    (SViewState.pan currentState)
    (SViewState.rotation currentState).

Definition storeCurrent (vm : t) (currentState : SViewState.t)
    (currentWindowLevel : SWindowLevel) : list SLoadedImage.t :=
  if decide (0 <= m_currentImageIndex vm /\ m_currentImageIndex vm < size vm) then
    alter (stored currentState currentWindowLevel)
      (Z.to_nat (m_currentImageIndex vm)) (m_loadedImages vm)
  else m_loadedImages vm.

Definition selectImage (vm : t) (index : Z) (currentState : SViewState.t)
    (currentWindowLevel : SWindowLevel) : t * list Signal :=
  let images := storeCurrent vm currentState currentWindowLevel in
  if decide (index < 0 \/ size vm <= index) then
    (mk images (-1), [currentImageChanged])
  else if decide (index = m_currentImageIndex vm) then
    (mk images (m_currentImageIndex vm), [])
  else
    (mk images index, [currentImageChanged]).

Fixpoint loadEach (m_loader : option IDicomLoader) (vm : t) (filePaths : list string)
  : t * list Signal :=
  match filePaths with
  | [] => (vm, [])
  | path :: filePaths =>
      let '(_, vm, emitted) := loadFile m_loader vm path in
      let '(vm, later) := loadEach m_loader vm filePaths in
      (vm, emitted ++ later)
  end.

Definition loadFiles (m_loader : option IDicomLoader) (vm : t)
    (filePaths : list string) (currentState : SViewState.t)
    (currentWindowLevel : SWindowLevel) : t * list Signal :=
  let startIndex := size vm in
  let '(vm, emitted) := loadEach m_loader vm filePaths in
  if decide (startIndex < size vm) then
    let '(vm, later) := selectImage vm startIndex currentState currentWindowLevel in
    (vm, emitted ++ later)
  else (vm, emitted).

Definition removeImage (vm : t) (index : Z) (currentState : SViewState.t)
    (currentWindowLevel : SWindowLevel) : t * list Signal :=
  if decide (index < 0 \/ size vm <= index) then (vm, [])
  else
    let images := storeCurrent vm currentState currentWindowLevel in
    let images := delete (Z.to_nat index) images in
    if bool_decide (images = []) then
      (mk images (-1), [imageRemoved index; currentImageChanged])
    else if decide (index = m_currentImageIndex vm) then
      let lastIndex := Z.of_nat (length images) - 1 in
      (mk images (Z.min index lastIndex), [imageRemoved index; currentImageChanged])
    else if decide (index < m_currentImageIndex vm) then
      (mk images (m_currentImageIndex vm - 1),
       [imageRemoved index; currentImageChanged])
    else
      (mk images (m_currentImageIndex vm), [imageRemoved index]).

Definition updateCurrentViewState (vm : t) (zoom panX panY : double) (rotation : Z)
  : t :=
  if decide (m_currentImageIndex vm < 0 \/ size vm <= m_currentImageIndex vm) then vm
  else
    mk (alter
          (λ entry,
             SLoadedImage.mk
               (SLoadedImage.filePath entry) (SLoadedImage.image entry)
               (SLoadedImage.palette entry) (SLoadedImage.windowLevel entry)
               zoom (mkPointF panX panY) rotation)
          (Z.to_nat (m_currentImageIndex vm)) (m_loadedImages vm))
       (m_currentImageIndex vm).

Definition currentIndex (vm : t) : Z := m_currentImageIndex vm.

Definition imageCount (vm : t) : Z := size vm.

Definition images (vm : t) : list SLoadedImage.t := m_loadedImages vm.

(** [entryAt] and [currentEntry]: a null pointer is [None]. *)
Definition entryAt (vm : t) (index : Z) : option SLoadedImage.t :=
  if decide (index < 0 \/ size vm <= index) then None
  else m_loadedImages vm !! Z.to_nat index.

Definition currentEntry (vm : t) : option SLoadedImage.t :=
  if decide (m_currentImageIndex vm < 0 \/ size vm <= m_currentImageIndex vm)
  then None
  else m_loadedImages vm !! Z.to_nat (m_currentImageIndex vm).

Definition updateCurrentPalette (vm : t) (type : EPaletteType) : t * list Signal :=
  if decide (m_currentImageIndex vm < 0 \/ size vm <= m_currentImageIndex vm)
  then (vm, [])
  else
    match m_loadedImages vm !! Z.to_nat (m_currentImageIndex vm) with
    | None => (vm, [])
    | Some current =>
        if bool_decide (SLoadedImage.palette current = type) then (vm, [])
        else
          (mk (alter
                 (λ entry,
                    SLoadedImage.mk
                      (SLoadedImage.filePath entry) (SLoadedImage.image entry)
                      type (SLoadedImage.windowLevel entry)
                      (SLoadedImage.zoom entry) (SLoadedImage.pan entry)
                      (SLoadedImage.rotation entry))
                 (Z.to_nat (m_currentImageIndex vm)) (m_loadedImages vm))
              (m_currentImageIndex vm),
           [paletteUpdated type])
    end.

Definition updateCurrentWindowLevel (vm : t) (center width : double) : t :=
  if decide (m_currentImageIndex vm < 0 \/ size vm <= m_currentImageIndex vm) then vm
  else
    mk (alter
          (λ entry,
             SLoadedImage.mk
               (SLoadedImage.filePath entry) (SLoadedImage.image entry)
               (SLoadedImage.palette entry) (mkWindowLevel center width)
               (SLoadedImage.zoom entry) (SLoadedImage.pan entry)
               (SLoadedImage.rotation entry))
          (Z.to_nat (m_currentImageIndex vm)) (m_loadedImages vm))
       (m_currentImageIndex vm).

(** [entry.windowLevel.width > 0.0]. *)
Definition resolveWindowLevel (entry : SLoadedImage.t) : option SWindowLevel :=
  if Double.ltb (Double.of_int 0) (width (SLoadedImage.windowLevel entry))
  then Some (SLoadedImage.windowLevel entry)
  else None.

(** The index is [-1] or the position of an entry. *)
Definition index_ok (vm : t) : Prop :=
  m_currentImageIndex vm = -1 \/
  0 <= m_currentImageIndex vm < size vm.

(** The public mutators, as calls. *)
Inductive Call :=
| CallLoadFile (filePath : string)
| CallLoadFiles (filePaths : list string) (currentState : SViewState.t)
    (currentWindowLevel : SWindowLevel)
| CallSelectImage (index : Z) (currentState : SViewState.t)
    (currentWindowLevel : SWindowLevel)
| CallRemoveImage (index : Z) (currentState : SViewState.t)
    (currentWindowLevel : SWindowLevel)
| CallUpdateCurrentViewState (zoom panX panY : double) (rotation : Z)
| CallUpdateCurrentPalette (type : EPaletteType)
| CallUpdateCurrentWindowLevel (center width : double).

Definition call (m_loader : option IDicomLoader) (vm : t) (c : Call)
  : t * list Signal :=
  match c with
  | CallLoadFile filePath =>
      let '(_, vm, emitted) := loadFile m_loader vm filePath in (vm, emitted)
  | CallLoadFiles filePaths currentState currentWindowLevel =>
      loadFiles m_loader vm filePaths currentState currentWindowLevel
  | CallSelectImage index currentState currentWindowLevel =>
      selectImage vm index currentState currentWindowLevel
  | CallRemoveImage index currentState currentWindowLevel =>
      removeImage vm index currentState currentWindowLevel
  | CallUpdateCurrentViewState zoom panX panY rotation =>
      (updateCurrentViewState vm zoom panX panY rotation, [])
  | CallUpdateCurrentPalette type => updateCurrentPalette vm type
  | CallUpdateCurrentWindowLevel center width =>
      (updateCurrentWindowLevel vm center width, [])
  end.

(** A sequence of calls, from a given state. *)
Fixpoint calls (m_loader : option IDicomLoader) (vm : t) (cs : list Call)
  : t * list Signal :=
  match cs with
  | [] => (vm, [])
  | c :: cs =>
      let '(vm, emitted) := call m_loader vm c in
      let '(vm, later) := calls m_loader vm cs in
      (vm, emitted ++ later)
  end.

End MainViewModel.

(** ** View state of [src/ui/CImageViewer.cpp]

    A handler is a function of the members it reads, and returns the
    members it writes. *)

(** A decimal literal [m / 10^k] with [m] and [10^k] below [2^53]: the
    binary64 number nearest to it, which is the correctly rounded quotient
    of the two integers. *)
Definition decimal (m k : Z) : double :=
  SFdiv Double.prec Double.emax (Double.of_int m) (Double.of_int (10 ^ k)).

Definition kZoomStep : double := decimal 12 1.      (* 1.2 *)
Definition kMinZoom : double := decimal 1 1.        (* 0.1 *)
Definition kMaxZoom : double := Double.of_int 8.    (* 8.0 *)

(** [std::min(a, b)], which is [(b < a) ? b : a]. *)
Definition std_min (a b : double) : double := if Double.ltb b a then b else a.

(** [std::clamp(v, lo, hi)], which is [(v < lo) ? lo : (hi < v) ? hi : v]. *)
Definition std_clamp (v lo hi : double) : double :=
  if Double.ltb v lo then lo else if Double.ltb hi v then hi else v.

(** [x / y] for a divisor that is not a zero. *)
Definition quotient (x y : double) : double := SFdiv Double.prec Double.emax x y.

Definition hasImage (m_dicomImage : option CDicomImage) : bool :=
  match m_dicomImage with
  | Some img => isValid img
  | None => false
  end.

Definition zoomIn (m_dicomImage : option CDicomImage) (m_zoom : double) : double :=
  if negb (hasImage m_dicomImage) then m_zoom
  else std_min kMaxZoom (Double.mul m_zoom kZoomStep).

Definition zoomOut (m_dicomImage : option CDicomImage) (m_zoom : double) : double :=
  if negb (hasImage m_dicomImage) then m_zoom
  else Double.max kMinZoom (quotient m_zoom kZoomStep).

(** [zoomToFit] and [resetView]: zoom, pan offset (and rotation). *)
Definition zoomToFit (m_dicomImage : option CDicomImage) (m_zoom : double)
    (m_panOffset : QPointF) : double * QPointF :=
  if negb (hasImage m_dicomImage) then (m_zoom, m_panOffset)
  else (Double.of_int 1, QPointF_null).

Definition resetView : Z * double * QPointF := (0, Double.of_int 1, QPointF_null).

(** [wheelEvent], with its own constants, for a wheel rotation
    [angleDelta().y()]: zoom and pan offset. *)
Definition wheelEvent (m_dicomImage : option CDicomImage) (m_zoom : double)
    (m_panOffset : QPointF) (angleDeltaY : Z) : double * QPointF :=
  match m_dicomImage with
  | None => (m_zoom, m_panOffset)
  | Some _ =>
      let kZoomFactor := decimal 115 2 in        (* 1.15 *)
      let kMinZoom := decimal 1 1 in             (* 0.1 *)
      let kMaxZoom := Double.of_int 10 in        (* 10.0 *)
      let m_zoom :=
        if decide (angleDeltaY > 0) then
          std_min (Double.mul m_zoom kZoomFactor) kMaxZoom
        else if decide (angleDeltaY < 0) then
          Double.max (quotient m_zoom kZoomFactor) kMinZoom
        else m_zoom in
      (m_zoom, QPointF_null)
  end.

(** *** Machine [int] arithmetic *)

Definition INT_MIN : Z := -2147483648.

(** A result that does not fit in [int] is a signed overflow. *)
Definition int_result (z : Z) : option Z :=
  if decide (INT_MIN <= z <= INT_MAX) then Some z else None.

(** [1 << b], defined for [0 <= b < 32]; [1 << 31] is [INT_MIN]. *)
Definition int_shl_1 (b : Z) : option Z :=
  if decide (0 <= b < 31) then Some (2 ^ b)
  else if decide (b = 31) then Some INT_MIN
  else None.

(** Integer [std::clamp(v, lo, hi)], undefined when [hi < lo]. *)
Definition int_clamp (v lo hi : Z) : option Z :=
  if decide (hi < lo) then None
  else Some (if decide (v < lo) then lo else if decide (hi < v) then hi else v).

(** *** Rotation *)

Definition rotateLeft (m_rotationDegrees : Z) : option Z :=
  sum ← int_result (m_rotationDegrees + 270);
  Some (Z.rem sum 360).

Definition rotateRight (m_rotationDegrees : Z) : option Z :=
  sum ← int_result (m_rotationDegrees + 90);
  Some (Z.rem sum 360).

(** [QSize]; [QSize()] is the invalid size [(-1, -1)]. *)
Record QSize := mkSize {
  size_width : Z;
  size_height : Z
}.

Definition QSize_invalid : QSize := mkSize (-1) (-1).

Definition QSize_isEmpty (s : QSize) : bool :=
  bool_decide (size_width s <= 0 \/ size_height s <= 0).

Definition imagePixelSize (m_dicomImage : option CDicomImage) : QSize :=
  match m_dicomImage with
  | Some img =>
      if negb (isValid img) then QSize_invalid
      else
        let dims := dimensions img in
        mkSize (int_of_uint32 (dim_width dims)) (int_of_uint32 (dim_height dims))
  | None => QSize_invalid
  end.

Definition rotatedImageSize (m_dicomImage : option CDicomImage)
    (m_rotationDegrees : Z) : QSize :=
  if negb (hasImage m_dicomImage) then QSize_invalid
  else
    let imageSize := imagePixelSize m_dicomImage in
    if bool_decide (Z.rem (Z.quot m_rotationDegrees 90) 2 = 1) then
      mkSize (size_height imageSize) (size_width imageSize)
    else imageSize.

(** [fitScale], for a widget of size [widgetSize]. *)
Definition fitScale (m_dicomImage : option CDicomImage) (m_rotationDegrees : Z)
    (widgetSize : QSize) : double :=
  if negb (hasImage m_dicomImage) then Double.of_int 1
  else
    let imageSize := rotatedImageSize m_dicomImage m_rotationDegrees in
    if QSize_isEmpty imageSize then Double.of_int 1
    else
      let scaleX :=
        quotient (Double.of_int (size_width widgetSize))
                 (Double.of_int (size_width imageSize)) in
      let scaleY :=
        quotient (Double.of_int (size_height widgetSize))
                 (Double.of_int (size_height imageSize)) in
      std_min scaleX scaleY.

Definition zoomActualSize (m_dicomImage : option CDicomImage)
    (m_rotationDegrees : Z) (widgetSize : QSize) (m_zoom : double) : double :=
  if negb (hasImage m_dicomImage) then m_zoom
  else
    let base := fitScale m_dicomImage m_rotationDegrees widgetSize in
    if Double.leb base (Double.of_int 0) then m_zoom
    else
      Double.max kMinZoom (std_min kMaxZoom (quotient (Double.of_int 1) base)).

(** *** Window/level sliders *)

Record SliderRanges := mkRanges {
  m_windowCenterMin : Z;
  m_windowCenterMax : Z;
  m_windowWidthMin : Z;
  m_windowWidthMax : Z
}.

(** The ranges of a viewer as constructed. *)
Definition SliderRanges_new : SliderRanges := mkRanges 0 0 1 1.

(** [configureWindowLevelControls]: the ranges it leaves in the members
    (and gives to the sliders), and whether the panel is shown. *)
Definition configureWindowLevelControls (m_dicomImage : option CDicomImage)
    (ranges : SliderRanges) : option (SliderRanges * bool) :=
  match m_dicomImage with
  | None => Some (ranges, false)
  | Some img =>
      if negb (isValid img) then Some (ranges, false)
      else
        let pi := photometricInterpretation img in
        if bool_decide (pi = Rgb) || bool_decide (pi = PaletteColor)
        then Some (ranges, false)
        else
          let dims := dimensions img in
          let bitsStored :=
            if decide (bitsStored dims > 0) then bitsStored dims else 8 in
          shifted ← int_shl_1 bitsStored;
          maxPixelValue ← int_result (shifted - 1);
          centerRange ←
            (if isSigned dims then
               half ← int_shl_1 (bitsStored - 1);
               centerMin ← int_result (- half);
               centerMax ← int_result (half - 1);
               Some (centerMin, centerMax)
             else Some (0, maxPixelValue));
          widthMax ← int_result (maxPixelValue + 1);
          Some (mkRanges (fst centerRange) (snd centerRange)
                         kMinWindowWidth widthMax,
                true)
  end.

(** [std::round]: to the nearest integer, halfway cases away from zero. *)
Definition std_round (x : double) : double :=
  match x with
  | S754_finite s m e =>
      if decide (0 <= e) then x
      else
        let q := (Z.pos m + 2 ^ (- e - 1)) / 2 ^ (- e) in
        if decide (q = 0) then S754_zero s
        else binary_normalize Double.prec Double.emax (cond_Zopp s q) 0 s
  | _ => x
  end.

(** [static_cast<int>(x)]: the truncated value when it fits in [int]. *)
Definition to_int (x : double) : option Z :=
  z ← Double.trunc x; int_result z.

(** [syncWindowLevelControls]: the values given to the center and width
    sliders. *)
Definition syncWindowLevelControls (img : CDicomImage) (ranges : SliderRanges)
  : option (Z * Z) :=
  let wl := windowLevel img in
  roundedCenter ← to_int (std_round (center wl));
  centerValue ←
    int_clamp roundedCenter (m_windowCenterMin ranges) (m_windowCenterMax ranges);
  roundedWidth ← to_int (std_round (width wl));
  widthValue ←
    int_clamp roundedWidth (m_windowWidthMin ranges) (m_windowWidthMax ranges);
  Some (centerValue, widthValue).

(** *** Palette selector *)

(** [CColorPalette::availablePalettes]. *)
Definition availablePalettes : list EPaletteType :=
  [Grayscale; Inverted; Hot; Cool; Rainbow; Bone; Copper; Ocean].

(** [static_cast<int>(type)]. *)
Definition EPaletteType_to_int (type : EPaletteType) : Z :=
  match type with
  | Grayscale => 0 | Inverted => 1 | Hot => 2 | Cool => 3
  | Rainbow => 4 | Bone => 5 | Copper => 6 | Ocean => 7
  end.

(** The loop of [paletteIndex], from position [i]. *)
Fixpoint paletteIndex_from (types : list EPaletteType) (i : Z)
    (type : EPaletteType) : Z :=
  match types with
  | [] => -1
  | t :: types => if decide (t = type) then i else paletteIndex_from types (i + 1) type
  end.

Definition paletteIndex (m_paletteOptionTypes : list EPaletteType)
    (type : EPaletteType) : Z :=
  paletteIndex_from m_paletteOptionTypes 0 type.

(** ** Pixel-wise operations on a [QImage], for stating properties *)

(** The image with [f] applied to every byte of every scan line. *)
Definition mapPixels (f : Z -> Z) (q : QImage) : QImage :=
  match q with
  | QNull => QNull
  | QPixels w h format scanLines =>
      QPixels w h format ((λ row : list Z, f <$> row) <$> scanLines)
  end.

(** Bytes per pixel of a format. *)
Definition bytesPerPixelOf (format : QImageFormat) : Z :=
  match format with
  | Format_Grayscale8 => 1
  | Format_RGB888 => 3
  end.

(** ** [src/utils/CColorPalette]: the generators

    Every floating-point operation is rounded on its own (no fused
    multiply-add); a conversion of a [double] to [uint8_t] is
    [Double.to_uint8], undefined outside [0, 256). *)

(** [std::fmod(x, y)]: the exact remainder of the magnitudes, with the sign
    of [x]. *)
Definition std_fmod (x y : double) : double :=
  match x, y with
  | S754_nan, _ | _, S754_nan => S754_nan
  | S754_infinity _, _ => S754_nan
  | _, S754_zero _ => S754_nan
  | S754_zero _, _ => x
  | _, S754_infinity _ => x
  | S754_finite sx mx ex, S754_finite _ my ey =>
      let e := Z.min ex ey in
      let r := (Z.pos mx * 2 ^ (ex - e)) `mod` (Z.pos my * 2 ^ (ey - e)) in
      if decide (r = 0) then S754_zero sx
      else binary_normalize Double.prec Double.emax (cond_Zopp sx r) e sx
  end.

(** [std::abs(x)]. *)
Definition std_abs (x : double) : double :=
  match x with
  | S754_zero _ => S754_zero false
  | S754_infinity _ => S754_infinity false
  | S754_nan => S754_nan
  | S754_finite _ m e => S754_finite false m e
  end.

Definition lutColor : Type := Z * Z * Z.     (* std::array<uint8_t, 3> *)

(** [t = i / 255.0]. *)
Definition levelOf (i : Z) : double := quotient (Double.of_int i) (Double.of_int 255).

Definition grayscaleEntry (i : Z) : lutColor := (uint8_t i, uint8_t i, uint8_t i).

Definition invertedEntry (i : Z) : lutColor :=
  let v := uint8_t (255 - i) in (v, v, v).

Definition hotEntry (i : Z) : option lutColor :=
  let t := levelOf i in
  let c255 := Double.of_int 255 in
  r ←
    (if Double.ltb t (decimal 375 3)
     then Double.to_uint8 (Double.mul (quotient t (decimal 375 3)) c255)
     else Some 255);
  g ←
    (if Double.ltb t (decimal 375 3) then Some 0
     else if Double.ltb t (decimal 75 2)
     then Double.to_uint8
            (Double.mul (quotient (Double.sub t (decimal 375 3)) (decimal 375 3))
               c255)
     else Some 255);
  b ←
    (if Double.ltb t (decimal 75 2) then Some 0
     else Double.to_uint8
            (Double.mul (quotient (Double.sub t (decimal 75 2)) (decimal 25 2))
               c255));
  Some (r, g, b).

Definition coolEntry (i : Z) : option lutColor :=
  let t := levelOf i in
  let c255 := Double.of_int 255 in
  r ← Double.to_uint8 (Double.mul t c255);
  g ← Double.to_uint8 (Double.mul (Double.sub (Double.of_int 1) t) c255);
  Some (r, g, 255).

Definition rainbowEntry (i : Z) : option lutColor :=
  let t := levelOf i in
  let c255 := Double.of_int 255 in
  let one := Double.of_int 1 in
  let zero := Double.of_int 0 in
  let hue := Double.mul t (Double.of_int 300) in
  let c := one in
  let x :=
    Double.mul c
      (Double.sub one
         (std_abs
            (Double.sub
               (std_fmod (quotient hue (Double.of_int 60)) (Double.of_int 2))
               one))) in
  let '(r1, g1, b1) :=
    if Double.ltb hue (Double.of_int 60) then (c, x, zero)
    else if Double.ltb hue (Double.of_int 120) then (x, c, zero)
    else if Double.ltb hue (Double.of_int 180) then (zero, c, x)
    else if Double.ltb hue (Double.of_int 240) then (zero, x, c)
    else (x, zero, c) in
  r ← Double.to_uint8 (Double.mul r1 c255);
  g ← Double.to_uint8 (Double.mul g1 c255);
  b ← Double.to_uint8 (Double.mul b1 c255);
  Some (r, g, b).

(** The first assignments of [generateBone], which the "simplified bone
    palette" then overwrites. *)
Definition boneFirst (t : double) : option lutColor :=
  let c255 := Double.of_int 255 in
  let k746 := decimal 746 3 in
  let k254 := decimal 254 3 in
  let k375 := decimal 375 3 in
  if Double.ltb t k375 then
    r ← Double.to_uint8 (Double.mul (Double.mul (quotient t k375) k746) c255);
    g ← Double.to_uint8 (Double.mul (Double.mul (quotient t k375) k746) c255);
    b ← Double.to_uint8
          (Double.mul
             (Double.add (Double.mul (quotient t k375) k746)
                (quotient (Double.mul k254 t) k375))
             c255);
    Some (r, g, b)
  else if Double.ltb t (decimal 75 2) then
    let t2 := quotient (Double.sub t k375) k375 in
    r ← Double.to_uint8 (Double.mul (Double.add k746 (Double.mul t2 k254)) c255);
    g ← Double.to_uint8 (Double.mul (Double.add k746 (Double.mul t2 k254)) c255);
    b ← Double.to_uint8
          (Double.mul
             (Double.add (Double.add k746 k254) (Double.mul t2 (Double.of_int 0)))
             c255);
    Some (r, g, b)
  else
    let t3 := quotient (Double.sub t (decimal 75 2)) (decimal 25 2) in
    r ← Double.to_uint8
          (Double.mul (Double.add (Double.add k746 (Double.mul k254 t3)) k254) c255);
    Some (r, 255, 255).

Definition boneEntry (i : Z) : option lutColor :=
  let t := levelOf i in
  let c255 := Double.of_int 255 in
  _ ← boneFirst t;
  let shade :=
    std_min c255
      (Double.add (Double.mul (Double.mul t c255) (decimal 9 1))
         (Double.mul (Double.mul t t) (decimal 255 1))) in
  r ← Double.to_uint8 shade;
  g ← Double.to_uint8 shade;
  b ← Double.to_uint8 (std_min c255 (Double.mul (Double.mul t c255) (Double.of_int 1)));
  Some (r, g, b).

Definition copperEntry (i : Z) : option lutColor :=
  let t := levelOf i in
  let c255 := Double.of_int 255 in
  r ← Double.to_uint8 (std_min c255 (Double.mul (Double.mul t (decimal 125 2)) c255));
  g ← Double.to_uint8 (Double.mul (Double.mul t (decimal 7812 4)) c255);
  b ← Double.to_uint8 (Double.mul (Double.mul t (decimal 4975 4)) c255);
  Some (r, g, b).

Definition oceanEntry (i : Z) : option lutColor :=
  let t := levelOf i in
  let c255 := Double.of_int 255 in
  r ← Double.to_uint8 (Double.mul (Double.mul t t) c255);
  g ← Double.to_uint8 (Double.mul t c255);
  b ← Double.to_uint8
        (Double.mul (Double.add (decimal 4 1) (Double.mul (decimal 6 1) t)) c255);
  Some (r, g, b).

(** The loop [for (int i = 0; i < 256; ++i) m_lut[i] = ...] of a
    generator. *)
Definition generateGrayscale : option (list lutColor) :=
  Some (grayscaleEntry <$> upto 256).
Definition generateInverted : option (list lutColor) :=
  Some (invertedEntry <$> upto 256).
Definition generateHot : option (list lutColor) := mapM hotEntry (upto 256).
Definition generateCool : option (list lutColor) := mapM coolEntry (upto 256).
Definition generateRainbow : option (list lutColor) := mapM rainbowEntry (upto 256).
Definition generateBone : option (list lutColor) := mapM boneEntry (upto 256).
Definition generateCopper : option (list lutColor) := mapM copperEntry (upto 256).
Definition generateOcean : option (list lutColor) := mapM oceanEntry (upto 256).

Definition generateLut (type : EPaletteType) : option (list lutColor) :=
  match type with
  | Grayscale => generateGrayscale
  | Inverted => generateInverted
  | Hot => generateHot
  | Cool => generateCool
  | Rainbow => generateRainbow
  | Bone => generateBone
  | Copper => generateCopper
  | Ocean => generateOcean
  end.

(** [CColorPalette(type)]; [CColorPalette()] is [CColorPalette_new Grayscale]. *)
Definition CColorPalette_new (type : EPaletteType) : option CColorPalette :=
  lut ← generateLut type; Some (mkPalette type lut).

Definition CColorPalette_type (p : CColorPalette) : EPaletteType := m_type p.

Definition setType (p : CColorPalette) (type : EPaletteType) : option CColorPalette :=
  if bool_decide (m_type p <> type) then
    lut ← generateLut type; Some (mkPalette type lut)
  else Some p.

Definition paletteName (type : EPaletteType) : string :=
  match type with
  | Grayscale => "Grayscale"
  | Inverted => "Inverted"
  | Hot => "Hot (Thermal)"
  | Cool => "Cool"
  | Rainbow => "Rainbow"
  | Bone => "Bone"
  | Copper => "Copper"
  | Ocean => "Ocean"
  end.

(** [CImageConverter::setPalette(type)], which is [m_palette.setType(type)]. *)
Definition CImageConverter_setPalette (conv : CImageConverter) (type : EPaletteType)
  : option CImageConverter :=
  p ← setType (m_palette conv) type; Some (mkConverter p).

(** Whether a table has 256 entries, all of them bytes. *)
Definition lut_ok (lut : list lutColor) : bool :=
  bool_decide (Z.of_nat (length lut) = 256)
  && forallb (λ '(r, g, b),
                bool_decide (0 <= r <= 255 /\ 0 <= g <= 255 /\ 0 <= b <= 255))
       lut.

(** The palette's table is the one its generator builds for its type. *)
Definition palette_ok (p : CColorPalette) : Prop :=
  generateLut (m_type p) = Some (m_lut p).

(** The [RGB888] rendering of a [Grayscale8] image through a palette. *)
Definition applyPalette (p : CColorPalette) (q : QImage) : QImage :=
  match q with
  | QPixels w h Format_Grayscale8 scanLines =>
      QPixels w h Format_RGB888
        ((λ row : list Z,
            concat ((λ v, let '(r, g, b) := mapRgb p v in [r; g; b]) <$> row))
           <$> scanLines)
  | _ => q
  end.

(** ** Windows of moderate size

    The centre and the width are binary64 data, the centre between
    [-2^40] and [2^40] and the width between [1] and [2^40]; what the
    sliders can set lies well inside. *)
Definition window_in_range (wl : SWindowLevel) : bool :=
  Double.valid (center wl) && Double.valid (width wl)
  && Double.leb (Double.of_int (- 2 ^ 40)) (center wl)
  && Double.leb (center wl) (Double.of_int (2 ^ 40))
  && Double.leb (Double.of_int 1) (width wl)
  && Double.leb (width wl) (Double.of_int (2 ^ 40)).

(** ** Zoom factors the viewer keeps

    A binary64 datum between the wheel's limits [0.1] and [10]. *)
Definition zoom_in_range (zoom : double) : bool :=
  Double.valid zoom
  && Double.leb (decimal 1 1) zoom
  && Double.leb zoom (Double.of_int 10).

(** ** The slider slots with everything they run

    [CImageViewer::setWindowLevel(wl)] on a viewer that shows [img] and has
    its two sliders: the window is stored in the image, then
    [syncWindowLevelControls] computes the positions of the sliders, then,
    on the CPU path ([m_useCpuFallback]), [updateDisplayImage] converts the
    image.  The result is the image, the slider positions and the display
    image when it is recomputed. *)
Definition setWindowLevel_effects (conv : CImageConverter)
    (m_useCpuFallback : bool) (ranges : SliderRanges) (img : CDicomImage)
    (wl : SWindowLevel) : option (CDicomImage * (Z * Z) * option QImage) :=
  let img := setWindowLevel img wl in
  positions ← syncWindowLevelControls img ranges;
  m_displayImage ←
    (if m_useCpuFallback then
       if negb (isValid img) then Some (Some QNull)
       else
         q ← toQImage conv img (windowLevel img);
         Some (Some q)
     else Some None);
  Some (img, positions, m_displayImage).

(** The slots connected to [valueChanged(int)] of the two sliders. *)
Definition centerSliderMoved (conv : CImageConverter) (m_useCpuFallback : bool)
    (ranges : SliderRanges) (img : CDicomImage) (value : Z)
  : option (CDicomImage * (Z * Z) * option QImage) :=
  let wl := windowLevel img in
  setWindowLevel_effects conv m_useCpuFallback ranges img
    (mkWindowLevel (Double.of_int value) (width wl)).

Definition widthSliderMoved (conv : CImageConverter) (m_useCpuFallback : bool)
    (ranges : SliderRanges) (img : CDicomImage) (value : Z)
  : option (CDicomImage * (Z * Z) * option QImage) :=
  let wl := windowLevel img in
  setWindowLevel_effects conv m_useCpuFallback ranges img
    (mkWindowLevel (center wl)
       (Double.max (Double.of_int kMinWindowWidth) (Double.of_int value))).

(** The window the two slots leave when the center slider is at [c] and
    the width slider at [w]. *)
Definition slider_window (c w : Z) : SWindowLevel :=
  mkWindowLevel (Double.of_int c)
    (Double.max (Double.of_int kMinWindowWidth) (Double.of_int w)).

(** The positions [std::clamp] gives the sliders for that window. *)
Definition slider_positions (ranges : SliderRanges) (c w : Z) : Z * Z :=
  (Z.max (m_windowCenterMin ranges) (Z.min c (m_windowCenterMax ranges)),
   Z.max (m_windowWidthMin ranges)
     (Z.min (Z.max kMinWindowWidth w) (m_windowWidthMax ranges))).
(** * Properties *)

Lemma bind_Some_eq {A B} (x : A) (f : A -> option B) : Some x ≫= f = f x.
Proof. reflexivity. Qed.

Lemma definedb_is_Some {A} (o : option A) : definedb o = true -> is_Some o.
Proof. destruct o; [by eexists | done]. Qed.

(** ** Lists built by a counted loop *)

Lemma count_from_seqZ (steps : nat) (i : Z) :
  count_from steps i = seqZ i (Z.of_nat steps).
Proof.
  revert i. induction steps as [|n IH]; intros i; [done|].
  rewrite seqZ_cons by lia. cbn [count_from]. rewrite IH.
  do 2 f_equal; lia.
Qed.

Lemma upto_seqZ (n : Z) : upto n = seqZ 0 n.
Proof.
  unfold upto. rewrite count_from_seqZ.
  destruct (decide (0 <= n)).
  - by rewrite Z2Nat.id.
  - rewrite Z2Nat.nonpos by lia. by rewrite !seqZ_nil by lia.
Qed.

Section CountedLoop.

Context {A : Type} (f : Z -> option A).

Lemma mapM_upto_length (n : Z) (l : list A) :
  mapM f (upto n) = Some l -> length l = Z.to_nat n.
Proof.
  rewrite upto_seqZ.
  intros H. apply length_mapM in H. rewrite length_seqZ in H. done.
Qed.

Lemma mapM_upto_load (n : Z) (l : list A) (i : Z) :
  mapM f (upto n) = Some l -> 0 <= i < n -> load l i = f i.
Proof.
  rewrite upto_seqZ. intros H Hi. apply mapM_Some_1 in H.
  unfold load. rewrite decide_True by lia.
  assert (Hs : seqZ 0 n !! Z.to_nat i = Some i).
  { rewrite lookup_seqZ_lt by lia. f_equal. lia. }
  destruct (Forall2_lookup_l _ _ _ _ _ H Hs) as (y & Hy & Hf).
  rewrite Hy. done.
Qed.

Lemma mapM_upto_is_Some (n : Z) :
  (forall i, 0 <= i < n -> is_Some (f i)) -> is_Some (mapM f (upto n)).
Proof.
  rewrite upto_seqZ.
  intros H. apply mapM_is_Some_2, Forall_seqZ. intros i Hi. apply H. lia.
Qed.

Lemma mapM_upto_None (n : Z) :
  mapM f (upto n) = None -> exists i, 0 <= i < n /\ f i = None.
Proof.
  rewrite upto_seqZ.
  intros H. apply mapM_None_1, Exists_exists in H as (i & Hi & Hf).
  apply elem_of_seqZ in Hi. exists i. split; [lia | done].
Qed.

Lemma mapM_upto_None_intro (n i : Z) :
  0 <= i < n -> f i = None -> mapM f (upto n) = None.
Proof.
  rewrite upto_seqZ. intros Hi Hf. apply mapM_None_2, Exists_exists.
  exists i. split; [apply elem_of_seqZ; lia | done].
Qed.

End CountedLoop.

Lemma load_lt_length {A} (l : list A) (i : Z) :
  0 <= i < Z.of_nat (length l) -> is_Some (load l i).
Proof.
  intros Hi. unfold load. rewrite decide_True by lia.
  apply lookup_lt_is_Some. lia.
Qed.

Lemma load_Some_lt {A} (l : list A) (i : Z) (x : A) :
  load l i = Some x -> 0 <= i < Z.of_nat (length l).
Proof.
  unfold load. case_decide; [|done]. intros Hl%lookup_lt_Some. lia.
Qed.

(** ** Comparisons of doubles *)

Lemma of_int_0 : Double.of_int 0 = S754_zero false.
Proof. reflexivity. Qed.

Lemma of_int_1 : Double.of_int 1 = S754_finite false 4503599627370496 (-52).
Proof. reflexivity. Qed.

Lemma ltb_leb (x y : double) : Double.ltb x y = true -> Double.leb x y = true.
Proof.
  unfold Double.ltb, Double.leb, SFltb, SFleb.
  destruct (SFcompare x y) as [[]|]; done.
Qed.

Lemma leb_zero_not_positive (w : double) :
  Double.ltb (Double.of_int 0) w = true -> Double.leb w (Double.of_int 0) = false.
Proof. rewrite of_int_0. destruct w as [ | [] | | [] ? ?]; done. Qed.

Lemma guard_excludes_zero (w : double) :
  Double.leb w (Double.of_int 0) = false -> Double.is_zero w = false.
Proof. rewrite of_int_0. destruct w as [ | [] | | [] ? ?]; done. Qed.

Lemma div_defined_after_guard (x w : double) :
  Double.leb w (Double.of_int 0) = false ->
  Double.div x w = Some (SFdiv Double.prec Double.emax x w).
Proof.
  intros H. unfold Double.div. by rewrite (guard_excludes_zero _ H).
Qed.

Lemma div_by_two (x : double) :
  Double.div x (Double.of_int 2)
  = Some (SFdiv Double.prec Double.emax x (Double.of_int 2)).
Proof. reflexivity. Qed.

Lemma max_lower_bound (x : double) :
  Double.leb (Double.of_int 1) (Double.max (Double.of_int 1) x) = true.
Proof.
  unfold Double.max. destruct (Double.ltb (Double.of_int 1) x) eqn:E.
  - by apply ltb_leb.
  - reflexivity.
Qed.

(** ** Range of the table entries *)

Lemma to_uint8_range (x : double) (v : Z) :
  Double.to_uint8 x = Some v -> 0 <= v <= 255.
Proof.
  unfold Double.to_uint8. destruct (Double.trunc x) as [z|]; simpl; [|done].
  case_decide; [|done]. intros [= <-]. done.
Qed.

Lemma to_uint8_round_down (x : double) (v : Z) :
  Double.to_uint8 x = Some v -> uint8_t (round_down x) = v.
Proof.
  intros H. pose proof (to_uint8_range _ _ H) as Hr. revert H.
  unfold Double.to_uint8, round_down.
  destruct (Double.trunc x) as [z|]; simpl; [|done].
  case_decide; [|done]. intros [= <-].
  unfold uint8_t. apply Z.mod_small. lia.
Qed.

Lemma lutEntry_range lo up sc inv raw v :
  lutEntry lo up sc inv raw = Some v -> 0 <= v <= 255.
Proof.
  unfold lutEntry.
  destruct (Double.leb _ lo); [|destruct (Double.geb _ up)]; simpl.
  1,2: intros [= <-]; destruct inv; unfold uint8_t;
       rewrite ?Z.mod_small by lia; lia.
  destruct (Double.to_uint8 _) as [u|] eqn:E; simpl; [|done].
  apply to_uint8_range in E. intros [= <-].
  destruct inv; [|done]. unfold uint8_t. rewrite Z.mod_small; lia.
Qed.

(** ** Unfolding [buildWindowLevelLut] *)

Lemma buildWindowLevelLut_swap wl minValue maxValue inv :
  buildWindowLevelLut wl minValue maxValue inv
  = buildWindowLevelLut wl (domainMin minValue maxValue)
      (domainMax minValue maxValue) inv.
Proof.
  unfold buildWindowLevelLut, domainMin, domainMax.
  destruct (decide (maxValue < minValue)).
  - rewrite Z.min_r, Z.max_l by lia.
    rewrite (decide_False (P := minValue < maxValue)) by lia. done.
  - rewrite Z.min_l, Z.max_r by lia.
    rewrite (decide_False (P := maxValue < minValue)) by lia. done.
Qed.

Lemma buildWindowLevelLut_positive wl minValue maxValue inv :
  minValue <= maxValue ->
  maxValue - minValue + 1 <= INT_MAX ->
  Double.leb (width wl) (Double.of_int 0) = false ->
  buildWindowLevelLut wl minValue maxValue inv
  = mapM (λ i,
            lutEntry
              (Double.sub (center wl)
                 (SFdiv Double.prec Double.emax (width wl) (Double.of_int 2)))
              (Double.add (center wl)
                 (SFdiv Double.prec Double.emax (width wl) (Double.of_int 2)))
              (SFdiv Double.prec Double.emax (Double.of_int 255) (width wl))
              inv (minValue + i))
         (upto (maxValue - minValue + 1)).
Proof.
  intros Hle Hr Hw. unfold buildWindowLevelLut.
  rewrite (decide_False (P := maxValue < minValue)) by lia.
  rewrite (decide_False (P := INT_MAX < _)) by lia.
  rewrite Hw, div_by_two. simpl.
  rewrite (div_defined_after_guard _ _ Hw). done.
Qed.

Lemma buildWindowLevelLut_Some_range wl minValue maxValue inv lut :
  buildWindowLevelLut wl minValue maxValue inv = Some lut ->
  domainMax minValue maxValue - domainMin minValue maxValue + 1 <= INT_MAX.
Proof.
  rewrite buildWindowLevelLut_swap.
  unfold buildWindowLevelLut, domainMin, domainMax.
  rewrite (decide_False (P := Z.max _ _ < Z.min _ _)) by lia.
  case_decide; [done | lia].
Qed.

Lemma lutEntry_spec wl inv v r :
  lutEntry
    (Double.sub (center wl)
       (SFdiv Double.prec Double.emax (width wl) (Double.of_int 2)))
    (Double.add (center wl)
       (SFdiv Double.prec Double.emax (width wl) (Double.of_int 2)))
    (SFdiv Double.prec Double.emax (Double.of_int 255) (width wl))
    inv v = Some r ->
  r = windowLevelEntry_spec wl inv v.
Proof.
  unfold lutEntry, windowLevelEntry_spec.
  destruct (Double.leb _ _); [|destruct (Double.geb _ _)]; simpl.
  1,2: intros [= <-]; destruct inv; done.
  destruct (Double.to_uint8 _) as [u|] eqn:E; simpl; [|done].
  intros [= <-]. rewrite (to_uint8_round_down _ _ E).
  apply to_uint8_range in E.
  destruct inv; [|done]. unfold uint8_t. rewrite Z.mod_small; lia.
Qed.

Lemma buildWindowLevelLut_length wl minValue maxValue inv lut :
  buildWindowLevelLut wl minValue maxValue inv = Some lut ->
  length lut
  = Z.to_nat (domainMax minValue maxValue - domainMin minValue maxValue + 1).
Proof.
  intros Hb.
  pose proof (buildWindowLevelLut_Some_range _ _ _ _ _ Hb) as Hr.
  rewrite buildWindowLevelLut_swap in Hb.
  set (lo := domainMin minValue maxValue) in *.
  set (hi := domainMax minValue maxValue) in *.
  assert (Hle : lo <= hi) by (unfold lo, hi, domainMin, domainMax; lia).
  destruct (Double.leb (width wl) (Double.of_int 0)) eqn:Hw.
  - unfold buildWindowLevelLut in Hb.
    rewrite (decide_False (P := hi < lo)) in Hb by lia.
    rewrite (decide_False (P := INT_MAX < _)) in Hb by lia.
    rewrite Hw in Hb. injection Hb as <-. by rewrite length_replicate.
  - rewrite buildWindowLevelLut_positive in Hb by done.
    by apply mapM_upto_length in Hb.
Qed.

Lemma buildWindowLevelLut_bytes wl minValue maxValue inv lut :
  buildWindowLevelLut wl minValue maxValue inv = Some lut -> wf_bytes lut.
Proof.
  intros Hb.
  pose proof (buildWindowLevelLut_Some_range _ _ _ _ _ Hb) as Hr.
  rewrite buildWindowLevelLut_swap in Hb.
  set (lo := domainMin minValue maxValue) in *.
  set (hi := domainMax minValue maxValue) in *.
  assert (Hle : lo <= hi) by (unfold lo, hi, domainMin, domainMax; lia).
  destruct (Double.leb (width wl) (Double.of_int 0)) eqn:Hw.
  - unfold buildWindowLevelLut in Hb.
    rewrite (decide_False (P := hi < lo)) in Hb by lia.
    rewrite (decide_False (P := INT_MAX < _)) in Hb by lia.
    rewrite Hw in Hb. injection Hb as <-.
    apply Forall_replicate. lia.
  - rewrite buildWindowLevelLut_positive in Hb by done.
    rewrite upto_seqZ in Hb. apply mapM_Some_1 in Hb.
    apply Forall_lookup. intros i v Hv.
    destruct (Forall2_lookup_r _ _ _ _ _ Hb Hv) as (x & _ & Hx).
    by apply lutEntry_range in Hx.
Qed.

(** The table in terms of the loop body, for a window of positive width. *)
Lemma buildWindowLevelLut_lookup wl minValue maxValue inv lut v :
  Double.ltb (Double.of_int 0) (width wl) = true ->
  buildWindowLevelLut wl minValue maxValue inv = Some lut ->
  domainMin minValue maxValue <= v <= domainMax minValue maxValue ->
  load lut (v - domainMin minValue maxValue)
  = lutEntry
      (Double.sub (center wl)
         (SFdiv Double.prec Double.emax (width wl) (Double.of_int 2)))
      (Double.add (center wl)
         (SFdiv Double.prec Double.emax (width wl) (Double.of_int 2)))
      (SFdiv Double.prec Double.emax (Double.of_int 255) (width wl))
      inv v.
Proof.
  intros Hw Hb Hv.
  pose proof (buildWindowLevelLut_Some_range _ _ _ _ _ Hb) as Hr.
  rewrite buildWindowLevelLut_swap in Hb.
  set (lo := domainMin minValue maxValue) in *.
  set (hi := domainMax minValue maxValue) in *.
  assert (Hle : lo <= hi) by (unfold lo, hi, domainMin, domainMax; lia).
  rewrite buildWindowLevelLut_positive in Hb
    by auto using leb_zero_not_positive.
  pose proof (mapM_upto_load _ _ _ (v - lo) Hb ltac:(lia)) as Hl.
  cbv beta in Hl. by replace (lo + (v - lo)) with v in Hl by lia.
Qed.

(** ** Sample reads and table indices *)

Lemma size_t_small (z : Z) : 0 <= z < 2 ^ 64 -> size_t z = z.
Proof. intros H. unfold size_t. by apply Z.mod_small. Qed.

Lemma load_wf_bytes (data : list Z) (i b : Z) :
  wf_bytes data -> load data i = Some b -> 0 <= b <= 255.
Proof.
  unfold wf_bytes, load. intros Hwf. case_decide; [|done].
  intros Hl. by apply (Forall_lookup_1 _ _ _ _ Hwf Hl).
Qed.

Lemma load_uint16_range (data : list Z) (i u : Z) :
  wf_bytes data -> load_uint16 data i = Some u -> 0 <= u <= 65535.
Proof.
  intros Hwf. unfold load_uint16.
  destruct (load data (2 * i)) as [b0|] eqn:E0; simpl; [|done].
  destruct (load data (2 * i + 1)) as [b1|] eqn:E1; simpl; [|done].
  intros [= <-].
  apply (load_wf_bytes _ _ _ Hwf) in E0, E1. lia.
Qed.

Lemma load_int16_range (data : list Z) (i s : Z) :
  wf_bytes data -> load_int16 data i = Some s -> -32768 <= s <= 32767.
Proof.
  intros Hwf. unfold load_int16.
  destruct (load_uint16 data i) as [u|] eqn:E; simpl; [|done].
  apply (load_uint16_range _ _ _ Hwf) in E.
  intros [= <-]. case_decide; lia.
Qed.

Lemma load_uint16_defined (data : list Z) (i : Z) :
  0 <= i -> 2 * i + 1 < Z.of_nat (length data) -> is_Some (load_uint16 data i).
Proof.
  intros H0 H1. unfold load_uint16.
  destruct (load_lt_length data (2 * i)) as [b0 ->]; [lia|].
  destruct (load_lt_length data (2 * i + 1)) as [b1 ->]; [lia|].
  by eexists.
Qed.

Lemma load_int16_defined (data : list Z) (i : Z) :
  0 <= i -> 2 * i + 1 < Z.of_nat (length data) -> is_Some (load_int16 data i).
Proof.
  intros H0 H1. unfold load_int16.
  destruct (load_uint16_defined data i H0 H1) as [u ->]. by eexists.
Qed.

Lemma windowed8_defined (lut data : list Z) (index : Z) :
  wf_bytes data -> Z.of_nat (length lut) = 256 ->
  0 <= index < Z.of_nat (length data) ->
  is_Some (windowed8 lut data index).
Proof.
  intros Hwf Hlen Hi. unfold windowed8.
  destruct (load_lt_length data index Hi) as [b Hb]. rewrite Hb. simpl.
  apply (load_wf_bytes _ _ _ Hwf) in Hb.
  apply load_lt_length. lia.
Qed.

Lemma windowed16_defined (lut data : list Z) (isSigned : bool) (index : Z) :
  wf_bytes data -> Z.of_nat (length lut) = 65536 ->
  0 <= index -> 2 * index + 1 < Z.of_nat (length data) ->
  is_Some (windowed16 lut isSigned data
             (- fst (sampleDomain true isSigned)) index).
Proof.
  intros Hwf Hlen H0 H1. unfold windowed16.
  destruct isSigned; simpl.
  - destruct (load_int16_defined data index H0 H1) as [s Hs]. rewrite Hs. simpl.
    apply (load_int16_range _ _ _ Hwf) in Hs.
    apply load_lt_length. lia.
  - destruct (load_uint16_defined data index H0 H1) as [u Hu]. rewrite Hu. simpl.
    apply (load_uint16_range _ _ _ Hwf) in Hu.
    apply load_lt_length. lia.
Qed.

(** ** Scan lines *)

Lemma grayScanLines_defined (pixel : Z -> option Z) (w h : Z) :
  0 <= w -> 0 <= h -> w * h < 2 ^ 64 ->
  (forall i, 0 <= i < w * h -> is_Some (pixel i)) ->
  is_Some (grayScanLines pixel w h).
Proof.
  intros Hw Hh Hwh Hp. unfold grayScanLines.
  apply mapM_upto_is_Some. intros y Hy. cbv zeta.
  apply mapM_upto_is_Some. intros x Hx.
  assert (0 <= y * w + x < w * h) by nia.
  rewrite (size_t_small (y * w)) by nia.
  rewrite size_t_small by lia. apply Hp. lia.
Qed.

Lemma grayScanLines_pixel (pixel : Z -> option Z) (w h : Z) rows y x :
  0 <= w -> 0 <= h -> w * h < 2 ^ 64 ->
  grayScanLines pixel w h = Some rows ->
  0 <= y < h -> 0 <= x < w ->
  (load rows y ≫= λ row, load row x) = pixel (y * w + x).
Proof.
  intros Hw Hh Hwh Hg Hy Hx. unfold grayScanLines in Hg.
  pose proof (mapM_upto_load _ _ _ y Hg Hy) as Hrow. cbv zeta beta in Hrow.
  destruct (load rows y) as [row|] eqn:E.
  - simpl. symmetry in Hrow.
    rewrite (mapM_upto_load _ _ _ x Hrow Hx).
    assert (0 <= y * w + x < w * h) by nia.
    rewrite (size_t_small (y * w)) by nia.
    by rewrite size_t_small by lia.
  - exfalso. apply mapM_upto_length in Hg.
    destruct (load_lt_length rows y) as [? ?]; [lia | congruence].
Qed.

Lemma rgbScanLines_defined (rgbLut : list (Z * Z * Z)) (pixel : Z -> option Z)
    (w h : Z) :
  0 <= w -> 0 <= h -> w * h < 2 ^ 64 ->
  Z.of_nat (length rgbLut) = 256 ->
  (forall i, 0 <= i < w * h -> exists v, pixel i = Some v /\ 0 <= v <= 255) ->
  is_Some (rgbScanLines rgbLut pixel w h).
Proof.
  intros Hw Hh Hwh Hlen Hp. unfold rgbScanLines.
  apply mapM_upto_is_Some. intros y Hy. cbv zeta.
  assert (Hrow : is_Some
    (mapM (λ x, value ← pixel (size_t (size_t (y * w) + x));
                '(r, g, b) ← load rgbLut value; Some [r; g; b]) (upto w))).
  { apply mapM_upto_is_Some. intros x Hx.
    assert (0 <= y * w + x < w * h) by nia.
    rewrite (size_t_small (y * w)) by nia.
    rewrite size_t_small by lia.
    destruct (Hp (y * w + x)) as (v & -> & Hv); [lia|]. simpl.
    destruct (load_lt_length rgbLut v) as [[[r g] b] ->]; [lia|].
    by eexists. }
  destruct Hrow as [triples ->]. by eexists.
Qed.

(** ** The image that is filled *)

Lemma int_of_uint32_small (u : Z) : u <= INT_MAX -> int_of_uint32 u = u.
Proof. intros Hu. unfold int_of_uint32. by rewrite decide_True. Qed.

Lemma int_of_uint32_positive (u : Z) :
  0 <= u <= UINT32_MAX -> 0 < int_of_uint32 u ->
  int_of_uint32 u = u /\ 0 < u <= INT_MAX.
Proof.
  unfold int_of_uint32. intros Hu.
  destruct (decide (u <= INT_MAX)) as [Hle|Hgt]; [lia|].
  change (2 ^ 32) with 4294967296.
  unfold UINT32_MAX in Hu. lia.
Qed.

Lemma filled_int (w h : Z) (format : QImageFormat) (written : bool)
    (scanLines : list (list Z)) :
  0 < w <= INT_MAX -> 0 < h <= INT_MAX ->
  filled (int_of_uint32 w) (int_of_uint32 h) format written scanLines
  = Some (QPixels w h format scanLines).
Proof.
  intros Hw Hh. unfold filled.
  rewrite !int_of_uint32_small by lia.
  by rewrite bool_decide_false by lia.
Qed.

Lemma filled_written_not_null (width height : Z) (format : QImageFormat)
    (scanLines : list (list Z)) :
  filled width height format true scanLines <> Some QNull.
Proof. unfold filled. by case_bool_decide. Qed.

Lemma filled_Some_inv (w h : Z) (format : QImageFormat)
    (scanLines : list (list Z)) (q : QImage) :
  0 <= w <= UINT32_MAX -> 0 <= h <= UINT32_MAX ->
  filled (int_of_uint32 w) (int_of_uint32 h) format true scanLines = Some q ->
  q = QPixels w h format scanLines /\ 0 < w <= INT_MAX /\ 0 < h <= INT_MAX.
Proof.
  unfold filled. intros Hw Hh. case_bool_decide as Hn; [done|].
  intros [= <-].
  destruct (int_of_uint32_positive w Hw ltac:(lia)) as [-> Hw'].
  destruct (int_of_uint32_positive h Hh ltac:(lia)) as [-> Hh'].
  done.
Qed.

(** ** [convertMonochrome] *)

Lemma imageLut_length img wl lut :
  imageLut img wl = Some lut ->
  Z.of_nat (length lut)
  = if bool_decide (bitsPerSample img = 16) then 65536 else 256.
Proof.
  unfold imageLut.
  destruct (bool_decide (bitsPerSample img = 16)), (isPixelSigned img); simpl;
    intros H%buildWindowLevelLut_length; rewrite H;
    rewrite Z2Nat.id by (vm_compute; discriminate); reflexivity.
Qed.

Lemma imageLut_bytes img wl lut : imageLut img wl = Some lut -> wf_bytes lut.
Proof.
  unfold imageLut. destruct (sampleDomain _ _).
  apply buildWindowLevelLut_bytes.
Qed.

Lemma monochromePixel_defined img wl lut i :
  wf_bytes (pixelData img) ->
  imageLut img wl = Some lut ->
  0 <= i ->
  (i + 1) * bytesPerPixel img <= Z.of_nat (length (pixelData img)) ->
  exists v, monochromePixel img lut i = Some v /\ 0 <= v <= 255.
Proof.
  intros Hwf Hlut Hi Hlen.
  pose proof (imageLut_length _ _ _ Hlut) as HL.
  pose proof (imageLut_bytes _ _ _ Hlut) as HB.
  unfold monochromePixel, bytesPerPixel in *.
  destruct (bool_decide (bitsPerSample img = 16)).
  - destruct (windowed16_defined lut (pixelData img) (isPixelSigned img) i)
      as [v Hv]; [done | done | lia | lia |].
    exists v. split; [done|].
    unfold windowed16 in Hv.
    destruct (if isPixelSigned img then _ else _); simpl in Hv; [|done].
    by apply (load_wf_bytes _ _ _ HB) in Hv.
  - destruct (windowed8_defined lut (pixelData img) i) as [v Hv];
      [done | done | lia |].
    exists v. split; [done|].
    unfold windowed8 in Hv.
    destruct (load (pixelData img) i); simpl in Hv; [|done].
    by apply (load_wf_bytes _ _ _ HB) in Hv.
Qed.

(** The size test of [convertMonochrome], free of wrap-around. *)
Lemma monochrome_expectedSize img :
  wf_dimensions (dimensions img) ->
  dim_width (dimensions img) * dim_height (dimensions img) * bytesPerPixel img
    < 2 ^ 64 ->
  size_t (size_t (dim_width (dimensions img) * dim_height (dimensions img))
          * (if bool_decide (bitsPerSample img = 16) then 2 else 1))
  = dim_width (dimensions img) * dim_height (dimensions img) * bytesPerPixel img.
Proof.
  intros [Hw Hh] Hlt. unfold bytesPerPixel in *.
  assert (0 <= dim_width (dimensions img) * dim_height (dimensions img)) by nia.
  rewrite (size_t_small (_ * dim_height _)).
  - apply size_t_small. split; [|done]. case_bool_decide; lia.
  - split; [done|]. case_bool_decide; lia.
Qed.

Lemma convertMonochrome_unfold conv img wl :
  wf_dimensions (dimensions img) ->
  dim_width (dimensions img) * dim_height (dimensions img) * bytesPerPixel img
    < 2 ^ 64 ->
  convertMonochrome conv img wl
  = if bool_decide (pixelData img = []) then Some QNull
    else if bool_decide
              (Z.of_nat (length (pixelData img))
               < dim_width (dimensions img) * dim_height (dimensions img)
                 * bytesPerPixel img)
    then Some QNull
    else
      lut ← imageLut img wl;
      let written :=
        bool_decide (0 < dim_height (dimensions img)
                     /\ 0 < dim_width (dimensions img)) in
      if bool_decide (m_type (m_palette conv) = Grayscale) then
        scanLines ← grayScanLines (monochromePixel img lut)
                      (dim_width (dimensions img)) (dim_height (dimensions img));
        filled (int_of_uint32 (dim_width (dimensions img)))
          (int_of_uint32 (dim_height (dimensions img)))
          Format_Grayscale8 written scanLines
      else
        scanLines ← rgbScanLines
                      ((λ i, mapRgb (m_palette conv) (uint8_t i)) <$> upto 256)
                      (monochromePixel img lut)
                      (dim_width (dimensions img)) (dim_height (dimensions img));
        filled (int_of_uint32 (dim_width (dimensions img)))
          (int_of_uint32 (dim_height (dimensions img)))
          Format_RGB888 written scanLines.
Proof.
  intros Hd Hlt. unfold convertMonochrome.
  rewrite (monochrome_expectedSize img Hd Hlt).
  unfold imageLut, monochromePixel.
  destruct (bool_decide (pixelData img = [])); [done|].
  destruct (bool_decide (_ < _)); [done|].
  destruct (bool_decide (m_type (m_palette conv) = Grayscale));
    destruct (bool_decide (bitsPerSample img = 16)), (isPixelSigned img);
    reflexivity.
Qed.

Lemma convertMonochrome_null_iff conv img wl :
  wf_dimensions (dimensions img) ->
  0 < dim_width (dimensions img) -> 0 < dim_height (dimensions img) ->
  dim_width (dimensions img) * dim_height (dimensions img) * bytesPerPixel img
    < 2 ^ 64 ->
  convertMonochrome conv img wl = Some QNull <->
  pixelData img = [] \/
  Z.of_nat (length (pixelData img))
  < dim_width (dimensions img) * dim_height (dimensions img) * bytesPerPixel img.
Proof.
  intros Hd Hw0 Hh0 Hlt. rewrite (convertMonochrome_unfold _ _ _ Hd Hlt).
  cbv zeta.
  rewrite (bool_decide_true (0 < dim_height (dimensions img)
                             /\ 0 < dim_width (dimensions img))) by done.
  destruct (bool_decide_reflect (pixelData img = [])) as [H1|H1];
    [by split; [left|] |].
  destruct (bool_decide_reflect
              (Z.of_nat (length (pixelData img))
               < dim_width (dimensions img) * dim_height (dimensions img)
                 * bytesPerPixel img))
    as [H2|H2]; [by split; [right|] |].
  split; [|by intros [|]].
  destruct (imageLut img wl); [rewrite bind_Some_eq | done].
  destruct (bool_decide _).
  - destruct (grayScanLines _ _ _); [rewrite bind_Some_eq | done].
    intros Hq. by apply filled_written_not_null in Hq.
  - destruct (rgbScanLines _ _ _ _); [rewrite bind_Some_eq | done].
    intros Hq. by apply filled_written_not_null in Hq.
Qed.

Lemma rgbLut_length (p : CColorPalette) :
  Z.of_nat (length ((λ i, mapRgb p (uint8_t i)) <$> upto 256)) = 256.
Proof. by rewrite length_fmap. Qed.

Lemma convertMonochrome_defined conv img wl lut :
  wf_image img ->
  0 < dim_width (dimensions img) <= INT_MAX ->
  0 < dim_height (dimensions img) <= INT_MAX ->
  dim_width (dimensions img) * dim_height (dimensions img) * bytesPerPixel img
    < 2 ^ 64 ->
  pixelData img <> [] ->
  dim_width (dimensions img) * dim_height (dimensions img) * bytesPerPixel img
    <= Z.of_nat (length (pixelData img)) ->
  imageLut img wl = Some lut ->
  exists scanLines,
    convertMonochrome conv img wl
    = Some (QPixels (dim_width (dimensions img)) (dim_height (dimensions img))
              (if bool_decide (m_type (m_palette conv) = Grayscale)
               then Format_Grayscale8 else Format_RGB888)
              scanLines) /\
    (m_type (m_palette conv) = Grayscale ->
     grayScanLines (monochromePixel img lut)
       (dim_width (dimensions img)) (dim_height (dimensions img))
     = Some scanLines).
Proof.
  intros [Hb Hd] Hwi Hhi Hlt Hne Hlen Hlut.
  rewrite (convertMonochrome_unfold _ _ _ Hd Hlt).
  rewrite bool_decide_false by done.
  rewrite bool_decide_false by lia.
  rewrite Hlut, bind_Some_eq. cbv zeta.
  destruct Hd as [Hw Hh].
  assert (Hbpp : 1 <= bytesPerPixel img)
    by (unfold bytesPerPixel; case_bool_decide; lia).
  assert (Hwh : dim_width (dimensions img) * dim_height (dimensions img) < 2 ^ 64)
    by nia.
  assert (Hpix : forall i,
    0 <= i < dim_width (dimensions img) * dim_height (dimensions img) ->
    exists v, monochromePixel img lut i = Some v /\ 0 <= v <= 255).
  { intros i Hi. apply (monochromePixel_defined img wl); [done | done | lia | nia]. }
  case_bool_decide as Hg.
  - destruct (grayScanLines_defined (monochromePixel img lut)
                (dim_width (dimensions img)) (dim_height (dimensions img)))
      as [rows Hrows]; [lia | lia | done | |].
    { intros i Hi. destruct (Hpix i Hi) as (v & -> & _). by eexists. }
    exists rows. rewrite Hrows, bind_Some_eq. by rewrite filled_int.
  - destruct (rgbScanLines_defined
                ((λ i, mapRgb (m_palette conv) (uint8_t i)) <$> upto 256)
                (monochromePixel img lut)
                (dim_width (dimensions img)) (dim_height (dimensions img)))
      as [rows Hrows]; [lia | lia | done | apply rgbLut_length | done |].
    exists rows. rewrite Hrows, bind_Some_eq. by rewrite filled_int.
Qed.

Lemma monochromePixel_pixelSample img lut index :
  monochromePixel img lut index
  = pixelSample img index ≫= λ pv,
      load lut (pv + - fst (sampleDomain (bool_decide (bitsPerSample img = 16))
                              (isPixelSigned img))).
Proof.
  unfold monochromePixel, pixelSample, windowed16, windowed8.
  destruct (bool_decide (bitsPerSample img = 16)); [done|].
  destruct (load (pixelData img) index) as [b|]; simpl; [|done].
  by rewrite Z.add_0_r.
Qed.

Lemma pixelSample_in_domain img index pv :
  wf_bytes (pixelData img) ->
  pixelSample img index = Some pv ->
  fst (sampleDomain (bool_decide (bitsPerSample img = 16)) (isPixelSigned img))
  <= pv <=
  snd (sampleDomain (bool_decide (bitsPerSample img = 16)) (isPixelSigned img)).
Proof.
  intros Hwf. unfold pixelSample.
  destruct (bool_decide (bitsPerSample img = 16)); simpl.
  - destruct (isPixelSigned img); simpl.
    + by apply load_int16_range.
    + by apply load_uint16_range.
  - by apply load_wf_bytes.
Qed.

(** ** [convertRgb] *)

Lemma convertRgb_null_iff img :
  wf_dimensions (dimensions img) ->
  0 < dim_height (dimensions img) ->
  dim_width (dimensions img) * dim_height (dimensions img) * 3 < 2 ^ 64 ->
  convertRgb img = Some QNull <->
  pixelData img = [] \/
  Z.of_nat (length (pixelData img))
  < dim_width (dimensions img) * dim_height (dimensions img) * 3.
Proof.
  intros [Hw Hh] Hh0 Hlt. unfold convertRgb.
  assert (0 <= dim_width (dimensions img) * dim_height (dimensions img)) by nia.
  rewrite (size_t_small (_ * dim_height _)) by lia.
  rewrite (size_t_small (_ * 3)) by lia.
  destruct (bool_decide_reflect (pixelData img = [])) as [H1|H1];
    [by split; [left|] |].
  destruct (bool_decide_reflect
              (Z.of_nat (length (pixelData img))
               < dim_width (dimensions img) * dim_height (dimensions img) * 3))
    as [H2|H2]; [by split; [right|] |].
  split; [|by intros [|]].
  rewrite (bool_decide_true (0 < dim_height (dimensions img))) by done.
  destruct (mapM _ _); [rewrite bind_Some_eq | done].
  intros Hq. by apply filled_written_not_null in Hq.
Qed.

Lemma convertRgb_copy img :
  wf_dimensions (dimensions img) ->
  0 < dim_width (dimensions img) <= INT_MAX ->
  0 < dim_height (dimensions img) <= INT_MAX ->
  dim_width (dimensions img) * dim_height (dimensions img) * 3 < 2 ^ 64 ->
  pixelData img <> [] ->
  dim_width (dimensions img) * dim_height (dimensions img) * 3
    <= Z.of_nat (length (pixelData img)) ->
  convertRgb img
  = Some (QPixels (dim_width (dimensions img)) (dim_height (dimensions img))
            Format_RGB888
            ((λ y, take (Z.to_nat (dim_width (dimensions img) * 3))
                     (drop (Z.to_nat (y * (dim_width (dimensions img) * 3)))
                        (pixelData img)))
             <$> upto (dim_height (dimensions img)))).
Proof.
  intros [Hw Hh] Hwi Hhi Hlt Hne Hlen. unfold convertRgb.
  assert (0 <= dim_width (dimensions img) * dim_height (dimensions img)) by nia.
  rewrite (size_t_small (_ * dim_height _)) by lia.
  rewrite (size_t_small (_ * 3)) by lia.
  rewrite bool_decide_false by done.
  rewrite bool_decide_false by lia.
  assert (H64 : (2 ^ 64 = 18446744073709551616)%Z) by reflexivity.
  assert (HU : UINT32_MAX = 4294967295) by reflexivity.
  rewrite (size_t_small (dim_width _ * 3)) by lia.
  cbv zeta.
  match goal with
  | |- mapM ?f ?l ≫= _ = Some (QPixels _ _ _ (?g <$> _)) =>
      assert (Hm : mapM f l = Some (g <$> l))
  end.
  { apply mapM_Some_2, Forall2_fmap_r, Forall_Forall2_diag.
    rewrite upto_seqZ. apply Forall_seqZ. intros y Hy.
    rewrite size_t_small by nia.
    unfold memcpy. rewrite decide_True by nia. done. }
  rewrite Hm, bind_Some_eq. by rewrite filled_int.
Qed.

Lemma load_fmap {A B} (f : A -> B) (l : list A) (i : Z) :
  load (f <$> l) i = f <$> load l i.
Proof. unfold load. case_decide; [apply list_lookup_fmap | done]. Qed.

Lemma load_upto (n i : Z) : 0 <= i < n -> load (upto n) i = Some i.
Proof.
  intros Hi. unfold load. rewrite decide_True by lia.
  rewrite upto_seqZ, lookup_seqZ_lt by lia. f_equal. lia.
Qed.

Lemma load_take_drop {A} (l : list A) (off n k : Z) :
  0 <= off -> 0 <= k < n ->
  load (take (Z.to_nat n) (drop (Z.to_nat off) l)) k = load l (off + k).
Proof.
  intros Ho Hk. unfold load. rewrite !decide_True by lia.
  rewrite lookup_take_lt by lia. rewrite lookup_drop. f_equal. lia.
Qed.

(** The table of the 16-bit scenario (center 32768, width 65536) exists. *)
Lemma scenario16_defined :
  is_Some (buildWindowLevelLut wl_32768_65536 0 65535 false).
Proof. apply definedb_is_Some. vm_compute. reflexivity. Qed.

(** Inversion acts on the finished entry. *)
Lemma lutEntry_invert lo up sc raw :
  lutEntry lo up sc true raw = (λ a, 255 - a) <$> lutEntry lo up sc false raw.
Proof.
  unfold lutEntry.
  destruct (Double.leb _ lo); [done|]. destruct (Double.geb _ up); [done|].
  destruct (Double.to_uint8 _) as [u|] eqn:E; [|done]. simpl.
  apply to_uint8_range in E. unfold uint8_t. by rewrite Z.mod_small by lia.
Qed.

(** * Rounding in [SpecFloat]

    The facts about binary64 rounding the monotonicity of the lookup table
    rests on: data produced by the operations are canonical, comparison of
    canonical data is comparison of their values, and rounding to nearest
    is monotone. *)

(** ** Powers of two and bit lengths *)

Lemma pow2_pos (n : Z) : 0 <= n -> 0 < 2 ^ n.
Proof. intros. by apply Z.pow_pos_nonneg. Qed.

Lemma pow2_le (a b : Z) : 0 <= a <= b -> 2 ^ a <= 2 ^ b.
Proof. intros. apply Z.pow_le_mono_r; lia. Qed.

Lemma pow2_lt (a b : Z) : 0 <= a < b -> 2 ^ a < 2 ^ b.
Proof. intros. apply Z.pow_lt_mono_r; lia. Qed.

Lemma pow2_split (a b : Z) : 0 <= a -> 0 <= b -> 2 ^ (a + b) = 2 ^ a * 2 ^ b.
Proof. intros. by apply Z.pow_add_r. Qed.

Lemma pow2_succ (a : Z) : 0 <= a -> 2 ^ (a + 1) = 2 * 2 ^ a.
Proof. intros. rewrite Z.pow_add_r by lia. lia. Qed.

Lemma digits2_pos_log2 (m : positive) :
  Z.pos (digits2_pos m) = Z.log2 (Z.pos m) + 1.
Proof.
  induction m as [p IH | p IH |]; cbn [digits2_pos]; [| | done].
  - rewrite Pos2Z.inj_succ, IH.
    change (Z.pos p~1) with (2 * Z.pos p + 1).
    rewrite Z.log2_succ_double by lia. lia.
  - rewrite Pos2Z.inj_succ, IH.
    change (Z.pos p~0) with (2 * Z.pos p).
    rewrite Z.log2_double by lia. lia.
Qed.

Lemma log2_bounds (m : Z) : 0 < m -> 2 ^ Z.log2 m <= m < 2 ^ (Z.log2 m + 1).
Proof. intros H. pose proof (Z.log2_spec m H). lia. Qed.

Lemma log2_shift (m k : Z) :
  0 < m -> 0 <= k -> Z.log2 (m * 2 ^ k) = Z.log2 m + k.
Proof. intros. rewrite Z.log2_mul_pow2 by lia. lia. Qed.

Lemma log2_lt_pow2_iff (m k : Z) : 0 < m -> 0 <= k -> (m < 2 ^ k <-> Z.log2 m < k).
Proof. intros. by apply Z.log2_lt_pow2. Qed.

Lemma log2_le_pow2_iff (m k : Z) : 0 < m -> 0 <= k -> (2 ^ k <= m <-> k <= Z.log2 m).
Proof. intros. by apply Z.log2_le_pow2. Qed.

(** ** Iterated right shift *)

Lemma iter_pos_nat {A} (f : A -> A) (p : positive) (x : A) :
  SpecFloat.iter_pos f p x = Nat.iter (Pos.to_nat p) f x.
Proof.
  revert x. induction p as [p IH | p IH |]; intros x;
    cbn [SpecFloat.iter_pos].
  - rewrite !IH. rewrite Pos2Nat.inj_xI.
    replace (S (2 * Pos.to_nat p)) with (Pos.to_nat p + (Pos.to_nat p + 1))%nat
      by lia.
    rewrite !Nat.iter_add. done.
  - rewrite !IH. rewrite Pos2Nat.inj_xO.
    replace (2 * Pos.to_nat p)%nat with (Pos.to_nat p + Pos.to_nat p)%nat by lia.
    by rewrite Nat.iter_add.
  - done.
Qed.

Lemma shr_1_spec (m : Z) (r s : bool) :
  0 <= m ->
  shr_1 (Build_shr_record m r s)
  = Build_shr_record (m / 2) (Z.odd m) (r || s).
Proof.
  intros Hm. destruct m as [|p|p]; [done| |lia].
  destruct p as [p|p|]; [| |done].
  - assert (E : Z.pos p~1 / 2 = Z.pos p).
    { symmetry. apply (Z.div_unique _ _ _ 1); lia. }
    rewrite E. done.
  - assert (E : Z.pos p~0 / 2 = Z.pos p).
    { symmetry. apply (Z.div_unique _ _ _ 0); lia. }
    rewrite E. done.
Qed.

(** State of the shift register after [k] steps on an exact input. *)
Lemma shr_iter_exact (m : Z) (k : nat) :
  0 <= m ->
  Nat.iter k shr_1 (Build_shr_record m false false)
  = Build_shr_record (m / 2 ^ Z.of_nat k)
      (match k with
       | O => false
       | S j => Z.odd (m / 2 ^ Z.of_nat j)
       end)
      (match k with
       | O => false
       | S j => negb (m mod 2 ^ Z.of_nat j =? 0)
       end).
Proof.
  intros Hm. induction k as [|k IH].
  - simpl. by rewrite Z.div_1_r.
  - rewrite Nat.iter_succ, IH.
    assert (Hp : 0 < 2 ^ Z.of_nat k) by (apply pow2_pos; lia).
    rewrite shr_1_spec by (apply Z.div_pos; lia).
    f_equal.
    + rewrite Nat2Z.inj_succ, Z.pow_succ_r by lia.
      rewrite (Z.mul_comm 2). by rewrite Z.div_div by lia.
    + destruct k as [|j]; [simpl; by rewrite Z.mod_1_r|].
      assert (Hq : 0 < 2 ^ Z.of_nat j) by (apply pow2_pos; lia).
      assert (E : 2 ^ Z.of_nat (S j) = 2 * 2 ^ Z.of_nat j)
        by (rewrite Nat2Z.inj_succ, Z.pow_succ_r by lia; done).
      pose proof (Z.div_mod m (2 ^ Z.of_nat j) ltac:(lia)) as D1.
      pose proof (Z.mod_pos_bound m (2 ^ Z.of_nat j) ltac:(lia)) as B1.
      set (q := m / 2 ^ Z.of_nat j) in *.
      set (t := m mod 2 ^ Z.of_nat j) in *.
      pose proof (Z.div_mod q 2 ltac:(lia)) as D2.
      pose proof (Z.mod_pos_bound q 2 ltac:(lia)) as B2.
      assert (Hmod : m mod 2 ^ Z.of_nat (S j) = (q mod 2) * 2 ^ Z.of_nat j + t).
      { symmetry. apply (Z.mod_unique _ _ (q / 2)); [left; nia | nia]. }
      rewrite Hmod. rewrite (Zodd_mod q).
      destruct (Z.eqb_spec (q mod 2) 1) as [E1|E1];
        destruct (Z.eqb_spec t 0) as [E2|E2];
        destruct (Z.eqb_spec (q mod 2 * 2 ^ Z.of_nat j + t) 0) as [E3|E3];
        simpl; try reflexivity; exfalso; nia.
Qed.

Lemma shr_iter_mantissa (m : Z) (r s : bool) (k : nat) :
  0 <= m ->
  shr_m (Nat.iter k shr_1 (Build_shr_record m r s)) = m / 2 ^ Z.of_nat k.
Proof.
  revert m r s. induction k as [|k IH]; intros m r s Hm.
  - simpl. by rewrite Z.div_1_r.
  - rewrite Nat.iter_succ_r, shr_1_spec by done.
    rewrite IH by (apply Z.div_pos; lia).
    rewrite Nat2Z.inj_succ, Z.pow_succ_r by lia.
    by rewrite Z.div_div by (try apply pow2_pos; lia).
Qed.

(** ** Round to nearest even *)

Lemma rne_0_r (m : Z) : rne m 0 = m.
Proof.
  unfold rne. rewrite Z.pow_0_r, Z.mod_1_r, Z.div_1_r. done.
Qed.

Lemma rne_bounds (m n : Z) :
  0 <= n -> m / 2 ^ n <= rne m n <= m / 2 ^ n + 1.
Proof.
  intros Hn. unfold rne.
  destruct (_ ?= _); [destruct (Z.even _)| |]; lia.
Qed.

Lemma rne_exact (m n : Z) : 0 <= n -> rne (m * 2 ^ n) n = m.
Proof.
  intros Hn. pose proof (pow2_pos n Hn). unfold rne.
  rewrite Z.mod_mul, Z.div_mul by lia.
  destruct (Z.compare_spec (2 * 0) (2 ^ n)); lia.
Qed.

Lemma rne_mono (m m' n : Z) : 0 <= n -> m <= m' -> rne m n <= rne m' n.
Proof.
  intros Hn Hm. pose proof (pow2_pos n Hn) as Hp.
  pose proof (Z.div_le_mono m m' (2 ^ n) Hp Hm) as Hq.
  pose proof (rne_bounds m n Hn) as B. pose proof (rne_bounds m' n Hn) as B'.
  destruct (decide (m / 2 ^ n = m' / 2 ^ n)) as [Eq|Ne]; [|lia].
  pose proof (Z.div_mod m (2 ^ n) ltac:(lia)) as D.
  pose proof (Z.div_mod m' (2 ^ n) ltac:(lia)) as D'.
  assert (Hr : m mod 2 ^ n <= m' mod 2 ^ n) by (rewrite Eq in D; lia).
  unfold rne. rewrite Eq.
  destruct (Z.compare_spec (2 * (m mod 2 ^ n)) (2 ^ n));
    destruct (Z.compare_spec (2 * (m' mod 2 ^ n)) (2 ^ n));
    destruct (Z.even (m' / 2 ^ n)); lia.
Qed.

Lemma rne_shift (m n k : Z) :
  0 <= n -> 0 <= k -> rne (m * 2 ^ k) (n + k) = rne m n.
Proof.
  intros Hn Hk.
  pose proof (pow2_pos n Hn) as Hpn. pose proof (pow2_pos k Hk) as Hpk.
  unfold rne. rewrite pow2_split by done.
  rewrite Z.div_mul_cancel_r by lia.
  rewrite Zmult_mod_distr_r.
  rewrite Z.mul_assoc. by rewrite <- Zmult_compare_compat_r by lia.
Qed.

(** The shift register followed by the rounding step computes [rne]. *)
Lemma shr_round_exact (m e n : Z) :
  0 <= m ->
  let res := shr (Build_shr_record m false false) e n in
  (0 <= n -> snd res = e + n) /\
  (n <= 0 -> res = (Build_shr_record m false false, e)) /\
  (0 <= n ->
   round_nearest_even (shr_m (fst res)) (loc_of_shr_record (fst res))
   = rne m n).
Proof.
  intros Hm res. subst res. destruct n as [|p|p]; simpl.
  - split; [lia|]. split; [done|]. intros _. by rewrite rne_0_r.
  - split; [done|]. split; [lia|]. intros _.
    rewrite iter_pos_nat.
    destruct (Pos.to_nat p) as [|j] eqn:Ej; [lia|].
    rewrite shr_iter_exact by done.
    assert (Hn : Z.pos p = Z.of_nat j + 1) by lia.
    assert (Hq : 0 < 2 ^ Z.of_nat j) by (apply pow2_pos; lia).
    assert (E : 2 ^ Z.pos p = 2 * 2 ^ Z.of_nat j)
      by (rewrite Hn, pow2_succ by lia; done).
    pose proof (Z.div_mod m (2 ^ Z.of_nat j) ltac:(lia)) as D1.
    pose proof (Z.mod_pos_bound m (2 ^ Z.of_nat j) ltac:(lia)) as B1.
    set (Q := m / 2 ^ Z.of_nat j) in *.
    set (t := m mod 2 ^ Z.of_nat j) in *.
    pose proof (Z.div_mod Q 2 ltac:(lia)) as D2.
    pose proof (Z.mod_pos_bound Q 2 ltac:(lia)) as B2.
    assert (Hmod : m mod 2 ^ Z.pos p = (Q mod 2) * 2 ^ Z.of_nat j + t).
    { symmetry. apply (Z.mod_unique _ _ (Q / 2)); [left; nia | nia]. }
    assert (Hdiv : m / 2 ^ Z.pos p = Q / 2).
    { symmetry. apply (Z.div_unique _ _ _ ((Q mod 2) * 2 ^ Z.of_nat j + t));
        [left; nia | nia]. }
    rewrite Nat2Z.inj_succ, <- Z.add_1_r, <- Hn.
    unfold rne. rewrite Hmod, Hdiv. cbn [shr_m loc_of_shr_record].
    pose proof (Zmod_odd Q) as Ho.
    destruct (Z.odd Q) eqn:Eo;
      destruct (Z.eqb_spec t 0) as [E2|E2]; cbn [negb round_nearest_even];
      destruct (Z.compare_spec (2 * (Q mod 2 * 2 ^ Z.of_nat j + t))
                  (2 ^ Z.pos p)); try reflexivity; exfalso; nia.
  - split; [lia|]. split; [done|]. lia.
Qed.

(** ** Canonical data *)

Section Rounding.

Variables prec emax : Z.
Hypothesis Hprec : 1 < prec.
Hypothesis Hemax : prec < emax.

Local Abbreviation emin' := (emin prec emax).
Local Abbreviation fexp' := (fexp prec emax).
Local Abbreviation pack' := (pack prec emax).
Local Abbreviation round_at' := (round_at prec emax).
Local Abbreviation ext' := (ext prec emax).
Local Abbreviation valid' := (valid_binary prec emax).
Local Abbreviation fit' := (fit prec emax).
Local Abbreviation rounded' := (rounded prec emax).
Local Abbreviation sext' := (sext prec emax).
Local Abbreviation mext' := (mext prec emax).


Lemma fexp_ge_emin (l : Z) : emin' <= fexp' l.
Proof. unfold fexp. lia. Qed.

Lemma fexp_mono (l l' : Z) : l <= l' -> fexp' l <= fexp' l'.
Proof. unfold fexp. lia. Qed.

Lemma Zdigits2_log2 (m : Z) : 0 < m -> Zdigits2 m = Z.log2 m + 1.
Proof.
  intros Hm. destruct m as [|p|p]; [lia| |lia].
  apply digits2_pos_log2.
Qed.

Lemma pow2_prec_split : 2 ^ prec = 2 * 2 ^ (prec - 1).
Proof.
  replace prec with (prec - 1 + 1) at 1 by lia. apply pow2_succ. lia.
Qed.

Lemma canonical_fit (M E : Z) :
  fit' M E -> 0 < M < 2 ^ prec -> fexp' (Z.log2 M + 1 + E) = E.
Proof.
  intros (HM & HE & Hn) HM'. unfold fexp.
  assert (Z.log2 M < prec) by (apply Z.log2_lt_pow2; lia).
  destruct (decide (emin' < E)) as [Hlt|Hge]; [|lia].
  specialize (Hn Hlt).
  assert (prec - 1 <= Z.log2 M) by (apply Z.log2_le_pow2; lia).
  lia.
Qed.

Lemma fit_valid (s : bool) (M E : Z) : fit' M E -> valid' (pack' s M E) = true.
Proof.
  intros Hfit. pose proof Hfit as (HM & HE & Hn). unfold pack.
  pose proof pow2_prec_split as Hsplit.
  assert (Hp1 : 0 < 2 ^ (prec - 1)) by (apply pow2_pos; lia).
  destruct (Z.eqb_spec M 0) as [E0|E0]; [done|].
  destruct (Z.eqb_spec M (2 ^ prec)) as [E1|E1].
  - destruct (Z.leb_spec (E + 1) (emax - prec)) as [Hb|Hb]; [|done].
    unfold valid_binary, bounded, canonical_mantissa.
    rewrite digits2_pos_log2, Z2Pos.id by lia.
    rewrite Z.log2_pow2 by lia.
    apply andb_true_iff. split; [|by apply Z.leb_le].
    apply Z.eqb_eq. unfold fexp. lia.
  - destruct (Z.leb_spec E (emax - prec)) as [Hb|Hb]; [|done].
    unfold valid_binary, bounded, canonical_mantissa.
    rewrite digits2_pos_log2, Z2Pos.id by lia.
    apply andb_true_iff. split; [|by apply Z.leb_le].
    apply Z.eqb_eq. apply canonical_fit; [done | lia].
Qed.

(** The second half of [binary_round_aux]: renormalisation of the rounded
    significand and the overflow test. *)
Lemma renormalise_fit (s : bool) (M E : Z) :
  fit' M E ->
  (let '(mrs, e) := shr_fexp prec emax M E loc_Exact in
   match shr_m mrs with
   | Z0 => S754_zero s
   | Z.pos m =>
       if e <=? emax - prec then S754_finite s m e else S754_infinity s
   | Z.neg _ => S754_nan
   end) = pack' s M E.
Proof.
  intros Hfit. pose proof Hfit as (HM & HE & Hn).
  pose proof pow2_prec_split as Hsplit.
  assert (Hp1 : 0 < 2 ^ (prec - 1)) by (apply pow2_pos; lia).
  unfold shr_fexp, pack. cbn [shr_record_of_loc].
  destruct (Z.eqb_spec M 0) as [E0|E0].
  { subst M. cbn [Zdigits2].
    destruct (shr_round_exact 0 E (fexp' (0 + E) - E) ltac:(lia)) as (_ & H2 & _).
    destruct (fexp' (0 + E) - E) as [|p|p] eqn:En.
    - rewrite H2 by lia. done.
    - cbn [shr]. rewrite iter_pos_nat, shr_iter_mantissa by lia.
      rewrite Z.div_0_l; [done|]. apply Z.pow_nonzero; lia.
    - rewrite H2 by lia. done. }
  rewrite Zdigits2_log2 by lia.
  destruct (Z.eqb_spec M (2 ^ prec)) as [E1|E1].
  - subst M. rewrite Z.log2_pow2 by lia.
    replace (fexp' (prec + 1 + E) - E) with 1 by (unfold fexp; lia).
    cbn [shr SpecFloat.iter_pos]. rewrite shr_1_spec by lia.
    cbn [shr_m]. rewrite Hsplit, Z.mul_comm, Z.div_mul by lia.
    destruct (2 ^ (prec - 1)) as [|q|q] eqn:Eq; [lia| |lia].
    by rewrite Pos2Z.id.
  - rewrite (canonical_fit M E Hfit) by lia. rewrite Z.sub_diag.
    cbn [shr shr_m]. destruct M as [|q|q]; [lia| |lia].
    by rewrite Pos2Z.id.
Qed.

(** Rounding an exact value: the result of [binary_round_aux] on an input
    whose exponent is not above its target exponent. *)
Lemma round_fit (m e : Z) :
  0 < m ->
  e <= fexp' (Z.log2 m + 1 + e) ->
  fit' (rne m (fexp' (Z.log2 m + 1 + e) - e)) (fexp' (Z.log2 m + 1 + e)).
Proof.
  intros Hm He.
  set (L := Z.log2 m + 1 + e) in *. set (E := fexp' L) in *.
  pose proof (fexp_ge_emin L) as HE. fold E in HE.
  pose proof (log2_bounds m Hm) as [Hlo Hhi].
  pose proof (Z.log2_nonneg m) as Hl0.
  pose proof (rne_bounds m (E - e) ltac:(lia)) as [Rlo Rhi].
  assert (Hpn : 0 < 2 ^ (E - e)) by (apply pow2_pos; lia).
  assert (Hq0 : 0 <= m / 2 ^ (E - e)) by (apply Z.div_pos; lia).
  assert (HLE : L - E <= prec) by (unfold E, fexp; lia).
  split; [split; [lia|] | split; [done|]].
  - (* upper bound *)
    destruct (decide (0 <= L - E)) as [Hpos|Hneg].
    + assert (m / 2 ^ (E - e) < 2 ^ (L - E)).
      { apply Z.div_lt_upper_bound; [lia|].
        rewrite <- pow2_split by lia.
        replace (E - e + (L - E)) with (Z.log2 m + 1) by lia. done. }
      assert (2 ^ (L - E) <= 2 ^ prec) by (apply pow2_le; lia).
      lia.
    + assert (m / 2 ^ (E - e) = 0).
      { apply Z.div_small. split; [lia|].
        assert (2 ^ (Z.log2 m + 1) <= 2 ^ (E - e)) by (apply pow2_le; lia).
        lia. }
      assert (2 ^ 1 <= 2 ^ prec) by (apply pow2_le; lia).
      change (2 ^ 1) with 2 in *. lia.
  - intros Hlt.
    assert (HEL : E = L - prec) by (unfold E, fexp in *; lia).
    assert (2 ^ (prec - 1) <= m / 2 ^ (E - e)); [|lia].
    apply Z.div_le_lower_bound; [lia|].
    rewrite Z.mul_comm, <- pow2_split by lia.
    replace (prec - 1 + (E - e)) with (Z.log2 m) by lia. done.
Qed.

Lemma binary_round_aux_exact (s : bool) (m e : Z) :
  0 < m ->
  e <= fexp' (Z.log2 m + 1 + e) ->
  binary_round_aux prec emax s m e loc_Exact = round_at' s m e.
Proof.
  intros Hm He. unfold binary_round_aux, round_at.
  pose proof (round_fit m e Hm He) as Hfit.
  set (E := fexp' (Z.log2 m + 1 + e)) in *.
  unfold shr_fexp at 1. cbn [shr_record_of_loc].
  rewrite Zdigits2_log2 by done. fold E.
  destruct (shr_round_exact m e (E - e) ltac:(lia)) as (H1 & _ & H3).
  destruct (shr (Build_shr_record m false false) e (E - e)) as [mrs e'].
  cbn [fst snd] in H1, H3.
  rewrite H3 by lia. rewrite H1 by lia.
  replace (e + (E - e)) with E by lia.
  apply renormalise_fit. done.
Qed.



Lemma round_at_valid (s : bool) (N e0 : Z) :
  0 < N -> e0 <= emin' -> valid' (round_at' s N e0) = true.
Proof.
  intros HN He0. unfold round_at. apply fit_valid, round_fit; [done|].
  pose proof (fexp_ge_emin (Z.log2 N + 1 + e0)). lia.
Qed.

(** Rounding depends on the value only, not on how it is written. *)
Lemma round_at_shift (s : bool) (N e k : Z) :
  0 < N -> 0 <= k ->
  e <= fexp' (Z.log2 N + 1 + e) ->
  round_at' s (N * 2 ^ k) (e - k) = round_at' s N e.
Proof.
  intros HN Hk He. unfold round_at.
  rewrite log2_shift by done.
  replace (Z.log2 N + k + 1 + (e - k)) with (Z.log2 N + 1 + e) by lia.
  set (E := fexp' (Z.log2 N + 1 + e)) in *.
  replace (E - (e - k)) with ((E - e) + k) by lia.
  by rewrite rne_shift by lia.
Qed.

Lemma pos_iter_xO (m d : positive) :
  Z.pos (Pos.iter xO m d) = Z.pos m * 2 ^ Z.pos d.
Proof.
  revert m. induction d as [|d IH] using Pos.peano_ind; intros m.
  - simpl. lia.
  - rewrite Pos.iter_succ, Pos2Z.inj_xO, IH.
    rewrite Pos2Z.inj_succ, Z.pow_succ_r by lia. lia.
Qed.

Lemma shl_align_spec (m : positive) (e e' : Z) :
  let '(mz, ez) := shl_align m e e' in
  ez = Z.min e e' /\ Z.pos mz = Z.pos m * 2 ^ (e - ez).
Proof.
  unfold shl_align. destruct (e' - e) as [|d|d] eqn:Ed.
  - split; [lia|]. rewrite Z.sub_diag. lia.
  - split; [lia|]. rewrite Z.sub_diag. lia.
  - split; [lia|]. rewrite pos_iter_xO. do 2 f_equal. lia.
Qed.

Lemma binary_round_value (s : bool) (m : positive) (e e0 : Z) :
  e0 <= e -> e0 <= emin' ->
  binary_round prec emax s m e = round_at' s (Z.pos m * 2 ^ (e - e0)) e0.
Proof.
  intros He0 He0'. unfold binary_round.
  rewrite digits2_pos_log2.
  set (T := fexp' (Z.log2 (Z.pos m) + 1 + e)).
  pose proof (shl_align_spec m e T) as Hal.
  destruct (shl_align m e T) as [mz ez]. destruct Hal as [Hez Hmz].
  pose proof (fexp_ge_emin (Z.log2 (Z.pos m) + 1 + e)) as HT. fold T in HT.
  assert (Hlog : Z.log2 (Z.pos mz) + 1 + ez = Z.log2 (Z.pos m) + 1 + e).
  { rewrite Hmz, log2_shift by lia. lia. }
  rewrite binary_round_aux_exact by (rewrite ?Hlog; fold T; lia).
  rewrite <- (round_at_shift s (Z.pos mz) ez (ez - e0))
    by (rewrite ?Hlog; fold T; lia).
  f_equal; [|lia].
  rewrite Hmz, <- Z.mul_assoc, <- pow2_split by lia.
  do 2 f_equal. lia.
Qed.

(** A canonical datum is its own rounding. *)
Lemma valid_finite_inv (s : bool) (m : positive) (e : Z) :
  valid' (S754_finite s m e) = true ->
  fit' (Z.pos m) e /\ Z.pos m < 2 ^ prec /\ e <= emax - prec /\
  fexp' (Z.log2 (Z.pos m) + 1 + e) = e.
Proof.
  unfold valid_binary, bounded, canonical_mantissa.
  intros [Hc Hb]%andb_true_iff. apply Z.eqb_eq in Hc. apply Z.leb_le in Hb.
  rewrite digits2_pos_log2 in Hc.
  pose proof (log2_bounds (Z.pos m) ltac:(lia)) as [Hlo Hhi].
  pose proof (Z.log2_nonneg (Z.pos m)) as Hl0.
  assert (Hd : Z.log2 (Z.pos m) + 1 <= prec) by (unfold fexp in Hc; lia).
  assert (Z.pos m < 2 ^ prec).
  { assert (2 ^ (Z.log2 (Z.pos m) + 1) <= 2 ^ prec) by (apply pow2_le; lia).
    lia. }
  split; [|done]. unfold fit. split; [lia|]. split; [unfold fexp in Hc; lia|].
  intros Hlt. assert (Z.log2 (Z.pos m) = prec - 1) by (unfold fexp in Hc; lia).
  congruence.
Qed.

Lemma pack_finite (s : bool) (m : positive) (e : Z) :
  Z.pos m < 2 ^ prec -> e <= emax - prec ->
  pack' s (Z.pos m) e = S754_finite s m e.
Proof.
  intros Hm He. unfold pack.
  destruct (Z.eqb_spec (Z.pos m) 0); [lia|].
  destruct (Z.eqb_spec (Z.pos m) (2 ^ prec)); [lia|].
  destruct (Z.leb_spec e (emax - prec)); [done | lia].
Qed.

Lemma round_at_canonical (s : bool) (m : positive) (e e0 : Z) :
  valid' (S754_finite s m e) = true ->
  e0 <= emin' ->
  round_at' s (Z.pos m * 2 ^ (e - e0)) e0 = S754_finite s m e.
Proof.
  intros Hv He0.
  destruct (valid_finite_inv _ _ _ Hv) as ((_ & HE & _) & Hm & Hb & Hc).
  replace e0 with (e - (e - e0)) at 2 by lia.
  rewrite round_at_shift by lia.
  unfold round_at. rewrite Hc, Z.sub_diag, rne_0_r.
  by apply pack_finite.
Qed.

(** ** Values and comparison *)

Lemma top_pos : 0 < 2 ^ (emax - emin').
Proof. apply pow2_pos. unfold emin. lia. Qed.

Lemma cond_Zopp_0 (s : bool) : cond_Zopp s 0 = 0.
Proof. by destruct s. Qed.

Lemma ext_pack (s : bool) (M E : Z) :
  fit' M E ->
  ext' (pack' s M E)
  = cond_Zopp s (Z.min (M * 2 ^ (E - emin')) (2 ^ (emax - emin'))).
Proof.
  intros (HM & HE & Hn). unfold pack.
  pose proof pow2_prec_split as Hsplit.
  pose proof top_pos as Htop.
  assert (Hp1 : 0 < 2 ^ (prec - 1)) by (apply pow2_pos; lia).
  assert (Hpe : 0 < 2 ^ (E - emin')) by (apply pow2_pos; lia).
  assert (Hemin : emin' <= emax - prec) by (unfold emin; lia).
  destruct (Z.eqb_spec M 0) as [E0|E0].
  { subst M. cbn [ext]. rewrite Z.mul_0_l, Z.min_l by lia.
    by rewrite cond_Zopp_0. }
  destruct (Z.eqb_spec M (2 ^ prec)) as [E1|E1].
  - subst M.
    assert (Hval : 2 ^ prec * 2 ^ (E - emin') = 2 ^ (prec + (E - emin')))
      by (rewrite pow2_split by lia; done).
    destruct (Z.leb_spec (E + 1) (emax - prec)) as [Hb|Hb]; cbn [ext].
    + rewrite Z2Pos.id by lia. f_equal.
      assert (2 ^ (prec + (E - emin')) < 2 ^ (emax - emin'))
        by (apply pow2_lt; lia).
      rewrite Z.min_l by lia.
      replace (E + 1 - emin') with (E - emin' + 1) by lia.
      rewrite pow2_succ by lia. lia.
    + f_equal.
      assert (2 ^ (emax - emin') <= 2 ^ (prec + (E - emin')))
        by (apply pow2_le; lia).
      lia.
  - destruct (Z.leb_spec E (emax - prec)) as [Hb|Hb]; cbn [ext].
    + rewrite Z2Pos.id by lia. f_equal.
      assert (2 ^ prec * 2 ^ (E - emin') <= 2 ^ (emax - emin')).
      { rewrite <- pow2_split by lia. apply pow2_le. lia. }
      assert (M * 2 ^ (E - emin') < 2 ^ prec * 2 ^ (E - emin')) by nia.
      lia.
    + f_equal. specialize (Hn ltac:(lia)).
      assert (2 ^ (emax - emin') <= 2 ^ (prec - 1) * 2 ^ (E - emin')).
      { rewrite <- pow2_split by lia. apply pow2_le. lia. }
      assert (2 ^ (prec - 1) * 2 ^ (E - emin') <= M * 2 ^ (E - emin')) by nia.
      lia.
Qed.

Lemma valid_finite_ext (m : positive) (e : Z) :
  valid' (S754_finite false m e) = true ->
  0 < Z.pos m * 2 ^ (e - emin') < 2 ^ (emax - emin').
Proof.
  intros Hv.
  destruct (valid_finite_inv _ _ _ Hv) as ((_ & HE & _) & Hm & Hb & _).
  assert (Hpe : 0 < 2 ^ (e - emin')) by (apply pow2_pos; lia).
  split; [nia|].
  assert (2 ^ prec * 2 ^ (e - emin') <= 2 ^ (emax - emin')).
  { rewrite <- pow2_split by lia. apply pow2_le. lia. }
  nia.
Qed.

Lemma valid_sign_irrelevant (s s' : bool) (m : positive) (e : Z) :
  valid' (S754_finite s m e) = valid' (S754_finite s' m e).
Proof. done. Qed.

Lemma finite_exponent_order (m1 m2 : positive) (e1 e2 : Z) :
  valid' (S754_finite false m1 e1) = true ->
  valid' (S754_finite false m2 e2) = true ->
  e1 < e2 ->
  Z.pos m1 * 2 ^ (e1 - emin') < Z.pos m2 * 2 ^ (e2 - emin').
Proof.
  intros Hv1 Hv2 Hlt.
  destruct (valid_finite_inv _ _ _ Hv1) as ((_ & HE1 & _) & Hm1 & _).
  destruct (valid_finite_inv _ _ _ Hv2) as ((_ & HE2 & Hn2) & _).
  specialize (Hn2 ltac:(lia)).
  assert (Hpe : 0 < 2 ^ (e1 - emin')) by (apply pow2_pos; lia).
  assert (Hpe2 : 0 < 2 ^ (e2 - emin')) by (apply pow2_pos; lia).
  assert (2 ^ prec * 2 ^ (e1 - emin') <= 2 ^ (prec - 1) * 2 ^ (e2 - emin')).
  { rewrite <- !pow2_split by lia. apply pow2_le. lia. }
  nia.
Qed.

Lemma finite_compare (m1 m2 : positive) (e1 e2 : Z) :
  valid' (S754_finite false m1 e1) = true ->
  valid' (S754_finite false m2 e2) = true ->
  match e1 ?= e2 with
  | Lt => Lt
  | Gt => Gt
  | Eq => Pos.compare_cont Eq m1 m2
  end
  = (Z.pos m1 * 2 ^ (e1 - emin') ?= Z.pos m2 * 2 ^ (e2 - emin')).
Proof.
  intros Hv1 Hv2. destruct (Z.compare_spec e1 e2) as [He|He|He].
  - subst e2.
    destruct (valid_finite_inv _ _ _ Hv1) as ((_ & HE1 & _) & _).
    assert (Hpe : 0 < 2 ^ (e1 - emin')) by (apply pow2_pos; lia).
    change (Pos.compare_cont Eq m1 m2) with (Z.pos m1 ?= Z.pos m2).
    apply Zmult_compare_compat_r. lia.
  - symmetry. apply Z.compare_lt_iff. by apply finite_exponent_order.
  - symmetry. apply Z.compare_gt_iff. by apply finite_exponent_order.
Qed.

(** Comparison of canonical data is comparison of their values. *)
Lemma compare_ext (x y : spec_float) :
  valid' x = true -> valid' y = true ->
  is_nan x = false -> is_nan y = false ->
  SFcompare x y = Some (ext' x ?= ext' y).
Proof.
  intros Hx Hy Nx Ny. pose proof top_pos as Htop.
  destruct x as [sx|sx| |sx mx ex], y as [sy|sy| |sy my ey];
    try discriminate; cbn [SFcompare ext].
  - done.
  - destruct sy; cbn [cond_Zopp]; f_equal; symmetry;
      [apply Z.compare_gt_iff | apply Z.compare_lt_iff]; lia.
  - rewrite (valid_sign_irrelevant sy false) in Hy.
    pose proof (valid_finite_ext _ _ Hy).
    destruct sy; cbn [cond_Zopp]; f_equal; symmetry;
      [apply Z.compare_gt_iff | apply Z.compare_lt_iff]; lia.
  - destruct sx; cbn [cond_Zopp]; f_equal; symmetry;
      [apply Z.compare_lt_iff | apply Z.compare_gt_iff]; lia.
  - destruct sx, sy; cbn [cond_Zopp]; f_equal; symmetry;
      [apply Z.compare_eq_iff | apply Z.compare_lt_iff
       | apply Z.compare_gt_iff | apply Z.compare_eq_iff]; lia.
  - rewrite (valid_sign_irrelevant sy false) in Hy.
    pose proof (valid_finite_ext _ _ Hy).
    destruct sx, sy; cbn [cond_Zopp]; f_equal; symmetry;
      [apply Z.compare_lt_iff | apply Z.compare_lt_iff
       | apply Z.compare_gt_iff | apply Z.compare_gt_iff]; lia.
  - rewrite (valid_sign_irrelevant sx false) in Hx.
    pose proof (valid_finite_ext _ _ Hx).
    destruct sx; cbn [cond_Zopp]; f_equal; symmetry;
      [apply Z.compare_lt_iff | apply Z.compare_gt_iff]; lia.
  - rewrite (valid_sign_irrelevant sx false) in Hx.
    pose proof (valid_finite_ext _ _ Hx).
    destruct sx, sy; cbn [cond_Zopp]; f_equal; symmetry;
      [apply Z.compare_gt_iff | apply Z.compare_lt_iff
       | apply Z.compare_gt_iff | apply Z.compare_lt_iff]; lia.
  - rewrite (valid_sign_irrelevant sx false) in Hx.
    rewrite (valid_sign_irrelevant sy false) in Hy.
    pose proof (valid_finite_ext _ _ Hx). pose proof (valid_finite_ext _ _ Hy).
    pose proof (finite_compare mx my ex ey Hx Hy) as Hc.
    destruct sx, sy; cbn [cond_Zopp]; f_equal.
    + rewrite Z.compare_opp.
      pose proof (finite_compare my mx ey ex Hy Hx) as Hc'.
      rewrite <- Hc'. rewrite (Z.compare_antisym ex ey).
      rewrite (Pos.compare_cont_antisym mx my Eq).
      destruct (ex ?= ey); done.
    + symmetry. apply Z.compare_lt_iff. lia.
    + symmetry. apply Z.compare_gt_iff. lia.
    + done.
Qed.

Lemma leb_ext (x y : spec_float) :
  valid' x = true -> valid' y = true ->
  is_nan x = false -> is_nan y = false ->
  SFleb x y = bool_decide (ext' x <= ext' y).
Proof.
  intros Hx Hy Nx Ny. unfold SFleb. rewrite compare_ext by done.
  destruct (Z.compare_spec (ext' x) (ext' y));
    [rewrite bool_decide_true | rewrite bool_decide_true
     | rewrite bool_decide_false]; lia || done.
Qed.

Lemma leb_true_not_nan (x y : spec_float) :
  SFleb x y = true -> is_nan x = false /\ is_nan y = false.
Proof. by destruct x, y. Qed.


(** ** Rounding is monotone *)

Lemma ext_round_at (s : bool) (N e0 : Z) :
  0 < N -> e0 <= emin' ->
  ext' (round_at' s N e0)
  = cond_Zopp s (Z.min (rounded' N e0) (2 ^ (emax - emin'))).
Proof.
  intros HN He0. unfold round_at, rounded. apply ext_pack, round_fit; [done|].
  pose proof (fexp_ge_emin (Z.log2 N + 1 + e0)). lia.
Qed.

Lemma round_at_not_nan (s : bool) (N e0 : Z) : is_nan (round_at' s N e0) = false.
Proof.
  unfold round_at, pack.
  repeat match goal with |- context [if ?b then _ else _] => destruct b end;
    done.
Qed.

Lemma round_at_sign (N e0 : Z) : sign_clear (round_at' false N e0) = true.
Proof.
  unfold round_at, pack.
  repeat match goal with |- context [if ?b then _ else _] => destruct b end;
    done.
Qed.

Lemma rounded_nonneg (N e0 : Z) : 0 < N -> e0 <= emin' -> 0 <= rounded' N e0.
Proof.
  intros HN He0. unfold rounded.
  set (E := fexp' (Z.log2 N + 1 + e0)).
  pose proof (fexp_ge_emin (Z.log2 N + 1 + e0)) as HE. fold E in HE.
  pose proof (rne_bounds N (E - e0) ltac:(lia)) as [Rlo _].
  assert (0 < 2 ^ (E - e0)) by (apply pow2_pos; lia).
  assert (0 <= N / 2 ^ (E - e0)) by (apply Z.div_pos; lia).
  assert (0 < 2 ^ (E - emin')) by (apply pow2_pos; lia).
  nia.
Qed.

Lemma rounded_mono (N1 N2 e0 : Z) :
  0 < N1 <= N2 -> e0 <= emin' -> rounded' N1 e0 <= rounded' N2 e0.
Proof.
  intros [HN1 HN] He0. unfold rounded.
  pose proof (Z.log2_le_mono N1 N2 HN) as Hlog.
  set (L1 := Z.log2 N1 + 1 + e0). set (L2 := Z.log2 N2 + 1 + e0).
  pose proof (fexp_mono L1 L2 ltac:(unfold L1, L2; lia)) as HT.
  pose proof (fexp_ge_emin L1) as HE1. pose proof (fexp_ge_emin L2) as HE2.
  pose proof (round_fit N1 e0 HN1 ltac:(fold L1; lia)) as (HM1 & _ & _).
  pose proof (round_fit N2 e0 ltac:(lia) ltac:(fold L2; lia)) as (HM2 & _ & Hn2).
  fold L1 in HM1. fold L2 in HM2, Hn2.
  set (T1 := fexp' L1) in *. set (T2 := fexp' L2) in *.
  assert (Hp1 : 0 < 2 ^ (T1 - emin')) by (apply pow2_pos; lia).
  assert (Hp2 : 0 < 2 ^ (T2 - emin')) by (apply pow2_pos; lia).
  destruct (decide (T1 = T2)) as [Eq|Ne].
  - rewrite <- Eq.
    pose proof (rne_mono N1 N2 (T1 - e0) ltac:(lia) HN). nia.
  - specialize (Hn2 ltac:(lia)).
    assert (2 ^ prec * 2 ^ (T1 - emin') <= 2 ^ (prec - 1) * 2 ^ (T2 - emin')).
    { rewrite <- !pow2_split by lia. apply pow2_le. lia. }
    nia.
Qed.

Lemma sext_mono (D1 D2 : Z) : D1 <= D2 -> sext' D1 <= sext' D2.
Proof.
  intros HD. unfold sext. pose proof top_pos as Htop.
  destruct (Z.eqb_spec D1 0), (Z.eqb_spec D2 0),
    (Z.ltb_spec 0 D1), (Z.ltb_spec 0 D2); try lia.
  - pose proof (rounded_nonneg D2 emin' ltac:(lia) ltac:(lia)). lia.
  - pose proof (rounded_nonneg (- D1) emin' ltac:(lia) ltac:(lia)). lia.
  - pose proof (rounded_mono D1 D2 emin' ltac:(lia) ltac:(lia)). lia.
  - pose proof (rounded_nonneg D2 emin' ltac:(lia) ltac:(lia)).
    pose proof (rounded_nonneg (- D1) emin' ltac:(lia) ltac:(lia)). lia.
  - pose proof (rounded_mono (- D2) (- D1) emin' ltac:(lia) ltac:(lia)). lia.
Qed.

Lemma mext_mono (P1 P2 : Z) : 0 <= P1 <= P2 -> mext' P1 <= mext' P2.
Proof.
  intros HP. unfold mext. pose proof top_pos as Htop.
  assert (He : 2 * emin' <= emin') by (unfold emin; lia).
  destruct (Z.eqb_spec P1 0), (Z.eqb_spec P2 0); try lia.
  - pose proof (rounded_nonneg P2 (2 * emin') ltac:(lia) He). lia.
  - pose proof (rounded_mono P1 P2 (2 * emin') ltac:(lia) He). lia.
Qed.

(** A representable value rounds to itself. *)
Lemma rounded_canonical (m : positive) (e : Z) :
  valid' (S754_finite false m e) = true ->
  Z.min (rounded' (Z.pos m * 2 ^ (e - emin')) emin') (2 ^ (emax - emin'))
  = Z.pos m * 2 ^ (e - emin').
Proof.
  intros Hv.
  destruct (valid_finite_inv _ _ _ Hv) as ((_ & HE & _) & _).
  assert (Hp : 0 < 2 ^ (e - emin')) by (apply pow2_pos; lia).
  pose proof (ext_round_at false (Z.pos m * 2 ^ (e - emin')) emin'
                ltac:(nia) ltac:(lia)) as H.
  rewrite round_at_canonical in H by (done || lia).
  cbn [ext cond_Zopp] in H. done.
Qed.

Lemma sext_canonical (x : spec_float) :
  valid' x = true -> is_finite x = true -> sext' (ext' x) = ext' x.
Proof.
  intros Hv Hf. destruct x as [s|s| |s m e]; try done.
  rewrite (valid_sign_irrelevant s false) in Hv.
  pose proof (valid_finite_ext _ _ Hv) as Hb.
  pose proof (rounded_canonical _ _ Hv) as Hr.
  unfold sext. cbn [ext]. destruct s; cbn [cond_Zopp].
  - destruct (Z.eqb_spec (- (Z.pos m * 2 ^ (e - emin'))) 0); [lia|].
    destruct (Z.ltb_spec 0 (- (Z.pos m * 2 ^ (e - emin')))); [lia|].
    rewrite Z.opp_involutive. lia.
  - destruct (Z.eqb_spec (Z.pos m * 2 ^ (e - emin')) 0); [lia|].
    destruct (Z.ltb_spec 0 (Z.pos m * 2 ^ (e - emin'))); lia.
Qed.

(** ** Addition and subtraction *)

Lemma binary_normalize_props (D ez : Z) (sz : bool) :
  emin' <= ez ->
  let r := binary_normalize prec emax D ez sz in
  valid' r = true /\ is_nan r = false /\
  ext' r = sext' (D * 2 ^ (ez - emin')) /\
  (0 < D -> sign_clear r = true).
Proof.
  intros Hez r. subst r.
  assert (Hp : 0 < 2 ^ (ez - emin')) by (apply pow2_pos; lia).
  unfold binary_normalize, sext. destruct D as [|p|p].
  - done.
  - rewrite (binary_round_value _ _ _ emin') by lia.
    rewrite round_at_valid, round_at_not_nan, ext_round_at, round_at_sign
      by lia.
    destruct (Z.eqb_spec (Z.pos p * 2 ^ (ez - emin')) 0); [lia|].
    destruct (Z.ltb_spec 0 (Z.pos p * 2 ^ (ez - emin'))); [done | lia].
  - rewrite (binary_round_value _ _ _ emin') by lia.
    rewrite round_at_valid, round_at_not_nan, ext_round_at by lia.
    destruct (Z.eqb_spec (Z.neg p * 2 ^ (ez - emin')) 0); [lia|].
    destruct (Z.ltb_spec 0 (Z.neg p * 2 ^ (ez - emin'))); [lia|].
    replace (- (Z.neg p * 2 ^ (ez - emin'))) with (Z.pos p * 2 ^ (ez - emin'))
      by lia.
    repeat split; lia || done.
Qed.

Lemma aligned_value (s : bool) (m : positive) (e ez : Z) :
  emin' <= ez <= e ->
  cond_Zopp s (Z.pos (fst (shl_align m e ez))) * 2 ^ (ez - emin')
  = cond_Zopp s (Z.pos m * 2 ^ (e - emin')).
Proof.
  intros He. pose proof (shl_align_spec m e ez) as H.
  destruct (shl_align m e ez) as [mz ez']. destruct H as [H1 H2].
  cbn [fst]. rewrite H2, H1, Z.min_r by lia.
  replace (e - emin') with ((e - ez) + (ez - emin')) by lia.
  rewrite pow2_split by lia. destruct s; cbn [cond_Zopp]; lia.
Qed.

Lemma valid_exponent (s : bool) (m : positive) (e : Z) :
  valid' (S754_finite s m e) = true -> emin' <= e.
Proof. intros Hv. by destruct (valid_finite_inv _ _ _ Hv) as ((_ & HE & _) & _). Qed.

Lemma sub_finite (x y : spec_float) :
  valid' x = true -> valid' y = true ->
  is_finite x = true -> is_finite y = true ->
  let r := SFsub prec emax x y in
  valid' r = true /\ is_nan r = false /\
  ext' r = sext' (ext' x - ext' y) /\
  (ext' y < ext' x -> sign_clear r = true).
Proof.
  intros Hx Hy Fx Fy r. subst r.
  destruct x as [sx|sx| |sx mx ex], y as [sy|sy| |sy my ey]; try done.
  - destruct sx, sy; done.
  - cbn [SFsub].
    assert (Hy' : valid' (S754_finite (negb sy) my ey) = true) by done.
    assert (He : ext' (S754_zero sx) - ext' (S754_finite sy my ey)
                 = ext' (S754_finite (negb sy) my ey)).
    { cbn [ext]. destruct sy; cbn [negb cond_Zopp]; lia. }
    rewrite He, sext_canonical by done.
    rewrite (valid_sign_irrelevant sy false) in Hy.
    pose proof (valid_finite_ext _ _ Hy).
    repeat split; try done.
    cbn [ext]. destruct sy; cbn [negb cond_Zopp sign_clear]; [done | lia].
  - cbn [SFsub].
    assert (He : ext' (S754_finite sx mx ex) - ext' (S754_zero sy)
                 = ext' (S754_finite sx mx ex)).
    { cbn [ext]. lia. }
    rewrite He, sext_canonical by done.
    rewrite (valid_sign_irrelevant sx false) in Hx.
    pose proof (valid_finite_ext _ _ Hx).
    repeat split; try done.
    cbn [ext]. destruct sx; cbn [cond_Zopp sign_clear negb]; [lia | done].
  - cbn [SFsub].
    pose proof (valid_exponent _ _ _ Hx) as Hex.
    pose proof (valid_exponent _ _ _ Hy) as Hey.
    set (ez := Z.min ex ey).
    pose proof (binary_normalize_props
                  (cond_Zopp sx (Z.pos (fst (shl_align mx ex ez)))
                   - cond_Zopp sy (Z.pos (fst (shl_align my ey ez))))
                  ez false ltac:(lia)) as (H1 & H2 & H3 & H4).
    rewrite Z.mul_sub_distr_r in H3.
    rewrite !aligned_value in H3 by lia.
    repeat split; try done.
    cbn [ext]. intros Hlt. apply H4.
    assert (Hp : 0 < 2 ^ (ez - emin')) by (apply pow2_pos; lia).
    pose proof (aligned_value sx mx ex ez ltac:(lia)) as A1.
    pose proof (aligned_value sy my ey ez ltac:(lia)) as A2.
    nia.
Qed.

Lemma sub_valid (x y : spec_float) :
  valid' x = true -> valid' y = true -> valid' (SFsub prec emax x y) = true.
Proof.
  intros Hx Hy.
  destruct (is_finite x) eqn:Fx, (is_finite y) eqn:Fy.
  - by destruct (sub_finite x y Hx Hy Fx Fy) as (H & _).
  - destruct x as [sx|sx| |sx mx ex], y as [sy|sy| |sy my ey]; done.
  - destruct x as [sx|[]| |sx mx ex], y as [[]|[]| |sy my ey]; done.
  - destruct x as [sx|[]| |sx mx ex], y as [sy|[]| |sy my ey]; done.
Qed.

Lemma add_valid (x y : spec_float) :
  valid' x = true -> valid' y = true -> valid' (SFadd prec emax x y) = true.
Proof.
  intros Hx Hy.
  destruct x as [sx|sx| |sx mx ex], y as [sy|sy| |sy my ey];
    try done; try (destruct sx, sy; done).
  cbn [SFadd].
  pose proof (valid_exponent _ _ _ Hx) as Hex.
  pose proof (valid_exponent _ _ _ Hy) as Hey.
  by destruct (binary_normalize_props
                 (cond_Zopp sx (Z.pos (fst (shl_align mx ex (Z.min ex ey))))
                  + cond_Zopp sy (Z.pos (fst (shl_align my ey (Z.min ex ey)))))
                 (Z.min ex ey) false ltac:(lia)) as (H & _).
Qed.


(** ** Multiplication *)

Lemma pack_props (s : bool) (M E : Z) :
  fit' M E ->
  valid' (pack' s M E) = true /\ is_nan (pack' s M E) = false /\
  sign_clear (pack' s M E) = negb s.
Proof.
  intros Hfit. split; [by apply fit_valid|].
  unfold pack.
  repeat match goal with |- context [if ?b then _ else _] => destruct b end;
    done.
Qed.

Lemma mul_finite (x y : spec_float) :
  valid' x = true -> valid' y = true ->
  is_finite x = true -> is_finite y = true ->
  sign_clear x = true -> sign_clear y = true ->
  let r := SFmul prec emax x y in
  valid' r = true /\ is_nan r = false /\ sign_clear r = true /\
  ext' r = mext' (ext' x * ext' y).
Proof.
  intros Hx Hy Fx Fy Sx Sy r. subst r.
  destruct x as [sx|sx| |sx mx ex], y as [sy|sy| |sy my ey]; try done;
    cbn [sign_clear] in Sx, Sy; apply negb_true_iff in Sx, Sy; subst sx sy.
  - done.
  - done.
  - cbn [SFmul ext cond_Zopp xorb]. rewrite Z.mul_0_r. done.
  - cbn [SFmul ext cond_Zopp xorb].
    destruct (valid_finite_inv _ _ _ Hx) as ((_ & HEx & Hnx) & Hmx & _ & Hcx).
    destruct (valid_finite_inv _ _ _ Hy) as ((_ & HEy & Hny) & Hmy & _ & Hcy).
    pose proof (log2_bounds (Z.pos mx) ltac:(lia)) as [Lx Ux].
    pose proof (log2_bounds (Z.pos my) ltac:(lia)) as [Ly Uy].
    pose proof (Z.log2_nonneg (Z.pos mx)) as Nx.
    pose proof (Z.log2_nonneg (Z.pos my)) as Ny.
    assert (Hlog : Z.log2 (Z.pos mx) + Z.log2 (Z.pos my)
                   <= Z.log2 (Z.pos (mx * my))).
    { apply Z.log2_le_pow2; [lia|]. rewrite pow2_split by lia.
      rewrite Pos2Z.inj_mul. nia. }
    assert (Hemin : emin' < 0) by (unfold emin; lia).
    assert (Hready : ex + ey
                     <= fexp' (Z.log2 (Z.pos (mx * my)) + 1 + (ex + ey))).
    { unfold fexp in *. lia. }
    rewrite binary_round_aux_exact by (done || lia).
    rewrite <- (round_at_shift false _ _ (ex + ey - 2 * emin')) by lia.
    replace (ex + ey - (ex + ey - 2 * emin')) with (2 * emin') by lia.
    assert (Hpx : 0 < 2 ^ (ex - emin')) by (apply pow2_pos; lia).
    assert (Hpy : 0 < 2 ^ (ey - emin')) by (apply pow2_pos; lia).
    assert (HP : Z.pos (mx * my) * 2 ^ (ex + ey - 2 * emin')
                 = Z.pos mx * 2 ^ (ex - emin') * (Z.pos my * 2 ^ (ey - emin'))).
    { replace (ex + ey - 2 * emin') with ((ex - emin') + (ey - emin')) by lia.
      rewrite pow2_split, Pos2Z.inj_mul by lia. lia. }
    rewrite HP.
    set (P := Z.pos mx * 2 ^ (ex - emin') * (Z.pos my * 2 ^ (ey - emin'))).
    assert (0 < P) by (unfold P; nia).
    rewrite round_at_valid, round_at_not_nan, round_at_sign, ext_round_at
      by lia.
    unfold mext. destruct (Z.eqb_spec P 0); [lia|]. done.
Qed.

(** ** Integer part *)

Lemma trunc_ext (x : spec_float) :
  valid' x = true -> is_finite x = true -> sign_clear x = true ->
  Double.trunc x = Some (ext' x / 2 ^ (- emin')).
Proof.
  intros Hx Fx Sx. assert (Hemin : emin' < 0) by (unfold emin; lia).
  assert (Hp : 0 < 2 ^ (- emin')) by (apply pow2_pos; lia).
  destruct x as [s|s| |s m e]; try done.
  cbn [sign_clear] in Sx. apply negb_true_iff in Sx. subst s.
  pose proof (valid_exponent _ _ _ Hx) as He.
  cbn [Double.trunc ext cond_Zopp]. f_equal.
  destruct (decide (0 <= e)).
  - rewrite Z.shiftl_mul_pow2 by done.
    replace (e - emin') with (e + - emin') by lia.
    rewrite pow2_split, Z.mul_assoc, Z.div_mul by lia. done.
  - rewrite Z.shiftl_div_pow2 by lia.
    replace (- emin') with (- e + (e - emin')) by lia.
    assert (0 < 2 ^ (e - emin')) by (apply pow2_pos; lia).
    assert (0 < 2 ^ (- e)) by (apply pow2_pos; lia).
    rewrite pow2_split by lia.
    by rewrite Z.div_mul_cancel_r by lia.
Qed.

(** ** Division: the quotient is canonical *)

Lemma shr_mantissa (mrs : shr_record) (e n : Z) :
  0 <= shr_m mrs -> 0 <= n ->
  shr_m (fst (shr mrs e n)) = shr_m mrs / 2 ^ n /\ snd (shr mrs e n) = e + n.
Proof.
  intros Hm Hn. destruct mrs as [m r s]. cbn [shr_m] in Hm.
  destruct n as [|p|p]; [| |lia]; cbn [shr fst snd shr_m].
  - rewrite Z.div_1_r. split; [done | lia].
  - rewrite iter_pos_nat, shr_iter_mantissa by done.
    by rewrite positive_nat_Z.
Qed.

Lemma shr_record_of_loc_m (m : Z) (l : location) :
  shr_m (shr_record_of_loc m l) = m.
Proof. by destruct l as [|[]]. Qed.

Lemma round_nearest_even_bounds (m : Z) (l : location) :
  m <= round_nearest_even m l <= m + 1.
Proof. destruct l as [|[]]; cbn; [lia|destruct (Z.even m); lia|lia|lia]. Qed.

Lemma quotient_fit (m e M : Z) :
  0 <= m ->
  e <= fexp' (Zdigits2 m + e) ->
  m / 2 ^ (fexp' (Zdigits2 m + e) - e) <= M
    <= m / 2 ^ (fexp' (Zdigits2 m + e) - e) + 1 ->
  fit' M (fexp' (Zdigits2 m + e)).
Proof.
  intros Hm He HM.
  assert (H2p : 2 ^ 1 <= 2 ^ prec) by (apply pow2_le; lia).
  change (2 ^ 1) with 2 in H2p.
  destruct (decide (m = 0)) as [->|Hne].
  - cbn [Zdigits2] in *. rewrite Z.add_0_l in *.
    assert (HE : fexp' e = emin') by (unfold fexp in *; lia).
    rewrite HE in *. rewrite Z.div_0_l in HM
      by (apply Z.pow_nonzero; lia).
    unfold fit. lia.
  - rewrite Zdigits2_log2 in * by lia.
    set (L := Z.log2 m + 1 + e) in *. set (E := fexp' L) in *.
    pose proof (fexp_ge_emin L) as HE. fold E in HE.
    pose proof (log2_bounds m ltac:(lia)) as [Hlo Hhi].
    pose proof (Z.log2_nonneg m) as Hl0.
    assert (Hpn : 0 < 2 ^ (E - e)) by (apply pow2_pos; lia).
    assert (Hq0 : 0 <= m / 2 ^ (E - e)) by (apply Z.div_pos; lia).
    assert (HLE : L - E <= prec) by (unfold E, fexp; lia).
    split; [split; [lia|] | split; [done|]].
    + destruct (decide (0 <= L - E)) as [Hpos|Hneg].
      * assert (m / 2 ^ (E - e) < 2 ^ (L - E)).
        { apply Z.div_lt_upper_bound; [lia|].
          rewrite <- pow2_split by lia.
          replace (E - e + (L - E)) with (Z.log2 m + 1) by lia. done. }
        assert (2 ^ (L - E) <= 2 ^ prec) by (apply pow2_le; lia).
        lia.
      * assert (m / 2 ^ (E - e) = 0).
        { apply Z.div_small. split; [lia|].
          assert (2 ^ (Z.log2 m + 1) <= 2 ^ (E - e)) by (apply pow2_le; lia).
          lia. }
        lia.
    + intros Hlt.
      assert (HEL : E = L - prec) by (unfold E, fexp in *; lia).
      assert (2 ^ (prec - 1) <= m / 2 ^ (E - e)); [|lia].
      apply Z.div_le_lower_bound; [lia|].
      rewrite Z.mul_comm, <- pow2_split by lia.
      replace (prec - 1 + (E - e)) with (Z.log2 m) by lia. done.
Qed.

Lemma binary_round_aux_fit (s : bool) (m e : Z) (l : location) :
  0 <= m ->
  e <= fexp' (Zdigits2 m + e) ->
  exists M, fit' M (fexp' (Zdigits2 m + e)) /\
    binary_round_aux prec emax s m e l = pack' s M (fexp' (Zdigits2 m + e)).
Proof.
  intros Hm He. unfold binary_round_aux.
  set (E := fexp' (Zdigits2 m + e)) in *.
  unfold shr_fexp at 1. fold E.
  destruct (shr_mantissa (shr_record_of_loc m l) e (E - e)) as [H1 H2];
    [by rewrite shr_record_of_loc_m | lia |].
  rewrite shr_record_of_loc_m in H1.
  destruct (shr (shr_record_of_loc m l) e (E - e)) as [mrs e'].
  cbn [fst snd] in H1, H2. subst e'.
  replace (e + (E - e)) with E by lia.
  set (M := round_nearest_even (shr_m mrs) (loc_of_shr_record mrs)).
  assert (Hfit : fit' M E).
  { apply (quotient_fit m e M Hm He). fold E. rewrite <- H1.
    apply round_nearest_even_bounds. }
  exists M. split; [done|]. by apply renormalise_fit.
Qed.

Lemma div_core_ready (m1 m2 : positive) (e1 e2 : Z) :
  let '(q, e, l) := SFdiv_core_binary prec emax (Z.pos m1) e1 (Z.pos m2) e2 in
  0 <= q /\ e <= fexp' (Zdigits2 q + e).
Proof.
  unfold SFdiv_core_binary.
  rewrite !Zdigits2_log2 by lia.
  set (X := Z.log2 (Z.pos m1) + 1 + e1 - (Z.log2 (Z.pos m2) + 1 + e2)).
  set (e := Z.min (fexp' X) (e1 - e2)).
  set (s := e1 - e2 - e).
  assert (Hs : 0 <= s) by (unfold s, e; lia).
  set (m' := match s with Z.pos _ => Z.shiftl (Z.pos m1) s
                        | Z0 => Z.pos m1 | Z.neg _ => 0 end).
  assert (Hm' : m' = Z.pos m1 * 2 ^ s).
  { unfold m'. destruct s as [|p|p] eqn:Es; [lia| |lia].
    by rewrite Z.shiftl_mul_pow2 by lia. }
  pose proof (Z_div_mod m' (Z.pos m2) ltac:(lia)) as Hdm.
  destruct (Z.div_eucl m' (Z.pos m2)) as [q r]. destruct Hdm as [Hq Hr].
  assert (Hps : 0 < 2 ^ s) by (apply pow2_pos; lia).
  assert (Hq0 : 0 <= q) by nia.
  split; [done|].
  pose proof (log2_bounds (Z.pos m1) ltac:(lia)) as [L1 U1].
  pose proof (log2_bounds (Z.pos m2) ltac:(lia)) as [L2 U2].
  pose proof (Z.log2_nonneg (Z.pos m1)) as N1.
  pose proof (Z.log2_nonneg (Z.pos m2)) as N2.
  assert (He : e <= fexp' X) by (unfold e; lia).
  destruct (decide (q = 0)) as [->|Hne].
  - cbn [Zdigits2]. rewrite Z.add_0_l.
    assert (Hlt : Z.pos m1 * 2 ^ s < Z.pos m2) by lia.
    assert (Z.log2 (Z.pos m1) + s <= Z.log2 (Z.pos m2)).
    { assert (2 ^ (Z.log2 (Z.pos m1) + s) < 2 ^ (Z.log2 (Z.pos m2) + 1)).
      { rewrite (pow2_split (Z.log2 (Z.pos m1))) by lia. nia. }
      apply Z.pow_lt_mono_r_iff in H; lia. }
    unfold fexp in *. unfold X, s in *. lia.
  - rewrite Zdigits2_log2 by lia.
    assert (Hlog : Z.log2 (Z.pos m1) + s - Z.log2 (Z.pos m2) - 1 <= Z.log2 q).
    { destruct (decide (0 <= Z.log2 (Z.pos m1) + s - Z.log2 (Z.pos m2) - 1))
        as [Ht|Ht]; [|pose proof (Z.log2_nonneg q); lia].
      apply Z.log2_le_pow2; [lia|].
      set (t := Z.log2 (Z.pos m1) + s - Z.log2 (Z.pos m2) - 1) in *.
      assert (Hpt : 0 < 2 ^ t) by (apply pow2_pos; lia).
      assert (2 ^ t * 2 ^ (Z.log2 (Z.pos m2) + 1)
              = 2 ^ (Z.log2 (Z.pos m1)) * 2 ^ s).
      { rewrite <- !pow2_split by lia. f_equal. unfold t. lia. }
      assert (2 ^ t * Z.pos m2 < Z.pos m1 * 2 ^ s) by nia.
      nia. }
    pose proof (fexp_mono X (Z.log2 q + 1 + e)
                  ltac:(unfold X, s in *; lia)).
    lia.
Qed.

Lemma div_finite (mx my : positive) (ex ey : Z) :
  let r := SFdiv prec emax (S754_finite false mx ex) (S754_finite false my ey) in
  valid' r = true /\ is_nan r = false /\ sign_clear r = true.
Proof.
  cbn [SFdiv xorb].
  pose proof (div_core_ready mx my ex ey) as Hready.
  destruct (SFdiv_core_binary prec emax (Z.pos mx) ex (Z.pos my) ey)
    as [[q e] l].
  destruct Hready as [Hq He].
  destruct (binary_round_aux_fit false q e l Hq He) as (M & Hfit & ->).
  by apply pack_props.
Qed.

End Rounding.

(** ** Binary64 *)

Lemma binary64_prec : 1 < Double.prec.
Proof. reflexivity. Qed.

Lemma binary64_emax : Double.prec < Double.emax.
Proof. reflexivity. Qed.

Lemma binary64_emin : emin Double.prec Double.emax <= 0.
Proof. discriminate. Qed.

Lemma sign_clear_ext (x : double) :
  sign_clear x = true -> 0 <= ext Double.prec Double.emax x.
Proof.
  destruct x as [s|s| |s m e]; try done; cbn [sign_clear ext];
    intros ->%negb_true_iff; cbn [cond_Zopp].
  - apply Z.pow_nonneg. lia.
  - apply Z.mul_nonneg_nonneg; [lia | apply Z.pow_nonneg; lia].
Qed.

Lemma sign_clear_not_nan (x : double) : sign_clear x = true -> is_nan x = false.
Proof. by destruct x. Qed.

Lemma finite_not_nan (x : double) : is_finite x = true -> is_nan x = false.
Proof. by destruct x. Qed.

Lemma of_int_props (v : Z) :
  Double.valid (Double.of_int v) = true /\
  is_nan (Double.of_int v) = false /\
  ext Double.prec Double.emax (Double.of_int v)
  = sext Double.prec Double.emax
      (v * 2 ^ (0 - emin Double.prec Double.emax)).
Proof.
  destruct (binary_normalize_props Double.prec Double.emax
              binary64_prec binary64_emax v 0 false binary64_emin)
    as (H1 & H2 & H3 & _).
  done.
Qed.

Lemma of_int_mono (v1 v2 : Z) :
  v1 <= v2 ->
  ext Double.prec Double.emax (Double.of_int v1)
  <= ext Double.prec Double.emax (Double.of_int v2).
Proof.
  intros Hv.
  destruct (of_int_props v1) as (_ & _ & ->).
  destruct (of_int_props v2) as (_ & _ & ->).
  apply (sext_mono _ _ binary64_prec binary64_emax).
  pose proof binary64_emin.
  assert (0 < 2 ^ (0 - emin Double.prec Double.emax)) by (apply pow2_pos; lia).
  nia.
Qed.

Lemma double_leb_ext (x y : double) :
  Double.valid x = true -> Double.valid y = true ->
  is_nan x = false -> is_nan y = false ->
  Double.leb x y
  = bool_decide (ext Double.prec Double.emax x <= ext Double.prec Double.emax y).
Proof. apply (leb_ext _ _ binary64_prec binary64_emax). Qed.

(** Order facts used on the window bounds, which may be NaN. *)
Lemma leb_upward (x1 x2 y : double) :
  Double.valid x1 = true -> Double.valid x2 = true -> Double.valid y = true ->
  is_nan x1 = false -> is_nan x2 = false ->
  ext Double.prec Double.emax x1 <= ext Double.prec Double.emax x2 ->
  Double.leb x2 y = true -> Double.leb x1 y = true.
Proof.
  intros V1 V2 Vy N1 N2 Hle H.
  destruct (leb_true_not_nan _ _ H) as [_ Ny].
  rewrite double_leb_ext in H |- * by done.
  apply bool_decide_eq_true in H. apply bool_decide_eq_true. lia.
Qed.

Lemma geb_upward (x1 x2 y : double) :
  Double.valid x1 = true -> Double.valid x2 = true -> Double.valid y = true ->
  is_nan x1 = false -> is_nan x2 = false ->
  ext Double.prec Double.emax x1 <= ext Double.prec Double.emax x2 ->
  Double.geb x1 y = true -> Double.geb x2 y = true.
Proof.
  unfold Double.geb. intros V1 V2 Vy N1 N2 Hle H.
  destruct (leb_true_not_nan _ _ H) as [Ny _].
  fold (Double.leb y x1) in H. fold (Double.leb y x2).
  rewrite double_leb_ext in H |- * by done.
  apply bool_decide_eq_true in H. apply bool_decide_eq_true. lia.
Qed.

Lemma mul_finite_inv (x y : double) :
  is_finite (Double.mul x y) = true -> is_finite x = true /\ is_finite y = true.
Proof. destruct x as [?|?| |? ? ?], y as [?|?| |? ? ?]; done. Qed.

Lemma sub_finite_inv (x y : double) :
  is_finite (Double.sub x y) = true -> is_finite x = true /\ is_finite y = true.
Proof.
  destruct x as [?|[]| |? ? ?], y as [?|[]| |? ? ?]; done.
Qed.

Lemma to_uint8_trunc (x : double) (v : Z) :
  Double.to_uint8 x = Some v -> Double.trunc x = Some v /\ is_finite x = true.
Proof.
  unfold Double.to_uint8. destruct (Double.trunc x) as [z|] eqn:E; [|done].
  simpl. case_decide; [|done]. intros [= <-]. split; [done|].
  by destruct x.
Qed.

(** The scaled value of a raw value strictly inside the window, as a
    function of the raw value. *)
Lemma scaled_value (lower scale : double) (v r : Z) :
  Double.valid lower = true -> Double.valid scale = true ->
  sign_clear scale = true ->
  Double.leb (Double.of_int v) lower = false ->
  Double.to_uint8 (Double.mul (Double.sub (Double.of_int v) lower) scale)
  = Some r ->
  is_finite lower = true /\ is_finite scale = true /\
  ext Double.prec Double.emax lower
    < ext Double.prec Double.emax (Double.of_int v) /\
  r = mext Double.prec Double.emax
        (sext Double.prec Double.emax
           (ext Double.prec Double.emax (Double.of_int v)
            - ext Double.prec Double.emax lower)
         * ext Double.prec Double.emax scale)
      / 2 ^ (- emin Double.prec Double.emax).
Proof.
  intros Vl Vs Ss Hleb Hr.
  destruct (of_int_props v) as (VX & NX & _).
  destruct (to_uint8_trunc _ _ Hr) as [Ht Fp].
  unfold Double.mul, Double.sub in *.
  destruct (mul_finite_inv _ _ Fp) as [Fa Fs].
  destruct (sub_finite_inv _ _ Fa) as [FX Fl].
  rewrite double_leb_ext in Hleb by auto using finite_not_nan.
  apply bool_decide_eq_false in Hleb.
  destruct (sub_finite Double.prec Double.emax binary64_prec binary64_emax
              (Double.of_int v) lower VX Vl FX Fl) as (Va & Na & Ea & Sa).
  specialize (Sa ltac:(lia)).
  destruct (mul_finite Double.prec Double.emax binary64_prec binary64_emax
              _ scale Va Vs Fa Fs Sa Ss) as (Vp & Np & Sp & Ep).
  rewrite (trunc_ext Double.prec Double.emax binary64_prec binary64_emax
             _ Vp Fp Sp) in Ht.
  injection Ht as <-.
  split; [done|]. split; [done|]. split; [lia|].
  rewrite Ep, Ea. done.
Qed.

(** Monotonicity of the loop body of [buildWindowLevelLut]. *)
Lemma lutEntry_monotone (lower upper scale : double) (v1 v2 a b : Z) :
  Double.valid lower = true -> Double.valid upper = true ->
  Double.valid scale = true -> sign_clear scale = true ->
  v1 <= v2 ->
  lutEntry lower upper scale false v1 = Some a ->
  lutEntry lower upper scale false v2 = Some b ->
  a <= b.
Proof.
  intros Vl Vu Vs Ss Hv H1 H2.
  pose proof (lutEntry_range _ _ _ _ _ _ H1) as Ra.
  pose proof (lutEntry_range _ _ _ _ _ _ H2) as Rb.
  destruct (of_int_props v1) as (VX1 & NX1 & _).
  destruct (of_int_props v2) as (VX2 & NX2 & _).
  pose proof (of_int_mono v1 v2 Hv) as HX.
  unfold lutEntry in H1, H2.
  destruct (Double.leb (Double.of_int v1) lower) eqn:L1.
  { injection H1 as <-. lia. }
  assert (L2 : Double.leb (Double.of_int v2) lower = false).
  { destruct (Double.leb (Double.of_int v2) lower) eqn:L2; [|done].
    rewrite (leb_upward _ _ _ VX1 VX2 Vl NX1 NX2 HX L2) in L1. done. }
  rewrite L2 in H2.
  destruct (Double.geb (Double.of_int v1) upper) eqn:G1.
  { rewrite (geb_upward _ _ _ VX1 VX2 Vu NX1 NX2 HX G1) in H2.
    injection H1 as <-. injection H2 as <-. lia. }
  destruct (Double.geb (Double.of_int v2) upper) eqn:G2.
  { injection H2 as <-. lia. }
  destruct (Double.to_uint8
              (Double.mul (Double.sub (Double.of_int v1) lower) scale))
    as [r1|] eqn:T1; [|done].
  destruct (Double.to_uint8
              (Double.mul (Double.sub (Double.of_int v2) lower) scale))
    as [r2|] eqn:T2; [|done].
  injection H1 as <-. injection H2 as <-.
  destruct (scaled_value _ _ _ _ Vl Vs Ss L1 T1) as (_ & _ & D1 & ->).
  destruct (scaled_value _ _ _ _ Vl Vs Ss L2 T2) as (_ & _ & D2 & ->).
  pose proof binary64_emin as Hemin.
  apply Z.div_le_mono; [apply pow2_pos; lia|].
  apply (mext_mono _ _ binary64_prec binary64_emax).
  pose proof (sign_clear_ext scale Ss) as Hs0.
  set (S1 := sext Double.prec Double.emax
               (ext Double.prec Double.emax (Double.of_int v1)
                - ext Double.prec Double.emax lower)).
  set (S2 := sext Double.prec Double.emax
               (ext Double.prec Double.emax (Double.of_int v2)
                - ext Double.prec Double.emax lower)).
  assert (HS : S1 <= S2)
    by (apply (sext_mono _ _ binary64_prec binary64_emax); lia).
  assert (H0 : 0 <= S1).
  { change 0 with (sext Double.prec Double.emax 0).
    apply (sext_mono _ _ binary64_prec binary64_emax). lia. }
  nia.
Qed.

(** The window bounds and the scale are well-formed data. *)
Lemma positive_width_shape (w : double) :
  Double.valid w = true ->
  Double.ltb (Double.of_int 0) w = true ->
  (exists m e, w = S754_finite false m e) \/ w = S754_infinity false.
Proof.
  intros _. rewrite of_int_0.
  destruct w as [[]|[]| |[] m e]; try done; [by right | left; by eexists _, _].
Qed.

Lemma of_int_2 : Double.of_int 2 = S754_finite false 4503599627370496 (-51).
Proof. reflexivity. Qed.

Lemma of_int_255 : Double.of_int 255 = S754_finite false 8972014882652160 (-45).
Proof. reflexivity. Qed.

Lemma window_bounds_valid (wl : SWindowLevel) :
  Double.valid (center wl) = true ->
  Double.valid (width wl) = true ->
  Double.ltb (Double.of_int 0) (width wl) = true ->
  let half := SFdiv Double.prec Double.emax (width wl) (Double.of_int 2) in
  let scale := SFdiv Double.prec Double.emax (Double.of_int 255) (width wl) in
  Double.valid (Double.sub (center wl) half) = true /\
  Double.valid (Double.add (center wl) half) = true /\
  Double.valid scale = true /\ sign_clear scale = true.
Proof.
  intros Vc Vw Hw half scale.
  assert (Vh : Double.valid half = true).
  { subst half. rewrite of_int_2.
    destruct (positive_width_shape _ Vw Hw) as [(m & e & ->) | ->]; [|done].
    by destruct (div_finite Double.prec Double.emax binary64_prec
                   m 4503599627370496 e (-51)) as (H & _). }
  split; [by apply (sub_valid _ _ binary64_prec binary64_emax)|].
  split; [by apply (add_valid _ _ binary64_prec binary64_emax)|].
  subst scale. rewrite of_int_255.
  destruct (positive_width_shape _ Vw Hw) as [(m & e & ->) | ->]; [|done].
  by destruct (div_finite Double.prec Double.emax binary64_prec
                 8972014882652160 m (-45) e) as (H1 & _ & H3).
Qed.

(** * Rounding errors of binary floating-point operations *)

Lemma rne_error (m n : Z) :
  0 <= n -> - 2 ^ n <= 2 * (rne m n * 2 ^ n - m) <= 2 ^ n.
Proof.
  intros Hn. unfold rne.
  assert (Hp : 0 < 2 ^ n) by (apply pow2_pos; lia).
  pose proof (Z.div_mod m (2 ^ n) ltac:(lia)) as Hdm.
  pose proof (Z.mod_pos_bound m (2 ^ n) Hp) as Hr.
  destruct (Z.compare_spec (2 * (m mod 2 ^ n)) (2 ^ n)) as [He|Hl|Hg].
  - destruct (Z.even (m / 2 ^ n)); nia.
  - nia.
  - nia.
Qed.

Section RoundingError.

Variables prec emax : Z.
Hypothesis Hprec : 1 < prec.
Hypothesis Hemax : prec < emax.

Local Abbreviation emin_ := (emin prec emax).
Local Abbreviation fexp_ := (fexp prec emax).
Local Abbreviation ext_ := (ext prec emax).
Local Abbreviation valid_ := (valid_binary prec emax).
Local Abbreviation fit_ := (fit prec emax).
Local Abbreviation pack_ := (pack prec emax).
Local Abbreviation rounded_ := (rounded prec emax).
Local Abbreviation sext_ := (sext prec emax).
Local Abbreviation mext_ := (mext prec emax).
Local Abbreviation top_ := (2 ^ (emax - emin prec emax)).

(** The rounding of [N * 2^e0], counted in units of [2^e0], is within
    [N / 2^prec] of [N], or within less than one unit of [2^emin]. *)
Lemma rounded_error (N e0 : Z) :
  0 < N -> e0 <= emin_ ->
  2 ^ prec * Z.abs (rounded_ N e0 * 2 ^ (emin_ - e0) - N)
  <= N + 2 ^ prec * (2 ^ (emin_ - e0) - 1).
Proof.
  intros HN He0. unfold rounded.
  set (L := Z.log2 N + 1 + e0). set (E := fexp_ L).
  pose proof (fexp_ge_emin prec emax L) as HE. fold E in HE.
  pose proof (log2_bounds N HN) as [Hlo Hhi].
  pose proof (Z.log2_nonneg N) as Hl0.
  assert (HV : 0 < 2 ^ (emin_ - e0)) by (apply pow2_pos; lia).
  assert (HB : 0 < 2 ^ prec) by (apply pow2_pos; lia).
  rewrite <- Z.mul_assoc, <- pow2_split by lia.
  replace (E - emin_ + (emin_ - e0)) with (E - e0) by lia.
  pose proof (rne_error N (E - e0) ltac:(lia)) as Herr.
  destruct (decide (E = emin_)) as [Heq|Hne].
  - rewrite Heq in *.
    destruct (decide (e0 = emin_)) as [->|Hlt].
    + rewrite Z.sub_diag in *. change (2 ^ 0) with 1 in *.
      assert (Hz : rne N 0 * 1 - N = 0) by lia.
      rewrite Hz. simpl. lia.
    + assert (2 <= 2 ^ (emin_ - e0)).
      { change 2 with (2 ^ 1) at 1. apply pow2_le. lia. }
      nia.
  - assert (HEL : E = L - prec) by (unfold E, fexp in *; lia).
    assert (Hn : E - e0 = Z.log2 N + 1 - prec) by (unfold L in *; lia).
    assert (Hge : 1 <= E - e0) by lia.
    assert (Hhalf : 2 ^ (E - e0) = 2 * 2 ^ (E - e0 - 1)).
    { rewrite <- Z.pow_succ_r by lia. f_equal. lia. }
    assert (Hprod : 2 ^ prec * 2 ^ (E - e0 - 1) = 2 ^ Z.log2 N).
    { rewrite <- pow2_split by lia. f_equal. lia. }
    assert (1 <= 2 ^ (emin_ - e0)) by lia.
    nia.
Qed.

Lemma sext_error (D : Z) :
  Z.abs D <= top_ -> 2 ^ prec * Z.abs (sext_ D - D) <= Z.abs D.
Proof.
  intros HD. unfold sext.
  assert (HB : 0 < 2 ^ prec) by (apply pow2_pos; lia).
  destruct (Z.eqb_spec D 0) as [->|Hne]; [simpl; lia|].
  destruct (Z.ltb_spec 0 D) as [Hpos|Hneg].
  - pose proof (rounded_error D emin_ Hpos ltac:(lia)) as H.
    rewrite Z.sub_diag in H. change (2 ^ 0) with 1 in H.
    rewrite Z.mul_1_r in H.
    assert (Hcut : Z.abs (Z.min (rounded_ D emin_) top_ - D)
                   <= Z.abs (rounded_ D emin_ - D)) by lia.
    apply (Z.mul_le_mono_nonneg_l _ _ (2 ^ prec)) in Hcut; lia.
  - pose proof (rounded_error (- D) emin_ ltac:(lia) ltac:(lia)) as H.
    rewrite Z.sub_diag in H. change (2 ^ 0) with 1 in H.
    rewrite Z.mul_1_r in H.
    assert (Hcut : Z.abs (- Z.min (rounded_ (- D) emin_) top_ - D)
                   <= Z.abs (rounded_ (- D) emin_ - - D)) by lia.
    apply (Z.mul_le_mono_nonneg_l _ _ (2 ^ prec)) in Hcut; lia.
Qed.

Lemma mext_upper (P : Z) :
  0 <= P ->
  2 ^ prec * (mext_ P * 2 ^ (- emin_))
  <= (2 ^ prec + 1) * P + 2 ^ prec * (2 ^ (- emin_) - 1).
Proof.
  intros HP. unfold mext.
  assert (HB : 0 < 2 ^ prec) by (apply pow2_pos; lia).
  assert (Hemin : emin_ < 0) by (unfold emin; lia).
  assert (HU : 0 < 2 ^ (- emin_)) by (apply pow2_pos; lia).
  destruct (Z.eqb_spec P 0) as [->|Hne]; [simpl; nia|].
  pose proof (rounded_error P (2 * emin_) ltac:(lia) ltac:(lia)) as H.
  replace (emin_ - 2 * emin_) with (- emin_) in H by lia.
  pose proof (rounded_nonneg prec emax Hprec P (2 * emin_) ltac:(lia) ltac:(lia)).
  nia.
Qed.

(** The significand the final rounding delivers, against the truncated
    one. *)
Lemma binary_round_aux_bounds (s : bool) (m e : Z) (l : location) :
  0 <= m ->
  e <= fexp_ (Zdigits2 m + e) ->
  exists M,
    m / 2 ^ (fexp_ (Zdigits2 m + e) - e) <= M
      <= m / 2 ^ (fexp_ (Zdigits2 m + e) - e) + 1 /\
    fit_ M (fexp_ (Zdigits2 m + e)) /\
    binary_round_aux prec emax s m e l = pack_ s M (fexp_ (Zdigits2 m + e)).
Proof.
  intros Hm He. unfold binary_round_aux.
  set (E := fexp_ (Zdigits2 m + e)) in *.
  unfold shr_fexp at 1. fold E.
  destruct (shr_mantissa (shr_record_of_loc m l) e (E - e)) as [H1 H2];
    [by rewrite shr_record_of_loc_m | lia |].
  rewrite shr_record_of_loc_m in H1.
  destruct (shr (shr_record_of_loc m l) e (E - e)) as [mrs e'].
  cbn [fst snd] in H1, H2. subst e'.
  replace (e + (E - e)) with E by lia.
  set (M := round_nearest_even (shr_m mrs) (loc_of_shr_record mrs)).
  assert (HM : m / 2 ^ (E - e) <= M <= m / 2 ^ (E - e) + 1).
  { rewrite <- H1. apply round_nearest_even_bounds. }
  assert (Hfit : fit_ M E).
  { apply (quotient_fit prec emax Hprec m e M Hm He). by fold E. }
  exists M. split; [done|]. split; [done|]. by apply renormalise_fit.
Qed.

Lemma div_core_value (m1 m2 : positive) (e1 e2 : Z) :
  let '(q, e, l) := SFdiv_core_binary prec emax (Z.pos m1) e1 (Z.pos m2) e2 in
  0 <= e1 - e2 - e /\
  0 <= q /\
  q * Z.pos m2 <= Z.pos m1 * 2 ^ (e1 - e2 - e).
Proof.
  unfold SFdiv_core_binary.
  set (e := Z.min _ (e1 - e2)).
  set (s := e1 - e2 - e).
  assert (Hs : 0 <= s) by (unfold s, e; lia).
  set (m' := match s with Z.pos _ => Z.shiftl (Z.pos m1) s
                        | Z0 => Z.pos m1 | Z.neg _ => 0 end).
  assert (Hm' : m' = Z.pos m1 * 2 ^ s).
  { unfold m'. destruct s as [|p|p] eqn:Es; [lia| |lia].
    by rewrite Z.shiftl_mul_pow2 by lia. }
  pose proof (Z_div_mod m' (Z.pos m2) ltac:(lia)) as Hdm.
  destruct (Z.div_eucl m' (Z.pos m2)) as [q r]. destruct Hdm as [Hq Hr].
  assert (Hps : 0 < 2 ^ s) by (apply pow2_pos; lia).
  split; [done|]. fold s. rewrite Hm' in Hq. clear Hm'. clearbody m' s.
  assert (0 < Z.pos m1 * 2 ^ s) by nia.
  split; nia.
Qed.

(** The quotient of two positive finite data, from above. *)
Lemma div_upper (mx my : positive) (ex ey : Z) :
  valid_ (S754_finite false mx ex) = true ->
  valid_ (S754_finite false my ey) = true ->
  let R := ext_ (SFdiv prec emax (S754_finite false mx ex)
                   (S754_finite false my ey)) in
  let X := ext_ (S754_finite false mx ex) in
  let Y := ext_ (S754_finite false my ey) in
  (2 ^ prec - 2) * (R * Y) <= 2 ^ prec * (X * 2 ^ (- emin_) + Y).
Proof.
  intros Hx Hy. cbn [SFdiv xorb ext cond_Zopp]. cbv zeta.
  pose proof (valid_exponent prec emax Hprec _ _ _ Hx) as Hex.
  pose proof (valid_exponent prec emax Hprec _ _ _ Hy) as Hey.
  pose proof (div_core_ready prec emax Hprec mx my ex ey) as Hready.
  pose proof (div_core_value mx my ex ey) as Hvalue.
  destruct (SFdiv_core_binary prec emax (Z.pos mx) ex (Z.pos my) ey)
    as [[q e] l].
  destruct Hready as [Hq He]. destruct Hvalue as (Hs & _ & Hqm).
  destruct (binary_round_aux_bounds false q e l Hq He) as (M & HM & Hfit & ->).
  rewrite (ext_pack prec emax Hprec Hemax) by done.
  cbn [cond_Zopp].
  set (E := fexp_ (Zdigits2 q + e)) in *.
  destruct Hfit as ((HM0 & HMB) & HE & Hnorm).
  set (n := E - e) in *.
  assert (Hn : 0 <= n) by (unfold n; lia).
  assert (Hemin : emin_ < 0) by (unfold emin; lia).
  assert (HB : 4 <= 2 ^ prec).
  { change 4 with (2 ^ 2). apply pow2_le. lia. }
  assert (Hpn : 0 < 2 ^ n) by (apply pow2_pos; lia).
  assert (HpE : 0 < 2 ^ (E - emin_)) by (apply pow2_pos; lia).
  assert (Hpy : 0 < 2 ^ (ey - emin_)) by (apply pow2_pos; lia).
  assert (Hpx : 0 < 2 ^ (ex - emin_)) by (apply pow2_pos; lia).
  assert (HpU : 0 < 2 ^ (- emin_)) by (apply pow2_pos; lia).
  (* the rounded significand against the exact quotient *)
  assert (HMn : M * 2 ^ n <= q + 2 ^ n).
  { pose proof (Z.mul_div_le q (2 ^ n) Hpn). nia. }
  assert (HMm : M * 2 ^ n * Z.pos my <= Z.pos mx * 2 ^ (ex - ey - e)
                                        + 2 ^ n * Z.pos my) by nia.
  set (R' := M * 2 ^ (E - emin_)).
  set (Y := Z.pos my * 2 ^ (ey - emin_)).
  set (X := Z.pos mx * 2 ^ (ex - emin_)).
  assert (HR' : 0 <= R') by (unfold R'; nia).
  assert (HY : 0 < Y) by (unfold Y; nia).
  assert (Hcore : R' * Y <= X * 2 ^ (- emin_) + 2 ^ (E - emin_) * Y).
  { destruct (decide (emin_ <= e)) as [Hge|Hlt].
    - (* scale by 2^(e - emin) * 2^(ey - emin) *)
      assert (Hk : 0 < 2 ^ (e - emin_)) by (apply pow2_pos; lia).
      assert (HE2 : 2 ^ (E - emin_) = 2 ^ n * 2 ^ (e - emin_)).
      { rewrite <- pow2_split by lia. f_equal. unfold n. lia. }
      assert (HX2 : X * 2 ^ (- emin_)
                    = Z.pos mx * 2 ^ (ex - ey - e)
                      * (2 ^ (e - emin_) * 2 ^ (ey - emin_))).
      { unfold X. rewrite <- !Z.mul_assoc. f_equal.
        rewrite <- !pow2_split by lia. f_equal. lia. }
      unfold R', Y. rewrite HX2, HE2.
      assert (0 < 2 ^ (e - emin_) * 2 ^ (ey - emin_)) by nia.
      nia.
    - (* both sides scaled by 2^(emin - e) *)
      assert (Hk : 0 < 2 ^ (emin_ - e)) by (apply pow2_pos; lia).
      assert (HE2 : 2 ^ (E - emin_) * 2 ^ (emin_ - e) = 2 ^ n).
      { rewrite <- pow2_split by lia. f_equal. unfold n. lia. }
      assert (HX2 : X * 2 ^ (- emin_) * 2 ^ (emin_ - e)
                    = Z.pos mx * 2 ^ (ex - ey - e) * 2 ^ (ey - emin_)).
      { unfold X. rewrite <- !Z.mul_assoc. f_equal.
        rewrite <- !pow2_split by lia. f_equal. lia. }
      apply (Zmult_le_reg_r _ _ (2 ^ (emin_ - e))); [lia|].
      rewrite Z.mul_add_distr_r, HX2.
      replace (R' * Y * 2 ^ (emin_ - e))
        with (M * (2 ^ (E - emin_) * 2 ^ (emin_ - e)) * Y) by (unfold R'; ring).
      replace (2 ^ (E - emin_) * Y * 2 ^ (emin_ - e))
        with ((2 ^ (E - emin_) * 2 ^ (emin_ - e)) * Y) by ring.
      rewrite HE2. unfold Y. nia. }
  (* the last place against the result *)
  assert (Hulp : 2 ^ prec * 2 ^ (E - emin_) <= 2 ^ prec + 2 * R').
  { destruct (decide (E = emin_)) as [->|Hne].
    - rewrite Z.sub_diag. change (2 ^ 0) with 1. lia.
    - specialize (Hnorm ltac:(lia)).
      assert (2 ^ prec = 2 * 2 ^ (prec - 1)).
      { rewrite <- Z.pow_succ_r by lia. f_equal. lia. }
      unfold R'. nia. }
  assert (Hmin : Z.min R' top_ <= R') by lia.
  assert (Hmin0 : 0 <= Z.min R' top_).
  { pose proof (top_pos prec emax Hprec Hemax). lia. }
  fold R' X Y.
  assert (Hmain : (2 ^ prec - 2) * (R' * Y) <= 2 ^ prec * (X * 2 ^ (- emin_) + Y))
    by nia.
  assert ((2 ^ prec - 2) * (Z.min R' top_ * Y) <= (2 ^ prec - 2) * (R' * Y)).
  { apply Z.mul_le_mono_nonneg_l; [lia|]. apply Z.mul_le_mono_nonneg_r; lia. }
  lia.
Qed.

(** Addition, for finite data. *)
Lemma add_finite (x y : spec_float) :
  valid_ x = true -> valid_ y = true ->
  is_finite x = true -> is_finite y = true ->
  let r := SFadd prec emax x y in
  valid_ r = true /\ is_nan r = false /\
  ext_ r = sext_ (ext_ x + ext_ y).
Proof.
  intros Hx Hy Fx Fy r. subst r.
  destruct x as [sx|sx| |sx mx ex], y as [sy|sy| |sy my ey]; try done.
  - destruct sx, sy; done.
  - cbn [SFadd]. cbn [ext]. rewrite Z.add_0_l.
    change (cond_Zopp sy (Z.pos my * 2 ^ (ey - emin_)))
      with (ext_ (S754_finite sy my ey)).
    by rewrite (sext_canonical prec emax Hprec Hemax) by done.
  - cbn [SFadd]. cbn [ext]. rewrite Z.add_0_r.
    change (cond_Zopp sx (Z.pos mx * 2 ^ (ex - emin_)))
      with (ext_ (S754_finite sx mx ex)).
    by rewrite (sext_canonical prec emax Hprec Hemax) by done.
  - cbn [SFadd].
    pose proof (valid_exponent prec emax Hprec _ _ _ Hx) as Hex.
    pose proof (valid_exponent prec emax Hprec _ _ _ Hy) as Hey.
    set (ez := Z.min ex ey).
    pose proof (binary_normalize_props prec emax Hprec Hemax
                  (cond_Zopp sx (Z.pos (fst (shl_align mx ex ez)))
                   + cond_Zopp sy (Z.pos (fst (shl_align my ey ez))))
                  ez false ltac:(lia)) as (H1 & H2 & H3 & _).
    rewrite Z.mul_add_distr_r in H3.
    rewrite !(aligned_value prec emax) in H3 by lia.
    done.
Qed.

(** A datum that is not a NaN and lies strictly between the infinities is
    finite. *)
Lemma finite_of_ext (x : spec_float) :
  is_nan x = false -> Z.abs (ext_ x) < top_ -> is_finite x = true.
Proof.
  destruct x as [s|s| |s m e]; try done.
  intros _. cbn [ext]. destruct s; cbn [cond_Zopp]; lia.
Qed.

End RoundingError.

(** * The window/level table is defined for every realistic window *)

(** The arithmetic of one table entry: [U] is the unit of the scaled
    values, [B] the inverse of the relative rounding error; [H], [L],
    [Up], [S], [A], [P] are the scaled values of [half], [lowerBound],
    [upperBound], [scale], [rawValue - lowerBound] and of the product. *)
Lemma entry_below_256 (B U W C H L Up S X A P : Z) :
  B = 2 ^ 53 -> 2 ^ 64 <= U ->
  U <= W <= 2 ^ 40 * U -> Z.abs C <= 2 ^ 40 * U ->
  0 <= H -> (B - 2) * (H * (2 * U)) <= B * (W * U + 2 * U) ->
  B * Z.abs (L - (C - H)) <= Z.abs (C - H) ->
  B * Z.abs (Up - (C + H)) <= Z.abs (C + H) ->
  0 <= S -> (B - 2) * (S * W) <= B * (255 * U * U + W) ->
  L < X < Up ->
  B * Z.abs (A - (X - L)) <= Z.abs (X - L) ->
  B * (P * U) <= (B + 1) * (A * S) + B * (U - 1) ->
  P < 256 * U.
Proof.
  intros HB HU HW HC HH Hhalf HL HUp HS Hscale HX HA HP.
  change (2 ^ 53) with 9007199254740992 in HB. subst B.
  change (2 ^ 64) with 18446744073709551616 in HU.
  change (2 ^ 40) with 1099511627776 in HW, HC.
  assert (HUU : 18446744073709551616 * U <= U * U).
  { apply Z.mul_le_mono_nonneg_r; lia. }
  (* half *)
  assert (H1 : (9007199254740992 - 2) * (2 * H)
               <= 9007199254740992 * (W + 2)).
  { apply (Zmult_le_reg_r _ _ U); [lia|].
    replace ((9007199254740992 - 2) * (2 * H) * U)
      with ((9007199254740992 - 2) * (H * (2 * U))) by ring.
    replace (9007199254740992 * (W + 2) * U)
      with (9007199254740992 * (W * U + 2 * U)) by ring. done. }
  assert (HA1 : 4096 * (2 * H) <= 4097 * W) by lia.
  (* the difference *)
  assert (HB2 : 4096 * (X - L) <= 4099 * W) by lia.
  assert (HA0 : 0 <= A) by lia.
  assert (HA2 : 4096 * A <= 4100 * W) by lia.
  (* scale *)
  assert (HSW : 0 <= S * W) by (apply Z.mul_nonneg_nonneg; lia).
  assert (HS1 : 4096 * (S * W) <= 4097 * (255 * (U * U))) by lia.
  (* the product *)
  assert (HE1 : (4096 * A) * (4096 * (S * W))
                <= (4100 * W) * (4097 * (255 * (U * U)))).
  { apply Z.mul_le_mono_nonneg; lia. }
  assert (HE2 : 4096 * 4096 * (A * S) <= 4100 * 4097 * (255 * (U * U))).
  { apply (Zmult_le_reg_r _ _ W); [lia|].
    replace (4096 * 4096 * (A * S) * W)
      with ((4096 * A) * (4096 * (S * W))) by ring.
    replace (4100 * 4097 * (255 * (U * U)) * W)
      with ((4100 * W) * (4097 * (255 * (U * U)))) by ring. done. }
  apply (Zmult_lt_reg_r _ _ U); [lia|].
  replace (256 * U * U) with (256 * (U * U)) by ring.
  lia.
Qed.

(** ** Binary64 readings *)

Local Abbreviation dext := (ext Double.prec Double.emax).

Lemma sext_integer (k : Z) :
  Z.abs k < 2 ^ 53 ->
  sext Double.prec Double.emax (k * 2 ^ 1074) = k * 2 ^ 1074.
Proof.
  intros Hk.
  assert (HU : 0 < 2 ^ 1074) by (apply pow2_pos; lia).
  unfold sext.
  assert (Hexact : forall n, 0 < n < 2 ^ 53 ->
            rounded Double.prec Double.emax (n * 2 ^ 1074)
              (emin Double.prec Double.emax) = n * 2 ^ 1074).
  { intros n Hn. unfold rounded.
    change (emin Double.prec Double.emax) with (-1074).
    rewrite Z.log2_mul_pow2 by lia.
    pose proof (log2_bounds n ltac:(lia)) as [Hlo Hhi].
    pose proof (Z.log2_nonneg n) as Hl0.
    assert (Hl : Z.log2 n < 53).
    { apply Z.log2_lt_pow2; lia. }
    set (E := fexp Double.prec Double.emax _).
    assert (HE : E = Z.max (Z.log2 n + 1 - 53) (-1074)).
    { unfold E, fexp. change Double.prec with 53.
      change (emin 53 Double.emax) with (-1074). lia. }
    assert (Hd : 0 <= E - -1074 <= 1074) by lia.
    replace (n * 2 ^ 1074) with ((n * 2 ^ (1074 - (E - -1074))) * 2 ^ (E - -1074)).
    2:{ rewrite <- Z.mul_assoc, <- pow2_split by lia. do 2 f_equal. lia. }
    rewrite rne_exact by lia. done. }
  assert (Hlt : forall n, 0 < n < 2 ^ 53 ->
            n * 2 ^ 1074 <= 2 ^ (Double.emax - emin Double.prec Double.emax)).
  { intros n Hn. change (Double.emax - emin Double.prec Double.emax) with (1024 + 1074).
    rewrite pow2_split by lia.
    apply Z.mul_le_mono_nonneg_r; [lia|].
    transitivity (2 ^ 53); [lia|]. apply pow2_le. lia. }
  destruct (Z.eqb_spec (k * 2 ^ 1074) 0) as [H0|H0]; [lia|].
  destruct (Z.ltb_spec 0 (k * 2 ^ 1074)) as [Hpos|Hneg].
  - rewrite Hexact by nia. specialize (Hlt k ltac:(nia)). lia.
  - replace (- (k * 2 ^ 1074)) with ((- k) * 2 ^ 1074) by ring.
    rewrite Hexact by nia. specialize (Hlt (- k) ltac:(nia)). lia.
Qed.

(** An integer below [2^53] is a binary64 number. *)
Lemma normalize_small (k : Z) (s : bool) :
  Z.abs k < 2 ^ 53 ->
  let r := binary_normalize Double.prec Double.emax k 0 s in
  Double.valid r = true /\ is_nan r = false /\ dext r = k * 2 ^ 1074.
Proof.
  intros Hk r.
  destruct (binary_normalize_props Double.prec Double.emax
              binary64_prec binary64_emax k 0 s binary64_emin)
    as (V & N & E & _).
  split; [done|]. split; [done|].
  unfold r. rewrite E.
  change (2 ^ (0 - emin Double.prec Double.emax)) with (2 ^ 1074).
  by apply sext_integer.
Qed.

Lemma dext_of_int_small (k : Z) :
  Z.abs k < 2 ^ 53 -> dext (Double.of_int k) = k * 2 ^ 1074.
Proof. intros Hk. by apply (normalize_small k false). Qed.

Lemma positive_finite_shape (x : double) :
  is_nan x = false -> 0 < dext x < 2 ^ 2098 ->
  exists m e, x = S754_finite false m e.
Proof.
  destruct x as [s|s| |s m e]; intros Hn H; cbn [ext] in H; try done.
  - lia.
  - change (2 ^ (Double.emax - emin Double.prec Double.emax))
      with (2 ^ 2098) in H.
    destruct s; cbn [cond_Zopp] in H; lia.
  - destruct s; [|eauto]. cbn [cond_Zopp] in H.
    assert (0 <= Z.pos m * 2 ^ (e - emin Double.prec Double.emax)).
    { apply Z.mul_nonneg_nonneg; [lia | apply Z.pow_nonneg; lia]. }
    lia.
Qed.

Lemma double_finite (x : double) :
  is_nan x = false -> Z.abs (dext x) < 2 ^ 2098 -> is_finite x = true.
Proof. apply (finite_of_ext Double.prec Double.emax). Qed.

Lemma double_leb (x y : double) :
  Double.valid x = true -> Double.valid y = true ->
  is_nan x = false -> is_nan y = false ->
  Double.leb x y = bool_decide (dext x <= dext y).
Proof. apply (leb_ext Double.prec Double.emax binary64_prec binary64_emax). Qed.

Lemma double_div_positive (mx my : positive) (ex ey : Z) :
  Double.valid (S754_finite false mx ex) = true ->
  Double.valid (S754_finite false my ey) = true ->
  let r := SFdiv Double.prec Double.emax (S754_finite false mx ex)
             (S754_finite false my ey) in
  Double.valid r = true /\ is_nan r = false /\ sign_clear r = true /\
  0 <= dext r /\
  (2 ^ 53 - 2) * (dext r * dext (S754_finite false my ey))
  <= 2 ^ 53 * (dext (S754_finite false mx ex) * 2 ^ 1074
               + dext (S754_finite false my ey)).
Proof.
  intros Hx Hy r.
  destruct (div_finite Double.prec Double.emax binary64_prec mx my ex ey) as (V & N & S).
  split; [done|]. split; [done|]. split; [done|].
  split; [by apply sign_clear_ext|].
  apply (div_upper Double.prec Double.emax binary64_prec binary64_emax mx my ex ey Hx Hy).
Qed.

Lemma double_sub (x y : double) :
  Double.valid x = true -> Double.valid y = true ->
  is_finite x = true -> is_finite y = true ->
  Z.abs (dext x - dext y) <= 2 ^ 2098 ->
  let r := Double.sub x y in
  Double.valid r = true /\ is_nan r = false /\
  (dext y < dext x -> sign_clear r = true) /\
  2 ^ 53 * Z.abs (dext r - (dext x - dext y)) <= Z.abs (dext x - dext y).
Proof.
  intros Vx Vy Fx Fy Hd r.
  destruct (sub_finite Double.prec Double.emax binary64_prec binary64_emax x y Vx Vy Fx Fy)
    as (V & N & E & S).
  split; [done|]. split; [done|]. split; [done|].
  unfold r, Double.sub. rewrite E.
  by apply (sext_error Double.prec Double.emax binary64_prec).
Qed.

Lemma double_add (x y : double) :
  Double.valid x = true -> Double.valid y = true ->
  is_finite x = true -> is_finite y = true ->
  Z.abs (dext x + dext y) <= 2 ^ 2098 ->
  let r := Double.add x y in
  Double.valid r = true /\ is_nan r = false /\
  2 ^ 53 * Z.abs (dext r - (dext x + dext y)) <= Z.abs (dext x + dext y).
Proof.
  intros Vx Vy Fx Fy Hd r.
  destruct (add_finite Double.prec Double.emax binary64_prec binary64_emax x y Vx Vy Fx Fy)
    as (V & N & E).
  split; [done|]. split; [done|].
  unfold r, Double.add. rewrite E.
  by apply (sext_error Double.prec Double.emax binary64_prec).
Qed.

Lemma double_mul (x y : double) :
  Double.valid x = true -> Double.valid y = true ->
  is_finite x = true -> is_finite y = true ->
  sign_clear x = true -> sign_clear y = true ->
  let r := Double.mul x y in
  Double.valid r = true /\ is_nan r = false /\ sign_clear r = true /\
  2 ^ 53 * (dext r * 2 ^ 1074)
  <= (2 ^ 53 + 1) * (dext x * dext y) + 2 ^ 53 * (2 ^ 1074 - 1).
Proof.
  intros Vx Vy Fx Fy Sx Sy r.
  destruct (mul_finite Double.prec Double.emax binary64_prec binary64_emax x y Vx Vy Fx Fy Sx Sy)
    as (V & N & S & E).
  split; [done|]. split; [done|]. split; [done|].
  unfold r, Double.mul. rewrite E.
  apply (mext_upper Double.prec Double.emax binary64_prec binary64_emax).
  apply Z.mul_nonneg_nonneg; by apply sign_clear_ext.
Qed.

Lemma double_to_uint8 (x : double) :
  Double.valid x = true -> is_nan x = false -> sign_clear x = true ->
  dext x < 256 * 2 ^ 1074 ->
  is_Some (Double.to_uint8 x).
Proof.
  intros V N S H.
  pose proof (sign_clear_ext x S) as H0.
  assert (HU : 0 < 2 ^ 1074) by (apply pow2_pos; lia).
  assert (F : is_finite x = true).
  { apply double_finite; [done|].
    assert (256 * 2 ^ 1074 <= 2 ^ 2098).
    { change (256 * 2 ^ 1074) with (2 ^ 1082). apply pow2_le. lia. }
    lia. }
  unfold Double.to_uint8.
  rewrite (trunc_ext Double.prec Double.emax binary64_prec binary64_emax x V F S).
  change (2 ^ (- emin Double.prec Double.emax)) with (2 ^ 1074).
  cbn [mbind option_bind].
  rewrite decide_True; [done|].
  split; [apply Z.div_pos; lia|].
  assert (dext x / 2 ^ 1074 < 256); [|lia].
  apply Z.div_lt_upper_bound; lia.
Qed.

(** ** Every entry of the table is defined *)

Lemma lutEntry_defined (c w : double) (inv : bool) (raw : Z) :
  Double.valid c = true -> Double.valid w = true ->
  Double.leb (Double.of_int (- 2 ^ 40)) c = true ->
  Double.leb c (Double.of_int (2 ^ 40)) = true ->
  Double.leb (Double.of_int 1) w = true ->
  Double.leb w (Double.of_int (2 ^ 40)) = true ->
  is_Some
    (lutEntry
       (Double.sub c (SFdiv Double.prec Double.emax w (Double.of_int 2)))
       (Double.add c (SFdiv Double.prec Double.emax w (Double.of_int 2)))
       (SFdiv Double.prec Double.emax (Double.of_int 255) w) inv raw).
Proof.
  intros Vc Vw Hc1 Hc2 Hw1 Hw2.
  destruct (leb_true_not_nan _ _ Hc1) as [_ Nc].
  destruct (leb_true_not_nan _ _ Hw1) as [_ Nw].
  destruct (of_int_props (- 2 ^ 40)) as (Va & Na & _).
  destruct (of_int_props (2 ^ 40)) as (Vb & Nb & _).
  destruct (of_int_props 1) as (V1 & N1 & _).
  destruct (of_int_props 2) as (V2 & N2 & _).
  destruct (of_int_props 255) as (V255 & N255 & _).
  rewrite double_leb in Hc1, Hc2, Hw1, Hw2 by done.
  apply bool_decide_eq_true in Hc1, Hc2, Hw1, Hw2.
  rewrite dext_of_int_small in Hc1, Hc2, Hw1, Hw2 by done.
  pose proof (dext_of_int_small 2 ltac:(done)) as E2.
  pose proof (dext_of_int_small 255 ltac:(done)) as E255.
  set (C := dext c) in *. set (W := dext w) in *.
  assert (HU : 2 ^ 64 <= 2 ^ 1074) by (apply pow2_le; lia).
  assert (HT : 2 ^ 2098 = 2 ^ 1024 * 2 ^ 1074).
  { rewrite <- pow2_split by lia. done. }
  assert (HK : 2 ^ 64 <= 2 ^ 1024) by (apply pow2_le; lia).
  set (U := 2 ^ 1074) in *. set (T := 2 ^ 2098) in *.
  set (K := 2 ^ 1024) in *.
  assert (HKU : 2 ^ 64 * U <= T).
  { rewrite HT. apply Z.mul_le_mono_nonneg_r; lia. }
  clearbody K.
  change (2 ^ 64) with 18446744073709551616 in *.
  change (2 ^ 40) with 1099511627776 in *.
  change (- 1099511627776) with (-1099511627776) in *.
  (* the shapes of the operands *)
  destruct (positive_finite_shape w Nw ltac:(fold W T; lia))
    as (mw & ew & ->).
  destruct (positive_finite_shape (Double.of_int 2) N2
              ltac:(rewrite E2; fold U T; lia)) as (m2 & e2 & Eq2).
  destruct (positive_finite_shape (Double.of_int 255) N255
              ltac:(rewrite E255; fold U T; lia)) as (m255 & e255 & Eq255).
  rewrite Eq2, Eq255 in *.
  assert (Fc : is_finite c = true).
  { apply double_finite; [done|]. fold C T. lia. }
  (* half *)
  destruct (double_div_positive mw m2 ew e2 Vw V2) as (Vh & Nh & Sh & Hh0 & Hh).
  cbv zeta in Vh, Nh, Sh, Hh0, Hh.
  set (half := SFdiv Double.prec Double.emax (S754_finite false mw ew)
                 (S754_finite false m2 e2)) in *.
  fold W U in Hh. rewrite E2 in Hh. set (H := dext half) in *.
  change (2 ^ 53) with 9007199254740992 in Hh.
  assert (HhW : H <= W + 2).
  { apply (Zmult_le_reg_r _ _ (2 * U)); [lia|].
    assert (9007199254740990 * (H * (2 * U))
            <= 9007199254740990 * ((W + 2) * (2 * U))); [|lia].
    replace (9007199254740990 * ((W + 2) * (2 * U)))
      with (2 * 9007199254740990 * (W * U + 2 * U)) by ring.
    lia. }
  assert (Fh : is_finite half = true).
  { apply double_finite; [done|]. fold H T. lia. }
  (* the bounds *)
  destruct (double_sub c half Vc Vh Fc Fh ltac:(fold C H T; lia))
    as (Vl & Nl & _ & El).
  destruct (double_add c half Vc Vh Fc Fh ltac:(fold C H T; lia))
    as (Vu & Nu & Eu).
  cbv zeta in Vl, Nl, El, Vu, Nu, Eu.
  set (lower := Double.sub c half) in *. set (upper := Double.add c half) in *.
  fold C H in El, Eu. set (L := dext lower) in *. set (Up := dext upper) in *.
  (* scale *)
  destruct (double_div_positive m255 mw e255 ew V255 Vw)
    as (Vs & Ns & Ss & Hs0 & Hs).
  cbv zeta in Vs, Ns, Ss, Hs0, Hs.
  set (scale := SFdiv Double.prec Double.emax (S754_finite false m255 e255)
                  (S754_finite false mw ew)) in *.
  fold W U in Hs. rewrite E255 in Hs. set (S := dext scale) in *.
  assert (Fs : is_finite scale = true).
  { apply double_finite; [done|]. fold S T.
    assert (S * U <= S * W) by (apply Z.mul_le_mono_nonneg_l; lia).
    change (2 ^ 53) with 9007199254740992 in Hs.
    assert (HUU : 18446744073709551616 * U <= U * U).
    { apply Z.mul_le_mono_nonneg_r; lia. }
    assert (9007199254740990 * (S * U) <= 9007199254740992 * (256 * (U * U)))
      by lia.
    assert (S <= 512 * U); [|lia].
    apply (Zmult_le_reg_r _ _ U); [lia|].
    replace (512 * U * U) with (512 * (U * U)) by ring. lia. }
  (* one entry *)
  unfold lutEntry. cbv zeta.
  destruct (of_int_props raw) as (Vx & Nx & _).
  set (x := Double.of_int raw) in *.
  destruct (Double.leb x lower) eqn:Cmp1; [by eexists|].
  destruct (Double.geb x upper) eqn:Cmp2; [by eexists|].
  unfold Double.geb in Cmp2.
  rewrite double_leb in Cmp1 by done.
  rewrite (leb_ext Double.prec Double.emax binary64_prec binary64_emax)
    in Cmp2 by done.
  apply bool_decide_eq_false in Cmp1, Cmp2.
  fold L in Cmp1. fold Up in Cmp2. set (X := dext x) in *.
  change (2 ^ 53) with 9007199254740992 in El, Eu.
  assert (Fl : is_finite lower = true).
  { apply double_finite; [done|]. fold L T. lia. }
  assert (Fx : is_finite x = true).
  { apply double_finite; [done|]. fold X T. lia. }
  destruct (double_sub x lower Vx Vl Fx Fl ltac:(fold X L T; lia))
    as (Vd & Nd & Sd & Ed).
  cbv zeta in Vd, Nd, Sd, Ed. specialize (Sd ltac:(fold X L; lia)).
  set (d := Double.sub x lower) in *.
  fold X L in Ed. set (A := dext d) in *.
  assert (Fd : is_finite d = true).
  { apply double_finite; [done|]. fold A T.
    change (2 ^ 53) with 9007199254740992 in Ed. lia. }
  destruct (double_mul d scale Vd Vs Fd Fs Sd Ss) as (Vp & Np & Sp & Ep).
  cbv zeta in Vp, Np, Sp, Ep.
  set (p := Double.mul d scale) in *.
  fold A S U in Ep. set (P := dext p) in *.
  assert (HP : P < 256 * U).
  { apply (entry_below_256 (2 ^ 53) U W C H L Up S X A P); try done.
    - change (2 ^ 40) with 1099511627776. lia.
    - lia. }
  destruct (double_to_uint8 p Vp Np Sp HP) as [v ->].
  by eexists.
Qed.

(** * The snapshot conversion: shape and definedness *)

Lemma mapM_fmap {A B C} (f : B -> C) (g : A -> option B) (l : list A) :
  mapM (λ x, f <$> g x) l = fmap f <$> mapM g l.
Proof.
  induction l as [|x l IH]; [done|].
  cbn [mapM]. rewrite IH.
  destruct (g x); [|done]. simpl. by destruct (mapM g l).
Qed.

Lemma mapM_ext_upto {A} (f g : Z -> option A) (n : Z) :
  (forall i, 0 <= i < n -> f i = g i) -> mapM f (upto n) = mapM g (upto n).
Proof.
  intros H. rewrite upto_seqZ.
  assert (Hall : Forall (λ i, f i = g i) (seqZ 0 n)).
  { apply Forall_seqZ. intros i Hi. apply H. lia. }
  induction Hall as [|i l Hi _ IH]; [done|].
  cbn [mapM]. by rewrite Hi, IH.
Qed.

Lemma mapM_upto_Forall {A} (f : Z -> option A) (n : Z) (l : list A)
    (P : A -> Prop) :
  mapM f (upto n) = Some l ->
  (forall i y, 0 <= i < n -> f i = Some y -> P y) ->
  Forall P l.
Proof.
  rewrite upto_seqZ. intros H HP. apply mapM_Some_1 in H.
  assert (Hall : Forall (λ i, 0 <= i < n) (seqZ 0 n)).
  { apply Forall_seqZ. intros i Hi. lia. }
  induction H as [|i y l' k Hiy _ IH]; [constructor|].
  inversion Hall; subst. constructor; [by eapply HP|by apply IH].
Qed.

Lemma grayScanLines_shape (pixel : Z -> option Z) (w h : Z) rows :
  0 <= w -> 0 <= h ->
  grayScanLines pixel w h = Some rows ->
  Z.of_nat (length rows) = h /\
  Forall (λ row, Z.of_nat (length row) = w) rows.
Proof.
  intros Hw Hh H. unfold grayScanLines in H. split.
  - apply mapM_upto_length in H. lia.
  - eapply mapM_upto_Forall; [exact H|].
    intros y row _ Hrow. cbv beta zeta in Hrow.
    apply mapM_upto_length in Hrow. lia.
Qed.

Lemma rgbScanLines_shape (rgbLut : list (Z * Z * Z)) (pixel : Z -> option Z)
    (w h : Z) rows :
  0 <= w -> 0 <= h ->
  rgbScanLines rgbLut pixel w h = Some rows ->
  Z.of_nat (length rows) = h /\
  Forall (λ row, Z.of_nat (length row) = 3 * w) rows.
Proof.
  intros Hw Hh H. unfold rgbScanLines in H. split.
  - apply mapM_upto_length in H. lia.
  - eapply mapM_upto_Forall; [exact H|].
    intros y row _ Hrow. cbv beta zeta in Hrow.
    destruct (mapM _ (upto w)) as [triples|] eqn:Ht; [|done].
    simpl in Hrow. injection Hrow as <-.
    assert (Hthree : Forall (λ t : list Z, length t = 3%nat) triples).
    { eapply mapM_upto_Forall; [exact Ht|].
      intros x t _ Hx. cbv beta in Hx.
      destruct (pixel _); [|done]. simpl in Hx.
      destruct (load rgbLut _) as [[[r g] b]|]; [|done].
      simpl in Hx. by injection Hx as <-. }
    apply mapM_upto_length in Ht.
    assert (Hc : length (concat triples) = (3 * length triples)%nat).
    { clear Ht. induction Hthree as [|t ts Hlt _ IH]; [done|].
      simpl. rewrite length_app, IH, Hlt. lia. }
    rewrite Hc, Ht. lia.
Qed.

Lemma isValid_inv (img : CDicomImage) :
  isValid img = true ->
  pixelData img <> [] /\
  0 < dim_width (dimensions img) /\ 0 < dim_height (dimensions img) /\
  photometricInterpretation img <> Unknown.
Proof.
  unfold isValid, hasPixelData, pixelData, dimensions,
    photometricInterpretation.
  rewrite !andb_true_iff, !negb_true_iff.
  intros [[[H1 H2] H3] H4].
  apply bool_decide_eq_false in H1, H4.
  apply bool_decide_eq_true in H2, H3.
  split_and!; [done | lia | lia | done].
Qed.

Lemma convertMonochrome_pixels_inv (conv : CImageConverter) (img : CDicomImage)
    (wl : SWindowLevel) (w h : Z) (format : QImageFormat)
    (scanLines : list (list Z)) :
  wf_dimensions (dimensions img) ->
  0 < dim_width (dimensions img) -> 0 < dim_height (dimensions img) ->
  convertMonochrome conv img wl = Some (QPixels w h format scanLines) ->
  w = dim_width (dimensions img) /\
  h = dim_height (dimensions img) /\
  format
  = (if bool_decide (paletteType conv = Grayscale)
     then Format_Grayscale8 else Format_RGB888) /\
  Z.of_nat (length scanLines) = h /\
  Forall (λ row, Z.of_nat (length row) = bytesPerPixelOf format * w) scanLines.
Proof.
  intros [Hw Hh] Hw0 Hh0 H. unfold paletteType.
  unfold convertMonochrome in H.
  destruct (bool_decide (pixelData img = [])); [done|].
  destruct (bool_decide (_ < _)); [done|].
  destruct (sampleDomain _ _) as [mn mx].
  destruct (buildWindowLevelLut _ _ _ _) as [lut|]; [|done].
  rewrite bind_Some_eq in H. cbv zeta in H.
  rewrite (bool_decide_true (0 < dim_height (dimensions img)
                             /\ 0 < dim_width (dimensions img))) in H by done.
  destruct (bool_decide (m_type (m_palette conv) = Grayscale)); cbn [negb] in H.
  - destruct (grayScanLines _ _ _) as [rows|] eqn:Hg; [|done].
    rewrite bind_Some_eq in H.
    apply filled_Some_inv in H as (H & _ & _); [|done..].
    injection H as -> -> -> ->.
    apply grayScanLines_shape in Hg as [? Hrows]; [|lia..].
    split_and!; try done.
    eapply Forall_impl; [exact Hrows|]. simpl. intros; lia.
  - destruct (rgbScanLines _ _ _ _) as [rows|] eqn:Hg; [|done].
    rewrite bind_Some_eq in H.
    apply filled_Some_inv in H as (H & _ & _); [|done..].
    injection H as -> -> -> ->.
    apply rgbScanLines_shape in Hg as [? Hrows]; [|lia..].
    split_and!; try done.
Qed.

Lemma convertRgb_pixels_inv (img : CDicomImage) (w h : Z)
    (format : QImageFormat) (scanLines : list (list Z)) :
  wf_dimensions (dimensions img) ->
  0 < dim_height (dimensions img) ->
  convertRgb img = Some (QPixels w h format scanLines) ->
  w = dim_width (dimensions img) /\
  h = dim_height (dimensions img) /\
  format = Format_RGB888 /\
  Z.of_nat (length scanLines) = h /\
  Forall (λ row, Z.of_nat (length row) = bytesPerPixelOf format * w) scanLines.
Proof.
  intros [Hw Hh] Hh0 H. unfold convertRgb in H.
  destruct (bool_decide (pixelData img = [])); [done|].
  destruct (bool_decide (_ < _)); [done|].
  destruct (mapM _ _) as [rows|] eqn:Hm; [|done].
  rewrite bind_Some_eq in H. cbv zeta in H.
  rewrite (bool_decide_true (0 < dim_height (dimensions img))) in H by done.
  apply filled_Some_inv in H as (H & _ & _); [|done..].
  injection H as -> -> -> ->.
  split_and!; try done.
  - apply mapM_upto_length in Hm. lia.
  - eapply mapM_upto_Forall; [exact Hm|].
    intros y row _ Hrow. cbv beta in Hrow. unfold memcpy in Hrow.
    case_decide as Hc; [|done]. injection Hrow as <-.
    unfold UINT32_MAX in *.
    rewrite (size_t_small (dim_width (dimensions img) * 3)) in * by lia.
    rewrite length_take, length_drop. simpl. lia.
Qed.

(** A non-null result has the sides of the image and rows of the length
    its format asks for. *)
Lemma toQImage_pixels_inv (conv : CImageConverter) (img : CDicomImage)
    (wl : SWindowLevel) (w h : Z) (format : QImageFormat)
    (scanLines : list (list Z)) :
  wf_dimensions (dimensions img) ->
  toQImage conv img wl = Some (QPixels w h format scanLines) ->
  w = dim_width (dimensions img) /\
  h = dim_height (dimensions img) /\
  format
  = (if bool_decide (photometricInterpretation img <> Rgb)
        && bool_decide (paletteType conv = Grayscale)
     then Format_Grayscale8 else Format_RGB888) /\
  Z.of_nat (length scanLines) = h /\
  Forall (λ row, Z.of_nat (length row) = bytesPerPixelOf format * w) scanLines.
Proof.
  intros Hd H. unfold toQImage in H.
  destruct (isValid img) eqn:Hvalid; cbn [negb] in H; [|done].
  destruct (isValid_inv img Hvalid) as (_ & Hw0 & Hh0 & _).
  destruct (photometricInterpretation img) eqn:Hpi; try done.
  - rewrite bool_decide_true by done. cbn [andb].
    by apply (convertMonochrome_pixels_inv conv img wl).
  - rewrite bool_decide_true by done. cbn [andb].
    by apply (convertMonochrome_pixels_inv conv img wl).
  - rewrite bool_decide_false by (intros Hc; by apply Hc). cbn [andb].
    by apply (convertRgb_pixels_inv img).
Qed.

(** ** Definedness *)

Lemma window_in_range_inv (wl : SWindowLevel) :
  window_in_range wl = true ->
  Double.valid (center wl) = true /\ Double.valid (width wl) = true /\
  Double.leb (Double.of_int (- 2 ^ 40)) (center wl) = true /\
  Double.leb (center wl) (Double.of_int (2 ^ 40)) = true /\
  Double.leb (Double.of_int 1) (width wl) = true /\
  Double.leb (width wl) (Double.of_int (2 ^ 40)) = true.
Proof.
  unfold window_in_range. rewrite !andb_true_iff. tauto.
Qed.

Lemma width_not_below_zero (w : double) :
  Double.valid w = true -> Double.leb (Double.of_int 1) w = true ->
  Double.leb w (Double.of_int 0) = false.
Proof.
  intros Vw Hw.
  destruct (leb_true_not_nan _ _ Hw) as [_ Nw].
  destruct (of_int_props 1) as (V1 & N1 & _).
  destruct (of_int_props 0) as (V0 & N0 & _).
  rewrite double_leb in Hw by done. apply bool_decide_eq_true in Hw.
  rewrite double_leb by done. apply bool_decide_eq_false.
  rewrite dext_of_int_small in * by done.
  assert (0 < 2 ^ 1074) by (apply pow2_pos; lia). lia.
Qed.

Lemma buildWindowLevelLut_defined wl minValue maxValue inv :
  window_in_range wl = true ->
  domainMax minValue maxValue - domainMin minValue maxValue + 1 <= INT_MAX ->
  is_Some (buildWindowLevelLut wl minValue maxValue inv).
Proof.
  intros (Vc & Vw & Hc1 & Hc2 & Hw1 & Hw2)%window_in_range_inv Hr.
  rewrite buildWindowLevelLut_swap.
  rewrite buildWindowLevelLut_positive;
    [ | unfold domainMin, domainMax; lia | done
      | by apply width_not_below_zero ].
  apply mapM_upto_is_Some. intros i _.
  by apply lutEntry_defined.
Qed.

Lemma buildWindowLevelLut_blank_defined wl minValue maxValue inv :
  Double.leb (width wl) (Double.of_int 0) = true ->
  domainMax minValue maxValue - domainMin minValue maxValue + 1 <= INT_MAX ->
  is_Some (buildWindowLevelLut wl minValue maxValue inv).
Proof.
  intros Hw Hr. rewrite buildWindowLevelLut_swap.
  unfold buildWindowLevelLut.
  rewrite (decide_False (P := domainMax minValue maxValue
                              < domainMin minValue maxValue))
    by (unfold domainMin, domainMax; lia).
  rewrite (decide_False (P := INT_MAX < _)) by lia.
  rewrite Hw. by eexists.
Qed.

(** The windows for which the table is built: those of moderate size, and
    those of width [<= 0], which give the blank table. *)
Lemma imageLut_defined img wl :
  window_in_range wl = true \/ Double.leb (width wl) (Double.of_int 0) = true ->
  is_Some (imageLut img wl).
Proof.
  intros Hwl. unfold imageLut.
  destruct (sampleDomain _ _) as [mn mx] eqn:Hd.
  assert (Hr : domainMax mn mx - domainMin mn mx + 1 <= INT_MAX).
  { unfold sampleDomain in Hd.
    destruct (bool_decide _), (isPixelSigned img); injection Hd as <- <-; done. }
  destruct Hwl as [Hwl|Hwl].
  - by apply buildWindowLevelLut_defined.
  - by apply buildWindowLevelLut_blank_defined.
Qed.

Lemma convertMonochrome_is_Some conv img wl :
  wf_image img ->
  int_dimensions (dimensions img) ->
  0 < dim_width (dimensions img) -> 0 < dim_height (dimensions img) ->
  dim_width (dimensions img) * dim_height (dimensions img) * bytesPerPixel img
    < 2 ^ 64 ->
  is_Some (imageLut img wl) ->
  is_Some (convertMonochrome conv img wl).
Proof.
  intros Hwf [Hwi Hhi] Hw0 Hh0 Hsize [lut Hlut]. pose proof Hwf as [Hb Hd].
  destruct (decide (pixelData img = [] \/
                    Z.of_nat (length (pixelData img))
                    < dim_width (dimensions img) * dim_height (dimensions img)
                      * bytesPerPixel img)) as [Hnull|Hfull].
  - apply (convertMonochrome_null_iff conv img wl Hd Hw0 Hh0 Hsize) in Hnull.
    by rewrite Hnull.
  - destruct (convertMonochrome_defined conv img wl lut Hwf
                (conj Hw0 Hwi) (conj Hh0 Hhi) Hsize)
      as (rows & -> & _); [tauto | lia | done | done].
Qed.

Lemma convertRgb_is_Some img :
  wf_image img ->
  int_dimensions (dimensions img) ->
  0 < dim_width (dimensions img) -> 0 < dim_height (dimensions img) ->
  dim_width (dimensions img) * dim_height (dimensions img) * 3 < 2 ^ 64 ->
  is_Some (convertRgb img).
Proof.
  intros Hwf [Hwi Hhi] Hw0 Hh0 Hsize. pose proof Hwf as [Hb Hd].
  destruct (decide (pixelData img = [] \/
                    Z.of_nat (length (pixelData img))
                    < dim_width (dimensions img) * dim_height (dimensions img)
                      * 3)) as [Hnull|Hfull].
  - apply (convertRgb_null_iff img Hd Hh0 Hsize) in Hnull. by rewrite Hnull.
  - rewrite (convertRgb_copy img Hd (conj Hw0 Hwi) (conj Hh0 Hhi) Hsize);
      [done | tauto | lia].
Qed.

Lemma toQImage_is_Some conv img wl :
  wf_image img ->
  int_dimensions (dimensions img) ->
  dim_width (dimensions img) * dim_height (dimensions img) * 3 < 2 ^ 64 ->
  window_in_range wl = true ->
  is_Some (toQImage conv img wl).
Proof.
  intros Hwf Hint Hsize Hwl. pose proof Hwf as [Hb [Hw Hh]].
  unfold toQImage.
  destruct (isValid img) eqn:Hvalid; cbn [negb]; [|done].
  destruct (isValid_inv img Hvalid) as (_ & Hw0 & Hh0 & _).
  assert (Hbpp : 1 <= bytesPerPixel img <= 2).
  { unfold bytesPerPixel. case_bool_decide; lia. }
  assert (Hmono :
    dim_width (dimensions img) * dim_height (dimensions img) * bytesPerPixel img
    < 2 ^ 64) by nia.
  assert (Hm : is_Some (convertMonochrome conv img wl)).
  { apply convertMonochrome_is_Some; try done.
    apply imageLut_defined. by left. }
  destruct (photometricInterpretation img); try done.
  by apply convertRgb_is_Some.
Qed.

(** ** Sides beyond [INT_MAX] *)

Lemma filled_beyond_int (w h : Z) (format : QImageFormat)
    (scanLines : list (list Z)) :
  0 <= w <= UINT32_MAX -> 0 <= h <= UINT32_MAX ->
  INT_MAX < w \/ INT_MAX < h ->
  filled (int_of_uint32 w) (int_of_uint32 h) format true scanLines = None.
Proof.
  intros Hw Hh Hbig. unfold filled.
  rewrite bool_decide_true; [done|].
  unfold int_of_uint32. change (2 ^ 32) with 4294967296.
  unfold UINT32_MAX, INT_MAX in *.
  destruct Hbig as [Hbig|Hbig]; [left | right];
    rewrite decide_False by lia; lia.
Qed.

(** On a valid image with enough bytes and a side beyond [INT_MAX] the
    conversion stores through the scan line of a null image. *)
Lemma toQImage_beyond_int conv img wl :
  wf_dimensions (dimensions img) ->
  dim_width (dimensions img) * dim_height (dimensions img) * 3 < 2 ^ 64 ->
  ~ int_dimensions (dimensions img) ->
  isValid img = true ->
  declaredBytes img <= Z.of_nat (length (pixelData img)) ->
  photometricInterpretation img <> PaletteColor ->
  toQImage conv img wl = None.
Proof.
  intros Hd Hsize Hint Hvalid Hlen Hpal. pose proof Hd as [Hw Hh].
  destruct (isValid_inv img Hvalid) as (Hne & Hw0 & Hh0 & Hunk).
  assert (Hbig : INT_MAX < dim_width (dimensions img)
                 \/ INT_MAX < dim_height (dimensions img)).
  { unfold int_dimensions in Hint. lia. }
  assert (Hbpp : 1 <= bytesPerPixel img <= 2).
  { unfold bytesPerPixel. case_bool_decide; lia. }
  assert (Hmono :
    dim_width (dimensions img) * dim_height (dimensions img) * bytesPerPixel img
    < 2 ^ 64) by nia.
  assert (Hm : photometricInterpretation img <> Rgb ->
               convertMonochrome conv img wl = None).
  { intros Hpi. rewrite (convertMonochrome_unfold _ _ _ Hd Hmono).
    rewrite bool_decide_false by done.
    unfold declaredBytes in Hlen.
    destruct (photometricInterpretation img); try done;
      (rewrite bool_decide_false by lia;
       destruct (imageLut img wl) as [lut|]; [rewrite bind_Some_eq | done];
       cbv zeta;
       rewrite (bool_decide_true (0 < dim_height (dimensions img)
                                  /\ 0 < dim_width (dimensions img))) by done;
       destruct (bool_decide (m_type (m_palette conv) = Grayscale));
       [ destruct (grayScanLines _ _ _); [rewrite bind_Some_eq | done]
       | destruct (rgbScanLines _ _ _ _); [rewrite bind_Some_eq | done] ];
       by apply filled_beyond_int). }
  unfold toQImage. rewrite Hvalid. cbn [negb].
  destruct (photometricInterpretation img) eqn:Hpi; try done.
  - by apply Hm.
  - by apply Hm.
  - unfold declaredBytes in Hlen. rewrite Hpi in Hlen.
    unfold convertRgb.
    assert (0 <= dim_width (dimensions img) * dim_height (dimensions img))
      by nia.
    rewrite (size_t_small (_ * dim_height _)) by lia.
    rewrite (size_t_small (_ * 3)) by lia.
    rewrite bool_decide_false by done.
    rewrite bool_decide_false by lia.
    destruct (mapM _ _); [rewrite bind_Some_eq | done]. cbv zeta.
    rewrite (bool_decide_true (0 < dim_height (dimensions img))) by done.
    by apply filled_beyond_int.
Qed.

(** * The window/level lookup table *)

(** When the table is not produced: exactly when some raw value strictly
    inside the window has a scaled value whose conversion to [uint8_t] the
    language leaves undefined. *)
Lemma buildWindowLevelLut_None_iff wl minValue maxValue invert :
  Double.ltb (Double.of_int 0) (width wl) = true ->
  domainMax minValue maxValue - domainMin minValue maxValue + 1 <= INT_MAX ->
  let half := SFdiv Double.prec Double.emax (width wl) (Double.of_int 2) in
  let lower := Double.sub (center wl) half in
  let upper := Double.add (center wl) half in
  let scale := SFdiv Double.prec Double.emax (Double.of_int 255) (width wl) in
  buildWindowLevelLut wl minValue maxValue invert = None <->
  exists v, domainMin minValue maxValue <= v <= domainMax minValue maxValue /\
    Double.leb (Double.of_int v) lower = false /\
    Double.geb (Double.of_int v) upper = false /\
    Double.to_uint8 (Double.mul (Double.sub (Double.of_int v) lower) scale) = None.
Proof.
  intros Hw Hr. cbv zeta.
  rewrite buildWindowLevelLut_swap.
  set (lo := domainMin minValue maxValue) in *.
  set (hi := domainMax minValue maxValue) in *.
  assert (Hle : lo <= hi) by (unfold lo, hi, domainMin, domainMax; lia).
  rewrite buildWindowLevelLut_positive by auto using leb_zero_not_positive.
  split.
  - intros H. apply mapM_upto_None in H as (i & Hi & Hf).
    exists (lo + i). split; [lia|]. revert Hf. unfold lutEntry.
    destruct (Double.leb _ _); [done|]. destruct (Double.geb _ _); [done|].
    destruct (Double.to_uint8 _); done.
  - intros (v & Hv & H1 & H2 & H3).
    apply (mapM_upto_None_intro _ _ (v - lo)); [lia|].
    replace (lo + (v - lo)) with v by lia.
    unfold lutEntry. rewrite H1, H2, H3. done.
Qed.

(** C1. For a window of positive width and any domain, the table built by
    [buildWindowLevelLut] has one entry per raw value of the (normalised)
    domain, and the entry of the raw value [v] is the one the specification
    describes: 0 when [v <= lower], 255 when [v >= upper], otherwise the
    integer part toward zero of [(v - lower) * scale] as a [u8]; with
    inversion, 255 minus that value, with no further clamping. *)
Theorem buildWindowLevelLut_entries wl minValue maxValue invert lut :
  Double.ltb (Double.of_int 0) (width wl) = true ->
  buildWindowLevelLut wl minValue maxValue invert = Some lut ->
  length lut
    = Z.to_nat (domainMax minValue maxValue - domainMin minValue maxValue + 1) /\
  forall v, domainMin minValue maxValue <= v <= domainMax minValue maxValue ->
    load lut (v - domainMin minValue maxValue)
    = Some (windowLevelEntry_spec wl invert v).
Proof.
  intros Hw Hb. split; [by apply buildWindowLevelLut_length in Hb|].
  intros v Hv.
  pose proof (buildWindowLevelLut_lookup _ _ _ _ _ v Hw Hb Hv) as Hl.
  destruct (load_lt_length lut (v - domainMin minValue maxValue)) as [r Hr].
  { apply buildWindowLevelLut_length in Hb. lia. }
  rewrite Hr in Hl |- *. symmetry in Hl.
  f_equal. by apply lutEntry_spec.
Qed.

Lemma buildWindowLevelLut_entries_witness :
  exists lut,
    Double.ltb (Double.of_int 0) (width wl_128_256) = true /\
    buildWindowLevelLut wl_128_256 255 0 true = Some lut /\
    length lut = 256%nat /\
    forall v, 0 <= v <= 255 ->
      load lut (v - 0) = Some (windowLevelEntry_spec wl_128_256 true v).
Proof.
  eexists. split; [reflexivity|]. split; [vm_compute; reflexivity|].
  apply (buildWindowLevelLut_entries wl_128_256 255 0 true);
    vm_compute; reflexivity.
Defined.

(** C4. For a window of positive width and any domain, the table built by
    [buildWindowLevelLut] is monotone in the raw value: for raw values
    [v1 <= v2] of the domain, [lut[v1] <= lut[v2]] without inversion and
    [lut[v1] >= lut[v2]] with inversion.  (Center and width are well-formed
    binary64 data.) *)
Theorem buildWindowLevelLut_monotone wl minValue maxValue invert lut :
  Double.valid (center wl) = true ->
  Double.valid (width wl) = true ->
  Double.ltb (Double.of_int 0) (width wl) = true ->
  buildWindowLevelLut wl minValue maxValue invert = Some lut ->
  forall v1 v2,
    domainMin minValue maxValue <= v1 -> v1 <= v2 ->
    v2 <= domainMax minValue maxValue ->
    exists a b,
      load lut (v1 - domainMin minValue maxValue) = Some a /\
      load lut (v2 - domainMin minValue maxValue) = Some b /\
      if invert then b <= a else a <= b.
Proof.
  intros Vc Vw Hw Hb v1 v2 H1 H12 H2.
  destruct (window_bounds_valid wl Vc Vw Hw) as (Vl & Vu & Vs & Ss).
  pose proof (buildWindowLevelLut_length _ _ _ _ _ Hb) as Hlen.
  destruct (load_lt_length lut (v1 - domainMin minValue maxValue)) as [a Ha];
    [lia|].
  destruct (load_lt_length lut (v2 - domainMin minValue maxValue)) as [b Hb'];
    [lia|].
  exists a, b. split; [done|]. split; [done|].
  rewrite (buildWindowLevelLut_lookup _ _ _ _ _ v1 Hw Hb) in Ha by lia.
  rewrite (buildWindowLevelLut_lookup _ _ _ _ _ v2 Hw Hb) in Hb' by lia.
  destruct invert.
  - rewrite lutEntry_invert in Ha, Hb'.
    destruct (lutEntry _ _ _ false v1) as [a0|] eqn:E1; [|done].
    destruct (lutEntry _ _ _ false v2) as [b0|] eqn:E2; [|done].
    injection Ha as <-. injection Hb' as <-.
    pose proof (lutEntry_monotone _ _ _ _ _ _ _ Vl Vu Vs Ss H12 E1 E2). lia.
  - exact (lutEntry_monotone _ _ _ _ _ _ _ Vl Vu Vs Ss H12 Ha Hb').
Qed.

Lemma buildWindowLevelLut_monotone_witness :
  exists lut a b,
    buildWindowLevelLut wl_128_256 0 255 true = Some lut /\
    load lut (10 - 0) = Some a /\
    load lut (200 - 0) = Some b /\
    b <= a.
Proof.
  destruct (definedb_is_Some (buildWindowLevelLut wl_128_256 0 255 true))
    as [lut E]; [vm_compute; reflexivity|].
  destruct (buildWindowLevelLut_monotone wl_128_256 0 255 true lut
              ltac:(vm_compute; reflexivity) ltac:(vm_compute; reflexivity)
              ltac:(vm_compute; reflexivity) E 10 200
              ltac:(vm_compute; discriminate) ltac:(vm_compute; discriminate)
              ltac:(vm_compute; discriminate)) as (a & b & Ha & Hb & Hab).
  exists lut, a, b. exact (conj E (conj Ha (conj Hb Hab))).
Defined.

(** C5. For a window of width [<= 0] and any domain, inverted or not, the
    table is all zeros; and the divisor [width] is never a zero when a
    division is reached, since the divisions sit behind the [width <= 0]
    guard. *)
Theorem buildWindowLevelLut_blank wl minValue maxValue invert :
  Double.leb (width wl) (Double.of_int 0) = true ->
  domainMax minValue maxValue - domainMin minValue maxValue + 1 <= INT_MAX ->
  buildWindowLevelLut wl minValue maxValue invert
  = Some (replicate
            (Z.to_nat (domainMax minValue maxValue
                       - domainMin minValue maxValue + 1)) 0)
  /\ forall wl' : SWindowLevel,
       Double.leb (width wl') (Double.of_int 0) = false ->
       Double.is_zero (width wl') = false /\
       is_Some (Double.div (Double.of_int 255) (width wl')).
Proof.
  intros Hw Hr. split.
  - rewrite buildWindowLevelLut_swap. unfold buildWindowLevelLut.
    rewrite (decide_False (P := domainMax _ _ < domainMin _ _))
      by (unfold domainMin, domainMax; lia).
    rewrite (decide_False (P := INT_MAX < _)) by lia.
    by rewrite Hw.
  - intros wl' Hg. split; [by apply guard_excludes_zero|].
    rewrite (div_defined_after_guard _ _ Hg). by eexists.
Qed.

Lemma buildWindowLevelLut_blank_witness :
  Double.leb (width wl_blank) (Double.of_int 0) = true /\
  domainMax (-32768) 32767 - domainMin (-32768) 32767 + 1 <= INT_MAX /\
  buildWindowLevelLut wl_blank (-32768) 32767 true
  = Some (replicate (Z.to_nat 65536) 0).
Proof.
  split; [reflexivity|]. split; [vm_compute; discriminate|].
  apply (buildWindowLevelLut_blank wl_blank (-32768) 32767 true);
    [reflexivity | vm_compute; discriminate].
Defined.

(** C2, as stated, fails on the scenario it names: on the 16-bit unsigned
    domain with center 32768 and width 65536 the upper bound is 65536, so
    the raw value 65535 lies strictly inside the window and its entry is
    254, not 255. *)
Lemma buildWindowLevelLut_domainMax_not_saturated :
  exists lut,
    Double.ltb (Double.of_int 0) (width wl_32768_65536) = true /\
    buildWindowLevelLut wl_32768_65536 0 65535 false = Some lut /\
    load lut (65535 - 0) = Some 254 /\
    load lut (65535 - 0) <> Some 255.
Proof.
  destruct scenario16_defined as [lut E].
  exists lut. split; [reflexivity|]. split; [exact E|].
  pose proof (buildWindowLevelLut_lookup wl_32768_65536 0 65535 false lut 65535
                eq_refl E ltac:(vm_compute; split; discriminate)) as H.
  change (domainMin 0 65535) with 0 in H. rewrite H.
  vm_compute. split; [reflexivity | discriminate].
Qed.

(** C2, amended.  For a window of positive width, the entry of the domain
    minimum is 0 whenever the minimum is at or below
    [lower = center - width/2], and the entry of the domain maximum is 255
    whenever the maximum is above [lower] and at or above
    [upper = center + width/2]; with inversion the two values are swapped.
    On the 16-bit unsigned domain with center 32768 and width 65536 the
    table exists and has [lut[0] = 0], [lut[65535] = 254] and
    [lut[32768] = 127]. *)
Theorem buildWindowLevelLut_boundaries wl minValue maxValue invert lut :
  Double.ltb (Double.of_int 0) (width wl) = true ->
  buildWindowLevelLut wl minValue maxValue invert = Some lut ->
  let half := SFdiv Double.prec Double.emax (width wl) (Double.of_int 2) in
  let lower := Double.sub (center wl) half in
  let upper := Double.add (center wl) half in
  let lo := domainMin minValue maxValue in
  let hi := domainMax minValue maxValue in
  (Double.leb (Double.of_int lo) lower = true ->
   load lut 0 = Some (if invert then 255 else 0)) /\
  (Double.leb (Double.of_int hi) lower = false ->
   Double.geb (Double.of_int hi) upper = true ->
   load lut (hi - lo) = Some (if invert then 0 else 255)) /\
  (exists lut16,
     buildWindowLevelLut wl_32768_65536 0 65535 false = Some lut16 /\
     load lut16 0 = Some 0 /\
     load lut16 65535 = Some 254 /\
     load lut16 32768 = Some 127).
Proof.
  intros Hw Hb half lower upper lo hi.
  assert (Hle : lo <= hi) by (unfold lo, hi, domainMin, domainMax; lia).
  split; [|split].
  - intros Hlo.
    pose proof (buildWindowLevelLut_lookup _ _ _ _ _ lo Hw Hb ltac:(lia)) as Hl.
    fold lo in Hl. rewrite Z.sub_diag in Hl. rewrite Hl.
    unfold lutEntry. fold half. fold lower. rewrite Hlo. by destruct invert.
  - intros Hhi1 Hhi2.
    pose proof (buildWindowLevelLut_lookup _ _ _ _ _ hi Hw Hb ltac:(lia)) as Hl.
    fold lo in Hl. rewrite Hl.
    unfold lutEntry. fold half. fold lower. fold upper.
    rewrite Hhi1, Hhi2. by destruct invert.
  - destruct scenario16_defined as [lut16 E].
    exists lut16. split; [exact E|].
    pose proof (λ v H, buildWindowLevelLut_lookup wl_32768_65536 0 65535 false
                         lut16 v eq_refl E H) as Hl.
    change (domainMin 0 65535) with 0 in Hl.
    change (domainMax 0 65535) with 65535 in Hl.
    pose proof (Hl 0 ltac:(lia)) as H0.
    pose proof (Hl 65535 ltac:(lia)) as H1.
    pose proof (Hl 32768 ltac:(lia)) as H2.
    rewrite Z.sub_0_r in H0, H1, H2. rewrite H0, H1, H2.
    clear. vm_compute. repeat split; reflexivity.
Qed.

Lemma buildWindowLevelLut_boundaries_witness :
  exists lut,
    Double.ltb (Double.of_int 0) (width (mkWindowLevel (Double.of_int 100)
                                           (Double.of_int 50))) = true /\
    buildWindowLevelLut (mkWindowLevel (Double.of_int 100) (Double.of_int 50))
      0 255 true = Some lut /\
    load lut 0 = Some 255 /\
    load lut (255 - 0) = Some 0.
Proof.
  set (wl := mkWindowLevel (Double.of_int 100) (Double.of_int 50)).
  assert (Hw : Double.ltb (Double.of_int 0) (width wl) = true)
    by (vm_compute; reflexivity).
  destruct (definedb_is_Some (buildWindowLevelLut wl 0 255 true))
    as [lut E]; [vm_compute; reflexivity|].
  exists lut. split; [exact Hw|]. split; [exact E|].
  destruct (buildWindowLevelLut_boundaries wl 0 255 true lut Hw E)
    as (H0 & H1 & _).
  split; [apply H0 | apply H1]; vm_compute; reflexivity.
Defined.

(** * The snapshot conversion *)

(** C3, as stated, fails: with center 128 and width 256 the upper bound is
    256, so the raw sample 255 of an 8-bit MONOCHROME1 image is windowed to
    254 and inverted to 1, not 0. *)
Lemma monochrome1_sample_255_not_black :
  toQImage (mkConverter grayscalePalette) mono1_2x1 wl_128_256
  = Some (QPixels 2 1 Format_Grayscale8 [[255; 1]])
  /\ pixelData mono1_2x1 = [0; 255]
  /\ photometricInterpretation mono1_2x1 = Monochrome1
  /\ bitsPerSample mono1_2x1 = 8.
Proof. vm_compute. repeat split; reflexivity. Qed.

(** C3, amended.  For an 8-bit MONOCHROME1 image converted with
    center 128, width 256 (hence with inversion) and the grayscale palette,
    a pixel whose raw sample is 0 is displayed as 255 and a pixel whose raw
    sample is 255 is displayed as 1.  The image is valid, holds a byte per
    pixel, and has sides that fit in [int], as [QImage] needs. *)
Theorem monochrome1_8bit_extremes conv img :
  wf_image img ->
  int_dimensions (dimensions img) ->
  isValid img = true ->
  photometricInterpretation img = Monochrome1 ->
  bitsPerSample img = 8 ->
  m_type (m_palette conv) = Grayscale ->
  dim_width (dimensions img) * dim_height (dimensions img)
    <= Z.of_nat (length (pixelData img)) ->
  exists scanLines,
    toQImage conv img wl_128_256
    = Some (QPixels (dim_width (dimensions img)) (dim_height (dimensions img))
              Format_Grayscale8 scanLines) /\
    forall y x,
      0 <= y < dim_height (dimensions img) ->
      0 <= x < dim_width (dimensions img) ->
      (load (pixelData img) (y * dim_width (dimensions img) + x) = Some 0 ->
       (load scanLines y ≫= λ row, load row x) = Some 255) /\
      (load (pixelData img) (y * dim_width (dimensions img) + x) = Some 255 ->
       (load scanLines y ≫= λ row, load row x) = Some 1).
Proof.
  intros Hwf [Hwi Hhi] Hvalid Hpi Hbits Hgray Hlen.
  assert (Hbpp : bytesPerPixel img = 1).
  { unfold bytesPerPixel. rewrite bool_decide_false; [done | lia]. }
  destruct (Hwf) as [Hb [Hw Hh]].
  destruct (isValid_inv img Hvalid) as (_ & Hw0 & Hh0 & _).
  assert (HU : UINT32_MAX = 4294967295) by reflexivity.
  assert (H64 : (2 ^ 64 = 18446744073709551616)%Z) by reflexivity.
  assert (Hlt : dim_width (dimensions img) * dim_height (dimensions img)
                * bytesPerPixel img < 2 ^ 64) by (rewrite Hbpp; nia).
  assert (Hne : pixelData img <> []).
  { unfold isValid, hasPixelData in Hvalid.
    intros Hd. unfold pixelData in Hd. rewrite Hd in Hvalid. done. }
  assert (Hlut : exists lut, imageLut img wl_128_256 = Some lut
                   /\ load lut 0 = Some 255 /\ load lut 255 = Some 1).
  { unfold imageLut. rewrite Hpi, Hbits. vm_compute. eexists. done. }
  destruct Hlut as (lut & Hlut & L0 & L255).
  destruct (convertMonochrome_defined conv img wl_128_256 lut Hwf
              (conj Hw0 Hwi) (conj Hh0 Hhi) Hlt Hne
              ltac:(rewrite Hbpp; lia) Hlut) as (rows & Hconv & Hrows).
  specialize (Hrows Hgray).
  exists rows. split.
  - unfold toQImage. rewrite Hvalid, Hpi. simpl.
    rewrite Hconv. by rewrite bool_decide_true.
  - intros y x Hy Hx.
    assert (Hwh : dim_width (dimensions img) * dim_height (dimensions img)
                  < 2 ^ 64) by nia.
    rewrite (grayScanLines_pixel _ _ _ _ y x (proj1 Hw) (proj1 Hh) Hwh
               Hrows Hy Hx).
    rewrite monochromePixel_pixelSample. unfold pixelSample.
    rewrite bool_decide_false by lia. simpl.
    split; intros ->; simpl; done.
Qed.

Lemma monochrome1_8bit_extremes_witness :
  exists scanLines,
    toQImage (mkConverter grayscalePalette) mono1_2x1 wl_128_256
    = Some (QPixels 2 1 Format_Grayscale8 scanLines) /\
    (load scanLines 0 ≫= λ row, load row 0) = Some 255 /\
    (load scanLines 0 ≫= λ row, load row 1) = Some 1.
Proof.
  assert (Hwf : wf_image mono1_2x1).
  { split; [|split; vm_compute; split; discriminate].
    repeat constructor; discriminate. }
  destruct (monochrome1_8bit_extremes (mkConverter grayscalePalette) mono1_2x1
              Hwf ltac:(split; vm_compute; discriminate)
              eq_refl eq_refl eq_refl eq_refl
              ltac:(vm_compute; discriminate)) as (rows & Hq & Hpix).
  exists rows. split; [exact Hq|]. split.
  - apply (Hpix 0 0); [vm_compute; split; [discriminate | reflexivity] ..
                      | reflexivity].
  - apply (Hpix 0 1); [vm_compute; split; [discriminate | reflexivity] ..
                      | reflexivity].
Defined.

(** C6. For an image whose fields are in the ranges of their types and whose
    declared size fits [size_t], [toQImage] returns the null image, as a
    defined result, exactly when the image is invalid, or its buffer is
    shorter than its declared dimensions and bit depth imply, or its
    photometric kind is Unknown or PaletteColor.  A valid, sufficiently
    sized Rgb, Monochrome1 or Monochrome2 image whose sides fit in [int]
    yields an image that is not empty: it has the width and the height of
    the source, both positive, one scan line per row and one byte
    ([Grayscale8]) or three bytes ([RGB888]) per pixel in every scan line.
    For the monochrome kinds the window is one of moderate size, or one of
    width [<= 0]. *)
Theorem toQImage_null_iff conv img wl :
  wf_image img ->
  declaredBytes img < 2 ^ 64 ->
  (toQImage conv img wl = Some QNull <->
   isValid img = false \/
   Z.of_nat (length (pixelData img)) < declaredBytes img \/
   photometricInterpretation img = Unknown \/
   photometricInterpretation img = PaletteColor)
  /\
  (isValid img = true ->
   declaredBytes img <= Z.of_nat (length (pixelData img)) ->
   int_dimensions (dimensions img) ->
   photometricInterpretation img = Rgb \/
   ((photometricInterpretation img = Monochrome1 \/
     photometricInterpretation img = Monochrome2) /\
    (window_in_range wl = true \/
     Double.leb (width wl) (Double.of_int 0) = true)) ->
   let format :=
     if bool_decide (photometricInterpretation img <> Rgb)
        && bool_decide (paletteType conv = Grayscale)
     then Format_Grayscale8 else Format_RGB888 in
   exists scanLines,
     toQImage conv img wl
     = Some (QPixels (dim_width (dimensions img)) (dim_height (dimensions img))
               format scanLines) /\
     0 < dim_width (dimensions img) /\
     0 < dim_height (dimensions img) /\
     Z.of_nat (length scanLines) = dim_height (dimensions img) /\
     Forall (λ row, Z.of_nat (length row)
                    = bytesPerPixelOf format * dim_width (dimensions img))
       scanLines).
Proof.
  intros Hwf Hlt. pose proof Hwf as [Hb Hd].
  assert (Hnull :
    toQImage conv img wl = Some QNull <->
    isValid img = false \/
    Z.of_nat (length (pixelData img)) < declaredBytes img \/
    photometricInterpretation img = Unknown \/
    photometricInterpretation img = PaletteColor).
  { unfold toQImage, declaredBytes in *.
    destruct (isValid img) eqn:Hvalid; cbn [negb].
    2: { by split; [left|]. }
    destruct (isValid_inv img Hvalid) as (Hne & Hw0 & Hh0 & _).
    destruct (photometricInterpretation img) eqn:Hpi.
    - rewrite (convertMonochrome_null_iff _ _ _ Hd Hw0 Hh0 Hlt).
      split; [intros [?|?]; [done | by right; left]
             | intros [?|[?|[?|?]]]; [done | by right | done | done]].
    - rewrite (convertMonochrome_null_iff _ _ _ Hd Hw0 Hh0 Hlt).
      split; [intros [?|?]; [done | by right; left]
             | intros [?|[?|[?|?]]]; [done | by right | done | done]].
    - rewrite (convertRgb_null_iff _ Hd Hh0 Hlt).
      split; [intros [?|?]; [done | by right; left]
             | intros [?|[?|[?|?]]]; [done | by right | done | done]].
    - by split; [right; right; right|].
    - by split; [right; right; left|]. }
  split; [exact Hnull|].
  intros Hvalid Hlen Hint Hkind format.
  destruct (isValid_inv img Hvalid) as (Hne & Hw0 & Hh0 & _).
  assert (Hdef : is_Some (toQImage conv img wl)).
  { unfold toQImage, declaredBytes in *. rewrite Hvalid. cbn [negb].
    destruct Hkind as [Hpi|[[Hpi|Hpi] Hwl]]; rewrite Hpi in *.
    - by apply convertRgb_is_Some.
    - apply convertMonochrome_is_Some; try done. by apply imageLut_defined.
    - apply convertMonochrome_is_Some; try done. by apply imageLut_defined. }
  destruct Hdef as [q Hq].
  destruct q as [|w h f rows].
  { exfalso. apply Hnull in Hq.
    destruct Hq as [Hq|[Hq|[Hq|Hq]]]; [congruence | lia | |];
      destruct Hkind as [Hpi|[[Hpi|Hpi] _]]; congruence. }
  destruct (toQImage_pixels_inv conv img wl w h f rows Hd Hq)
    as (-> & -> & -> & Hrows & Hrow).
  exists rows. by split_and!.
Qed.

Lemma toQImage_null_iff_witness :
  wf_image mono2_s16_2x2 /\
  declaredBytes mono2_s16_2x2 < 2 ^ 64 /\
  isValid mono2_s16_2x2 = true /\
  declaredBytes mono2_s16_2x2
    <= Z.of_nat (length (pixelData mono2_s16_2x2)) /\
  int_dimensions (dimensions mono2_s16_2x2) /\
  window_in_range wl_32768_65536 = true /\
  exists scanLines,
    toQImage (mkConverter invertedPalette) mono2_s16_2x2 wl_32768_65536
    = Some (QPixels 2 2 Format_RGB888 scanLines) /\
    Z.of_nat (length scanLines) = 2 /\
    Forall (λ row, Z.of_nat (length row) = 6) scanLines.
Proof.
  assert (Hwf : wf_image mono2_s16_2x2).
  { split; [|split; vm_compute; split; discriminate].
    repeat constructor; discriminate. }
  assert (Hlt : declaredBytes mono2_s16_2x2 < 2 ^ 64) by reflexivity.
  assert (Hlen : declaredBytes mono2_s16_2x2
                 <= Z.of_nat (length (pixelData mono2_s16_2x2)))
    by (vm_compute; discriminate).
  assert (Hint : int_dimensions (dimensions mono2_s16_2x2))
    by (split; vm_compute; discriminate).
  assert (Hwl : window_in_range wl_32768_65536 = true)
    by (vm_compute; reflexivity).
  repeat (split; [done|]).
  destruct (toQImage_null_iff (mkConverter invertedPalette) mono2_s16_2x2
              wl_32768_65536 Hwf Hlt) as [_ Hfull].
  destruct (Hfull eq_refl Hlen Hint
              ltac:(right; split; [by right | by left]))
    as (rows & Hq & _ & _ & Hrows & Hrow).
  exists rows. split; [exact Hq|]. split; [exact Hrows | exact Hrow].
Defined.

(** C7. For a valid Rgb image whose sides fit in [int] and whose buffer
    holds at least [width * height * 3] bytes, the conversion yields a
    [width] x [height] image in RGB888 format whose scan line [y] is the
    [3 * width] source bytes starting at [y * 3 * width], byte for byte; no
    table or palette is consulted, so any two converters and window/levels
    give the same output. *)
Theorem toQImage_rgb_verbatim conv img wl :
  wf_image img ->
  int_dimensions (dimensions img) ->
  isValid img = true ->
  photometricInterpretation img = Rgb ->
  dim_width (dimensions img) * dim_height (dimensions img) * 3 < 2 ^ 64 ->
  dim_width (dimensions img) * dim_height (dimensions img) * 3
    <= Z.of_nat (length (pixelData img)) ->
  exists scanLines,
    toQImage conv img wl
    = Some (QPixels (dim_width (dimensions img)) (dim_height (dimensions img))
              Format_RGB888 scanLines) /\
    Z.of_nat (length scanLines) = dim_height (dimensions img) /\
    (forall y, 0 <= y < dim_height (dimensions img) ->
       exists row, load scanLines y = Some row /\
         Z.of_nat (length row) = dim_width (dimensions img) * 3 /\
         forall k, 0 <= k < dim_width (dimensions img) * 3 ->
           load row k
           = load (pixelData img) (y * (dim_width (dimensions img) * 3) + k)) /\
    (forall conv' wl', toQImage conv' img wl' = toQImage conv img wl).
Proof.
  intros Hwf [Hwi Hhi] Hvalid Hpi Hlt Hlen. pose proof Hwf as [Hb [Hw Hh]].
  destruct (isValid_inv img Hvalid) as (Hne & Hw0 & Hh0 & _).
  eexists. split; [|split; [|split]].
  - unfold toQImage. rewrite Hvalid, Hpi. simpl.
    apply (convertRgb_copy img (conj Hw Hh) (conj Hw0 Hwi) (conj Hh0 Hhi)
             Hlt Hne Hlen).
  - rewrite length_fmap. unfold upto. rewrite count_from_seqZ, length_seqZ.
    lia.
  - intros y Hy. eexists. split; [|split].
    + rewrite load_fmap, load_upto by done. reflexivity.
    + rewrite length_take, length_drop. nia.
    + intros k Hk. apply load_take_drop; nia.
  - intros conv' wl'. unfold toQImage. by rewrite Hvalid, Hpi.
Qed.

Lemma toQImage_rgb_verbatim_witness :
  toQImage (mkConverter invertedPalette) rgb_2x2 wl_32768_65536
  = Some (QPixels 2 2 Format_RGB888
            [[10; 20; 30; 40; 50; 60]; [70; 80; 90; 100; 110; 120]])
  /\ toQImage (mkConverter grayscalePalette) rgb_2x2 wl_blank
     = toQImage (mkConverter invertedPalette) rgb_2x2 wl_32768_65536.
Proof.
  assert (Hwf : wf_image rgb_2x2).
  { split; [|split; vm_compute; split; discriminate].
    repeat constructor; discriminate. }
  destruct (toQImage_rgb_verbatim (mkConverter invertedPalette) rgb_2x2
              wl_32768_65536 Hwf ltac:(split; vm_compute; discriminate)
              eq_refl eq_refl eq_refl
              ltac:(vm_compute; discriminate)) as (rows & Hq & _ & _ & Hind).
  split; [reflexivity | apply Hind].
Defined.

(** C9. In [convertMonochrome], every sample read from the byte buffer lies
    in the domain selected for the image's bit depth and signedness; for
    every sample value [pv] of that domain the index [pv + lutOffset], with
    [lutOffset = -minValue], lies in [[0, maxValue - minValue]] and is a
    valid position of every table built for that domain; hence the table
    lookup of a pixel is defined whenever its sample read is. *)
Theorem convertMonochrome_lut_index_in_bounds img wl lut :
  wf_bytes (pixelData img) ->
  imageLut img wl = Some lut ->
  let domain :=
    sampleDomain (bool_decide (bitsPerSample img = 16)) (isPixelSigned img) in
  let minValue := fst domain in
  let maxValue := snd domain in
  let lutOffset := - minValue in
  (forall pv, minValue <= pv <= maxValue ->
     0 <= pv + lutOffset <= maxValue - minValue /\
     0 <= pv + lutOffset < Z.of_nat (length lut) /\
     is_Some (load lut (pv + lutOffset))) /\
  (forall index pv, pixelSample img index = Some pv ->
     minValue <= pv <= maxValue) /\
  (forall index, is_Some (pixelSample img index) ->
     is_Some (monochromePixel img lut index)).
Proof.
  intros Hwf Hlut domain minValue maxValue lutOffset.
  pose proof (imageLut_length _ _ _ Hlut) as HL.
  assert (Hrange : forall pv, minValue <= pv <= maxValue ->
            0 <= pv + lutOffset <= maxValue - minValue /\
            0 <= pv + lutOffset < Z.of_nat (length lut)).
  { intros pv. unfold lutOffset, minValue, maxValue, domain. rewrite HL.
    destruct (bool_decide (bitsPerSample img = 16)), (isPixelSigned img);
      simpl; lia. }
  split; [|split].
  - intros pv Hpv. destruct (Hrange pv Hpv) as [H1 H2].
    split; [done|]. split; [done|]. by apply load_lt_length.
  - intros index pv Hs. by apply (pixelSample_in_domain img index).
  - intros index [pv Hs]. rewrite monochromePixel_pixelSample, Hs. simpl.
    apply load_lt_length, Hrange.
    by apply (pixelSample_in_domain img index).
Qed.

Lemma convertMonochrome_lut_index_in_bounds_witness :
  exists lut,
    imageLut mono2_s16_2x2 wl_32768_65536 = Some lut /\
    pixelSample mono2_s16_2x2 0 = Some (-32768) /\
    pixelSample mono2_s16_2x2 3 = Some 32767 /\
    is_Some (load lut (-32768 + 32768)) /\
    is_Some (load lut (32767 + 32768)) /\
    is_Some (monochromePixel mono2_s16_2x2 lut 3).
Proof.
  assert (Hwf : wf_bytes (pixelData mono2_s16_2x2))
    by (repeat constructor; discriminate).
  destruct (definedb_is_Some (imageLut mono2_s16_2x2 wl_32768_65536))
    as [lut Hlut]; [vm_compute; reflexivity|].
  destruct (convertMonochrome_lut_index_in_bounds mono2_s16_2x2 wl_32768_65536
              lut Hwf Hlut) as (H1 & _ & H3).
  exists lut. split; [exact Hlut|]. do 2 (split; [reflexivity|]).
  split; [|split].
  - apply (H1 (-32768)). vm_compute. split; discriminate.
  - apply (H1 32767). vm_compute. split; discriminate.
  - apply H3. vm_compute. by eexists.
Defined.

(** * The window/level mutators *)

(** C8, as stated, fails: [CDicomImage::setWindowLevel] stores the value it
    is given, so a width of 0.5 is held unchanged and is below 1.0. *)
Lemma setWindowLevel_keeps_small_width :
  Double.valid one_half = true /\
  Double.ltb (Double.of_int 0) one_half = true /\
  width (windowLevel
           (setWindowLevel mono1_2x1 (mkWindowLevel (Double.of_int 0) one_half)))
  = one_half /\
  Double.leb (Double.of_int kMinWindowWidth)
    (width (windowLevel
              (setWindowLevel mono1_2x1
                 (mkWindowLevel (Double.of_int 0) one_half))))
  = false.
Proof. vm_compute. repeat split; reflexivity. Qed.

(** C8, amended.  The width-slider slot and the mouse-drag branch clamp the
    width before storing it: after either, the width held by the image is
    at least 1.0, whatever the slider value, the pointer displacement and
    the previous window/level.  [CDicomImage::setWindowLevel] itself (and
    with it [CImageViewer::setWindowLevel] and the center-slider slot)
    stores the width it receives unchanged. *)
Theorem ui_width_paths_clamp img :
  (forall value,
     exists img',
       widthSliderValueChanged (Some img) value = Some img' /\
       Double.leb (Double.of_int kMinWindowWidth) (width (windowLevel img'))
       = true) /\
  (forall dx dy,
     Double.leb (Double.of_int kMinWindowWidth)
       (width (windowLevel (mouseMoveWindowLevel img dx dy))) = true) /\
  (forall wl, windowLevel (setWindowLevel img wl) = wl) /\
  (forall wl,
     CImageViewer_setWindowLevel (Some img) wl = Some (setWindowLevel img wl)) /\
  (forall value,
     exists img',
       centerSliderValueChanged (Some img) value = Some img' /\
       width (windowLevel img') = width (windowLevel img)).
Proof.
  split; [|split; [|split; [|split]]].
  - intros value. eexists. split; [reflexivity|]. apply max_lower_bound.
  - intros dx dy. apply max_lower_bound.
  - done.
  - done.
  - intros value. eexists. split; reflexivity.
Qed.

(** C10. [setDefaultWindowLevel wl] makes both the default and the current
    window/level equal to [wl]; [resetWindowLevel] makes the current
    window/level equal to the stored default; both leave every other field
    of the image as it was. *)
Theorem default_and_reset_window_level img wl :
  (windowLevel (setDefaultWindowLevel img wl) = wl /\
   defaultWindowLevel (setDefaultWindowLevel img wl) = wl) /\
  (windowLevel (resetWindowLevel img) = defaultWindowLevel img /\
   defaultWindowLevel (resetWindowLevel img) = defaultWindowLevel img) /\
  (forall img', img' = resetWindowLevel img \/ img' = setDefaultWindowLevel img wl ->
     pixelData img' = pixelData img /\
     dimensions img' = dimensions img /\
     photometricInterpretation img' = photometricInterpretation img /\
     bitsPerSample img' = bitsPerSample img /\
     isPixelSigned img' = isPixelSigned img /\
     rescaleSlope img' = rescaleSlope img /\
     rescaleIntercept img' = rescaleIntercept img /\
     metadata img' = metadata img).
Proof.
  split; [done|]. split; [done|].
  intros img' [-> | ->]; done.
Qed.

(** * Metadata, loader, view model and view state *)

(** ** [CDicomMetadata] *)

Lemma setTag_tag_aux (m : CDicomMetadata) (tagName value other : string) :
  Metadata.tag (Metadata.setTag m tagName value) other
  = if bool_decide (value <> EmptyString /\ other = tagName) then Some value
    else Metadata.tag m other.
Proof.
  unfold Metadata.tag, Metadata.setTag, CDicomMetadata in *.
  destruct (decide (value = EmptyString)) as [->|Hv].
  - rewrite bool_decide_true by done.
    rewrite bool_decide_false; [done|]. intros [H _]. by apply H.
  - rewrite (bool_decide_false (value = EmptyString)) by done.
    destruct (decide (other = tagName)) as [->|Hk].
    + rewrite lookup_insert_eq. by rewrite bool_decide_true.
    + rewrite lookup_insert_ne by done.
      rewrite bool_decide_false; [done|]. by intros [_ ?].
Qed.

(** X1.  Reading a tag back after [setTag]: a non-empty value is found
    under its name, an empty value changes nothing, and every other tag
    is left as it was. *)
Theorem setTag_then_tag (m : CDicomMetadata) (tagName value other : string) :
  Metadata.tag (Metadata.setTag m tagName value) other
  = if bool_decide (value <> EmptyString /\ other = tagName) then Some value
    else Metadata.tag m other.
Proof. apply setTag_tag_aux. Qed.

(** X2.  The named accessors: a getter returns what its own setter was
    given (when not empty), and is not affected by any other named
    setter. *)
Theorem named_accessors_round_trip (i j : nat)
    (get get' : CDicomMetadata -> string)
    (set set' : CDicomMetadata -> string -> CDicomMetadata)
    (key key' : string) (m : CDicomMetadata) (value : string) :
  Metadata.accessors !! i = Some (get, set, key) ->
  Metadata.accessors !! j = Some (get', set', key') ->
  get' (set m value)
  = if bool_decide (i = j /\ value <> EmptyString) then value else get' m.
Proof.
  intros Hi Hj.
  assert (Hshape : Forall (λ '(g, s, k),
            g = (λ m, Metadata.getTagValue m k) /\
            s = (λ m v, Metadata.setTag m k v)) Metadata.accessors).
  { unfold Metadata.accessors. repeat constructor. }
  assert (Hkeys : NoDup (snd <$> Metadata.accessors)).
  { apply (bool_decide_unpack _). by vm_compute. }
  pose proof (proj1 (Forall_lookup _ _) Hshape _ _ Hi) as [-> ->].
  pose proof (proj1 (Forall_lookup _ _) Hshape _ _ Hj) as [-> _].
  assert (Hk : key = key' <-> i = j).
  { split.
    - intros <-.
      eapply NoDup_lookup; [exact Hkeys| |].
      + rewrite list_lookup_fmap, Hi. done.
      + rewrite list_lookup_fmap, Hj. done.
    - intros <-. congruence. }
  change (Metadata.getTagValue (Metadata.setTag m key value) key'
          = if bool_decide (i = j /\ value <> EmptyString) then value
            else Metadata.getTagValue m key').
  unfold Metadata.getTagValue.
  pose proof (setTag_tag_aux m key value key') as Ht.
  unfold Metadata.tag in Ht. unfold CDicomMetadata in *. rewrite Ht.
  destruct (decide (value = EmptyString)) as [->|Hv].
  - rewrite bool_decide_false by (intros [H _]; by apply H).
    rewrite bool_decide_false by (intros [_ H]; by apply H). done.
  - destruct (decide (i = j)) as [Hij|Hij].
    + rewrite bool_decide_true by (split; [done|symmetry; by apply Hk]).
      by rewrite bool_decide_true.
    + rewrite bool_decide_false.
      * by rewrite bool_decide_false by (intros [? _]; done).
      * intros [_ H]. apply Hij, Hk. done.
Qed.

(** Witness of X2: [patientName] returns what [setPatientName] was given,
    and [setPatientName] leaves [patientId] as it was. *)
Lemma named_accessors_round_trip_witness :
  Metadata.patientName (Metadata.setPatientName ∅ "DOE^JOHN") = "DOE^JOHN" /\
  Metadata.patientId
    (Metadata.setPatientName (Metadata.setPatientId ∅ "12345") "DOE^JOHN")
  = "12345".
Proof.
  split.
  - exact (named_accessors_round_trip 0 0
             Metadata.patientName Metadata.patientName
             Metadata.setPatientName Metadata.setPatientName
             "Patient Name" "Patient Name" ∅ "DOE^JOHN" eq_refl eq_refl).
  - etransitivity.
    + exact (named_accessors_round_trip 0 1
               Metadata.patientName Metadata.patientId
               Metadata.setPatientName Metadata.setPatientId
               "Patient Name" "Patient ID"
               (Metadata.setPatientId ∅ "12345") "DOE^JOHN" eq_refl eq_refl).
    + by vm_compute.
Defined.

(** X3.  No tag is ever stored with an empty value, so a getter returns
    the empty string exactly for a tag that is absent. *)
Theorem metadata_no_empty_value (m : CDicomMetadata) (tagName value key : string) :
  Metadata.no_empty_value m ->
  Metadata.no_empty_value (Metadata.setTag m tagName value) /\
  (Metadata.getTagValue m key = EmptyString <-> Metadata.tag m key = None).
Proof.
  intros Hm. split.
  - intros k v. pose proof (setTag_tag_aux m tagName value k) as Ht.
    unfold Metadata.tag in Ht. unfold CDicomMetadata in *. rewrite Ht.
    case_bool_decide as Hc.
    + intros [= <-]. tauto.
    + apply Hm.
  - unfold Metadata.getTagValue, Metadata.tag, CDicomMetadata in *.
    destruct (m !! key) as [v|] eqn:Hl.
    + split; [|done]. intros ->. by apply Hm in Hl.
    + done.
Qed.

Lemma metadata_no_empty_value_witness :
  Metadata.no_empty_value (Metadata.setTag ∅ "Modality" "CT") /\
  (Metadata.getTagValue ∅ "Modality" = EmptyString <-> Metadata.tag ∅ "Modality" = None).
Proof.
  apply (metadata_no_empty_value ∅ "Modality" "CT" "Modality").
  intros k v H. unfold CDicomMetadata in *. rewrite lookup_empty in H. discriminate.
Defined.

(** ** [CDicomLoader::parsePhotometricInterpretation] *)

Lemma blank_toupper (c : char) : blank (toupper c) = blank c.
Proof. by destruct c as [[] [] [] [] [] [] [] []]. Qed.

Lemma toupper_idem (c : char) : toupper (toupper c) = toupper c.
Proof. by destruct c as [[] [] [] [] [] [] [] []]. Qed.

Lemma find_first_not_of_spec (s : list char) (pos : Z) :
  find_first_not_of s pos
  = match first_nonblank s with
    | Some i => pos + Z.of_nat i
    | None => npos
    end.
Proof.
  revert pos. induction s as [|c s IH]; intros pos; simpl; [done|].
  destruct (blank c); [|lia].
  rewrite IH. destruct (first_nonblank s); simpl; [lia|done].
Qed.

Lemma find_last_not_of_spec (s : list char) (pos last : Z) :
  find_last_not_of s pos last
  = match last_nonblank s with
    | Some j => pos + Z.of_nat j
    | None => last
    end.
Proof.
  revert pos last. induction s as [|c s IH]; intros pos last; simpl; [done|].
  rewrite IH. destruct (last_nonblank s); [lia|].
  destruct (blank c); [done|lia].
Qed.

Lemma last_nonblank_lt (s : list char) (j : nat) :
  last_nonblank s = Some j -> (j < length s)%nat.
Proof.
  revert j. induction s as [|c s IH]; intros j; simpl; [done|].
  destruct (last_nonblank s) as [j'|].
  - intros [= <-]. specialize (IH _ eq_refl). lia.
  - destruct (blank c); [done|]. intros [= <-]. lia.
Qed.

Lemma first_last_nonblank (s : list char) (i : nat) :
  first_nonblank s = Some i ->
  exists j, last_nonblank s = Some j /\ (i <= j < length s)%nat.
Proof.
  revert i. induction s as [|c s IH]; intros i; simpl; [done|].
  destruct (blank c) eqn:Hc.
  - destruct (first_nonblank s) as [i'|]; [|done]. intros [= <-].
    destruct (IH _ eq_refl) as (j & -> & Hj). exists (S j). split; [done|lia].
  - intros [= <-]. destruct (last_nonblank s) as [j|] eqn:Hl.
    + exists (S j). split; [done|]. apply last_nonblank_lt in Hl. lia.
    + exists O. split; [done|]. lia.
Qed.

Lemma first_nonblank_None (s : list char) :
  first_nonblank s = None <-> Forall (λ c, blank c = true) s.
Proof.
  induction s as [|c s IH]; simpl; [by split; [constructor|]|].
  destruct (blank c) eqn:Hc.
  - destruct (first_nonblank s); simpl.
    + split; [done|]. intros H. inversion H; subst.
      match goal with H' : Forall _ s |- _ => apply IH in H'; done end.
    + split; [|done]. intros _. constructor; [done|]. by apply IH.
  - split; [done|]. intros H. inversion H; subst. congruence.
Qed.

Lemma last_nonblank_None (s : list char) :
  last_nonblank s = None <-> Forall (λ c, blank c = true) s.
Proof.
  induction s as [|c s IH]; simpl; [by split; [constructor|]|].
  destruct (last_nonblank s).
  - split; [done|]. intros H. inversion H; subst.
    match goal with H' : Forall _ s |- _ => apply IH in H'; done end.
  - destruct (blank c) eqn:Hc.
    + split; [|done]. intros _. constructor; [done|]. by apply IH.
    + split; [done|]. intros H. inversion H; subst. congruence.
Qed.

Lemma first_nonblank_app_l (l s : list char) :
  Forall (λ c, blank c = true) l ->
  first_nonblank (l ++ s) = (λ i, length l + i)%nat <$> first_nonblank s.
Proof.
  induction 1 as [|c l Hc _ IH]; simpl.
  - by destruct (first_nonblank s).
  - rewrite Hc, IH. by destruct (first_nonblank s).
Qed.

Lemma first_nonblank_app_r (s r : list char) :
  Forall (λ c, blank c = true) r ->
  first_nonblank (s ++ r) = first_nonblank s.
Proof.
  intros Hr. induction s as [|c s IH]; simpl.
  - by apply first_nonblank_None.
  - by rewrite IH.
Qed.

Lemma last_nonblank_app_l (l s : list char) :
  Forall (λ c, blank c = true) l ->
  last_nonblank (l ++ s) = (λ j, length l + j)%nat <$> last_nonblank s.
Proof.
  induction 1 as [|c l Hc _ IH]; simpl.
  - by destruct (last_nonblank s).
  - rewrite IH. destruct (last_nonblank s); simpl; [done|]. by rewrite Hc.
Qed.

Lemma last_nonblank_app_r (s r : list char) :
  Forall (λ c, blank c = true) r ->
  last_nonblank (s ++ r) = last_nonblank s.
Proof.
  intros Hr. induction s as [|c s IH]; simpl.
  - by apply last_nonblank_None.
  - by rewrite IH.
Qed.

Lemma first_nonblank_toupper (s : list char) :
  first_nonblank (toupper <$> s) = first_nonblank s.
Proof.
  induction s as [|c s IH]; [done|].
  rewrite fmap_cons. cbn [first_nonblank last_nonblank].
  by rewrite blank_toupper, IH.
Qed.

Lemma last_nonblank_toupper (s : list char) :
  last_nonblank (toupper <$> s) = last_nonblank s.
Proof.
  induction s as [|c s IH]; [done|].
  rewrite fmap_cons. cbn [first_nonblank last_nonblank].
  by rewrite blank_toupper, IH.
Qed.

(** The search results and the substring, in terms of the two positions. *)
Lemma parse_trimmed (s : list char) :
  Z.of_nat (length s) < npos ->
  match first_nonblank s, last_nonblank s with
  | Some i, Some j =>
      find_first_not_of s 0 <> npos /\
      substr s (find_first_not_of s 0)
        (size_t (find_last_not_of s 0 npos - find_first_not_of s 0 + 1))
      = take (S j - i) (drop i s)
  | _, _ => find_first_not_of s 0 = npos
  end.
Proof.
  intros Hlen. rewrite find_first_not_of_spec, find_last_not_of_spec.
  destruct (first_nonblank s) as [i|] eqn:Hi; [|done].
  destruct (first_last_nonblank _ _ Hi) as (j & -> & Hj).
  unfold npos in *. split; [lia|].
  unfold substr, size_t. rewrite Z.mod_small by lia.
  f_equal; [lia|]. f_equal. lia.
Qed.

Lemma parse_of_trimmed (s s' : list char) :
  (find_first_not_of s 0 = npos <-> find_first_not_of s' 0 = npos) ->
  (find_first_not_of s 0 <> npos ->
   toupper <$> substr s (find_first_not_of s 0)
     (size_t (find_last_not_of s 0 npos - find_first_not_of s 0 + 1))
   = toupper <$> substr s' (find_first_not_of s' 0)
       (size_t (find_last_not_of s' 0 npos - find_first_not_of s' 0 + 1))) ->
  parsePhotometricInterpretation (Some s) = parsePhotometricInterpretation (Some s').
Proof.
  intros Hnpos Heq. unfold parsePhotometricInterpretation.
  destruct (decide (find_first_not_of s 0 = npos)) as [H|H].
  - rewrite (bool_decide_true (find_first_not_of s 0 = npos)) by done.
    by rewrite (bool_decide_true (find_first_not_of s' 0 = npos)) by tauto.
  - rewrite (bool_decide_false (find_first_not_of s 0 = npos)) by done.
    rewrite (bool_decide_false (find_first_not_of s' 0 = npos)) by tauto.
    cbv zeta. by rewrite (Heq H).
Qed.

(** X4.  The photometric interpretation read from a file does not depend
    on blanks around the string nor on the case of its letters. *)
Theorem parsePhotometricInterpretation_trim_case (l s r s' : list char) :
  Forall (λ c, blank c = true) l ->
  Forall (λ c, blank c = true) r ->
  toupper <$> s = toupper <$> s' ->
  Z.of_nat (length (l ++ s ++ r)) < npos ->
  parsePhotometricInterpretation (Some (l ++ s ++ r))
  = parsePhotometricInterpretation (Some s').
Proof.
  intros Hl Hr Hup Hlen.
  assert (Hlen' : Z.of_nat (length s') < npos).
  { apply (f_equal length) in Hup. rewrite !length_fmap in Hup.
    rewrite !length_app in Hlen. lia. }
  pose proof (parse_trimmed _ Hlen) as H1.
  pose proof (parse_trimmed _ Hlen') as H2.
  rewrite first_nonblank_app_l, first_nonblank_app_r in H1 by done.
  rewrite last_nonblank_app_l, last_nonblank_app_r in H1 by done.
  rewrite <- (first_nonblank_toupper s'), <- Hup, first_nonblank_toupper in H2.
  rewrite <- (last_nonblank_toupper s'), <- Hup, last_nonblank_toupper in H2.
  apply parse_of_trimmed.
  - destruct (first_nonblank s) as [i|] eqn:Hi; simpl in *.
    + destruct (first_last_nonblank _ _ Hi) as (j & Hj & _).
      rewrite Hj in *. simpl in *.
      destruct H1 as [H1 _], H2 as [H2 _]. split; intros H; contradiction.
    + split; intros _; assumption.
  - intros Hne.
    destruct (first_nonblank s) as [i|] eqn:Hi; simpl in *; [|done].
    destruct (first_last_nonblank _ _ Hi) as (j & Hj & Hij).
    rewrite Hj in *. simpl in *.
    destruct H1 as [_ ->], H2 as [_ ->].
    replace (S (length l + j) - (length l + i))%nat with (S j - i)%nat by lia.
    rewrite (drop_app_add' l (s ++ r) (length l) i) by done.
    rewrite drop_app_le by lia.
    rewrite take_app_le by (rewrite length_drop; lia).
    by rewrite !fmap_take, !fmap_drop, Hup.
Qed.

(** Witness of X4: [" Monochrome2 \n"] is read as ["MONOCHROME2"]. *)
Lemma parsePhotometricInterpretation_trim_case_witness :
  parsePhotometricInterpretation
    (Some (literal " " ++ literal "Monochrome2" ++ [Ascii.ascii_of_nat 32; Ascii.ascii_of_nat 10]))
  = Monochrome2.
Proof.
  apply (parsePhotometricInterpretation_trim_case
           (literal " ") (literal "Monochrome2")
           [Ascii.ascii_of_nat 32; Ascii.ascii_of_nat 10]
           (literal "MONOCHROME2")).
  - repeat constructor.
  - repeat constructor.
  - reflexivity.
  - vm_compute. reflexivity.
Defined.

(** ** [CDicomLoader::loadFile] and [DcmtkDicomLoader::load] *)

Section LoaderOutcome.

Context {DcmFileFormat DcmDataset : Type}.
Variable file_exists : string -> bool.
Variable DcmFileFormat_loadFile : string -> option DcmFileFormat.
Variable getDataset : DcmFileFormat -> option DcmDataset.
Variable findAndGetOFString : DcmDataset -> DcmTagKey -> option string.
Variable findAndGetOFStringArray : DcmDataset -> DcmTagKey -> option string.
Variable findAndGetUint16 : DcmDataset -> DcmTagKey -> option Z.
Variable findAndGetFloat64 : DcmDataset -> DcmTagKey -> option double.
Variable to_string_uint16 : Z -> string.
Variable to_string_double : double -> string.
Variable extractImageData : DcmDataset -> CDicomImage -> option CDicomImage.
Variable extractPixelData : DcmFileFormat -> CDicomImage -> option CDicomImage.

Local Abbreviation loader :=
  (DcmtkDicomLoader_load
     (loadFile file_exists DcmFileFormat_loadFile getDataset
        findAndGetOFString findAndGetOFStringArray findAndGetUint16
        findAndGetFloat64 to_string_uint16 to_string_double
        extractImageData extractPixelData)).

Lemma loader_cases (filePath : string) :
  let r := loader filePath in
  (is_Some (SDicomLoadResult.image r) <-> SDicomLoadResult.result r = Success) /\
  (SDicomLoadResult.errorMessage r = EmptyString <-> SDicomLoadResult.result r = Success) /\
  SDicomLoadResult.result r
    ∈ [Success; FileNotFound; InvalidFormat; DecompressionFailed].
Proof.
  unfold DcmtkDicomLoader_load, loadFile.
  destruct (file_exists filePath); simpl.
  2:{ split_and!; [split; [by intros []|done]|split; done|set_solver]. }
  destruct (DcmFileFormat_loadFile filePath) as [ff|]; simpl.
  2:{ split_and!; [split; [by intros []|done]|split; done|set_solver]. }
  destruct (getDataset ff) as [ds|]; simpl.
  2:{ split_and!; [split; [by intros []|done]|split; done|set_solver]. }
  destruct (extractImageData ds _) as [img|]; simpl.
  2:{ split_and!; [split; [by intros []|done]|split; done|set_solver]. }
  destruct (extractPixelData ff img) as [img'|]; simpl.
  2:{ split_and!; [split; [by intros []|done]|split; done|set_solver]. }
  split_and!; [split; [done|by eexists]|split; done|set_solver].
Qed.

(** X5.  Whatever the file system and DCMTK deliver, the loader returns
    an image exactly when the result is [Success], an empty error message
    exactly then, and never the codes [UnsupportedTransferSyntax] or
    [Unknown]. *)
Theorem loader_outcome (filePath : string) :
  let r := loader filePath in
  (is_Some (SDicomLoadResult.image r) <-> SDicomLoadResult.result r = Success) /\
  (SDicomLoadResult.errorMessage r = EmptyString <-> SDicomLoadResult.result r = Success) /\
  SDicomLoadResult.result r
    ∈ [Success; FileNotFound; InvalidFormat; DecompressionFailed].
Proof. apply loader_cases. Qed.

(** X6.  [MainViewModel::loadFile] over this loader either appends one
    entry (the file path, the image with its window/level reset, the
    grayscale palette, the image's default window/level, zoom 1, no pan,
    no rotation) and announces its index, or leaves the view model as it
    was and reports a non-empty error message. *)
Theorem view_model_loadFile (vm : MainViewModel.t) (filePath : string) :
  let '(ok, vm', emitted) := MainViewModel.loadFile (Some loader) vm filePath in
  if ok then
    exists image,
      SDicomLoadResult.image (loader filePath) = Some image /\
      MainViewModel.m_loadedImages vm'
      = MainViewModel.m_loadedImages vm ++
        [MainViewModel.SLoadedImage.mk filePath (Some (resetWindowLevel image))
           Grayscale (defaultWindowLevel image)
           (Double.of_int 1) QPointF_null 0] /\
      MainViewModel.m_currentImageIndex vm' = MainViewModel.m_currentImageIndex vm /\
      emitted = [MainViewModel.imageAdded (MainViewModel.size vm)]
  else
    vm' = vm /\
    exists message,
      emitted = [MainViewModel.errorOccurred message] /\ message <> EmptyString.
Proof.
  pose proof (loader_cases filePath) as (Himg & Hmsg & _).
  unfold MainViewModel.loadFile. cbv zeta in Himg, Hmsg.
  destruct (SDicomLoadResult.image (loader filePath)) as [image|] eqn:Hi.
  - assert (Hs : SDicomLoadResult.result (loader filePath) = Success).
    { apply Himg. by eexists. }
    rewrite Hs. rewrite bool_decide_true by done. simpl.
    exists image. split_and!; try done.
    unfold MainViewModel.size. simpl. rewrite length_app. simpl.
    do 2 f_equal. lia.
  - split; [done|]. eexists. split; [done|].
    intros Hm. apply Hmsg in Hm. apply Himg in Hm. by destruct Hm.
Qed.

End LoaderOutcome.

(** ** [MainViewModel] *)

Lemma storeCurrent_length vm st wl :
  length (MainViewModel.storeCurrent vm st wl)
  = length (MainViewModel.m_loadedImages vm).
Proof.
  unfold MainViewModel.storeCurrent. case_decide; [|done]. apply length_alter.
Qed.

Lemma storeCurrent_lookup vm st wl (i : nat) :
  MainViewModel.storeCurrent vm st wl !! i
  = if decide (0 <= MainViewModel.m_currentImageIndex vm
               /\ Z.to_nat (MainViewModel.m_currentImageIndex vm) = i)
    then MainViewModel.stored st wl <$> MainViewModel.m_loadedImages vm !! i
    else MainViewModel.m_loadedImages vm !! i.
Proof.
  unfold MainViewModel.storeCurrent, MainViewModel.size.
  case_decide as Hin.
  - rewrite list_lookup_alter.
    destruct (decide (Z.to_nat _ = i)) as [<-|Hne].
    + by rewrite decide_True by lia.
    + rewrite decide_False; [done|]. intros [_ ?]. done.
  - case_decide as Hc; [|done]. destruct Hc as [Hc <-].
    rewrite lookup_ge_None_2; [done|]. lia.
Qed.

Lemma loadFile_images m_loader vm filePath :
  let '(_, vm', _) := MainViewModel.loadFile m_loader vm filePath in
  MainViewModel.m_currentImageIndex vm' = MainViewModel.m_currentImageIndex vm /\
  exists new, MainViewModel.m_loadedImages vm'
              = MainViewModel.m_loadedImages vm ++ new.
Proof.
  unfold MainViewModel.loadFile.
  destruct m_loader as [load|]; simpl.
  2:{ split; [done|]. exists []. by rewrite app_nil_r. }
  destruct (SDicomLoadResult.image (load filePath)).
  - destruct (negb _); simpl.
    + split; [done|]. exists []. by rewrite app_nil_r.
    + split; [done|]. by eexists.
  - split; [done|]. exists []. by rewrite app_nil_r.
Qed.

Ltac not_emitted :=
  repeat (apply not_elem_of_cons; split; [discriminate|]); apply not_elem_of_nil.

Lemma loadFile_signals m_loader vm filePath :
  MainViewModel.currentImageChanged ∉ (MainViewModel.loadFile m_loader vm filePath).2.
Proof.
  unfold MainViewModel.loadFile.
  destruct m_loader as [load|]; simpl; [|not_emitted].
  destruct (SDicomLoadResult.image (load filePath)); [|not_emitted].
  destruct (negb _); simpl; not_emitted.
Qed.

Lemma loadEach_images m_loader vm filePaths :
  MainViewModel.m_currentImageIndex (MainViewModel.loadEach m_loader vm filePaths).1
  = MainViewModel.m_currentImageIndex vm /\
  exists new,
    MainViewModel.m_loadedImages (MainViewModel.loadEach m_loader vm filePaths).1
    = MainViewModel.m_loadedImages vm ++ new.
Proof.
  revert vm. induction filePaths as [|p ps IH]; intros vm; simpl.
  - split; [done|]. exists []. by rewrite app_nil_r.
  - pose proof (loadFile_images m_loader vm p) as H.
    destruct (MainViewModel.loadFile m_loader vm p) as [[ok vm1] s1].
    destruct H as (Hi & new1 & Hl).
    specialize (IH vm1).
    destruct (MainViewModel.loadEach m_loader vm1 ps) as [vm2 s2]. simpl in *.
    destruct IH as (Hi2 & new2 & Hl2).
    split; [congruence|]. exists (new1 ++ new2). by rewrite Hl2, Hl, app_assoc.
Qed.

Lemma selectImage_index_ok vm index st wl :
  MainViewModel.index_ok vm ->
  MainViewModel.index_ok (MainViewModel.selectImage vm index st wl).1.
Proof.
  intros Hok. unfold MainViewModel.selectImage, MainViewModel.index_ok,
    MainViewModel.size in *.
  repeat case_decide; simpl; rewrite ?storeCurrent_length; lia.
Qed.

Lemma removeImage_index_ok vm index st wl :
  MainViewModel.index_ok vm ->
  MainViewModel.index_ok (MainViewModel.removeImage vm index st wl).1.
Proof.
  intros Hok. unfold MainViewModel.removeImage.
  case_decide as Hr; [done|].
  assert (Hlen : length (delete (Z.to_nat index)
                          (MainViewModel.storeCurrent vm st wl))
                 = (length (MainViewModel.m_loadedImages vm) - 1)%nat).
  { rewrite length_delete; [by rewrite storeCurrent_length|].
    apply lookup_lt_is_Some. rewrite storeCurrent_length.
    unfold MainViewModel.size in Hr. lia. }
  unfold MainViewModel.index_ok, MainViewModel.size in *.
  case_bool_decide as Hnil; simpl; [lia|].
  assert (length (delete (Z.to_nat index)
                    (MainViewModel.storeCurrent vm st wl)) <> 0)%nat
    by (by destruct (delete _ _)).
  repeat case_decide; simpl; rewrite ?Hlen; lia.
Qed.

Lemma call_index_ok m_loader vm c :
  MainViewModel.index_ok vm ->
  MainViewModel.index_ok (MainViewModel.call m_loader vm c).1.
Proof.
  intros Hok. destruct c; simpl.
  - pose proof (loadFile_images m_loader vm filePath) as H.
    destruct (MainViewModel.loadFile m_loader vm filePath) as [[ok vm1] s1].
    destruct H as (Hi & new & Hl). simpl.
    unfold MainViewModel.index_ok, MainViewModel.size in *.
    rewrite Hi, Hl, length_app. lia.
  - unfold MainViewModel.loadFiles.
    pose proof (loadEach_images m_loader vm filePaths) as (Hi & new & Hl).
    destruct (MainViewModel.loadEach m_loader vm filePaths) as [vm1 s1].
    simpl in *.
    assert (Hok1 : MainViewModel.index_ok vm1).
    { unfold MainViewModel.index_ok, MainViewModel.size in *.
      rewrite Hi, Hl, length_app. lia. }
    case_decide; [|done].
    pose proof (selectImage_index_ok vm1 (MainViewModel.size vm)
                  currentState currentWindowLevel Hok1) as H'.
    by destruct (MainViewModel.selectImage vm1 _ _ _).
  - by apply selectImage_index_ok.
  - by apply removeImage_index_ok.
  - unfold MainViewModel.updateCurrentViewState.
    case_decide; [done|]. unfold MainViewModel.index_ok, MainViewModel.size in *.
    simpl. rewrite length_alter. lia.
  - unfold MainViewModel.updateCurrentPalette.
    case_decide; [done|]. destruct (_ !! _); [|done].
    case_bool_decide; [done|].
    unfold MainViewModel.index_ok, MainViewModel.size in *.
    simpl. rewrite length_alter. lia.
  - unfold MainViewModel.updateCurrentWindowLevel.
    case_decide; [done|]. unfold MainViewModel.index_ok, MainViewModel.size in *.
    simpl. rewrite length_alter. lia.
Qed.

(** X7.  Whatever sequence of public methods is called on a newly
    constructed view model, and whatever the loader answers, the current
    index is [-1] or the position of a loaded image. *)
Theorem view_model_index_invariant (m_loader : option IDicomLoader)
    (cs : list MainViewModel.Call) :
  MainViewModel.index_ok (MainViewModel.calls m_loader MainViewModel.new cs).1.
Proof.
  assert (H : forall vm, MainViewModel.index_ok vm ->
                MainViewModel.index_ok (MainViewModel.calls m_loader vm cs).1).
  { induction cs as [|c cs IH]; intros vm Hok; simpl; [done|].
    pose proof (call_index_ok m_loader vm c Hok) as H1.
    destruct (MainViewModel.call m_loader vm c) as [vm1 s1].
    specialize (IH vm1 H1).
    by destruct (MainViewModel.calls m_loader vm1 cs). }
  apply H. by left.
Qed.

(** X8.  Removing an image keeps the current image current when another
    one is removed (its entry now holding the viewer's state); removing
    the current image makes the one after it current, or the one before
    it when it was the last, or none when it was the only one. *)
Theorem removeImage_current_entry (vm : MainViewModel.t) (index : Z)
    (st : MainViewModel.SViewState.t) (wl : SWindowLevel)
    (e : MainViewModel.SLoadedImage.t) :
  MainViewModel.currentEntry vm = Some e ->
  0 <= index < MainViewModel.size vm ->
  MainViewModel.currentEntry (MainViewModel.removeImage vm index st wl).1
  = if decide (index = MainViewModel.currentIndex vm) then
      match MainViewModel.m_loadedImages vm !! (Z.to_nat index + 1)%nat with
      | Some next => Some next
      | None =>
          if decide (index = 0) then None
          else MainViewModel.m_loadedImages vm !! (Z.to_nat index - 1)%nat
      end
    else Some (MainViewModel.stored st wl e).
Proof.
  unfold MainViewModel.currentIndex. intros He Hidx.
  assert (Hcur : 0 <= MainViewModel.m_currentImageIndex vm < MainViewModel.size vm
                 /\ MainViewModel.m_loadedImages vm
                      !! Z.to_nat (MainViewModel.m_currentImageIndex vm) = Some e).
  { unfold MainViewModel.currentEntry in He. case_decide; [done|]. split; [lia|done]. }
  destruct Hcur as [Hcur Hlook]. clear He.
  unfold MainViewModel.removeImage.
  destruct (decide (index < 0 \/ MainViewModel.size vm <= index)) as [?|_]; [lia|].
  unfold MainViewModel.size in *.
  pose (n := length (MainViewModel.m_loadedImages vm)).
  pose (cur := MainViewModel.m_currentImageIndex vm).
  assert (Hn : n = length (MainViewModel.m_loadedImages vm)) by done.
  assert (Hc : cur = MainViewModel.m_currentImageIndex vm) by done.
  rewrite <- ?Hn, <- ?Hc in *. clearbody n cur.
  assert (Hlen : length (delete (Z.to_nat index)
                          (MainViewModel.storeCurrent vm st wl)) = (n - 1)%nat).
  { rewrite length_delete; [rewrite storeCurrent_length; lia|].
    apply lookup_lt_is_Some. rewrite storeCurrent_length. lia. }
  assert (Hat : forall i : nat,
            delete (Z.to_nat index) (MainViewModel.storeCurrent vm st wl) !! i
            = if decide (i < Z.to_nat index)%nat
              then (if decide (Z.to_nat cur = i)
                    then Some (MainViewModel.stored st wl e)
                    else MainViewModel.m_loadedImages vm !! i)
              else (if decide (Z.to_nat cur = S i)
                    then Some (MainViewModel.stored st wl e)
                    else MainViewModel.m_loadedImages vm !! S i)).
  { intros i. case_decide.
    - rewrite list_lookup_delete_lt by done. rewrite storeCurrent_lookup, <- ?Hc.
      case_decide as H1; case_decide as H2; try lia; [|done].
      destruct H1 as [_ <-]. by rewrite Hlook.
    - rewrite list_lookup_delete_ge by lia. rewrite storeCurrent_lookup, <- ?Hc.
      case_decide as H1; case_decide as H2; try lia; [|done].
      destruct H1 as [_ H1]. rewrite <- H1. by rewrite Hlook. }
  unfold MainViewModel.currentEntry, MainViewModel.size.
  case_bool_decide as Hnil.
  - (* the only image *)
    rewrite Hnil in Hlen. simpl in Hlen. cbn.
    rewrite (lookup_ge_None_2 _ (Z.to_nat index + 1)) by lia.
    repeat case_decide; (done || (exfalso; lia)).
  - assert (n - 1 <> 0)%nat.
    { rewrite <- Hlen. by destruct (delete _ _). }
    destruct (decide (index = cur)) as [Heq|Hne].
    + (* the current image is removed *)
      cbn. rewrite Hlen.
      destruct (decide (Z.to_nat index + 1 < n)%nat) as [Hnx|Hnx].
      * rewrite Z.min_l by lia.
        rewrite decide_False by lia.
        rewrite Hat. rewrite decide_False by lia. rewrite decide_False by lia.
        replace (S (Z.to_nat index)) with (Z.to_nat index + 1)%nat by lia.
        destruct (lookup_lt_is_Some_2 (MainViewModel.m_loadedImages vm)
                    (Z.to_nat index + 1)) as [next Hl]; [lia|].
        by rewrite Hl.
      * rewrite Z.min_r by lia.
        rewrite decide_False by lia.
        rewrite (lookup_ge_None_2 _ (Z.to_nat index + 1)) by lia.
        rewrite (decide_False (P := index = 0)) by lia.
        rewrite Hat. rewrite decide_True by lia. rewrite decide_False by lia.
        f_equal. lia.
    + destruct (decide (index < cur)) as [Hlt|Hge]; cbn; rewrite Hlen.
      * rewrite decide_False by lia.
        rewrite Hat. rewrite decide_False by lia. by rewrite decide_True by lia.
      * rewrite decide_False by lia.
        rewrite Hat. rewrite decide_True by lia. by rewrite decide_True by lia.
Qed.

Lemma removeImage_current_entry_witness :
  let st := MainViewModel.SViewState.mk (Double.of_int 1) QPointF_null 0 in
  let vm :=
    (MainViewModel.loadFiles
       (Some (λ _, SDicomLoadResult.mk (Some CDicomImage_new) Success EmptyString))
       MainViewModel.new ["a.dcm"; "b.dcm"] st SWindowLevel_default).1 in
  exists e,
    MainViewModel.currentEntry vm = Some e /\
    MainViewModel.currentEntry
      (MainViewModel.removeImage vm 1 st SWindowLevel_default).1
    = Some (MainViewModel.stored st SWindowLevel_default e).
Proof.
  intros st vm.
  destruct (MainViewModel.currentEntry vm) as [e|] eqn:He;
    [|by vm_compute in He].
  exists e. split; [done|].
  rewrite (removeImage_current_entry vm 1 st SWindowLevel_default e He);
    [|by vm_compute].
  rewrite decide_False; [done | by vm_compute].
Defined.

(** X9.  Every public method that changes the current index emits
    [currentImageChanged]. *)
Theorem current_index_change_is_signalled (m_loader : option IDicomLoader)
    (vm : MainViewModel.t) (c : MainViewModel.Call) :
  MainViewModel.currentIndex (MainViewModel.call m_loader vm c).1
    <> MainViewModel.currentIndex vm ->
  MainViewModel.currentImageChanged ∈ (MainViewModel.call m_loader vm c).2.
Proof.
  unfold MainViewModel.currentIndex.
  assert (Hsel : forall vm index st wl,
            MainViewModel.m_currentImageIndex
              (MainViewModel.selectImage vm index st wl).1
            <> MainViewModel.m_currentImageIndex vm ->
            MainViewModel.currentImageChanged
              ∈ (MainViewModel.selectImage vm index st wl).2).
  { intros vm0 index st wl. unfold MainViewModel.selectImage.
    repeat case_decide; simpl; intros Hne; try done; (apply elem_of_cons; by left). }
  destruct c; simpl.
  - pose proof (loadFile_images m_loader vm filePath) as H.
    destruct (MainViewModel.loadFile m_loader vm filePath) as [[ok vm1] s1].
    destruct H as (Hi & _). simpl. by rewrite Hi.
  - unfold MainViewModel.loadFiles.
    pose proof (loadEach_images m_loader vm filePaths) as (Hi & _).
    destruct (MainViewModel.loadEach m_loader vm filePaths) as [vm1 s1].
    simpl in Hi. case_decide; simpl; [|by rewrite Hi].
    specialize (Hsel vm1 (MainViewModel.size vm) currentState currentWindowLevel).
    destruct (MainViewModel.selectImage vm1 _ _ _) as [vm2 s2]. simpl in *.
    rewrite <- Hi. intros Hne. apply elem_of_app. right. by apply Hsel.
  - apply Hsel.
  - unfold MainViewModel.removeImage.
    case_decide; [done|]. case_bool_decide; simpl.
    { intros _. (apply elem_of_cons; right; apply elem_of_cons; by left). }
    repeat case_decide; simpl; intros Hne; try done;
      (apply elem_of_cons; right; apply elem_of_cons; by left).
  - unfold MainViewModel.updateCurrentViewState. by case_decide.
  - unfold MainViewModel.updateCurrentPalette.
    case_decide; [done|]. destruct (_ !! _); [|done]. by case_bool_decide.
  - unfold MainViewModel.updateCurrentWindowLevel. by case_decide.
Qed.

(** Witness of X9: the first image loaded into an empty view model. *)
Lemma current_index_change_is_signalled_witness :
  MainViewModel.currentImageChanged
    ∈ (MainViewModel.call
         (Some (λ _, SDicomLoadResult.mk (Some CDicomImage_new) Success EmptyString))
         MainViewModel.new
         (MainViewModel.CallLoadFiles ["a.dcm"]
            (MainViewModel.SViewState.mk (Double.of_int 1) QPointF_null 0)
            SWindowLevel_default)).2.
Proof.
  apply current_index_change_is_signalled. vm_compute. discriminate.
Defined.

(** X10.  [loadFiles] makes the first image it adds the current one; when
    no file could be loaded it leaves the view model as it was. *)
Theorem loadFiles_selects_first_new (m_loader : option IDicomLoader)
    (vm : MainViewModel.t) (filePaths : list string)
    (st : MainViewModel.SViewState.t) (wl : SWindowLevel) :
  let vm' := (MainViewModel.loadFiles m_loader vm filePaths st wl).1 in
  if decide (MainViewModel.imageCount vm < MainViewModel.imageCount vm')
  then MainViewModel.currentIndex vm' = MainViewModel.imageCount vm
  else vm' = vm.
Proof.
  unfold MainViewModel.loadFiles, MainViewModel.imageCount,
    MainViewModel.currentIndex.
  pose proof (loadEach_images m_loader vm filePaths) as (Hi & new & Hl).
  destruct (MainViewModel.loadEach m_loader vm filePaths) as [vm1 s1].
  simpl in Hi, Hl.
  assert (Hsize : MainViewModel.size vm1
                  = MainViewModel.size vm + Z.of_nat (length new)).
  { unfold MainViewModel.size. rewrite Hl, length_app. lia. }
  destruct (decide (MainViewModel.size vm < MainViewModel.size vm1)) as [Hgrow|Hsame].
  - pose proof (storeCurrent_length vm1 st wl) as Hst.
    unfold MainViewModel.selectImage.
    destruct (decide (MainViewModel.size vm < 0
                      \/ MainViewModel.size vm1 <= MainViewModel.size vm))
      as [Hout|_]; [unfold MainViewModel.size in *; lia|].
    destruct (decide (MainViewModel.size vm = MainViewModel.m_currentImageIndex vm1))
      as [Heq|Hne]; cbn -[MainViewModel.storeCurrent];
      unfold MainViewModel.size in *; cbn -[MainViewModel.storeCurrent];
      rewrite Hst; rewrite decide_True by lia; done.
  - cbn. rewrite decide_False by done.
    assert (new = []) by (destruct new; [done|simpl in *; lia]). subst new.
    rewrite app_nil_r in Hl. destruct vm1, vm. simpl in *. congruence.
Qed.

(** ** [CDicomImage] *)

(** X11.  The window/level of an image after [setDefaultWindowLevel],
    any number of [setWindowLevel] calls and [resetWindowLevel] is the
    default one. *)
Theorem resetWindowLevel_restores_default (img : CDicomImage)
    (def : SWindowLevel) (wls : list SWindowLevel) :
  windowLevel (resetWindowLevel (foldl setWindowLevel (setDefaultWindowLevel img def) wls))
  = def /\
  defaultWindowLevel (foldl setWindowLevel (setDefaultWindowLevel img def) wls) = def.
Proof.
  assert (H : forall img0, defaultWindowLevel (foldl setWindowLevel img0 wls)
                           = defaultWindowLevel img0).
  { induction wls as [|w wls IH]; intros img0; simpl; [done|]. by rewrite IH. }
  split; [|by rewrite H].
  unfold resetWindowLevel, windowLevel. simpl.
  change (defaultWindowLevel
            (foldl setWindowLevel (setDefaultWindowLevel img def) wls) = def).
  by rewrite H.
Qed.

(** ** View state of the viewer *)

(** X12.  From a rotation of at least 0 degrees, [rotateRight] and
    [rotateLeft] give a rotation in [0, 360); from one in [0, 360) each
    undoes the other, and four quarter turns give the rotation back. *)
Theorem rotation_quarter_turns (r : Z) :
  0 <= r <= INT_MAX - 270 ->
  (exists r', rotateRight r = Some r' /\ 0 <= r' < 360 /\ r' = (r + 90) `mod` 360) /\
  (exists r', rotateLeft r = Some r' /\ 0 <= r' < 360 /\ r' = (r + 270) `mod` 360) /\
  (r < 360 ->
   (rotateRight r ≫= rotateLeft) = Some r /\
   (rotateLeft r ≫= rotateRight) = Some r /\
   (((rotateRight r ≫= rotateRight) ≫= rotateRight) ≫= rotateRight) = Some r).
Proof.
  intros Hr. unfold INT_MAX in Hr.
  assert (Hstep : forall k x, 0 <= x <= 2147483647 - 270 -> 0 <= k <= 270 ->
            int_result (x + k) ≫= (λ sum, Some (Z.rem sum 360))
            = Some ((x + k) `mod` 360)).
  { intros k x Hx Hk. unfold int_result, INT_MIN, INT_MAX.
    rewrite decide_True by lia. simpl.
    by rewrite Z.rem_mod_nonneg by lia. }
  unfold rotateRight, rotateLeft.
  split; [|split].
  - eexists. split; [by apply Hstep; lia|]. split; [apply Z.mod_pos_bound; lia|done].
  - eexists. split; [by apply Hstep; lia|]. split; [apply Z.mod_pos_bound; lia|done].
  - intros Hlt.
    assert (Hm : forall x, 0 <= x -> 0 <= x `mod` 360 <= 2147483647 - 270).
    { intros x Hx. pose proof (Z.mod_pos_bound x 360). lia. }
    split_and!.
    + rewrite (Hstep 90) by lia. simpl. rewrite (Hstep 270) by (try apply Hm; lia).
      f_equal. rewrite Zplus_mod_idemp_l.
      replace (r + 90 + 270) with (r + 1 * 360) by lia.
      rewrite Z.mod_add by lia. apply Z.mod_small. lia.
    + rewrite (Hstep 270) by lia. simpl. rewrite (Hstep 90) by (try apply Hm; lia).
      f_equal. rewrite Zplus_mod_idemp_l.
      replace (r + 270 + 90) with (r + 1 * 360) by lia.
      rewrite Z.mod_add by lia. apply Z.mod_small. lia.
    + pose proof (Z.mod_pos_bound (r + 90) 360 ltac:(lia)) as B1.
      pose proof (Z.mod_pos_bound ((r + 90) `mod` 360 + 90) 360 ltac:(lia)) as B2.
      pose proof (Z.mod_pos_bound
                    (((r + 90) `mod` 360 + 90) `mod` 360 + 90) 360 ltac:(lia)) as B3.
      rewrite (Hstep 90) by lia. simpl.
      rewrite (Hstep 90) by lia. simpl.
      rewrite (Hstep 90) by lia. simpl.
      rewrite (Hstep 90) by lia.
      f_equal. clear B1 B2 B3 Hstep Hm. Z.div_mod_to_equations. lia.
Qed.

Lemma rotation_quarter_turns_witness :
  (rotateRight 270 ≫= rotateLeft) = Some 270 /\
  (rotateLeft 0 ≫= rotateRight) = Some 0.
Proof.
  destruct (rotation_quarter_turns 270 ltac:(vm_compute; split; discriminate))
    as (_ & _ & H270).
  destruct (rotation_quarter_turns 0 ltac:(vm_compute; split; discriminate))
    as (_ & _ & H0).
  split.
  - apply H270. lia.
  - apply H0. lia.
Defined.

(** X13.  A quarter turn in either direction exchanges the width and the
    height of the displayed image, for every rotation of at least 0
    degrees. *)
Theorem quarter_turn_swaps_size (m_dicomImage : option CDicomImage) (r r' : Z) :
  0 <= r ->
  rotateRight r = Some r' \/ rotateLeft r = Some r' ->
  rotatedImageSize m_dicomImage r'
  = mkSize (size_height (rotatedImageSize m_dicomImage r))
           (size_width (rotatedImageSize m_dicomImage r)).
Proof.
  intros Hr Hturn.
  assert (Hpar : Z.rem (Z.quot r' 90) 2 = 1 - Z.rem (Z.quot r 90) 2
                 /\ 0 <= Z.rem (Z.quot r 90) 2 <= 1).
  { unfold rotateRight, rotateLeft, int_result, INT_MIN, INT_MAX in Hturn.
    destruct Hturn as [H|H]; case_decide; simplify_eq/=;
      Z.quot_rem_to_equations; lia. }
  destruct Hpar as [Hpar Hb].
  unfold rotatedImageSize.
  destruct (hasImage m_dicomImage); simpl; [|done].
  rewrite Hpar.
  destruct (decide (Z.rem (Z.quot r 90) 2 = 1)) as [H1|H1].
  - rewrite (bool_decide_true (Z.rem (Z.quot r 90) 2 = 1)) by done.
    rewrite (bool_decide_false (1 - _ = 1)) by lia.
    by destruct (imagePixelSize _).
  - rewrite (bool_decide_false (Z.rem (Z.quot r 90) 2 = 1)) by done.
    by rewrite (bool_decide_true (1 - _ = 1)) by lia.
Qed.

(** Witness of X13: a 2 x 1 image is shown 2 x 1 at 0 degrees and 1 x 2
    after a quarter turn to the right. *)
Lemma quarter_turn_swaps_size_witness :
  rotatedImageSize (Some mono1_2x1) 0 = mkSize 2 1 /\
  rotatedImageSize (Some mono1_2x1) 90 = mkSize 1 2.
Proof.
  split; [by vm_compute|].
  rewrite (quarter_turn_swaps_size (Some mono1_2x1) 0 90);
    [by vm_compute | lia | left; reflexivity].
Defined.

(** X14.  For a valid monochrome image with [b] stored bits ([b = 8] when
    the header gives 0), the slider ranges are defined exactly when
    [b <= 30]; then the width slider runs over [1 .. 2^b] and the center
    slider over [0 .. 2^b - 1], or over [-2^(b-1) .. 2^(b-1) - 1] for
    signed samples, so that it has [2^b] positions. *)
Theorem slider_ranges (img : CDicomImage) (ranges : SliderRanges) :
  isValid img = true ->
  photometricInterpretation img <> Rgb ->
  photometricInterpretation img <> PaletteColor ->
  0 <= bitsStored (dimensions img) <= 65535 ->
  let b := if decide (bitsStored (dimensions img) > 0)
           then bitsStored (dimensions img) else 8 in
  if decide (b <= 30) then
    exists r,
      configureWindowLevelControls (Some img) ranges = Some (r, true) /\
      m_windowCenterMin r = (if isSigned (dimensions img) then - 2 ^ (b - 1) else 0) /\
      m_windowCenterMax r
      = (if isSigned (dimensions img) then 2 ^ (b - 1) - 1 else 2 ^ b - 1) /\
      m_windowWidthMin r = 1 /\
      m_windowWidthMax r = 2 ^ b /\
      m_windowCenterMin r <= m_windowCenterMax r /\
      m_windowCenterMax r - m_windowCenterMin r + 1 = m_windowWidthMax r
  else configureWindowLevelControls (Some img) ranges = None.
Proof.
  intros Hvalid Hrgb Hpal Hbits b.
  assert (Hb : 1 <= b <= 65535) by (subst b; case_decide; lia).
  unfold configureWindowLevelControls. rewrite Hvalid. simpl.
  rewrite !bool_decide_false by done. simpl. fold b.
  unfold int_shl_1.
  case_decide as Hsmall.
  - rewrite (decide_True (P := 0 <= b < 31)) by lia. simpl.
    assert (Hpow : 2 <= 2 ^ b <= 2 ^ 30).
    { split; [|apply Z.pow_le_mono_r; lia].
      change 2 with (2 ^ 1) at 1. apply Z.pow_le_mono_r; lia. }
    assert (Hhalf : 2 ^ b = 2 * 2 ^ (b - 1)).
    { rewrite <- Z.pow_succ_r by lia. f_equal. lia. }
    change (2 ^ 30) with 1073741824 in Hpow.
    unfold int_result, INT_MIN, INT_MAX.
    rewrite (decide_True (P := _ <= 2 ^ b - 1 <= _)) by lia. simpl.
    destruct (isSigned (dimensions img)).
    + rewrite (decide_True (P := 0 <= b - 1 < 31)) by lia. simpl.
      rewrite (decide_True (P := _ <= - 2 ^ (b - 1) <= _)) by lia. simpl.
      rewrite (decide_True (P := _ <= 2 ^ (b - 1) - 1 <= _)) by lia. simpl.
      rewrite (decide_True (P := _ <= 2 ^ b - 1 + 1 <= _)) by lia. simpl.
      eexists. split; [done|]. simpl. unfold kMinWindowWidth.
      split_and!; lia.
    + simpl.
      rewrite (decide_True (P := _ <= 2 ^ b - 1 + 1 <= _)) by lia. simpl.
      eexists. split; [done|]. simpl. unfold kMinWindowWidth.
      split_and!; lia.
  - rewrite (decide_False (P := 0 <= b < 31)) by lia.
    by destruct (decide (b = 31)) as [->|Hne].
Qed.

(** Witness of X14: twelve stored bits, unsigned. *)
Lemma slider_ranges_witness :
  exists r,
    configureWindowLevelControls
      (Some (mkDicomImage [0; 0] (mkDimensions 1 1 16 12 11 1 false) Monochrome2
               SWindowLevel_default SWindowLevel_default
               (Double.of_int 1) (Double.of_int 0) 16 false None))
      SliderRanges_new = Some (r, true) /\
    m_windowCenterMin r = 0 /\ m_windowCenterMax r = 4095 /\
    m_windowWidthMin r = 1 /\ m_windowWidthMax r = 4096 /\
    m_windowCenterMin r <= m_windowCenterMax r /\
    m_windowCenterMax r - m_windowCenterMin r + 1 = m_windowWidthMax r.
Proof.
  apply (slider_ranges
           (mkDicomImage [0; 0] (mkDimensions 1 1 16 12 11 1 false) Monochrome2
              SWindowLevel_default SWindowLevel_default
              (Double.of_int 1) (Double.of_int 0) 16 false None)
           SliderRanges_new).
  - reflexivity.
  - discriminate.
  - discriminate.
  - simpl. lia.
Defined.

(** X15.  [paletteIndex] returns the first position of the palette in the
    list of options, or [-1] when it is not listed; over
    [availablePalettes] it is never [-1] and equals the integer value of
    the enumerator. *)
Theorem paletteIndex_position (types : list EPaletteType) (type : EPaletteType) :
  let i := paletteIndex types type in
  ((i = -1 /\ type ∉ types) \/
   (0 <= i /\ types !! Z.to_nat i = Some type /\
    forall j, (j < Z.to_nat i)%nat -> types !! j <> Some type)) /\
  paletteIndex availablePalettes type = EPaletteType_to_int type.
Proof.
  split; [|by destruct type].
  unfold paletteIndex.
  assert (H : forall k, 0 <= k ->
            let i := paletteIndex_from types k type in
            (i = -1 /\ type ∉ types) \/
            (k <= i /\ types !! Z.to_nat (i - k) = Some type /\
             forall j, (j < Z.to_nat (i - k))%nat -> types !! j <> Some type)).
  { induction types as [|t types IH]; intros k Hk; simpl.
    - left. split; [done|]. apply not_elem_of_nil.
    - case_decide as Ht.
      + subst t. right. rewrite Z.sub_diag. simpl. split_and!; [lia|done|lia].
      + destruct (IH (k + 1) ltac:(lia)) as [[Hi Hn]|(Hi & Hl & Hj)].
        * left. split; [done|]. apply not_elem_of_cons. split; [done|done].
        * right. split; [lia|].
          replace (Z.to_nat (paletteIndex_from types (k + 1) type - k))
            with (S (Z.to_nat (paletteIndex_from types (k + 1) type - (k + 1))))
            by lia.
          split; [done|]. intros [|j] Hlt; simpl; [congruence|].
          apply Hj. lia. }
  specialize (H 0 ltac:(lia)). cbv zeta in H. by rewrite Z.sub_0_r in H.
Qed.

(** * More on the snapshot conversion *)

(** X16.  A non-null result has the width and height of the image, one
    scan line per row and one byte per pixel ([Grayscale8], for a
    monochrome image under the grayscale palette) or three ([RGB888], in
    all other cases). *)
Theorem toQImage_shape (conv : CImageConverter) (img : CDicomImage)
    (wl : SWindowLevel) (w h : Z) (format : QImageFormat)
    (scanLines : list (list Z)) :
  wf_dimensions (dimensions img) ->
  toQImage conv img wl = Some (QPixels w h format scanLines) ->
  w = dim_width (dimensions img) /\
  h = dim_height (dimensions img) /\
  format
  = (if bool_decide (photometricInterpretation img <> Rgb)
        && bool_decide (paletteType conv = Grayscale)
     then Format_Grayscale8 else Format_RGB888) /\
  Z.of_nat (length scanLines) = h /\
  Forall (λ row, Z.of_nat (length row) = bytesPerPixelOf format * w) scanLines.
Proof. apply toQImage_pixels_inv. Qed.


Lemma toQImage_shape_witness :
  2 = dim_width (dimensions rgb_2x2) /\
  2 = dim_height (dimensions rgb_2x2) /\
  Format_RGB888
  = (if bool_decide (photometricInterpretation rgb_2x2 <> Rgb)
        && bool_decide (paletteType (mkConverter grayscalePalette) = Grayscale)
     then Format_Grayscale8 else Format_RGB888) /\
  Z.of_nat (length [[10; 20; 30; 40; 50; 60]; [70; 80; 90; 100; 110; 120]]) = 2 /\
  Forall (λ row, Z.of_nat (length row) = bytesPerPixelOf Format_RGB888 * 2)
    [[10; 20; 30; 40; 50; 60]; [70; 80; 90; 100; 110; 120]].
Proof.
  apply (toQImage_shape (mkConverter grayscalePalette) rgb_2x2 wl_128_256).
  - split; simpl; unfold UINT32_MAX; lia.
  - vm_compute. reflexivity.
Defined.

Lemma filled_mapPixels (f : Z -> Z) (width height : Z) (format : QImageFormat)
    (written : bool) (scanLines : list (list Z)) :
  filled width height format written ((λ row : list Z, f <$> row) <$> scanLines)
  = mapPixels f <$> filled width height format written scanLines.
Proof. unfold filled. case_bool_decide; [by destruct written | done]. Qed.

Lemma buildWindowLevelLut_invert (wl : SWindowLevel) (minValue maxValue : Z) :
  Double.leb (width wl) (Double.of_int 0) = false ->
  buildWindowLevelLut wl minValue maxValue true
  = (λ lut : list Z, (λ v, 255 - v) <$> lut)
      <$> buildWindowLevelLut wl minValue maxValue false.
Proof.
  intros Hw. unfold buildWindowLevelLut.
  destruct (decide (maxValue < minValue)); cbv zeta;
    (case_decide; [done|]); rewrite Hw;
    (destruct (Double.div (width wl) _) as [half|]; [|done]); simpl;
    (destruct (Double.div _ (width wl)) as [scale|]; [|done]); simpl;
    rewrite <- mapM_fmap; apply mapM_ext_upto; intros i _;
    apply lutEntry_invert.
Qed.

Lemma grayScanLines_fmap (f : Z -> Z) (pixel : Z -> option Z) (w h : Z) :
  grayScanLines (λ i, f <$> pixel i) w h
  = (λ rows : list (list Z), (λ row : list Z, f <$> row) <$> rows)
      <$> grayScanLines pixel w h.
Proof.
  unfold grayScanLines. rewrite <- mapM_fmap.
  apply mapM_ext_upto. intros y _. cbv zeta. by rewrite <- mapM_fmap.
Qed.

Lemma grayScanLines_ext (p q : Z -> option Z) (w h : Z) :
  (forall i, p i = q i) -> grayScanLines p w h = grayScanLines q w h.
Proof.
  intros H. unfold grayScanLines. apply mapM_ext_upto. intros y _. cbv zeta.
  apply mapM_ext_upto. intros x _. apply H.
Qed.

(** X17.  Under the grayscale palette and a window of positive width, the
    conversion of a MONOCHROME1 image is, byte for byte, the complement
    [255 - v] of the conversion of the same data read as MONOCHROME2
    (and is null or undefined exactly when that one is). *)
Theorem monochrome1_is_complement (conv : CImageConverter) (img : CDicomImage)
    (wl : SWindowLevel) :
  paletteType conv = Grayscale ->
  Double.leb (width wl) (Double.of_int 0) = false ->
  toQImage conv (setPhotometricInterpretation img Monochrome1) wl
  = mapPixels (λ v, 255 - v)
      <$> toQImage conv (setPhotometricInterpretation img Monochrome2) wl.
Proof.
  intros Hpal Hw. unfold paletteType in Hpal.
  unfold toQImage, isValid, hasPixelData, photometricInterpretation.
  cbn [setPhotometricInterpretation m_pixelData m_dimensions
       m_photometricInterpretation].
  rewrite !(bool_decide_false (_ = Unknown)) by done.
  destruct (negb (_ && _ && _ && _)); [done|].
  unfold convertMonochrome, pixelData, dimensions, photometricInterpretation,
    bitsPerSample, isPixelSigned.
  cbn [setPhotometricInterpretation m_pixelData m_dimensions
       m_photometricInterpretation m_bitsPerSample m_pixelSigned].
  destruct (bool_decide (m_pixelData img = [])); [done|].
  destruct (bool_decide (_ < _)); [done|].
  rewrite (bool_decide_true (_ = Grayscale)) by done.
  rewrite (bool_decide_true (Monochrome1 = Monochrome1)) by done.
  rewrite (bool_decide_false (Monochrome2 = Monochrome1)) by done.
  destruct (sampleDomain _ _) as [mn mx].
  rewrite buildWindowLevelLut_invert by done.
  destruct (buildWindowLevelLut wl mn mx false) as [lut|]; [|done].
  cbn [fmap option_fmap option_map mbind option_bind negb].
  set (pix := if bool_decide (m_bitsPerSample img = 16)
              then windowed16 lut (m_pixelSigned img) (m_pixelData img) (- mn)
              else windowed8 lut (m_pixelData img)).
  rewrite (grayScanLines_ext _ (λ i, (λ v, 255 - v) <$> pix i)).
  - rewrite grayScanLines_fmap.
    destruct (grayScanLines _ _ _) as [rows|]; [|done].
    cbn [fmap option_fmap option_map mbind option_bind].
    apply filled_mapPixels.
  - intros i. subst pix. cbv beta.
    destruct (bool_decide (m_bitsPerSample img = 16)).
    + unfold windowed16.
      destruct (if m_pixelSigned img then _ else _); [|done].
      simpl. apply load_fmap.
    + unfold windowed8. destruct (load (m_pixelData img) i); [|done].
      simpl. apply load_fmap.
Qed.

Lemma monochrome1_is_complement_witness :
  toQImage (mkConverter grayscalePalette)
    (setPhotometricInterpretation mono1_2x1 Monochrome1) wl_128_256
  = mapPixels (λ v, 255 - v)
      <$> toQImage (mkConverter grayscalePalette)
            (setPhotometricInterpretation mono1_2x1 Monochrome2) wl_128_256.
Proof.
  apply (monochrome1_is_complement (mkConverter grayscalePalette) mono1_2x1
           wl_128_256).
  - reflexivity.
  - vm_compute. reflexivity.
Defined.

(** X18.  A window whose center is not a number, with a width that is
    not [<= 0], leaves no entry of the table defined: every entry is
    the conversion of a NaN to [uint8_t]. *)
Theorem nan_center_is_undefined (wl : SWindowLevel) (minValue maxValue : Z)
    (invert : bool) :
  is_nan (center wl) = true ->
  Double.leb (width wl) (Double.of_int 0) = false ->
  buildWindowLevelLut wl minValue maxValue invert = None.
Proof.
  intros Hnan Hw.
  destruct (center wl) eqn:Hc; try discriminate. clear Hnan.
  assert (Hentry : forall half scale raw,
            lutEntry (Double.sub S754_nan half) (Double.add S754_nan half)
              scale invert raw = None).
  { intros half scale raw. unfold lutEntry.
    assert (Hs : Double.sub S754_nan half = S754_nan) by (by destruct half).
    assert (Ha : Double.add S754_nan half = S754_nan) by (by destruct half).
    rewrite Hs, Ha.
    assert (Hl : Double.leb (Double.of_int raw) S754_nan = false)
      by (by destruct (Double.of_int raw)).
    assert (Hg : Double.geb (Double.of_int raw) S754_nan = false)
      by (by unfold Double.geb; destruct (Double.of_int raw)).
    rewrite Hl, Hg.
    assert (Hr : Double.sub (Double.of_int raw) S754_nan = S754_nan)
      by (by destruct (Double.of_int raw)).
    rewrite Hr.
    assert (Hm : Double.mul S754_nan scale = S754_nan) by (by destruct scale).
    by rewrite Hm. }
  rewrite buildWindowLevelLut_swap.
  unfold domainMin, domainMax.
  destruct (decide (Z.max minValue maxValue - Z.min minValue maxValue + 1
                    <= INT_MAX)) as [Hr|Hr].
  - rewrite buildWindowLevelLut_positive by (done || lia).
    apply (mapM_upto_None_intro _ _ 0); [lia|].
    cbv beta. rewrite Hc. apply Hentry.
  - unfold buildWindowLevelLut.
    rewrite (decide_False (P := Z.max _ _ < Z.min _ _)) by lia.
    by rewrite (decide_True (P := INT_MAX < _)) by lia.
Qed.

Lemma nan_center_is_undefined_witness :
  buildWindowLevelLut (mkWindowLevel S754_nan (Double.of_int 256)) 0 255 false
  = None.
Proof.
  apply nan_center_is_undefined.
  - reflexivity.
  - vm_compute. reflexivity.
Defined.

Lemma load_app_l {A} (data extra : list A) (i : Z) :
  i < Z.of_nat (length data) -> load (data ++ extra) i = load data i.
Proof.
  intros Hi. unfold load. case_decide; [|done]. apply lookup_app_l. lia.
Qed.

Lemma grayScanLines_ext_in (p q : Z -> option Z) (w h : Z) :
  0 <= w -> 0 <= h -> w * h < 2 ^ 64 ->
  (forall i, 0 <= i < w * h -> p i = q i) ->
  grayScanLines p w h = grayScanLines q w h.
Proof.
  intros Hw Hh Hwh H. unfold grayScanLines.
  apply mapM_ext_upto. intros y Hy. cbv zeta.
  apply mapM_ext_upto. intros x Hx.
  assert (0 <= y * w + x < w * h) by nia.
  rewrite (size_t_small (y * w)) by nia.
  rewrite size_t_small by lia. apply H. lia.
Qed.

Lemma rgbScanLines_ext_in (rgbLut : list (Z * Z * Z)) (p q : Z -> option Z)
    (w h : Z) :
  0 <= w -> 0 <= h -> w * h < 2 ^ 64 ->
  (forall i, 0 <= i < w * h -> p i = q i) ->
  rgbScanLines rgbLut p w h = rgbScanLines rgbLut q w h.
Proof.
  intros Hw Hh Hwh H. unfold rgbScanLines.
  apply mapM_ext_upto. intros y Hy. cbv zeta.
  f_equal. apply mapM_ext_upto. intros x Hx.
  assert (0 <= y * w + x < w * h) by nia.
  rewrite (size_t_small (y * w)) by nia.
  rewrite size_t_small by lia. by rewrite H by lia.
Qed.

Lemma monochromePixel_app (img : CDicomImage) (extra lut : list Z) (i : Z) :
  0 <= i ->
  (i + 1) * bytesPerPixel img <= Z.of_nat (length (pixelData img)) ->
  monochromePixel (setPixelData img (pixelData img ++ extra)) lut i
  = monochromePixel img lut i.
Proof.
  intros Hi Hlen. unfold monochromePixel, bytesPerPixel, bitsPerSample,
    isPixelSigned, pixelData in *.
  cbn [setPixelData m_pixelData m_bitsPerSample m_pixelSigned].
  destruct (bool_decide (m_bitsPerSample img = 16)).
  - unfold windowed16, load_int16, load_uint16.
    rewrite !load_app_l by lia. done.
  - unfold windowed8. by rewrite load_app_l by lia.
Qed.

(** X19.  Bytes after the declared size of the image ([width * height]
    samples of one or two bytes, or three bytes for RGB) have no effect
    on the conversion. *)
Theorem trailing_bytes_ignored (conv : CImageConverter) (img : CDicomImage)
    (wl : SWindowLevel) (extra : list Z) :
  wf_dimensions (dimensions img) ->
  declaredBytes img < 2 ^ 64 ->
  declaredBytes img <= Z.of_nat (length (pixelData img)) ->
  toQImage conv (setPixelData img (pixelData img ++ extra)) wl
  = toQImage conv img wl.
Proof.
  intros Hd Hlt Hlen.
  set (img' := setPixelData img (pixelData img ++ extra)).
  assert (Hd' : wf_dimensions (dimensions img')) by done.
  pose proof Hd as [Hw Hh].
  destruct (decide (0 < dim_width (dimensions img)
                    /\ 0 < dim_height (dimensions img))) as [[Hw0 Hh0]|Hz].
  2:{ unfold toQImage.
      assert (Hi : isValid img = false).
      { unfold isValid. fold (dimensions img).
        destruct (hasPixelData img); simpl; [|done].
        destruct (decide (dim_width (dimensions img) > 0)).
        - rewrite (bool_decide_true (dim_width _ > 0)) by done.
          rewrite (bool_decide_false (dim_height _ > 0)) by lia. done.
        - by rewrite (bool_decide_false (dim_width _ > 0)) by done. }
      assert (Hi' : isValid img' = false).
      { unfold isValid. change (m_dimensions img') with (dimensions img).
        destruct (hasPixelData img'); simpl; [|done].
        destruct (decide (dim_width (dimensions img) > 0)).
        - rewrite (bool_decide_true (dim_width _ > 0)) by done.
          rewrite (bool_decide_false (dim_height _ > 0)) by lia. done.
        - by rewrite (bool_decide_false (dim_width _ > 0)) by done. }
      by rewrite Hi, Hi'. }
  assert (Hwh : 0 < dim_width (dimensions img) * dim_height (dimensions img))
    by nia.
  assert (Hne : pixelData img <> []).
  { intros He. rewrite He in Hlen. simpl in Hlen.
    unfold declaredBytes, bytesPerPixel in Hlen.
    destruct (photometricInterpretation img); try case_bool_decide; lia. }
  assert (Hne' : pixelData img' <> []).
  { unfold img', pixelData in *. simpl. by destruct (m_pixelData img). }
  assert (Hv : isValid img' = isValid img).
  { unfold isValid, hasPixelData. fold (pixelData img) (pixelData img').
    rewrite (bool_decide_false (pixelData img' = [])) by done.
    by rewrite (bool_decide_false (pixelData img = [])) by done. }
  assert (Hp : photometricInterpretation img' = photometricInterpretation img)
    by done.
  unfold toQImage. rewrite Hv, Hp. clear Hp.
  destruct (isValid img); cbn [negb]; [|done].
  assert (Hmono : photometricInterpretation img <> Rgb ->
            convertMonochrome conv img' wl = convertMonochrome conv img wl).
  { intros Hpi.
    assert (Hb : dim_width (dimensions img) * dim_height (dimensions img)
                 * bytesPerPixel img < 2 ^ 64).
    { unfold declaredBytes in Hlt. by destruct (photometricInterpretation img). }
    assert (Hl : dim_width (dimensions img) * dim_height (dimensions img)
                 * bytesPerPixel img <= Z.of_nat (length (pixelData img))).
    { unfold declaredBytes in Hlen. by destruct (photometricInterpretation img). }
    rewrite !convertMonochrome_unfold by done.
    rewrite (bool_decide_false (pixelData img' = [])) by done.
    rewrite (bool_decide_false (pixelData img = [])) by done.
    change (dimensions img') with (dimensions img).
    change (bytesPerPixel img') with (bytesPerPixel img).
    change (imageLut img' wl) with (imageLut img wl).
    rewrite (bool_decide_false (Z.of_nat (length (pixelData img)) < _)) by lia.
    rewrite (bool_decide_false (Z.of_nat (length (pixelData img')) < _)).
    2:{ unfold img', pixelData. simpl. rewrite length_app.
        unfold pixelData in Hl. lia. }
    destruct (imageLut img wl) as [lut|]; [|done]. simpl.
    assert (Hbpp : 1 <= bytesPerPixel img)
      by (unfold bytesPerPixel; case_bool_decide; lia).
    assert (Hpix : forall i,
              0 <= i < dim_width (dimensions img) * dim_height (dimensions img) ->
              monochromePixel img' lut i = monochromePixel img lut i).
    { intros i Hi. apply monochromePixel_app; [lia|]. nia. }
    destruct (bool_decide (m_type (m_palette conv) = Grayscale)).
    - by rewrite (grayScanLines_ext_in _ (monochromePixel img lut)) by (done || lia).
    - by rewrite (rgbScanLines_ext_in _ _ (monochromePixel img lut))
        by (done || lia). }
  destruct (photometricInterpretation img) eqn:Hpi; try done;
    try (by apply Hmono).
  (* Rgb *)
  unfold declaredBytes in Hlt, Hlen. rewrite Hpi in Hlt, Hlen.
  unfold convertRgb.
  rewrite (bool_decide_false (pixelData img' = [])) by done.
  rewrite (bool_decide_false (pixelData img = [])) by done.
  change (dimensions img') with (dimensions img).
  rewrite (size_t_small (_ * dim_height _)) by lia.
  rewrite (size_t_small (_ * 3)) by lia.
  rewrite (size_t_small (dim_width _ * 3)) by nia.
  rewrite (bool_decide_false (Z.of_nat (length (pixelData img)) < _)) by lia.
  rewrite (bool_decide_false (Z.of_nat (length (pixelData img')) < _)).
  2:{ unfold img', pixelData. simpl. rewrite length_app.
      unfold pixelData in Hlen. lia. }
  f_equal. apply mapM_ext_upto. intros y Hy.
  assert (0 <= y * (dim_width (dimensions img) * 3)
          /\ y * (dim_width (dimensions img) * 3) + dim_width (dimensions img) * 3
             <= dim_width (dimensions img) * dim_height (dimensions img) * 3)
    by nia.
  rewrite size_t_small by lia.
  unfold memcpy, img', pixelData in *. simpl.
  rewrite decide_True by (rewrite length_app; lia).
  rewrite decide_True by lia.
  rewrite drop_app_le by lia.
  rewrite take_app_le; [done|]. rewrite length_drop. lia.
Qed.

Lemma trailing_bytes_ignored_witness :
  toQImage (mkConverter grayscalePalette)
    (setPixelData rgb_2x2 (pixelData rgb_2x2 ++ [1; 2; 3])) wl_128_256
  = toQImage (mkConverter grayscalePalette) rgb_2x2 wl_128_256.
Proof.
  apply (trailing_bytes_ignored (mkConverter grayscalePalette) rgb_2x2
           wl_128_256 [1; 2; 3]).
  - split; simpl; unfold UINT32_MAX; lia.
  - reflexivity.
  - vm_compute. discriminate.
Defined.

(** * Colour palettes *)

Lemma lut_ok_spec (lut : list lutColor) :
  lut_ok lut = true ->
  Z.of_nat (length lut) = 256 /\
  Forall (λ '(r, g, b), 0 <= r <= 255 /\ 0 <= g <= 255 /\ 0 <= b <= 255) lut.
Proof.
  unfold lut_ok. intros [Hlen Hall]%andb_prop.
  split; [by apply bool_decide_eq_true in Hlen|].
  clear Hlen. induction lut as [|[[r g] b] lut IH]; [constructor|].
  simpl in Hall. apply andb_prop in Hall as [H1 H2].
  constructor; [by apply bool_decide_eq_true in H1|by apply IH].
Qed.

Lemma generated_ok (type : EPaletteType) :
  type <> Bone ->
  exists lut, generateLut type = Some lut /\ lut_ok lut = true.
Proof.
  intros Hne.
  assert (H : forall o : option (list lutColor),
            (match o with Some lut => lut_ok lut | None => false end) = true ->
            exists lut, o = Some lut /\ lut_ok lut = true).
  { intros [lut|] Ho; [by exists lut|done]. }
  destruct type; try done; apply H; clear; vm_compute; reflexivity.
Qed.

Lemma defined_up_to_192 (f : Z -> option lutColor) (i : Z) :
  forallb (λ i, Bool.eqb (definedb (f i)) (i <=? 192)) (upto 256) = true ->
  0 <= i < 256 -> (is_Some (f i) <-> i <= 192).
Proof.
  intros Hall Hi.
  rewrite forallb_forall in Hall.
  specialize (Hall i). rewrite upto_seqZ in Hall.
  assert (Hin : In i (seqZ 0 256)).
  { apply list_elem_of_In, elem_of_seqZ. lia. }
  specialize (Hall Hin). apply Bool.eqb_prop in Hall.
  destruct (f i) as [c|]; simpl in Hall.
  + symmetry in Hall. apply Z.leb_le in Hall. split; [done|by eexists].
  + symmetry in Hall. apply Z.leb_gt in Hall. split; [by intros []|lia].
Qed.

(** X20.  Seven of the eight generators convert only values in
    [0, 256) to [uint8_t] and fill the table with 256 byte triples.
    [generateBone] does not: for every gray level from 193 to 255 its
    first assignments (overwritten afterwards) convert a value outside
    [0, 256), which C++ leaves undefined; for the levels 0 to 192 all its
    conversions are in range. *)
Theorem palette_generators (type : EPaletteType) (i : Z) :
  (type <> Bone ->
   exists lut,
     generateLut type = Some lut /\
     Z.of_nat (length lut) = 256 /\
     Forall (λ '(r, g, b), 0 <= r <= 255 /\ 0 <= g <= 255 /\ 0 <= b <= 255) lut) /\
  (0 <= i < 256 ->
   (is_Some (boneFirst (levelOf i)) <-> i <= 192) /\
   (is_Some (boneEntry i) <-> i <= 192)) /\
  generateLut Bone = None.
Proof.
  split_and!.
  - intros Hne. destruct (generated_ok type Hne) as (lut & Hg & Hok).
    exists lut. split; [done|]. by apply lut_ok_spec.
  - intros Hi. split.
    + apply (defined_up_to_192 (λ i, boneFirst (levelOf i))); [|done].
      clear. vm_compute. reflexivity.
    + apply (defined_up_to_192 boneEntry); [|done].
      clear. vm_compute. reflexivity.
  - clear. vm_compute. reflexivity.
Qed.

Lemma palette_generators_witness :
  (exists lut,
     generateLut Hot = Some lut /\
     Z.of_nat (length lut) = 256 /\
     Forall (λ '(r, g, b), 0 <= r <= 255 /\ 0 <= g <= 255 /\ 0 <= b <= 255) lut) /\
  (is_Some (boneEntry 200) <-> 200 <= 192).
Proof.
  destruct (palette_generators Hot 200) as (H1 & H2 & _).
  split; [apply H1; discriminate|apply H2; lia].
Defined.

(** X21.  A palette always holds the table of its type: the constructor
    builds it, and [setType] either rebuilds it for the new type or, for
    the type the palette already has, keeps it; the result is the
    palette a constructor call for that type gives. *)
Theorem palette_table_invariant (p p' : CColorPalette) (type : EPaletteType) :
  (CColorPalette_new type = Some p' -> palette_ok p' /\ m_type p' = type) /\
  (palette_ok p -> setType p type = Some p' ->
   palette_ok p' /\ m_type p' = type /\ CColorPalette_new type = Some p').
Proof.
  unfold palette_ok, CColorPalette_new, setType. split.
  - destruct (generateLut type) as [lut|] eqn:Hg; [|done].
    simpl. intros [= <-]. by simpl.
  - intros Hp. case_bool_decide as Hne.
    + destruct (generateLut type) as [lut|] eqn:Hg; [|done].
      simpl. intros [= <-]. by simpl.
    + intros [= <-]. subst type.
      rewrite Hp. simpl. by destruct p.
Qed.

Lemma palette_table_invariant_witness :
  palette_ok grayscalePalette /\ m_type grayscalePalette = Grayscale /\
  CColorPalette_new Grayscale = Some grayscalePalette.
Proof.
  apply (palette_table_invariant grayscalePalette grayscalePalette Grayscale).
  - vm_compute. reflexivity.
  - reflexivity.
Defined.

(** X22.  The grayscale palette maps a gray level to itself on the three
    channels and the inverted palette to its complement; they are the
    palettes [grayscalePalette] and [invertedPalette] used above. *)
Theorem grayscale_and_inverted_palette (g : Z) :
  0 <= g <= 255 ->
  CColorPalette_new Grayscale = Some grayscalePalette /\
  CColorPalette_new Inverted = Some invertedPalette /\
  mapRgb grayscalePalette g = (g, g, g) /\
  mapRgb invertedPalette g = (255 - g, 255 - g, 255 - g).
Proof.
  intros Hg. split_and!.
  - vm_compute. reflexivity.
  - vm_compute. reflexivity.
  - unfold mapRgb, grayscalePalette. cbn [m_lut].
    rewrite list_lookup_fmap, lookup_seqZ_lt by lia. cbn.
    by rewrite Z2Nat.id by lia.
  - unfold mapRgb, invertedPalette. cbn [m_lut].
    rewrite list_lookup_fmap, lookup_seqZ_lt by lia. cbn.
    by rewrite Z2Nat.id by lia.
Qed.

Lemma grayscale_and_inverted_palette_witness :
  mapRgb grayscalePalette 200 = (200, 200, 200) /\
  mapRgb invertedPalette 200 = (55, 55, 55).
Proof.
  destruct (grayscale_and_inverted_palette 200 ltac:(lia)) as (_ & _ & H1 & H2).
  split; [exact H1|exact H2].
Defined.

Lemma rgbRow_of_gray (rgbLut : list (Z * Z * Z)) (f : Z -> Z * Z * Z)
    (pixel : Z -> option Z) (l : list Z) :
  (forall i v, pixel i = Some v -> load rgbLut v = Some (f v)) ->
  (triples ←
     mapM (λ x, value ← pixel x;
                '(r, g, b) ← load rgbLut value; Some [r; g; b]) l;
   Some (concat triples))
  = (λ row : list Z, concat ((λ v, let '(r, g, b) := f v in [r; g; b]) <$> row))
      <$> mapM pixel l.
Proof.
  intros Hf. induction l as [|x l IH]; [done|].
  cbn [mapM]. destruct (pixel x) as [v|] eqn:Hv; [|done]. simpl.
  rewrite (Hf _ _ Hv). simpl. destruct (f v) as [[r g] b] eqn:Hfv. simpl.
  destruct (mapM _ l) as [triples|]; destruct (mapM pixel l) as [row|];
    simpl in *; rewrite ?Hfv; try done.
  injection IH as ->. done.
Qed.

Lemma rgbScanLines_of_gray (rgbLut : list (Z * Z * Z)) (f : Z -> Z * Z * Z)
    (pixel : Z -> option Z) (w h : Z) :
  (forall i v, pixel i = Some v -> load rgbLut v = Some (f v)) ->
  rgbScanLines rgbLut pixel w h
  = (λ rows : list (list Z),
       (λ row : list Z,
          concat ((λ v, let '(r, g, b) := f v in [r; g; b]) <$> row)) <$> rows)
      <$> grayScanLines pixel w h.
Proof.
  intros Hf. unfold rgbScanLines, grayScanLines.
  rewrite <- mapM_fmap. apply mapM_ext_upto. intros y _. cbv zeta.
  apply (rgbRow_of_gray rgbLut f (λ x, pixel (size_t (size_t (y * w) + x)))).
  intros i v. apply Hf.
Qed.

(** X23.  For every image and window, the conversion under a colour
    palette is the conversion under the grayscale palette with each gray
    byte replaced by the three bytes the palette holds for it (and it is
    null or undefined exactly when that one is). *)
Theorem palette_output_is_mapped_gray (gray conv : CImageConverter)
    (img : CDicomImage) (wl : SWindowLevel) :
  paletteType gray = Grayscale ->
  paletteType conv <> Grayscale ->
  toQImage conv img wl = applyPalette (m_palette conv) <$> toQImage gray img wl.
Proof.
  unfold paletteType. intros Hg Hc. unfold toQImage.
  destruct (isValid img); simpl; [|done].
  assert (Hmono : convertMonochrome conv img wl
                  = applyPalette (m_palette conv) <$> convertMonochrome gray img wl).
  { unfold convertMonochrome.
    destruct (bool_decide (pixelData img = [])); [done|].
    destruct (bool_decide (_ < _)); [done|].
    rewrite (bool_decide_true (m_type (m_palette gray) = Grayscale)) by done.
    rewrite (bool_decide_false (m_type (m_palette conv) = Grayscale)) by done.
    destruct (sampleDomain _ _) as [mn mx].
    destruct (buildWindowLevelLut wl mn mx _) as [lut|] eqn:Hlut; [|done].
    cbn [mbind option_bind negb].
    apply buildWindowLevelLut_bytes in Hlut.
    set (pix := if bool_decide (bitsPerSample img = 16)
                then windowed16 lut (isPixelSigned img) (pixelData img) (- mn)
                else windowed8 lut (pixelData img)).
    rewrite (rgbScanLines_of_gray _ (mapRgb (m_palette conv)) pix).
    - destruct (grayScanLines pix _ _) as [rows|]; [|done].
      cbn [fmap option_fmap option_map mbind option_bind].
      unfold filled. case_bool_decide; [|done].
      by destruct (bool_decide (0 < _ /\ 0 < _)).
    - intros i v Hv.
      assert (Hb : 0 <= v <= 255).
      { subst pix. destruct (bool_decide (bitsPerSample img = 16)).
        - unfold windowed16 in Hv.
          destruct (if isPixelSigned img then _ else _); [|done].
          simpl in Hv. eapply load_wf_bytes; [exact Hlut|exact Hv].
        - unfold windowed8 in Hv. destruct (load (pixelData img) i); [|done].
          simpl in Hv. eapply load_wf_bytes; [exact Hlut|exact Hv]. }
      rewrite load_fmap, load_upto by lia. simpl.
      unfold uint8_t. by rewrite Z.mod_small by lia. }
  destruct (photometricInterpretation img); try done.
  unfold convertRgb.
  destruct (bool_decide (pixelData img = [])); [done|].
  destruct (bool_decide (_ < _)); [done|].
  destruct (mapM _ _) as [rows|]; [|done].
  cbn [mbind option_bind]. unfold filled. case_bool_decide; [|done].
  by destruct (bool_decide (0 < _)).
Qed.

Lemma palette_output_is_mapped_gray_witness :
  toQImage (mkConverter invertedPalette) mono1_2x1 wl_128_256
  = applyPalette invertedPalette
      <$> toQImage (mkConverter grayscalePalette) mono1_2x1 wl_128_256.
Proof.
  apply (palette_output_is_mapped_gray (mkConverter grayscalePalette)
           (mkConverter invertedPalette) mono1_2x1 wl_128_256).
  - reflexivity.
  - discriminate.
Defined.

(** * The table and the conversion are defined *)

(** X24.  For every window whose centre lies within [-2^40, 2^40] and
    whose width lies within [1, 2^40], and every domain of at most
    [INT_MAX] values, given in either order, [buildWindowLevelLut] runs
    without undefined behaviour: it returns a table with one entry per
    value of the domain, each entry a byte. *)
Theorem window_table_defined (wl : SWindowLevel) (minValue maxValue : Z)
    (inv : bool) :
  window_in_range wl = true ->
  domainMax minValue maxValue - domainMin minValue maxValue + 1 <= INT_MAX ->
  exists lut,
    buildWindowLevelLut wl minValue maxValue inv = Some lut /\
    Z.of_nat (length lut)
    = domainMax minValue maxValue - domainMin minValue maxValue + 1 /\
    Forall (λ v, 0 <= v <= 255) lut.
Proof.
  intros Hwl Hr.
  destruct (buildWindowLevelLut_defined wl minValue maxValue inv Hwl Hr)
    as [lut Hlut].
  exists lut. split; [done|]. split.
  - rewrite (buildWindowLevelLut_length _ _ _ _ _ Hlut).
    unfold domainMin, domainMax. lia.
  - exact (buildWindowLevelLut_bytes _ _ _ _ _ Hlut).
Qed.

Lemma window_table_defined_witness :
  exists lut,
    buildWindowLevelLut (mkWindowLevel (Double.of_int 40) (Double.of_int 400))
      (-32768) 32767 true = Some lut /\
    Z.of_nat (length lut)
    = domainMax (-32768) 32767 - domainMin (-32768) 32767 + 1 /\
    Forall (λ v, 0 <= v <= 255) lut.
Proof.
  apply (window_table_defined
           (mkWindowLevel (Double.of_int 40) (Double.of_int 400))
           (-32768) 32767 true).
  - vm_compute. reflexivity.
  - vm_compute. discriminate.
Defined.

(** X25.  [toQImage] runs without undefined behaviour on every image
    whose bytes and dimensions are well formed, whose sides fit in [int]
    and whose pixel count times three fits in [size_t], for every window
    whose centre lies within [-2^40, 2^40] and whose width lies within
    [1, 2^40]: it returns an image, the null image included.  With a side
    beyond [INT_MAX] it is undefined on every valid image that has its
    declared bytes and is not PALETTE COLOR: the [QImage] it builds is
    null, and the loop stores through the null pointer of its
    [scanLine]. *)
Theorem toQImage_defined (conv : CImageConverter) (img : CDicomImage)
    (wl : SWindowLevel) :
  wf_image img ->
  dim_width (dimensions img) * dim_height (dimensions img) * 3 < 2 ^ 64 ->
  window_in_range wl = true ->
  (int_dimensions (dimensions img) -> is_Some (toQImage conv img wl)) /\
  (~ int_dimensions (dimensions img) ->
   isValid img = true ->
   declaredBytes img <= Z.of_nat (length (pixelData img)) ->
   photometricInterpretation img <> PaletteColor ->
   toQImage conv img wl = None).
Proof.
  intros Hwf Hsize Hwl. split.
  - intros Hint. by apply toQImage_is_Some.
  - intros Hint Hvalid Hlen Hpi. pose proof Hwf as [Hb Hd].
    by apply toQImage_beyond_int.
Qed.

Lemma toQImage_defined_witness :
  wf_image mono2_s16_2x2 /\
  is_Some (toQImage (mkConverter invertedPalette) mono2_s16_2x2
             wl_32768_65536).
Proof.
  assert (Hwf : wf_image mono2_s16_2x2).
  { split; [|split; vm_compute; split; discriminate].
    repeat constructor; discriminate. }
  split; [exact Hwf|].
  apply (toQImage_defined (mkConverter invertedPalette) mono2_s16_2x2
           wl_32768_65536 Hwf).
  - reflexivity.
  - vm_compute. reflexivity.
  - split; vm_compute; discriminate.
Defined.

(** * Zoom limits of the viewer *)

Lemma ltb_true_not_nan (x y : spec_float) :
  SFltb x y = true -> is_nan x = false /\ is_nan y = false.
Proof. by destruct x, y. Qed.

Lemma double_ltb (x y : double) :
  Double.valid x = true -> Double.valid y = true ->
  is_nan x = false -> is_nan y = false ->
  Double.ltb x y = bool_decide (dext x < dext y).
Proof.
  intros Vx Vy Nx Ny. unfold Double.ltb, SFltb.
  rewrite (compare_ext Double.prec Double.emax binary64_prec binary64_emax)
    by done.
  destruct (Z.compare_spec (dext x) (dext y)).
  - by rewrite bool_decide_false by lia.
  - by rewrite bool_decide_true by lia.
  - by rewrite bool_decide_false by lia.
Qed.

Lemma double_div_valid (x y : double) :
  Double.valid x = true -> Double.valid y = true ->
  Double.valid (quotient x y) = true.
Proof.
  intros Vx Vy. unfold quotient.
  destruct x as [sx|sx| |sx mx ex], y as [sy|sy| |sy my ey]; try done.
  cbn [SFdiv].
  pose proof (div_core_ready Double.prec Double.emax binary64_prec mx my ex ey)
    as Hready.
  destruct (SFdiv_core_binary Double.prec Double.emax (Z.pos mx) ex
              (Z.pos my) ey) as [[q e] l].
  destruct Hready as [Hq He].
  destruct (binary_round_aux_fit Double.prec Double.emax binary64_prec
              (xorb sx sy) q e l Hq He) as (M & Hfit & ->).
  by apply pack_props.
Qed.

Lemma double_mul_mono (x1 x2 k : double) :
  Double.valid x1 = true -> Double.valid x2 = true -> Double.valid k = true ->
  is_finite x1 = true -> is_finite x2 = true -> is_finite k = true ->
  sign_clear x1 = true -> sign_clear x2 = true -> sign_clear k = true ->
  dext x1 <= dext x2 ->
  dext (Double.mul x1 k) <= dext (Double.mul x2 k).
Proof.
  intros V1 V2 Vk F1 F2 Fk S1 S2 Sk Hle.
  destruct (mul_finite Double.prec Double.emax binary64_prec binary64_emax
              x1 k V1 Vk F1 Fk S1 Sk) as (_ & _ & _ & E1).
  destruct (mul_finite Double.prec Double.emax binary64_prec binary64_emax
              x2 k V2 Vk F2 Fk S2 Sk) as (_ & _ & _ & E2).
  unfold Double.mul. rewrite E1, E2.
  pose proof (sign_clear_ext x1 S1). pose proof (sign_clear_ext k Sk).
  apply (mext_mono Double.prec Double.emax binary64_prec binary64_emax).
  split; [apply Z.mul_nonneg_nonneg; lia|].
  apply Z.mul_le_mono_nonneg_r; lia.
Qed.

(** The quotient of a value of at most [10] by a divisor of at least
    [1.1] is at most [10]. *)
Lemma quotient_at_most_ten (B U Z K Q : Z) :
  B = 2 ^ 53 -> 2 ^ 64 <= U ->
  0 <= Q -> Z <= 10 * U -> 11 * U <= 10 * K ->
  (B - 2) * (Q * K) <= B * (Z * U + K) ->
  Q <= 10 * U.
Proof.
  intros HB HU HQ HZ HK Hq.
  change (2 ^ 53) with 9007199254740992 in HB. subst B.
  change (2 ^ 64) with 18446744073709551616 in HU.
  destruct (decide (Q <= 10 * U)) as [|Hgt]; [done|exfalso].
  assert (H1 : (10 * U + 1) * K <= Q * K).
  { apply Z.mul_le_mono_nonneg_r; lia. }
  assert (H2 : Z * U <= 10 * U * U).
  { apply Z.mul_le_mono_nonneg_r; lia. }
  assert (H3 : 11 * U * U <= 10 * K * U).
  { apply Z.mul_le_mono_nonneg_r; lia. }
  assert (H4 : 2 * K <= U * K).
  { apply Z.mul_le_mono_nonneg_r; lia. }
  assert (H5 : 18446744073709551616 * U <= U * U).
  { apply Z.mul_le_mono_nonneg_r; lia. }
  replace ((10 * U + 1) * K) with (10 * (U * K) + K) in H1 by ring.
  replace (10 * U * U) with (10 * (U * U)) in H2 by ring.
  replace (11 * U * U) with (11 * (U * U)) in H3 by ring.
  replace (10 * K * U) with (10 * (U * K)) in H3 by ring.
  lia.
Qed.

Lemma decimal_1_1 : decimal 1 1 = S754_finite false 7205759403792794 (-56).
Proof. by vm_compute. Qed.

Lemma decimal_12_1 : decimal 12 1 = S754_finite false 5404319552844595 (-52).
Proof. by vm_compute. Qed.

Lemma decimal_115_2 : decimal 115 2 = S754_finite false 5179139571476070 (-52).
Proof. by vm_compute. Qed.

Lemma dext_finite (s : bool) (m : positive) (e : Z) :
  dext (S754_finite s m e) = cond_Zopp s (Z.pos m * 2 ^ (e + 1074)).
Proof. reflexivity. Qed.

Lemma zoom_in_range_inv (z : double) :
  zoom_in_range z = true ->
  Double.valid z = true /\
  7205759403792794 * 2 ^ 1018 <= dext z <= 10 * 2 ^ 1074 /\
  exists m e, z = S754_finite false m e.
Proof.
  unfold zoom_in_range. rewrite !andb_true_iff. intros [[Vz H1] H2].
  destruct (leb_true_not_nan _ _ H1) as [_ Nz].
  destruct (of_int_props 10) as (V10 & N10 & _).
  rewrite decimal_1_1 in H1.
  rewrite double_leb in H1, H2 by done.
  apply bool_decide_eq_true in H1, H2.
  rewrite dext_of_int_small in H2 by done.
  rewrite dext_finite in H1. cbn [cond_Zopp] in H1.
  change (-56 + 1074) with 1018 in H1.
  split; [done|]. split; [done|].
  apply positive_finite_shape; [done|].
  assert (0 < 2 ^ 1018) by (apply pow2_pos; lia).
  assert (10 * 2 ^ 1074 < 2 ^ 2098).
  { assert (10 * 2 ^ 1074 < 2 ^ 4 * 2 ^ 1074).
    { apply Z.mul_lt_mono_pos_r; [apply pow2_pos|]; lia. }
    assert (2 ^ 4 * 2 ^ 1074 <= 2 ^ 2098); [|lia].
    rewrite <- pow2_split by lia. apply pow2_le. lia. }
  lia.
Qed.

Lemma zoom_in_range_intro (z : double) :
  Double.valid z = true -> is_nan z = false ->
  7205759403792794 * 2 ^ 1018 <= dext z <= 10 * 2 ^ 1074 ->
  zoom_in_range z = true.
Proof.
  intros Vz Nz [H1 H2]. unfold zoom_in_range.
  destruct (of_int_props 10) as (V10 & N10 & _).
  rewrite Vz, decimal_1_1, !double_leb by done.
  rewrite dext_of_int_small by done.
  rewrite dext_finite. cbn [cond_Zopp]. change (-56 + 1074) with 1018.
  by rewrite !bool_decide_true by lia.
Qed.

(** One step up: the product by a factor [k >= 1] stays above [0.1]. *)
Lemma zoom_step_up (z k : double) :
  zoom_in_range z = true ->
  Double.valid k = true -> is_finite k = true -> sign_clear k = true ->
  Double.leb (decimal 1 1) (Double.mul (decimal 1 1) k) = true ->
  Double.valid (Double.mul z k) = true /\
  is_nan (Double.mul z k) = false /\
  7205759403792794 * 2 ^ 1018 <= dext (Double.mul z k).
Proof.
  intros (Vz & [Hlo Hhi] & mz & ez & ->)%zoom_in_range_inv Vk Fk Sk Hk.
  destruct (mul_finite Double.prec Double.emax binary64_prec binary64_emax
              (S754_finite false mz ez) k Vz Vk eq_refl Fk eq_refl Sk)
    as (V & N & _ & _).
  split; [done|]. split; [done|].
  rewrite decimal_1_1 in Hk.
  assert (V01 : Double.valid (S754_finite false 7205759403792794 (-56)) = true)
    by reflexivity.
  destruct (mul_finite Double.prec Double.emax binary64_prec binary64_emax
              (S754_finite false 7205759403792794 (-56)) k V01 Vk
              eq_refl Fk eq_refl Sk) as (V' & N' & _ & _).
  rewrite double_leb in Hk by done. apply bool_decide_eq_true in Hk.
  pose proof (double_mul_mono (S754_finite false 7205759403792794 (-56))
                (S754_finite false mz ez) k V01 Vz Vk eq_refl eq_refl Fk
                eq_refl eq_refl Sk) as Hmono.
  rewrite dext_finite in Hk, Hmono. cbn [cond_Zopp] in Hk, Hmono.
  change (-56 + 1074) with 1018 in Hk, Hmono.
  specialize (Hmono Hlo). lia.
Qed.

(** One step down: the quotient by a divisor [k >= 1.1] stays below [10]. *)
Lemma zoom_step_down (z : double) (mk : positive) (ek : Z) :
  zoom_in_range z = true ->
  Double.valid (S754_finite false mk ek) = true ->
  11 * 2 ^ 1074 <= 10 * dext (S754_finite false mk ek) ->
  Double.valid (quotient z (S754_finite false mk ek)) = true /\
  is_nan (quotient z (S754_finite false mk ek)) = false /\
  0 <= dext (quotient z (S754_finite false mk ek)) <= 10 * 2 ^ 1074.
Proof.
  intros (Vz & [Hlo Hhi] & mz & ez & ->)%zoom_in_range_inv Vk Hk.
  destruct (double_div_positive mz mk ez ek Vz Vk) as (V & N & _ & H0 & Hq).
  cbv zeta in V, N, H0, Hq. unfold quotient.
  split; [done|]. split; [done|]. split; [done|].
  apply (quotient_at_most_ten (2 ^ 53) (2 ^ 1074)
           (dext (S754_finite false mz ez))
           (dext (S754_finite false mk ek))); done.
Qed.

Lemma fitScale_valid (img : option CDicomImage) (rot : Z) (widget : QSize) :
  Double.valid (fitScale img rot widget) = true.
Proof.
  unfold fitScale.
  destruct (negb (hasImage img)); [by vm_compute|].
  destruct (QSize_isEmpty _); [by vm_compute|].
  unfold std_min. destruct (Double.ltb _ _);
    apply double_div_valid; apply of_int_props.
Qed.

(** X26.  The zoom factor stays a binary64 number between [0.1] and [10]
    under every handler that changes it: the zoom buttons, the
    actual-size and fit commands and the mouse wheel. *)
Theorem zoom_stays_in_range (img : option CDicomImage) (rot : Z)
    (widget : QSize) (pan : QPointF) (dy : Z) (z : double) :
  zoom_in_range z = true ->
  zoom_in_range (zoomIn img z) = true /\
  zoom_in_range (zoomOut img z) = true /\
  zoom_in_range (zoomActualSize img rot widget z) = true /\
  zoom_in_range (zoomToFit img z pan).1 = true /\
  zoom_in_range (wheelEvent img z pan dy).1 = true.
Proof.
  intros Hz.
  assert (V8 : Double.valid (Double.of_int 8) = true) by apply of_int_props.
  assert (N8 : is_nan (Double.of_int 8) = false) by apply of_int_props.
  assert (V10 : Double.valid (Double.of_int 10) = true) by apply of_int_props.
  assert (N10 : is_nan (Double.of_int 10) = false) by apply of_int_props.
  assert (V01 : Double.valid (decimal 1 1) = true) by (by vm_compute).
  assert (N01 : is_nan (decimal 1 1) = false) by (by vm_compute).
  assert (E01 : dext (decimal 1 1) = 7205759403792794 * 2 ^ 1018).
  { by rewrite decimal_1_1. }
  assert (E8 : dext (Double.of_int 8) = 8 * 2 ^ 1074)
    by (by apply dext_of_int_small).
  assert (E10 : dext (Double.of_int 10) = 10 * 2 ^ 1074)
    by (by apply dext_of_int_small).
  assert (HU : 0 < 2 ^ 1074) by (apply pow2_pos; lia).
  assert (R8 : zoom_in_range (Double.of_int 8) = true) by (by vm_compute).
  assert (R10 : zoom_in_range (Double.of_int 10) = true) by (by vm_compute).
  assert (R01 : zoom_in_range (decimal 1 1) = true) by (by vm_compute).
  assert (R1 : zoom_in_range (Double.of_int 1) = true) by (by vm_compute).
  repeat split.
  - (* zoomIn *)
    unfold zoomIn. destruct (negb (hasImage img)); [done|].
    unfold std_min, kMaxZoom, kZoomStep. rewrite decimal_12_1.
    destruct (zoom_step_up z (S754_finite false 5404319552844595 (-52)) Hz
                eq_refl eq_refl eq_refl ltac:(by vm_compute))
      as (V & N & Hlo).
    destruct (Double.ltb _ _) eqn:Cmp; [|done].
    rewrite double_ltb in Cmp by done. apply bool_decide_eq_true in Cmp.
    apply zoom_in_range_intro; [done | done | lia].
  - (* zoomOut *)
    unfold zoomOut. destruct (negb (hasImage img)); [done|].
    unfold Double.max, kMinZoom, kZoomStep. rewrite decimal_12_1.
    destruct (zoom_step_down z 5404319552844595 (-52) Hz eq_refl
                ltac:(vm_compute; discriminate)) as (V & N & Hhi).
    destruct (Double.ltb _ _) eqn:Cmp; [|done].
    rewrite double_ltb in Cmp by done. apply bool_decide_eq_true in Cmp.
    apply zoom_in_range_intro; [done | done | lia].
  - (* zoomActualSize *)
    unfold zoomActualSize. destruct (negb (hasImage img)); [done|].
    destruct (Double.leb _ _); [done|].
    unfold Double.max, std_min, kMinZoom, kMaxZoom.
    set (q := quotient (Double.of_int 1) (fitScale img rot widget)).
    assert (Vq : Double.valid q = true).
    { apply double_div_valid; [apply of_int_props | apply fitScale_valid]. }
    destruct (Double.ltb q (Double.of_int 8)) eqn:Cmp1.
    + destruct (Double.ltb (decimal 1 1) q) eqn:Cmp2; [|done].
      destruct (ltb_true_not_nan _ _ Cmp1) as [Nq _].
      rewrite double_ltb in Cmp1, Cmp2 by done.
      apply bool_decide_eq_true in Cmp1, Cmp2.
      apply zoom_in_range_intro; [done | done | lia].
    + by destruct (Double.ltb (decimal 1 1) (Double.of_int 8)).
  - (* zoomToFit *)
    unfold zoomToFit. by destruct (negb (hasImage img)).
  - (* wheelEvent *)
    unfold wheelEvent. destruct img as [img|]; [|done]. cbn [fst].
    rewrite decimal_115_2.
    destruct (decide (dy > 0)); [|destruct (decide (dy < 0)); [|done]].
    + unfold std_min.
      destruct (zoom_step_up z (S754_finite false 5179139571476070 (-52)) Hz
                  eq_refl eq_refl eq_refl ltac:(by vm_compute))
        as (V & N & Hlo).
      destruct (Double.ltb _ _) eqn:Cmp; [done|].
      rewrite double_ltb in Cmp by done. apply bool_decide_eq_false in Cmp.
      apply zoom_in_range_intro; [done | done | lia].
    + unfold Double.max.
      destruct (zoom_step_down z 5179139571476070 (-52) Hz eq_refl
                  ltac:(vm_compute; discriminate)) as (V & N & Hhi).
      destruct (Double.ltb _ _) eqn:Cmp; [done|].
      rewrite double_ltb in Cmp by done. apply bool_decide_eq_false in Cmp.
      apply zoom_in_range_intro; [done | done | lia].
Qed.

Lemma zoom_stays_in_range_witness :
  zoom_in_range (Double.of_int 1) = true /\
  zoom_in_range (zoomIn (Some mono1_2x1) (Double.of_int 1)) = true /\
  zoom_in_range (zoomOut (Some mono1_2x1) (Double.of_int 1)) = true /\
  zoom_in_range
    (zoomActualSize (Some mono1_2x1) 90 (mkSize 640 480) (Double.of_int 1))
  = true /\
  zoom_in_range (zoomToFit (Some mono1_2x1) (Double.of_int 1) QPointF_null).1
  = true /\
  zoom_in_range
    (wheelEvent (Some mono1_2x1) (Double.of_int 1) QPointF_null 120).1 = true.
Proof.
  split; [by vm_compute|].
  apply (zoom_stays_in_range (Some mono1_2x1) 90 (mkSize 640 480)
           QPointF_null 120 (Double.of_int 1)).
  by vm_compute.
Defined.

(** X27.  The wheel lets the zoom factor grow up to [10], the Zoom In
    button only up to [8]: on an image shown at a zoom factor above [8]
    (and at most [10]) [zoomIn] sets the factor to exactly [8], so the
    button zooms out. *)
Theorem zoomIn_above_eight (img : option CDicomImage) (z : double) :
  hasImage img = true ->
  Double.valid z = true ->
  Double.ltb (Double.of_int 8) z = true ->
  Double.leb z (Double.of_int 10) = true ->
  zoomIn img z = Double.of_int 8 /\
  Double.ltb (zoomIn img z) z = true.
Proof.
  intros Himg Vz H8 H10.
  assert (V8 : Double.valid (Double.of_int 8) = true) by apply of_int_props.
  assert (N8 : is_nan (Double.of_int 8) = false) by apply of_int_props.
  assert (V10 : Double.valid (Double.of_int 10) = true) by apply of_int_props.
  assert (N10 : is_nan (Double.of_int 10) = false) by apply of_int_props.
  destruct (ltb_true_not_nan _ _ H8) as [_ Nz].
  pose proof H8 as H8'.
  rewrite double_ltb in H8' by done. apply bool_decide_eq_true in H8'.
  rewrite double_leb in H10 by done. apply bool_decide_eq_true in H10.
  rewrite dext_of_int_small in H8', H10 by done.
  assert (HU : 0 < 2 ^ 1074) by (apply pow2_pos; lia).
  assert (Hz : zoom_in_range z = true).
  { apply zoom_in_range_intro; [done | done |].
    assert (7205759403792794 * 2 ^ 1018 <= 8 * 2 ^ 1074)
      by (vm_compute; discriminate).
    lia. }
  destruct (zoom_in_range_inv z Hz) as (_ & _ & mz & ez & ->).
  assert (Hin : zoomIn img (S754_finite false mz ez) = Double.of_int 8).
  { unfold zoomIn. rewrite Himg. cbn [negb].
    unfold std_min, kMaxZoom, kZoomStep. rewrite decimal_12_1.
    destruct (zoom_step_up (S754_finite false mz ez)
                (S754_finite false 5404319552844595 (-52)) Hz
                eq_refl eq_refl eq_refl ltac:(by vm_compute))
      as (V & N & _).
    pose proof (double_mul_mono (Double.of_int 8) (S754_finite false mz ez)
                  (S754_finite false 5404319552844595 (-52))
                  V8 Vz eq_refl eq_refl eq_refl eq_refl eq_refl eq_refl
                  eq_refl) as Hmono.
    rewrite dext_of_int_small in Hmono by done.
    specialize (Hmono ltac:(lia)).
    assert (H96 : 8 * 2 ^ 1074
                  <= dext (Double.mul (Double.of_int 8)
                             (S754_finite false 5404319552844595 (-52))))
      by (vm_compute; discriminate).
    rewrite double_ltb by done.
    rewrite dext_of_int_small by done.
    by rewrite bool_decide_false by lia. }
  by rewrite Hin.
Qed.

Lemma zoomIn_above_eight_witness :
  (wheelEvent (Some mono1_2x1) (Double.of_int 8) QPointF_null 120).1
  = decimal 92 1 /\
  zoomIn (Some mono1_2x1) (decimal 92 1) = Double.of_int 8 /\
  Double.ltb (zoomIn (Some mono1_2x1) (decimal 92 1)) (decimal 92 1) = true.
Proof.
  split; [by vm_compute|].
  apply (zoomIn_above_eight (Some mono1_2x1) (decimal 92 1)); by vm_compute.
Defined.

(** * The window/level sliders show what was set *)

(** A finite datum whose value is the integer [v] truncates to [v]. *)
Lemma trunc_integer (x : double) (v : Z) :
  Double.valid x = true -> is_finite x = true ->
  dext x = v * 2 ^ 1074 -> Double.trunc x = Some v.
Proof.
  intros Vx Fx Hx.
  assert (HU : 0 < 2 ^ 1074) by (apply pow2_pos; lia).
  destruct x as [s|s| |s m e]; try done.
  - cbn [ext] in Hx. cbn [Double.trunc]. f_equal. lia.
  - pose proof (valid_exponent Double.prec Double.emax binary64_prec s m e Vx)
      as He.
    change (emin Double.prec Double.emax) with (-1074) in He.
    rewrite dext_finite in Hx. cbn [Double.trunc]. f_equal.
    assert (Hm : Z.pos m * 2 ^ (e + 1074) = cond_Zopp s v * 2 ^ 1074).
    { destruct s; cbn [cond_Zopp] in *; lia. }
    assert (Hgoal : Z.pos m ≪ e = cond_Zopp s v).
    { destruct (decide (0 <= e)) as [Hpos|Hneg].
      - rewrite Z.shiftl_mul_pow2 by lia.
        rewrite pow2_split, Z.mul_assoc in Hm by lia.
        by apply Z.mul_cancel_r in Hm; [|lia].
      - rewrite Z.shiftl_div_pow2 by lia.
        assert (Hp : 0 < 2 ^ (- e)) by (apply pow2_pos; lia).
        assert (Hk : 0 < 2 ^ (e + 1074)) by (apply pow2_pos; lia).
        replace (2 ^ 1074) with (2 ^ (- e) * 2 ^ (e + 1074)) in Hm.
        2:{ rewrite <- pow2_split by lia. f_equal. lia. }
        rewrite Z.mul_assoc in Hm.
        apply Z.mul_cancel_r in Hm; [|lia].
        rewrite Hm. by rewrite Z.div_mul by lia. }
    rewrite Hgoal. by destruct s; cbn [cond_Zopp]; lia.
Qed.

(** [std::round] leaves an integer as it is. *)
Lemma std_round_integer (x : double) (v : Z) :
  Double.valid x = true -> is_finite x = true -> Z.abs v < 2 ^ 53 ->
  dext x = v * 2 ^ 1074 ->
  Double.valid (std_round x) = true /\
  is_finite (std_round x) = true /\
  dext (std_round x) = v * 2 ^ 1074.
Proof.
  intros Vx Fx Hv Hx.
  assert (HU : 0 < 2 ^ 1074) by (apply pow2_pos; lia).
  destruct x as [s|s| |s m e]; try done.
  cbn [std_round]. destruct (decide (0 <= e)) as [Hpos|Hneg]; [done|].
  pose proof (valid_exponent Double.prec Double.emax binary64_prec s m e Vx)
    as He.
  change (emin Double.prec Double.emax) with (-1074) in He.
  rewrite dext_finite in Hx.
  assert (Hm : Z.pos m * 2 ^ (e + 1074) = cond_Zopp s v * 2 ^ 1074).
  { destruct s; cbn [cond_Zopp] in *; lia. }
  assert (Hp : 0 < 2 ^ (- e)) by (apply pow2_pos; lia).
  assert (Hk : 0 < 2 ^ (e + 1074)) by (apply pow2_pos; lia).
  replace (2 ^ 1074) with (2 ^ (- e) * 2 ^ (e + 1074)) in Hm.
  2:{ rewrite <- pow2_split by lia. f_equal. lia. }
  rewrite Z.mul_assoc in Hm. apply Z.mul_cancel_r in Hm; [|lia].
  assert (Hhalf : 0 < 2 ^ (- e - 1) < 2 ^ (- e)).
  { split; [apply pow2_pos; lia | apply pow2_lt; lia]. }
  assert (Hq : (Z.pos m + 2 ^ (- e - 1)) / 2 ^ (- e) = cond_Zopp s v).
  { rewrite Hm, Z.add_comm, Z.div_add by lia.
    rewrite Z.div_small by lia. lia. }
  rewrite Hq.
  assert (Hv0 : cond_Zopp s v <> 0) by nia.
  rewrite decide_False by done.
  assert (Hvv : cond_Zopp s (cond_Zopp s v) = v) by (destruct s; simpl; lia).
  rewrite Hvv.
  destruct (normalize_small v s Hv) as (V & N & E).
  split; [done|]. split; [|done].
  apply double_finite; [done|]. rewrite E.
  assert (2 ^ 53 * 2 ^ 1074 <= 2 ^ 2098).
  { rewrite <- pow2_split by lia. apply pow2_le. lia. }
  assert (Z.abs v * 2 ^ 1074 < 2 ^ 53 * 2 ^ 1074).
  { apply Z.mul_lt_mono_pos_r; lia. }
  rewrite Z.abs_mul, (Z.abs_eq (2 ^ 1074)) by lia. lia.
Qed.

Lemma of_int_finite (v : Z) :
  Z.abs v < 2 ^ 53 -> is_finite (Double.of_int v) = true.
Proof.
  intros Hv. destruct (of_int_props v) as (V & N & _).
  assert (HU : 0 < 2 ^ 1074) by (apply pow2_pos; lia).
  apply double_finite; [done|]. rewrite dext_of_int_small by done.
  assert (2 ^ 53 * 2 ^ 1074 <= 2 ^ 2098).
  { rewrite <- pow2_split by lia. apply pow2_le. lia. }
  assert (Z.abs v * 2 ^ 1074 < 2 ^ 53 * 2 ^ 1074).
  { apply Z.mul_lt_mono_pos_r; lia. }
  rewrite Z.abs_mul, (Z.abs_eq (2 ^ 1074)) by lia. lia.
Qed.

Lemma round_of_int (v : Z) :
  INT_MIN <= v <= INT_MAX ->
  to_int (std_round (Double.of_int v)) = Some v.
Proof.
  intros Hv.
  assert (Hs : Z.abs v < 2 ^ 53).
  { unfold INT_MIN, INT_MAX in Hv. change (2 ^ 53) with 9007199254740992. lia. }
  destruct (of_int_props v) as (V & N & _).
  destruct (std_round_integer (Double.of_int v) v V (of_int_finite v Hs) Hs
              (dext_of_int_small v Hs)) as (V' & F' & E').
  unfold to_int. rewrite (trunc_integer _ v V' F' E'). cbn [mbind option_bind].
  unfold int_result. by rewrite decide_True.
Qed.

Lemma max_of_int (v : Z) :
  kMinWindowWidth <= v <= INT_MAX ->
  Double.max (Double.of_int kMinWindowWidth) (Double.of_int v) = Double.of_int v.
Proof.
  intros Hv. unfold kMinWindowWidth in *. unfold Double.max.
  destruct (decide (v = 1)) as [->|Hne]; [by vm_compute|].
  assert (Hs : Z.abs v < 2 ^ 53).
  { unfold INT_MAX in Hv. change (2 ^ 53) with 9007199254740992. lia. }
  destruct (of_int_props v) as (V & N & _).
  destruct (of_int_props 1) as (V1 & N1 & _).
  rewrite double_ltb by done.
  rewrite !dext_of_int_small by done.
  assert (HU : 0 < 2 ^ 1074) by (apply pow2_pos; lia).
  by rewrite bool_decide_true by lia.
Qed.

(** X28.  The sliders show what they set: after the center slider has
    been moved to [c] and the width slider to [w], both inside the slider
    ranges and [w] at least the minimum window width,
    [syncWindowLevelControls] puts the sliders at [c] and [w] again. *)
Theorem slider_round_trip (img : CDicomImage) (ranges : SliderRanges)
    (c w : Z) :
  INT_MIN <= c <= INT_MAX -> INT_MIN <= w <= INT_MAX ->
  m_windowCenterMin ranges <= c <= m_windowCenterMax ranges ->
  m_windowWidthMin ranges <= w <= m_windowWidthMax ranges ->
  kMinWindowWidth <= w ->
  exists img1 img2,
    centerSliderValueChanged (Some img) c = Some img1 /\
    widthSliderValueChanged (Some img1) w = Some img2 /\
    syncWindowLevelControls img2 ranges = Some (c, w).
Proof.
  intros Hc Hw Rc Rw Hmin.
  eexists _, _. split; [reflexivity|]. split; [reflexivity|].
  unfold syncWindowLevelControls. cbn [windowLevel setWindowLevel m_windowLevel
    center width].
  rewrite max_of_int by lia.
  rewrite !round_of_int by done. cbn [mbind option_bind].
  unfold int_clamp.
  rewrite (decide_False (P := m_windowCenterMax ranges < m_windowCenterMin ranges))
    by lia.
  rewrite (decide_False (P := c < m_windowCenterMin ranges)) by lia.
  rewrite (decide_False (P := m_windowCenterMax ranges < c)) by lia.
  cbn [mbind option_bind].
  rewrite (decide_False (P := m_windowWidthMax ranges < m_windowWidthMin ranges))
    by lia.
  rewrite (decide_False (P := w < m_windowWidthMin ranges)) by lia.
  rewrite (decide_False (P := m_windowWidthMax ranges < w)) by lia.
  done.
Qed.

Lemma slider_round_trip_witness :
  exists img1 img2,
    centerSliderValueChanged (Some mono2_s16_2x2) (-100) = Some img1 /\
    widthSliderValueChanged (Some img1) 400 = Some img2 /\
    syncWindowLevelControls img2 (mkRanges (-32768) 32767 1 65536)
    = Some (-100, 400).
Proof.
  apply (slider_round_trip mono2_s16_2x2 (mkRanges (-32768) 32767 1 65536)
           (-100) 400); vm_compute; try split; discriminate.
Defined.

(** * The sliders and the conversion *)

Lemma slider_window_in_range (c w : Z) :
  INT_MIN <= c <= INT_MAX -> INT_MIN <= w <= INT_MAX ->
  window_in_range
    (mkWindowLevel (Double.of_int c)
       (Double.max (Double.of_int kMinWindowWidth) (Double.of_int w))) = true.
Proof.
  unfold INT_MIN, INT_MAX. intros Hc Hw.
  assert (Hcs : Z.abs c < 2 ^ 53)
    by (change (2 ^ 53) with 9007199254740992; lia).
  assert (Hws : Z.abs w < 2 ^ 53)
    by (change (2 ^ 53) with 9007199254740992; lia).
  destruct (of_int_props c) as (Vc & Nc & _).
  destruct (of_int_props w) as (Vw & Nw & _).
  destruct (of_int_props 1) as (V1 & N1 & _).
  destruct (of_int_props (2 ^ 40)) as (Vb & Nb & _).
  destruct (of_int_props (- 2 ^ 40)) as (Va & Na & _).
  assert (HU : 0 < 2 ^ 1074) by (apply pow2_pos; lia).
  assert (Hcenter :
    Double.leb (Double.of_int (- 2 ^ 40)) (Double.of_int c) = true /\
    Double.leb (Double.of_int c) (Double.of_int (2 ^ 40)) = true).
  { rewrite !double_leb, !dext_of_int_small by done.
    change (- 2 ^ 40) with (-1099511627776).
    change (2 ^ 40) with 1099511627776.
    rewrite !bool_decide_true by nia. done. }
  destruct Hcenter as [Hc1 Hc2].
  unfold window_in_range. cbn [center width].
  rewrite Vc, Hc1, Hc2, max_lower_bound. cbn [andb].
  unfold Double.max, kMinWindowWidth.
  destruct (Double.ltb (Double.of_int 1) (Double.of_int w)) eqn:Cmp.
  - rewrite Vw. rewrite double_leb, !dext_of_int_small by done.
    change (2 ^ 40) with 1099511627776.
    by rewrite bool_decide_true by nia.
  - by vm_compute.
Qed.

Lemma max_of_int_any (w : Z) :
  INT_MIN <= w <= INT_MAX ->
  Double.max (Double.of_int kMinWindowWidth) (Double.of_int w)
  = Double.of_int (Z.max kMinWindowWidth w).
Proof.
  intros Hw. unfold kMinWindowWidth in *.
  destruct (decide (1 <= w)) as [Hge|Hlt].
  - rewrite Z.max_r by lia. apply max_of_int. unfold kMinWindowWidth. lia.
  - rewrite Z.max_l by lia. unfold Double.max.
    assert (Hs : Z.abs w < 2 ^ 53).
    { unfold INT_MIN, INT_MAX in Hw. change (2 ^ 53) with 9007199254740992.
      lia. }
    destruct (of_int_props w) as (V & N & _).
    destruct (of_int_props 1) as (V1 & N1 & _).
    rewrite double_ltb by done.
    rewrite !dext_of_int_small by done.
    assert (HU : 0 < 2 ^ 1074) by (apply pow2_pos; lia).
    by rewrite bool_decide_false by nia.
Qed.

Lemma int_clamp_ordered (v lo hi : Z) :
  lo <= hi -> int_clamp v lo hi = Some (Z.max lo (Z.min v hi)).
Proof.
  intros Hle. unfold int_clamp. rewrite decide_False by lia.
  f_equal. repeat case_decide; lia.
Qed.

(** What a defined [syncWindowLevelControls] says of the window. *)
Lemma syncWindowLevelControls_inv (img : CDicomImage) (ranges : SliderRanges)
    (pc pw : Z) :
  syncWindowLevelControls img ranges = Some (pc, pw) ->
  exists rc rw,
    to_int (std_round (center (windowLevel img))) = Some rc /\
    int_clamp rc (m_windowCenterMin ranges) (m_windowCenterMax ranges) = Some pc /\
    to_int (std_round (width (windowLevel img))) = Some rw /\
    int_clamp rw (m_windowWidthMin ranges) (m_windowWidthMax ranges) = Some pw.
Proof.
  unfold syncWindowLevelControls. intros Hs.
  destruct (to_int (std_round (center (windowLevel img)))) as [rc|] eqn:Hrc;
    [|done]; cbn [mbind option_bind] in Hs.
  destruct (int_clamp rc _ _) as [pc'|] eqn:Hpc; [|done];
    cbn [mbind option_bind] in Hs.
  destruct (to_int (std_round (width (windowLevel img)))) as [rw|] eqn:Hrw;
    [|done]; cbn [mbind option_bind] in Hs.
  destruct (int_clamp rw _ _) as [pw'|] eqn:Hpw; [|done];
    cbn [mbind option_bind] in Hs.
  injection Hs as <- <-. by exists rc, rw.
Qed.

Lemma int_clamp_Some_ordered (v lo hi p : Z) :
  int_clamp v lo hi = Some p -> lo <= hi.
Proof. unfold int_clamp. case_decide; [done|lia]. Qed.

(** [setWindowLevel] runs to its end when the window is of moderate size
    and its two fields, rounded, fit in [int]. *)
Lemma setWindowLevel_effects_defined (conv : CImageConverter) (cpu : bool)
    (ranges : SliderRanges) (img : CDicomImage) (wl : SWindowLevel)
    (rc rw pc pw : Z) :
  wf_image img ->
  int_dimensions (dimensions img) ->
  dim_width (dimensions img) * dim_height (dimensions img) * 3 < 2 ^ 64 ->
  window_in_range wl = true ->
  to_int (std_round (center wl)) = Some rc ->
  int_clamp rc (m_windowCenterMin ranges) (m_windowCenterMax ranges) = Some pc ->
  to_int (std_round (width wl)) = Some rw ->
  int_clamp rw (m_windowWidthMin ranges) (m_windowWidthMax ranges) = Some pw ->
  exists q,
    toQImage_current conv (setWindowLevel img wl) = Some q /\
    setWindowLevel_effects conv cpu ranges img wl
    = Some (setWindowLevel img wl, (pc, pw), if cpu then Some q else None).
Proof.
  intros Hwf Hint Hsize Hwl Hrc Hpc Hrw Hpw.
  set (img' := setWindowLevel img wl).
  destruct (toQImage_is_Some conv img' (windowLevel img'))
    as [q Hq]; [exact Hwf | exact Hint | exact Hsize | exact Hwl |].
  exists q. split; [exact Hq|].
  unfold setWindowLevel_effects. fold img'.
  unfold syncWindowLevelControls.
  change (windowLevel img') with wl.
  rewrite Hrc. cbn [mbind option_bind]. rewrite Hpc. cbn [mbind option_bind].
  rewrite Hrw. cbn [mbind option_bind]. rewrite Hpw. cbn [mbind option_bind].
  destruct cpu; [|done].
  destruct (isValid img') eqn:Hvalid; cbn [negb].
  - change (windowLevel img') with wl in *. by rewrite Hq.
  - unfold toQImage in Hq. rewrite Hvalid in Hq. cbn [negb] in Hq.
    by injection Hq as <-.
Qed.

(** X29.  The two slider slots run to their end without undefined
    behaviour, from every state the viewer can be in after a defined
    [syncWindowLevelControls]: on a well-formed image whose sides fit in
    [int], whose window is of moderate size and has let
    [syncWindowLevelControls] compute the positions [(pc, pw)], a move of
    either slider to any [int] position stores a window of moderate size
    again, gives the moved slider its position clamped into its range and
    leaves the other slider where it was, and, on the CPU path, converts
    the image to the display image, which is defined. *)
Theorem slider_window_converts (conv : CImageConverter) (cpu : bool)
    (ranges : SliderRanges) (img : CDicomImage) (pc pw c w : Z) :
  wf_image img ->
  int_dimensions (dimensions img) ->
  dim_width (dimensions img) * dim_height (dimensions img) * 3 < 2 ^ 64 ->
  window_in_range (windowLevel img) = true ->
  syncWindowLevelControls img ranges = Some (pc, pw) ->
  INT_MIN <= c <= INT_MAX -> INT_MIN <= w <= INT_MAX ->
  let centerMoved :=
    mkWindowLevel (Double.of_int c) (width (windowLevel img)) in
  let widthMoved :=
    mkWindowLevel (center (windowLevel img))
      (Double.of_int (Z.max kMinWindowWidth w)) in
  window_in_range centerMoved = true /\
  window_in_range widthMoved = true /\
  (exists q,
     toQImage_current conv (setWindowLevel img centerMoved) = Some q /\
     centerSliderMoved conv cpu ranges img c
     = Some (setWindowLevel img centerMoved,
             (Z.max (m_windowCenterMin ranges)
                (Z.min c (m_windowCenterMax ranges)), pw),
             if cpu then Some q else None)) /\
  (exists q,
     toQImage_current conv (setWindowLevel img widthMoved) = Some q /\
     widthSliderMoved conv cpu ranges img w
     = Some (setWindowLevel img widthMoved,
             (pc, Z.max (m_windowWidthMin ranges)
                    (Z.min (Z.max kMinWindowWidth w) (m_windowWidthMax ranges))),
             if cpu then Some q else None)).
Proof.
  intros Hwf Hint Hsize Hwl Hsync Hc Hw centerMoved widthMoved.
  destruct (syncWindowLevelControls_inv _ _ _ _ Hsync)
    as (rc & rw & Hrc & Hpc & Hrw & Hpw).
  pose proof (int_clamp_Some_ordered _ _ _ _ Hpc) as Rc.
  pose proof (int_clamp_Some_ordered _ _ _ _ Hpw) as Rw.
  pose proof (slider_window_in_range c w Hc Hw) as Hs.
  rewrite max_of_int_any in Hs by done.
  assert (Hcm : window_in_range centerMoved = true).
  { unfold window_in_range in *. cbn [center width] in *.
    rewrite !andb_true_iff in *. tauto. }
  assert (Hwm : window_in_range widthMoved = true).
  { unfold window_in_range in *. cbn [center width] in *.
    rewrite !andb_true_iff in *. tauto. }
  assert (Hint' : INT_MIN <= Z.max kMinWindowWidth w <= INT_MAX)
    by (unfold kMinWindowWidth, INT_MIN, INT_MAX in *; lia).
  split; [exact Hcm|]. split; [exact Hwm|]. split.
  - unfold centerSliderMoved. fold centerMoved.
    apply (setWindowLevel_effects_defined conv cpu ranges img centerMoved
             c rw); try done.
    + by apply round_of_int.
    + by apply int_clamp_ordered.
  - unfold widthSliderMoved. rewrite max_of_int_any by done. fold widthMoved.
    apply (setWindowLevel_effects_defined conv cpu ranges img widthMoved
             rc (Z.max kMinWindowWidth w)); try done.
    + by apply round_of_int.
    + by apply int_clamp_ordered.
Qed.

(** Witness of X29: the width slider moved to [0] on a 2 x 2 image with
    the window (128, 256); the width stored is [1]. *)
Lemma slider_window_converts_witness :
  syncWindowLevelControls mono2_s16_2x2 (mkRanges (-32768) 32767 1 65536)
  = Some (128, 256) /\
  exists q,
    toQImage_current (mkConverter invertedPalette)
      (setWindowLevel mono2_s16_2x2
         (mkWindowLevel (Double.of_int 128) (Double.of_int 1))) = Some q /\
    widthSliderMoved (mkConverter invertedPalette) true
      (mkRanges (-32768) 32767 1 65536) mono2_s16_2x2 0
    = Some (setWindowLevel mono2_s16_2x2
              (mkWindowLevel (Double.of_int 128) (Double.of_int 1)),
            (128, 1), Some q).
Proof.
  assert (Hsync : syncWindowLevelControls mono2_s16_2x2
                    (mkRanges (-32768) 32767 1 65536) = Some (128, 256))
    by (by vm_compute).
  split; [exact Hsync|].
  assert (Hwf : wf_image mono2_s16_2x2).
  { split; [|split; vm_compute; split; discriminate].
    repeat constructor; discriminate. }
  destruct (slider_window_converts (mkConverter invertedPalette) true
              (mkRanges (-32768) 32767 1 65536) mono2_s16_2x2
              128 256 (-200) 0 Hwf
              ltac:(split; vm_compute; discriminate)
              ltac:(reflexivity)
              ltac:(vm_compute; reflexivity)
              Hsync
              ltac:(vm_compute; split; discriminate)
              ltac:(vm_compute; split; discriminate))
    as (_ & _ & _ & Hwidth).
  exact Hwidth.
Defined.
